(** * Route-solving engine of the NYC delivery route optimizer

    A shallow embedding of [src/algorithms/tsp.ts]: the geometry
    primitives, the Held-Karp dynamic program, the nearest-neighbour
    heuristic, 2-opt local search, the Christofides pipeline (Prim,
    greedy matching, Hierholzer, shortcutting), grid A* and the
    dispatcher, followed by the properties the specification states
    about them.

    Conventions of the embedding.
    - A JavaScript [number] that holds a coordinate, a distance or a
      clock reading is a real number ([R]): arithmetic is exact, there
      is no rounding and no NaN.  Where the source uses the sentinel
      [Infinity] the variable has type [number], the reals extended
      with [Infinity].
    - An index variable initialised to [-1] ("none yet") has type
      [option nat] and [-1] is [None].
    - Bit masks are 32-bit signed integers, written as [Z] with the
      wrap-around of [<<] spelled out.
    - [performance.now()] reads a clock; a computation is a function of
      the number of readings made so far ([M]).  A computation can also
      end in an error: [Diverges] when a [while] loop would spin for
      ever and [Undefined] when the source would put [undefined] where
      a [Point] is expected, [Throws] when it would raise a
      [TypeError].  The A* search loop is run for a given number of
      iterations ([fuel]) and ends in [OutOfFuel] when they do not
      suffice. *)

From Stdlib Require Import String.
From Stdlib Require Import Reals Lra Lia ZArith List Bool Arith.
From Stdlib Require Import Permutation ListSet.
Import ListNotations.

Local Open Scope R_scope.

(** ** Numbers *)

Inductive number : Type :=
| Fin (r : R)
| Infinity.

Definition Rltb (a b : R) : bool := if Rlt_dec a b then true else false.

Definition Reqb (a b : R) : bool := if Req_dec_T a b then true else false.

(** [a < b] on numbers. *)
Definition nltb (a b : number) : bool :=
  match a, b with
  | Fin x, Fin y => Rltb x y
  | Fin _, Infinity => true
  | Infinity, _ => false
  end.

(** [a + b] on numbers. *)
Definition nadd (a b : number) : number :=
  match a, b with
  | Fin x, Fin y => Fin (x + y)
  | _, _ => Infinity
  end.

(** [0 <= a] on numbers. *)
Definition nonneg (a : number) : Prop :=
  match a with
  | Fin x => 0 <= x
  | Infinity => True
  end.

(** [a <= b] on numbers. *)
Definition nle (a b : number) : Prop :=
  match a, b with
  | Fin x, Fin y => x <= y
  | _, Infinity => True
  | Infinity, Fin _ => False
  end.

(** ** Data model *)

(** A point id is a string; A* names the grid nodes it creates after
    their coordinates. *)
Inductive ident : Type :=
| Id (s : string)
| CoordId (x y : R).

Record Point : Type := mkPoint {
  id : ident;
  x : R;
  y : R;
  name : string
}.

Record RouteResult : Type := mkRouteResult {
  path : list Point;
  distance_ : number;
  timeMs : R;
  algorithm : string
}.

(** ** Geometry primitives *)

Definition distance (p1 p2 : Point) : R :=
  sqrt ((x p1 - x p2) ^ 2 + (y p1 - y p2) ^ 2).

(** The loop of [calculateRouteDistance] from index [i] on, with the
    running [total]. *)
Fixpoint routeLoop (total : R) (path : list Point) : R :=
  match path with
  | p :: (q :: _) as rest => routeLoop (total + distance p q) rest
  | _ => total
  end.

Definition calculateRouteDistance (path : list Point) : R :=
  routeLoop 0 path.

(** ** Arrays *)

(** [a[i]] for an index the source keeps in range; the default is
    never read where the index is in range. *)
Definition origin : Point := mkPoint (Id "") 0 0 "".

Definition pt (points : list Point) (i : nat) : Point := nth i points origin.

(** [a[i] = v] for [i < a.length]. *)
Fixpoint upd {A : Type} (i : nat) (v : A) (l : list A) : list A :=
  match l, i with
  | [], _ => []
  | _ :: t, O => v :: t
  | h :: t, S i' => h :: upd i' v t
  end.

(** [Set<number>] in insertion order. *)
Definition has (i : nat) (s : list nat) : bool := set_mem Nat.eq_dec i s.
Definition add (i : nat) (s : list nat) : list nat :=
  if has i s then s else s ++ [i].
Definition delete (i : nat) (s : list nat) : list nat :=
  set_remove Nat.eq_dec i s.

(** ** Computations that read the clock *)

Inductive error : Type := Diverges | Undefined | Throws | OutOfFuel.

Inductive outcome (A : Type) : Type :=
| Ok (a : A) (t : nat)
| Err (e : error).
Arguments Ok {A} a t.
Arguments Err {A} e.

Definition M (A : Type) : Type := nat -> outcome A.

Definition ret {A : Type} (a : A) : M A := fun t => Ok a t.

Definition bind {A B : Type} (m : M A) (k : A -> M B) : M B :=
  fun t => match m t with
           | Ok a t' => k a t'
           | Err e => Err e
           end.

Definition fail {A : Type} (e : error) : M A := fun _ => Err e.

(** A computation that does not read the clock. *)
Definition lift {A : Type} (r : error + A) : M A :=
  match r with
  | inl e => fail e
  | inr a => ret a
  end.

Notation "x <- m ;; k" := (bind m (fun x => k))
  (at level 61, m at next level, right associativity).

(** ** A* search nodes *)

#[warnings="-register-all"]
Inductive AStarNode : Type :=
| mkNode (point : Point) (g h f : R) (parent : option AStarNode).

Module Node.
Definition point (n : AStarNode) : Point :=
  match n with mkNode p _ _ _ _ => p end.
Definition g (n : AStarNode) : R :=
  match n with mkNode _ g _ _ _ => g end.
Definition h (n : AStarNode) : R :=
  match n with mkNode _ _ h _ _ => h end.
Definition f (n : AStarNode) : R :=
  match n with mkNode _ _ _ f _ => f end.
Definition parent (n : AStarNode) : option AStarNode :=
  match n with mkNode _ _ _ _ p => p end.
End Node.

Inductive AlgorithmType : Type :=
| ExactDp | NearestNeighbor | TwoOpt | Christofides | Astar.

Definition algoEqb (a b : AlgorithmType) : bool :=
  match a, b with
  | ExactDp, ExactDp | NearestNeighbor, NearestNeighbor | TwoOpt, TwoOpt
  | Christofides, Christofides | Astar, Astar => true
  | _, _ => false
  end.

Section Engine.

(** [clk k] is what the [k]-th call of [performance.now()] returns. *)
Variable clk : nat -> R.

Definition now : M R := fun t => Ok (clk t) (S t).

(** ** Exact dynamic programming (Held-Karp) *)

(** 32-bit integers: [ToInt32] and the bit operators of the source. *)
Definition int32 (z : Z) : Z := ((z + 2 ^ 31) mod 2 ^ 32 - 2 ^ 31)%Z.

Definition shl (a : Z) (b : nat) : Z :=
  int32 (Z.shiftl (int32 a) (Z.of_nat b mod 32)).
Definition sar (a : Z) (b : nat) : Z :=
  Z.shiftr (int32 a) (Z.of_nat b mod 32).
Definition band (a b : Z) : Z := Z.land (int32 a) (int32 b).
Definition bor (a b : Z) : Z := Z.lor (int32 a) (int32 b).
Definition bxor (a b : Z) : Z := Z.lxor (int32 a) (int32 b).

(** [__builtin_popcount]: the loop [while (n) { count += n & 1; n >>= 1 }].
    It is called on [0 <= n < 2^31] only, where 31 iterations bring [n]
    to 0; [k] bounds the iterations. *)
Fixpoint popLoop (k : nat) (n count : Z) : Z :=
  match k with
  | O => count
  | S k' =>
    if (n =? 0)%Z then count
    else popLoop k' (sar n 1) (count + band n 1)%Z
  end.

Definition __builtin_popcount (n : Z) : Z := popLoop 32 n 0.

(** The tables [dp] and [parent], keyed by [`${mask},${i}`]. *)
Definition key : Type := (Z * nat)%type.

Definition keyEqb (a b : key) : bool :=
  (fst a =? fst b)%Z && Nat.eqb (snd a) (snd b).

Definition table (V : Type) : Type := key -> option V.

Definition tget {V : Type} (m : table V) (k : key) : option V := m k.

Definition tset {V : Type} (m : table V) (k : key) (v : V) : table V :=
  fun k' => if keyEqb k' k then Some v else m k'.

Definition tables : Type := (table R * table (option nat))%type.

(** Initialisation: from node 0 to each other node. *)
Definition dpInitStep (points : list Point) (st : tables) (i : nat)
  : tables :=
  let '(dp, parent) := st in
  let mask := bor 1 (shl 1 i) in
  (tset dp (mask, i) (distance (pt points 0) (pt points i)),
   tset parent (mask, i) (Some 0%nat)).

Definition dpInit (points : list Point) : tables :=
  fold_left (dpInitStep points) (seq 1 (length points - 1))
            (fun _ => None, fun _ => None).

(** The innermost loop: the best predecessor of [end_] in [prevMask]. *)
Definition dpBestStep (points : list Point) (dp : table R) (prevMask : Z)
  (end_ : nat) (st : number * option nat) (prev : nat)
  : number * option nat :=
  let '(minDist, bestPrev) := st in
  if (band prevMask (shl 1 prev) =? 0)%Z then (minDist, bestPrev)
  else
    match tget dp (prevMask, prev) with
    | Some prevDist =>
      let newDist := prevDist + distance (pt points prev) (pt points end_) in
      if nltb (Fin newDist) minDist then (Fin newDist, Some prev)
      else (minDist, bestPrev)
    | None => (minDist, bestPrev)
    end.

Definition dpBest (points : list Point) (dp : table R) (prevMask : Z)
  (end_ : nat) : number * option nat :=
  fold_left (dpBestStep points dp prevMask end_)
            (seq 1 (length points - 1)) (Infinity, None).

(** The loop over [end] for one [mask]. *)
Definition dpEndsStep (points : list Point) (mask : Z) (st : tables)
  (end_ : nat) : tables :=
  let '(dp, parent) := st in
  if (band mask (shl 1 end_) =? 0)%Z then st
  else
    let prevMask := bxor mask (shl 1 end_) in
    match dpBest points dp prevMask end_ with
    | (Fin minDist, bestPrev) =>
      (tset dp (mask, end_) minDist, tset parent (mask, end_) bestPrev)
    | (Infinity, _) => st
    end.

Definition dpEnds (points : list Point) (mask : Z) (st : tables) : tables :=
  fold_left (dpEndsStep points mask) (seq 1 (length points - 1)) st.

(** The loop over [mask] for one [subsetSize]. *)
Definition dpMasksStep (points : list Point) (subsetSize : nat)
  (st : tables) (mask : Z) : tables :=
  if negb (__builtin_popcount mask =? Z.of_nat subsetSize)%Z
     || (band mask 1 =? 0)%Z
  then st
  else dpEnds points mask st.

Definition dpMasks (points : list Point) (subsetSize : nat) (st : tables)
  : tables :=
  fold_left (dpMasksStep points subsetSize)
            (map Z.of_nat (seq 0 (Z.to_nat (shl 1 (length points))))) st.

(** Subsets of increasing size. *)
Definition dpFill (points : list Point) (st : tables) : tables :=
  fold_left (fun st subsetSize => dpMasks points subsetSize st)
            (seq 3 (length points - 2)) st.

(** The optimal tour ending back at node 0. *)
Definition dpCloseStep (points : list Point) (dp : table R) (fullMask : Z)
  (st : number * option nat) (i : nat) : number * option nat :=
  let '(minTour, lastNode) := st in
  match tget dp (fullMask, i) with
  | Some dist =>
    let tourDist := dist + distance (pt points i) (pt points 0) in
    if nltb (Fin tourDist) minTour then (Fin tourDist, Some i)
    else (minTour, lastNode)
  | None => (minTour, lastNode)
  end.

Definition dpClose (points : list Point) (dp : table R) (fullMask : Z)
  : number * option nat :=
  fold_left (dpCloseStep points dp fullMask)
            (seq 1 (length points - 1)) (Infinity, None).

(** Path reconstruction: [while (curr !== 0)] with its [break].  Each
    iteration moves to an entry written for a smaller subset, so [k],
    the number of points, bounds the iterations. *)
Fixpoint reconstruct (k : nat) (points : list Point)
  (parent : table (option nat)) (mask : Z) (curr : option nat)
  (path : list Point) : error + list Point :=
  match curr with
  | Some O => inr path
  | None => inl Undefined
  | Some c =>
    match k with
    | O => inl Diverges
    | S k' =>
      match nth_error points c with
      | None => inl Undefined
      | Some p =>
        let path := path ++ [p] in
        match tget parent (mask, c) with
        | None => inr path
        | Some prev =>
          reconstruct k' points parent (bxor mask (shl 1 c)) prev path
        end
      end
    end
  end.

Definition solveTSPExactDP (points : list Point) : M RouteResult :=
  startTime <- now ;;
  let n := length points in
  if n <=? 1 then
    ret (mkRouteResult points (Fin 0) 0 "Exact DP (Held-Karp)")
  else
    let '(dp, parent) := dpFill points (dpInit points) in
    let fullMask := (shl 1 n - 1)%Z in
    let '(minTour, lastNode) := dpClose points dp fullMask in
    path <- lift (reconstruct n points parent fullMask lastNode [pt points 0]) ;;
    let path := rev (path ++ [pt points 0]) in
    endTime <- now ;;
    ret (mkRouteResult path minTour (endTime - startTime)
           "Exact DP (Held-Karp)").

(** ** Nearest neighbour *)

(** The [for] loop that scans for the nearest unvisited point: its
    body at [i], and the loop. *)
Definition nnScanStep (points : list Point) (visited : list nat)
  (current : nat) (st : option nat * number) (i : nat)
  : option nat * number :=
  let '(nearest, minDist) := st in
  if negb (has i visited) then
    let dist := distance (pt points current) (pt points i) in
    if nltb (Fin dist) minDist then (Some i, Fin dist)
    else (nearest, minDist)
  else (nearest, minDist).

Definition nnScan (points : list Point) (visited : list nat) (current : nat)
  : option nat * number :=
  fold_left (nnScanStep points visited current)
            (seq 0 (length points)) (None, Infinity).

(** The [while (visited.size < n)] loop.  An iteration that finds no
    nearest point changes nothing, so the loop would spin: [k] bounds
    the iterations and [None] stands for that case. *)
Fixpoint nnLoop (k : nat) (points : list Point) (visited : list nat)
  (path : list Point) (totalDistance : number) (current : nat)
  : option (list Point * number * nat) :=
  if length visited <? length points then
    match k with
    | O => None
    | S k' =>
      match nnScan points visited current with
      | (Some nearest, minDist) =>
        nnLoop k' points (add nearest visited) (path ++ [pt points nearest])
               (nadd totalDistance minDist) nearest
      | (None, _) => nnLoop k' points visited path totalDistance current
      end
    end
  else Some (path, totalDistance, current).

Definition solveTSPNearestNeighbor (points : list Point) : M RouteResult :=
  startTime <- now ;;
  let n := length points in
  if n <=? 1 then
    ret (mkRouteResult points (Fin 0) 0 "Nearest Neighbor")
  else
    match nnLoop n points [0%nat] [pt points 0] (Fin 0) 0%nat with
    | None => fail Diverges
    | Some (path, totalDistance, current) =>
      let totalDistance :=
        nadd totalDistance (Fin (distance (pt points current) (pt points 0))) in
      let path := path ++ [pt points 0] in
      endTime <- now ;;
      ret (mkRouteResult path totalDistance (endTime - startTime)
             "Nearest Neighbor (Greedy)")
    end.

(** ** 2-opt local search *)

(** [[path[left], path[right]] = [path[right], path[left]]]. *)
Definition swap (path : list Point) (left right : nat) : list Point :=
  upd right (pt path left) (upd left (pt path right) path).

(** The [while (left < right)] loop that reverses a segment in place;
    [k] bounds the iterations, [right - left] shrinks at each one. *)
Fixpoint reverseSegment (k : nat) (path : list Point) (left right : nat)
  : list Point :=
  match k with
  | O => path
  | S k' =>
    if left <? right
    then reverseSegment k' (swap path left right) (S left) (right - 1)
    else path
  end.

(** The body of the two nested [for] loops at [(i, j)]. *)
Definition twoOptStep (i j : nat) (st : list Point * bool)
  : list Point * bool :=
  let '(path, improved) := st in
  let a := pt path i in
  let b := pt path (i + 1) in
  let c := pt path j in
  let d := if j + 1 <? length path then pt path (j + 1) else pt path 0 in
  let currentDist := distance a b + distance c d in
  let newDist := distance a c + distance b d in
  if Rltb newDist (currentDist - 1 / 10000)
  then (reverseSegment (length path) path (i + 1) j, true)
  else (path, improved).

(** One pass: [for i in [0, len-1)], [for j in [i+2, len)]; the
    swaps keep the length of [path], here [len]. *)
Definition twoOptRow (len : nat) (st : list Point * bool) (i : nat)
  : list Point * bool :=
  fold_left (fun st j => twoOptStep i j st) (seq (i + 2) (len - (i + 2))) st.

Definition twoOptPass (path : list Point) : list Point * bool :=
  fold_left (twoOptRow (length path)) (seq 0 (length path - 1)) (path, false).

Definition maxIterations : nat := 1000.

(** The [while (improved && iterations < maxIterations)] loop, entered
    with [improved = true]; [k] is [maxIterations - iterations]. *)
Fixpoint twoOptLoop (k : nat) (path : list Point) : list Point :=
  match k with
  | O => path
  | S k' =>
    let '(path', improved) := twoOptPass path in
    if improved then twoOptLoop k' path' else path'
  end.

Definition solveTSP2Opt (points : list Point) : M RouteResult :=
  startTime <- now ;;
  if length points <=? 2 then
    ret (mkRouteResult points (Fin (calculateRouteDistance points)) 0 "2-Opt")
  else
    nnResult <- solveTSPNearestNeighbor points ;;
    let path := removelast (path nnResult) in
    let path := twoOptLoop maxIterations path in
    let path := path ++ [pt path 0] in
    endTime <- now ;;
    ret (mkRouteResult path (Fin (calculateRouteDistance path))
           (endTime - startTime) "2-Opt Local Search").

(** ** Christofides *)

Definition edge : Type := (nat * nat)%type.

(** Prim: the scan for the vertex of minimum key outside the tree. *)
Definition primPickStep (inMST : list bool) (key : list number)
  (st : option nat * number) (i : nat) : option nat * number :=
  let '(u, minKey) := st in
  if negb (nth i inMST false) && nltb (nth i key Infinity) minKey
  then (Some i, nth i key Infinity)
  else (u, minKey).

Definition primPick (n : nat) (inMST : list bool) (key : list number)
  : option nat * number :=
  fold_left (primPickStep inMST key) (seq 0 n) (None, Infinity).

(** Prim: the update of the keys once [u] has joined the tree. *)
Definition primRelaxStep (points : list Point) (u : nat) (inMST : list bool)
  (st : list number * list (option nat)) (v : nat)
  : list number * list (option nat) :=
  let '(key, parent) := st in
  if negb (nth v inMST false) then
    let dist := distance (pt points u) (pt points v) in
    if nltb (Fin dist) (nth v key Infinity)
    then (upd v (Fin dist) key, upd v (Some u) parent)
    else (key, parent)
  else (key, parent).

Definition primRelax (points : list Point) (u : nat) (inMST : list bool)
  (st : list number * list (option nat)) : list number * list (option nat) :=
  fold_left (primRelaxStep points u inMST) (seq 0 (length points)) st.

(** Prim: [for (count = 0; count < n; count++)] with its [break];
    [k] is [n - count]. *)
Fixpoint primLoop (k : nat) (points : list Point) (inMST : list bool)
  (key : list number) (parent : list (option nat)) : list (option nat) :=
  match k with
  | O => parent
  | S k' =>
    match primPick (length points) inMST key with
    | (None, _) => parent
    | (Some u, _) =>
      let inMST := upd u true inMST in
      let '(key, parent) := primRelax points u inMST (key, parent) in
      primLoop k' points inMST key parent
    end
  end.

Definition primMST (points : list Point) : list edge :=
  let n := length points in
  let inMST := repeat false n in
  let key := repeat Infinity n in
  let parent := repeat (@None nat) n in
  let key := upd 0 (Fin 0) key in
  let parent := primLoop n points inMST key parent in
  flat_map
    (fun i => match nth i parent None with
              | Some p => [(p, i)]
              | None => []
              end)
    (seq 1 (n - 1)).

(** Step 2: the degree table and the vertices of odd degree. *)
Definition incr (i : nat) (degrees : list nat) : list nat :=
  upd i (nth i degrees 0 + 1)%nat degrees.

Definition mstDegrees (n : nat) (mst : list edge) : list nat :=
  fold_left (fun degrees (e : edge) => incr (snd e) (incr (fst e) degrees))
            mst (repeat 0%nat n).

Definition oddVerticesOf (n : nat) (degrees : list nat) : list nat :=
  filter (fun i => (nth i degrees 0 mod 2 =? 1)%nat) (seq 0 n).

(** Matching: the double loop that looks for the closest pair. *)
Definition closestPairStep (points : list Point) (availArray : list nat)
  (i : nat) (st : option edge * number) (j : nat) : option edge * number :=
  let '(bestPair, minDist) := st in
  let dist := distance (pt points (nth i availArray 0%nat))
                       (pt points (nth j availArray 0%nat)) in
  if nltb (Fin dist) minDist
  then (Some (nth i availArray 0%nat, nth j availArray 0%nat), Fin dist)
  else (bestPair, minDist).

Definition closestPairRow (points : list Point) (availArray : list nat)
  (st : option edge * number) (i : nat) : option edge * number :=
  let len := length availArray in
  fold_left (closestPairStep points availArray i)
            (seq (i + 1) (len - (i + 1))) st.

Definition closestPair (points : list Point) (availArray : list nat)
  : option edge * number :=
  fold_left (closestPairRow points availArray)
            (seq 0 (length availArray)) (None, Infinity).

(** Matching: the [while (available.size > 1)] loop; an iteration that
    finds no pair changes nothing ([None]: the loop spins). *)
Fixpoint matchLoop (k : nat) (points : list Point) (available : list nat)
  (matching : list edge) : option (list edge) :=
  if 1 <? length available then
    match k with
    | O => None
    | S k' =>
      match closestPair points available with
      | (Some bestPair, _) =>
        matchLoop k' points
                  (delete (snd bestPair) (delete (fst bestPair) available))
                  (matching ++ [bestPair])
      | (None, _) => matchLoop k' points available matching
      end
    end
  else Some matching.

Definition minimumWeightPerfectMatching (points : list Point)
  (vertices : list nat) : error + list edge :=
  let available := fold_left (fun s v => add v s) vertices [] in
  match matchLoop (length vertices) points available [] with
  | Some matching => inr matching
  | None => inl Diverges
  end.

(** Hierholzer: the adjacency map [Map<number, number[]>]. *)
Definition adjacency : Type := nat -> option (list nat).

Definition adjSet (adj : adjacency) (k : nat) (v : list nat) : adjacency :=
  fun k' => if Nat.eqb k' k then Some v else adj k'.

Definition adjPush (adj : adjacency) (k v : nat) : adjacency :=
  match adj k with
  | Some l => adjSet adj k (l ++ [v])
  | None => adj
  end.

Definition adjInit (adj : adjacency) (k : nat) : adjacency :=
  match adj k with
  | None => adjSet adj k []
  | Some _ => adj
  end.

Definition buildAdjStep (adj : adjacency) (e : edge) : adjacency :=
  let '(u, v) := e in
  let adj := adjInit adj u in
  let adj := adjInit adj v in
  let adj := adjPush adj u v in
  adjPush adj v u.

Definition buildAdj (edges : list edge) : adjacency :=
  fold_left buildAdjStep edges (fun _ => None).

(** [a.splice(a.indexOf(x), 1)] when [x] occurs in [a]. *)
Fixpoint spliceFirst (x : nat) (a : list nat) : list nat :=
  match a with
  | [] => []
  | h :: t => if Nat.eqb h x then t else h :: spliceFirst x t
  end.

(** Hierholzer: the [while (stack.length > 0)] loop.  The head of
    [stack] is the top of the stack. *)
Fixpoint eulerLoop (k : nat) (adj : adjacency) (stack tour : list nat)
  : error + list nat :=
  match stack with
  | [] => inr tour
  | curr :: rest =>
    match k with
    | O => inl Diverges
    | S k' =>
      match adj curr with
      | Some (n0 :: ns) =>
        let neighbors := n0 :: ns in
        let next := last neighbors 0%nat in
        let adj := adjSet adj curr (removelast neighbors) in
        match adj next with
        | Some otherNeighbors =>
          let adj := adjSet adj next (spliceFirst curr otherNeighbors) in
          eulerLoop k' adj (next :: stack) tour
        | None => inl Throws
        end
      | _ => eulerLoop k' adj rest (tour ++ [curr])
      end
    end
  end.

Definition findEulerianTour (edges : list edge) (_n : nat)
  : error + list nat :=
  match eulerLoop (4 * length edges + 2) (buildAdj edges) [0%nat] [] with
  | inr tour => inr (rev tour)
  | inl e => inl e
  end.

(** Step 6: keep the first visit of each vertex. *)
Definition shortcutStep (points : list Point) (st : list nat * list Point)
  (node : nat) : list nat * list Point :=
  let '(visited, path) := st in
  if negb (has node visited)
  then (add node visited, path ++ [pt points node])
  else (visited, path).

Definition shortcut (points : list Point) (eulerianTour : list nat)
  : list nat * list Point :=
  fold_left (shortcutStep points) eulerianTour ([], []).

Definition solveTSPChristofides (points : list Point) : M RouteResult :=
  startTime <- now ;;
  let n := length points in
  if n <=? 2 then
    ret (mkRouteResult points (Fin (calculateRouteDistance points)) 0
           "Christofides")
  else
    let mst := primMST points in
    let degrees := mstDegrees n mst in
    let oddVertices := oddVerticesOf n degrees in
    matching <- lift (minimumWeightPerfectMatching points oddVertices) ;;
    let multigraph := mst ++ matching in
    eulerianTour <- lift (findEulerianTour multigraph n) ;;
    let '(_, path) := shortcut points eulerianTour in
    match eulerianTour with
    | [] => fail Undefined
    | first :: _ =>
      let path := path ++ [pt points first] in
      endTime <- now ;;
      ret (mkRouteResult path (Fin (calculateRouteDistance path))
             (endTime - startTime) "Christofides (1.5-approx)")
    end.

(** ** A* pathfinding *)

(** [Math.round]: the nearest integer, halves upwards. *)
Definition round (r : R) : Z := Int_part (r + / 2).

(** [openSet.sort((a, b) => a.f - b.f)]: a stable sort by ascending
    [f]. *)
Fixpoint insertByF (a : AStarNode) (l : list AStarNode) : list AStarNode :=
  match l with
  | [] => [a]
  | b :: t => if Rltb (Node.f b) (Node.f a) then b :: insertByF a t
              else a :: l
  end.

Definition sortByF (l : list AStarNode) : list AStarNode :=
  fold_right insertByF [] l.

Definition coordEqb (a b : R * R) : bool :=
  Reqb (fst a) (fst b) && Reqb (snd a) (snd b).

Definition cellEqb (a b : Z * Z) : bool :=
  (fst a =? fst b)%Z && (snd a =? snd b)%Z.

Definition directions : list (R * R) :=
  [(-1, -1); (-1, 0); (-1, 1); (0, -1); (0, 1); (1, -1); (1, 0); (1, 1)].

(** The loop that generates the neighbours of [current]. *)
Definition expandStep (goal : Point) (obstacleSet : list (Z * Z))
  (gridSize : R) (current : AStarNode) (openSet : list AStarNode)
  (d : R * R) : list AStarNode :=
  let '(dx, dy) := d in
  let newX := x (Node.point current) + dx * 2 in
  let newY := y (Node.point current) + dy * 2 in
  if Rltb newX 0 || Rltb gridSize newX || Rltb newY 0 || Rltb gridSize newY
  then openSet
  else if existsb (cellEqb (round newX, round newY)) obstacleSet
  then openSet
  else
    let neighborPoint := mkPoint (CoordId newX newY) newX newY "" in
    let gScore :=
      Node.g current + distance (Node.point current) neighborPoint in
    let neighbor :=
      mkNode neighborPoint gScore (distance neighborPoint goal)
             (gScore + distance neighborPoint goal) (Some current) in
    openSet ++ [neighbor].

Definition expand (goal : Point) (obstacleSet : list (Z * Z)) (gridSize : R)
  (current : AStarNode) (openSet : list AStarNode) : list AStarNode :=
  fold_left (expandStep goal obstacleSet gridSize current) directions openSet.

Inductive search : Type :=
| Found (current : AStarNode)
| Exhausted
| Unfinished.

(** The [while (openSet.length > 0)] loop, run for at most [k]
    iterations. *)
Fixpoint aStarLoop (k : nat) (goal : Point) (obstacleSet : list (Z * Z))
  (gridSize : R) (openSet : list AStarNode) (closedSet : list (R * R))
  : search :=
  match sortByF openSet with
  | [] => Exhausted
  | current :: openSet =>
    match k with
    | O => Unfinished
    | S k' =>
      let key := (x (Node.point current), y (Node.point current)) in
      if existsb (coordEqb key) closedSet
      then aStarLoop k' goal obstacleSet gridSize openSet closedSet
      else
        let closedSet := closedSet ++ [key] in
        if Rltb (distance (Node.point current) goal) 1 then Found current
        else aStarLoop k' goal obstacleSet gridSize
                       (expand goal obstacleSet gridSize current openSet)
                       closedSet
    end
  end.

(** Path reconstruction along the parent links. *)
Fixpoint nodePath (node : AStarNode) : list Point :=
  match node with
  | mkNode p _ _ _ None => [p]
  | mkNode p _ _ _ (Some n) => nodePath n ++ [p]
  end.

(** The number of iterations the A* loop is run for. *)
Variable fuel : nat.

Definition aStarPathfinding (start goal : Point) (obstacles : list Point)
  (gridSize : R) : M RouteResult :=
  startTime <- now ;;
  let startNode :=
    mkNode start 0 (distance start goal) (distance start goal) None in
  let obstacleSet := map (fun o => (round (x o), round (y o))) obstacles in
  match aStarLoop fuel goal obstacleSet gridSize [startNode] [] with
  | Found current =>
    endTime <- now ;;
    ret (mkRouteResult (nodePath current) (Fin (Node.g current))
           (endTime - startTime) "A* Pathfinding")
  | Exhausted =>
    endTime <- now ;;
    ret (mkRouteResult [start; goal] (Fin (distance start goal))
           (endTime - startTime) "A* Pathfinding (Direct)")
  | Unfinished => fail OutOfFuel
  end.

(** ** Dispatcher *)

(** The [for] loop of the A* branch: one search per consecutive pair. *)
Fixpoint astarLegs (legs : list nat) (points : list Point)
  (st : number * list Point) : M (number * list Point) :=
  match legs with
  | [] => ret st
  | i :: legs' =>
    let '(totalDist, fullPath) := st in
    result <- aStarPathfinding (pt points i) (pt points (i + 1)) [] 100 ;;
    astarLegs legs' points
      (nadd totalDist (distance_ result), fullPath ++ tl (path result))
  end.

Definition solveTSP (points : list Point) (algorithm : AlgorithmType)
  : M RouteResult :=
  match algorithm with
  | ExactDp =>
    if length points <=? 20 then solveTSPExactDP points
    else
      r <- solveTSPNearestNeighbor points ;;
      ret (mkRouteResult (path r) (distance_ r) (timeMs r)
             "Nearest Neighbor (DP limit exceeded)")
  | NearestNeighbor => solveTSPNearestNeighbor points
  | TwoOpt => solveTSP2Opt points
  | Christofides => solveTSPChristofides points
  | Astar =>
    if length points <? 2 then
      ret (mkRouteResult points (Fin 0) 0 "A* Pathfinding")
    else
      startTime <- now ;;
      st <- astarLegs (seq 0 (length points - 1)) points
                      (Fin 0, [pt points 0]) ;;
      let '(totalDist, fullPath) := st in
      returnPath <- aStarPathfinding (last fullPath origin) (pt points 0)
                                     [] 100 ;;
      let totalDist := nadd totalDist (distance_ returnPath) in
      let fullPath := fullPath ++ tl (path returnPath) in
      endTime <- now ;;
      ret (mkRouteResult fullPath totalDist (endTime - startTime)
             "A* Pathfinding (Multi-point)")
  end.

(** [toRun.map(algo => solveTSP(points, algo))]. *)
Fixpoint runAll (points : list Point) (toRun : list AlgorithmType)
  : M (list RouteResult) :=
  match toRun with
  | [] => ret []
  | algo :: rest =>
    r <- solveTSP points algo ;;
    rs <- runAll points rest ;;
    ret (r :: rs)
  end.

Definition compareAlgorithms (points : list Point) : M (list RouteResult) :=
  let algorithms := [ExactDp; NearestNeighbor; TwoOpt; Christofides] in
  let toRun :=
    if length points <=? 20 then algorithms
    else filter (fun a => negb (algoEqb a ExactDp)) algorithms in
  runAll points toRun.

End Engine.

(** * The components that use the engine *)

(** ** Results panel *)

Module Panel.

(** [allResults]: the current result first, then the results that carry
    another label. *)
Definition allResultsOf (results : list RouteResult)
  (currentResult : option RouteResult) : list RouteResult :=
  match currentResult with
  | Some c =>
    c :: filter (fun r => negb (String.eqb (algorithm r) (algorithm c)))
                results
  | None => results
  end.

(** The callback of [allResults.reduce]. *)
Definition bestStep (best current : RouteResult) : RouteResult :=
  if nltb (distance_ current) (distance_ best) then current else best.

(** [allResults.reduce(..., allResults[0])]; [None] is [undefined], the
    value of [allResults[0]] on an empty array. *)
Definition bestResultOf (allResults : list RouteResult)
  : option RouteResult :=
  match allResults with
  | [] => None
  | first :: _ => Some (fold_left bestStep allResults first)
  end.

(** [result.distance === bestResult.distance]. *)
Definition isBest (bestResult result : RouteResult) : bool :=
  match distance_ result, distance_ bestResult with
  | Fin a, Fin b => Reqb a b
  | Infinity, Infinity => true
  | _, _ => false
  end.

(** What the panel shows: the placeholder, or the rows of the
    comparison table, each with its [Best] badge, and the best
    result. *)
Inductive view : Type :=
| NoResults
| Comparison (rows : list (RouteResult * bool)) (bestResult : RouteResult).

Definition ResultsPanel (results : list RouteResult)
  (currentResult : option RouteResult) : error + view :=
  match results, currentResult with
  | [], None => inr NoResults
  | _, _ =>
    let allResults := allResultsOf results currentResult in
    match bestResultOf allResults with
    | Some bestResult =>
      inr (Comparison
             (map (fun result => (result, isBest bestResult result))
                  allResults)
             bestResult)
    | None => inl Throws
    end
  end.

End Panel.

(** ** Map *)

Section Map.

(** The conversion of a number to a string in a template literal. *)
Variable show : R -> string.

(** [`${i === 0 ? 'M' : 'L'} ${p.x} ${p.y}`]. *)
Definition pathCommand (i : nat) (p : Point) : string :=
  ((if (i =? 0)%nat then "M" else "L") ++ " " ++ show (x p) ++ " "
   ++ show (y p))%string.

(** [a.map((p, i) => f(i, p))], from index [i] on. *)
Fixpoint mapi {A B : Type} (f : nat -> A -> B) (i : nat) (l : list A)
  : list B :=
  match l with
  | [] => []
  | a :: t => f i a :: mapi f (S i) t
  end.

Definition generatePathString (points : list Point) : string :=
  if length points <? 2 then ""%string
  else String.concat " " (mapi pathCommand 0 points).

(** [Math.floor]. *)
Definition floor (r : R) : Z := Int_part r.

(** The body of the [for] loop of [generateAnimatedPath]. *)
Definition animatedStep (points : list Point) (pathStr : string) (i : nat)
  : string :=
  (pathStr ++ " L " ++ show (x (pt points (i + 1))) ++ " "
   ++ show (y (pt points (i + 1))))%string.

(** [points[i]] for an integer [i]; [None] is [undefined]. *)
Definition at_ (points : list Point) (i : Z) : option Point :=
  if (i <? 0)%Z then None else nth_error points (Z.to_nat i).

Definition generateAnimatedPath (points : list Point) (progress : R)
  : error + string :=
  if length points <? 2 then inr ""%string
  else
    let totalSegments := (length points - 1)%nat in
    let currentSegment := floor (progress * INR totalSegments) in
    let segmentProgress :=
      progress * INR totalSegments - IZR currentSegment in
    let pathStr :=
      ("M " ++ show (x (pt points 0)) ++ " " ++ show (y (pt points 0)))%string
    in
    let pathStr :=
      fold_left (animatedStep points)
                (seq 0 (Nat.min (Z.to_nat currentSegment)
                                (length points - 1)))
                pathStr in
    if (currentSegment <? Z.of_nat (length points - 1))%Z then
      match at_ points currentSegment, at_ points (currentSegment + 1) with
      | Some p1, Some p2 =>
        let x_ := x p1 + (x p2 - x p1) * segmentProgress in
        let y_ := y p1 + (y p2 - y p1) * segmentProgress in
        inr (pathStr ++ " L " ++ show x_ ++ " " ++ show y_)%string
      | _, _ => inl Throws
      end
    else inr pathStr.

End Map.

(** ** Application *)

Module App.

Inductive toastKind : Type := Success | Info | Warning | Failure.

(** What a handler does, in order: the state setters it calls and the
    toasts it shows.  Of the computations of the engine only one that
    ends in [Throws] raises an exception, which [catch] handles. *)
Inductive action : Type :=
| SetCurrentResult (r : option RouteResult)
| SetAllResults (rs : list RouteResult)
| SetIsComputing (b : bool)
| Toast (kind : toastKind) (message : string).

Section Handlers.

Variable clk : nat -> R.
Variable fuel : nat.

(** [toFixed] of a distance, and the conversion of a number to a string
    in a template literal. *)
Variable toFixed : nat -> number -> string.
Variable show : R -> string.

(** The callback that [handleRunAlgorithm] gives to [setTimeout]. *)
Definition runAlgorithmLater (points : list Point)
  (selectedAlgorithm : AlgorithmType) : M (list action) :=
  fun t =>
    match solveTSP clk fuel points selectedAlgorithm t with
    | Ok result t1 =>
      let done := [SetCurrentResult (Some result)] in
      let toast :=
        Toast Success
              ("Route optimized! Distance: " ++ toFixed 2 (distance_ result)
               ++ " units")%string in
      if length points <=? 15 then
        match compareAlgorithms clk fuel points t1 with
        | Ok comparisons t2 =>
          Ok (done ++ [SetAllResults comparisons; toast;
                       SetIsComputing false]) t2
        | Err Throws =>
          Ok (done ++ [Toast Failure "Error running algorithm";
                       SetIsComputing false]) t1
        | Err e => Err e
        end
      else Ok (done ++ [toast; SetIsComputing false]) t1
    | Err Throws =>
      Ok [Toast Failure "Error running algorithm"; SetIsComputing false] t
    | Err e => Err e
    end.

(** A handler returns the actions it makes at once and the callback it
    schedules, if any. *)
Definition handleRunAlgorithm (points : list Point)
  (selectedAlgorithm : AlgorithmType)
  : list action * option (M (list action)) :=
  if length points <? 2 then
    ([Toast Failure "Add at least 2 delivery stops"], None)
  else
    ([SetIsComputing true],
     Some (runAlgorithmLater points selectedAlgorithm)).

(** The callback that [handleCompareAll] gives to [setTimeout]. *)
Definition compareAllLater (points : list Point) : M (list action) :=
  fun t =>
    match compareAlgorithms clk fuel points t with
    | Ok comparisons t1 =>
      Ok [SetAllResults comparisons;
          SetCurrentResult (hd_error comparisons);
          Toast Success
                ("Compared " ++ show (INR (length comparisons))
                 ++ " algorithms!")%string;
          SetIsComputing false] t1
    | Err Throws =>
      Ok [Toast Failure "Error comparing algorithms"; SetIsComputing false] t
    | Err e => Err e
    end.

Definition handleCompareAll (points : list Point)
  (selectedAlgorithm : AlgorithmType)
  : list action * option (M (list action)) :=
  if length points <? 2 then
    ([Toast Failure "Add at least 2 delivery stops"], None)
  else if 15 <? length points then
    let '(acts, later) := handleRunAlgorithm points selectedAlgorithm in
    (Toast Warning
           "Too many points for comparison (max 15). Running selected algorithm only."
       :: acts, later)
  else ([SetIsComputing true], Some (compareAllLater points)).

End Handlers.

End App.

(** * Specification vocabulary *)

(** A closed tour over [points]: a rearrangement of the input points
    that keeps the first point first (each input point once), followed
    by the first point again. *)
Definition closedTour (points path : list Point) : Prop :=
  exists tour : list Point,
    Permutation tour points /\
    hd_error tour = hd_error points /\
    path = tour ++ [pt points 0].

(** The length of a route over exact reals: the sum of the Euclidean
    distances between consecutive points. *)
Fixpoint routeLength (path : list Point) : R :=
  match path with
  | p :: (q :: _) as rest => distance p q + routeLength rest
  | _ => 0
  end.

(** A computation returns [a]. *)
Definition returns {A : Type} (m : M A) (t : nat) (a : A) : Prop :=
  exists t', m t = Ok a t'.

(** A clock that never runs backwards. *)
Definition monotone (clk : nat -> R) : Prop :=
  forall i j, (i <= j)%nat -> clk i <= clk j.

(** What the scan of nearest neighbour holds in [(nearest, minDist)]. *)
Definition scanInv (points : list Point) (visited : list nat) (current : nat)
  (st : option nat * number) : Prop :=
  match st with
  | (None, m) => m = Infinity
  | (Some i, m) =>
    (i < length points)%nat /\ ~ In i visited /\
    m = Fin (distance (pt points current) (pt points i))
  end.

(** What the main loop of nearest neighbour holds: the indices visited
    so far, in order, and the route through them. *)
Definition nnInv (points : list Point) (visited : list nat)
  (path : list Point) (total : number) (current : nat) : Prop :=
  NoDup visited /\
  (forall i, In i visited -> (i < length points)%nat) /\
  hd_error visited = Some 0%nat /\
  (exists before, visited = before ++ [current]) /\
  path = map (pt points) visited /\
  total = Fin (routeLength path).

(** The length of the closed tour through [path], back to its first
    point. *)
Definition cycleLength (path : list Point) : R :=
  routeLength (path ++ [pt path 0]).

(** What 2-opt keeps from the seed [path0] on: the points, the first
    point, and a closed tour that is no longer. *)
Definition optInv (path0 : list Point) (st : list Point * bool) : Prop :=
  length (fst st) = length path0 /\
  Permutation (fst st) path0 /\
  pt (fst st) 0 = pt path0 0 /\
  cycleLength (fst st) <= cycleLength path0.

(** Prim: the vertices linked to vertex 0 through parents that are all
    in the tree. *)
Inductive tree (inMST : list bool) (parent : list (option nat))
  : nat -> Prop :=
| tree_root : tree inMST parent 0
| tree_step (v p : nat) :
    nth v inMST false = true ->
    nth v parent None = Some p ->
    tree inMST parent p ->
    tree inMST parent v.

(** Prim: what the scan for the minimum key holds in [(u, minKey)]. *)
Definition pickInv (n : nat) (inMST : list bool) (key : list number)
  (st : option nat * number) : Prop :=
  match st with
  | (None, m) => m = Infinity
  | (Some u, m) =>
    (u < n)%nat /\ nth u inMST false = false /\ m = nth u key Infinity /\
    m <> Infinity
  end.

(** Prim: what the key update keeps. *)
Definition relaxInv (n : nat) (inMST : list bool)
  (st : list number * list (option nat)) : Prop :=
  length (fst st) = n /\ length (snd st) = n /\
  (forall v p, nth v (snd st) None = Some p ->
               (p < n)%nat /\ nth p inMST false = true) /\
  (forall v, (v < n)%nat -> nth v inMST false = false ->
             nth v (fst st) Infinity <> Infinity ->
             v = 0%nat \/ exists p, nth v (snd st) None = Some p).

(** Prim: what the main loop keeps. *)
Definition primInv (n : nat) (inMST : list bool) (key : list number)
  (parent : list (option nat)) : Prop :=
  length inMST = n /\
  relaxInv n inMST (key, parent) /\
  (forall v, nth v inMST false = true -> tree inMST parent v) /\
  (forall v, (v < n)%nat -> nth v inMST false = false ->
             v = 0%nat \/ nth 0 inMST false = true ->
             nth v key Infinity <> Infinity).

(** The spanning tree of Prim: its edges join indices of points, and
    every index is reached from 0 along them. *)
Definition spanning (n : nat) (mst : list edge) : Prop :=
  (forall p i, In (p, i) mst -> (p < n)%nat /\ (i < n)%nat) /\
  (forall P : nat -> Prop,
     P 0%nat -> (forall p i, In (p, i) mst -> P p -> P i) ->
     forall v, (v < n)%nat -> P v).

(** The number of vertices in the tree. *)
Definition treeSize (inMST : list bool) : nat :=
  length (filter (fun b : bool => b) inMST).

(** Matching: what the search for the closest pair holds in
    [(bestPair, minDist)]. *)
Definition pairInv (availArray : list nat) (st : option edge * number)
  : Prop :=
  match fst st with
  | Some (a, b) => In a availArray /\ In b availArray
  | None => snd st = Infinity
  end.

(** Hierholzer: [v] is in the adjacency list of [u]. *)
Definition nbr (adj : adjacency) (u v : nat) : Prop :=
  exists l, adj u = Some l /\ In v l.

(** Hierholzer: the number of entries in the adjacency list of [v],
    and in the lists of all vertices below [n]. *)
Definition deg (adj : adjacency) (v : nat) : nat :=
  match adj v with
  | Some l => length l
  | None => 0%nat
  end.

Definition total (n : nat) (adj : adjacency) : nat :=
  list_sum (map (deg adj) (seq 0 n)).

(** Hierholzer: what the loop keeps.  [adj0] is the adjacency map the
    loop started from. *)
Record eulerInv (n : nat) (adj0 adj : adjacency) (stack tour : list nat)
  : Prop := {
  eulerSeen : forall u v, nbr adj0 u v ->
      nbr adj u v \/ (In u (stack ++ tour) /\ In v (stack ++ tour));
  eulerDone : forall v w, In v tour -> ~ nbr adj v w;
  eulerKeys : forall u v, nbr adj u v -> adj v <> None;
  eulerRange : forall v, In v (stack ++ tour) -> (v < n)%nat;
  eulerNbrRange : forall u v, nbr adj u v -> (v < n)%nat;
  eulerStart : last (tour ++ stack) 0%nat = 0%nat;
  eulerSome : tour ++ stack <> []
}.

(** Held-Karp: bit [j] of a mask. *)
Definition bit (m : Z) (j : nat) : bool := Z.testbit m (Z.of_nat j).

(** Held-Karp: the mask of vertex 0 together with the vertices of
    [rl]. *)
Fixpoint maskOf (rl : list nat) : Z :=
  match rl with
  | [] => 1%Z
  | i :: r => Z.lor (maskOf r) (2 ^ Z.of_nat i)
  end.

(** The number of bits set among the lowest [k] bits of [m]. *)
Definition bitCount (k : nat) (m : Z) : nat :=
  length (filter (bit m) (seq 0 k)).

(** Held-Karp: a path from vertex 0 written backwards, last vertex
    first and vertex 0 left out: distinct vertices among [1 .. n-1]. *)
Definition validPath (n : nat) (rl : list nat) : Prop :=
  NoDup rl /\ forall i, In i rl -> (1 <= i < n)%nat.

(** Held-Karp: the length of the path [rl], from its last vertex back
    to vertex 0. *)
Definition rcost (points : list Point) (rl : list nat) : R :=
  routeLength (map (pt points) (rl ++ [0%nat])).

(** Held-Karp: the [parent] table records the path [rl]. *)
Fixpoint chain (parent : table (option nat)) (rl : list nat) : Prop :=
  match rl with
  | [] => True
  | e :: r =>
    tget parent (maskOf rl, e) = Some (Some (hd 0%nat r)) /\ chain parent r
  end.

(** Held-Karp: the entry for the vertices of [rl] ending at the head of
    [rl] is the length of a shortest path through them, and [parent]
    records such a path. *)
Definition entryOk (points : list Point) (st : tables) (rl : list nat)
  : Prop :=
  match rl with
  | [] => True
  | e :: _ =>
    exists v rl0,
      tget (fst st) (maskOf rl, e) = Some v /\
      Permutation rl0 rl /\ hd_error rl0 = Some e /\
      v = rcost points rl0 /\ chain (snd st) rl0 /\
      forall rl', Permutation rl' rl -> hd_error rl' = Some e ->
                  v <= rcost points rl'
  end.

(** Held-Karp: the entries for fewer than [s] vertices (vertex 0
    included) are right. *)
Definition dpInv (points : list Point) (s : nat) (st : tables) : Prop :=
  forall rl, validPath (length points) rl -> (length rl < s)%nat ->
             entryOk points st rl.

(** Held-Karp: the candidate that predecessor [q] gives for ending at
    [end_] after the vertices of [prevMask]. *)
Definition candidate (points : list Point) (dp : table R) (prevMask : Z)
  (end_ q : nat) : option R :=
  if bit prevMask q then
    match tget dp (prevMask, q) with
    | Some v => Some (v + distance (pt points q) (pt points end_))
    | None => None
    end
  else None.

(** Held-Karp: the candidate that closing the tour from [i] gives. *)
Definition closeCandidate (points : list Point) (dp : table R) (fullMask : Z)
  (i : nat) : option R :=
  match tget dp (fullMask, i) with
  | Some v => Some (v + distance (pt points i) (pt points 0))
  | None => None
  end.

(** One step of a scan for the first least candidate, and what the
    scan holds after the candidates of [done]. *)
Definition minStep (cand : nat -> option R) (st : number * option nat)
  (i : nat) : number * option nat :=
  match cand i with
  | Some c => if nltb (Fin c) (fst st) then (Fin c, Some i) else st
  | None => st
  end.

Definition minInv (cand : nat -> option R) (done : list nat)
  (st : number * option nat) : Prop :=
  match st with
  | (Infinity, b) => b = None /\ forall q, In q done -> cand q = None
  | (Fin m, b) =>
    exists p, b = Some p /\ In p done /\ cand p = Some m /\
      forall q c, In q done -> cand q = Some c -> m <= c
  end.

(** Held-Karp: what the pass for subsets of [s] vertices keeps while
    the entries of the keys in [D] are written. *)
Definition passInv (points : list Point) (s : nat) (D : key -> Prop)
  (st : tables) : Prop :=
  dpInv points (s - 1) st /\
  forall rl, validPath (length points) rl -> length rl = (s - 1)%nat ->
             D (maskOf rl, hd 0%nat rl) -> entryOk points st rl.

(** A time the source computes: the literal 0, or the difference of a
    later and an earlier reading of the clock. *)
Definition elapsed (clk : nat -> R) (x : R) : Prop :=
  x = 0 \/ exists i j, (i <= j)%nat /\ x = clk j - clk i.

(** A result whose distance is the length of its path and whose time
    is an elapsed time. *)
Definition sound (clk : nat -> R) (r : RouteResult) : Prop :=
  distance_ r = Fin (routeLength (path r)) /\ elapsed clk (timeMs r).

(** A*: the key of a node in the closed set, [`${x},${y}`]. *)
Definition nodeKey (n : AStarNode) : R * R :=
  (x (Node.point n), y (Node.point n)).

(** A*: the cells the search can reach from [(sx, sy)], at most [N]
    steps of 2 away along each axis. *)
Definition onGrid (sx sy : R) (N : nat) (c : R * R) : Prop :=
  exists i j : Z,
    (- Z.of_nat N <= i <= Z.of_nat N)%Z /\
    (- Z.of_nat N <= j <= Z.of_nat N)%Z /\
    fst c = sx + 2 * IZR i /\ snd c = sy + 2 * IZR j.

Definition zrange (N : nat) : list Z :=
  map (fun k => (Z.of_nat k - Z.of_nat N)%Z) (seq 0 (2 * N + 1)).

Definition gridCells (sx sy : R) (N : nat) : list (R * R) :=
  map (fun ij : Z * Z => (sx + 2 * IZR (fst ij), sy + 2 * IZR (snd ij)))
      (list_prod (zrange N) (zrange N)).

(** A*: what the search loop keeps. *)
Definition aStarInv (sx sy : R) (N : nat) (openSet : list AStarNode)
  (closedSet : list (R * R)) : Prop :=
  (forall n, In n openSet -> onGrid sx sy N (nodeKey n) /\ 0 <= Node.g n) /\
  NoDup closedSet /\
  (forall c, In c closedSet -> onGrid sx sy N c).

(** A*: a bound on the iterations left. *)
Definition aStarMeasure (N : nat) (openSet : list AStarNode)
  (closedSet : list (R * R)) : nat :=
  9 * ((2 * N + 1) * (2 * N + 1) - length closedSet) + length openSet.

(** Sample stops of the application, used to instantiate the
    properties below. *)
Definition manhattanHub : Point := mkPoint (Id "sample-1") 50 35 "Manhattan Hub".
Definition brooklynStop : Point := mkPoint (Id "sample-2") 65 65 "Brooklyn Stop 1".
Definition queensStop : Point := mkPoint (Id "sample-3") 80 35 "Queens Stop 2".

(** A clock that ticks once per reading. *)
Definition tickClock (k : nat) : R := INR k.

(** A stop half a unit east of the Manhattan hub, and the lists of
    stops the properties are instantiated on. *)
Definition nearHub : Point := mkPoint (Id "near-hub") (50 + / 2) 35 "Near hub".

Definition twoStops : list Point := [manhattanHub; nearHub].

Definition threeStops : list Point := [manhattanHub; brooklynStop; queensStop].

Definition manyStops : list Point := repeat manhattanHub 21.

(** Three stops along the southern edge of the grid. *)
Definition stopA : Point := mkPoint (Id "a") 0 0 "A".
Definition stopB : Point := mkPoint (Id "b") (/ 2) 0 "B".
Definition stopC : Point := mkPoint (Id "c") (5 / 2) 0 "C".

Definition edgeStops : list Point := [stopA; stopB; stopC].

(** A*: the node that [expandStep] creates in direction [(dx, dy)]. *)
Definition neighborNode (goal : Point) (current : AStarNode) (dx dy : R)
  : AStarNode :=
  let newX := x (Node.point current) + dx * 2 in
  let newY := y (Node.point current) + dy * 2 in
  let neighborPoint := mkPoint (CoordId newX newY) newX newY "" in
  let gScore :=
    Node.g current + distance (Node.point current) neighborPoint in
  mkNode neighborPoint gScore (distance neighborPoint goal)
         (gScore + distance neighborPoint goal) (Some current).

(** A*: the node the search starts from. *)
Definition startNodeOf (start goal : Point) : AStarNode :=
  mkNode start 0 (distance start goal) (distance start goal) None.

(** A*: the path to a node starts at [start], and the cost [g] of the
    node is the length of that path. *)
Definition nodeOk (start : Point) (n : AStarNode) : Prop :=
  hd_error (nodePath n) = Some start /\
  Node.g n = routeLength (nodePath n).

(** Nearest neighbour: after the indices of [done] the scan holds a
    nearest unvisited point among them. *)
Definition scanMin (points : list Point) (visited : list nat) (current : nat)
  (done : list nat) (st : option nat * number) : Prop :=
  match st with
  | (None, m) => m = Infinity /\ forall j, In j done -> In j visited
  | (Some i, m) =>
    m = Fin (distance (pt points current) (pt points i)) /\
    forall j, In j done -> ~ In j visited ->
      distance (pt points current) (pt points i)
      <= distance (pt points current) (pt points j)
  end.

(** An order of visit is greedy: each stop is followed by a stop that
    is nearest to it among the stops not visited before. *)
Definition greedy (points : list Point) (order : list nat) : Prop :=
  forall before c nxt after, order = before ++ c :: nxt :: after ->
    forall j, (j < length points)%nat -> ~ In j (before ++ [c]) ->
      distance (pt points c) (pt points nxt)
      <= distance (pt points c) (pt points j).

(** 2-opt: the number of passes that the [while] loop makes, the
    variable [iterations] when the loop is left; [k] is the most it
    may make. *)
Fixpoint twoOptIterations (k : nat) (path : list Point) : nat :=
  match k with
  | O => 0%nat
  | S k' =>
    let '(path', improved) := twoOptPass path in
    if improved then S (twoOptIterations k' path') else 1%nat
  end.

(** 2-opt: replacing the edges after positions [i] and [j] of the
    cycle through [path] by the edges [(i, j)] and [(i+1, j+1)] gains
    more than 0.0001. *)
Definition improves (path : list Point) (i j : nat) : Prop :=
  let a := pt path i in
  let b := pt path (i + 1) in
  let c := pt path j in
  let d := if j + 1 <? length path then pt path (j + 1) else pt path 0 in
  distance a c + distance b d < distance a b + distance c d - 1 / 10000.

(** 2-opt: no exchange of two edges gains more than 0.0001. *)
Definition locallyOptimal (path : list Point) : Prop :=
  forall i j, (i + 2 <= j)%nat -> (j < length path)%nat ->
              ~ improves path i j.

(** Matching: the index pairs [(i, j)] that the double loop over an
    array of [len] entries goes through in row [i], and in the rows of
    [l]. *)
Definition pairRow (len i : nat) : list (nat * nat) :=
  map (pair i) (seq (i + 1) (len - (i + 1))).

Definition pairRows (len : nat) (l : list nat) : list (nat * nat) :=
  flat_map (pairRow len) l.

(** Matching: after the index pairs of [done] the search holds a
    closest pair among them. *)
Definition pairMin (points : list Point) (availArray : list nat)
  (done : list (nat * nat)) (st : option edge * number) : Prop :=
  match st with
  | (None, m) => m = Infinity /\ done = []
  | (Some (a, b), m) =>
    m = Fin (distance (pt points a) (pt points b)) /\
    (exists i j, In (i, j) done /\
       a = nth i availArray 0%nat /\ b = nth j availArray 0%nat) /\
    forall i j, In (i, j) done ->
      distance (pt points a) (pt points b)
      <= distance (pt points (nth i availArray 0%nat))
                  (pt points (nth j availArray 0%nat))
  end.

(** The vertices that the edges of a matching join. *)
Definition endpoints (matching : list edge) : list nat :=
  flat_map (fun e : edge => [fst e; snd e]) matching.

(** A matching is greedy: each of its edges joins a closest pair among
    the vertices that the edges before it have left, [rest] being the
    vertices left at the end. *)
Definition greedyPairs (points : list Point) (matching : list edge)
  (rest : list nat) : Prop :=
  forall before a b after, matching = before ++ (a, b) :: after ->
    forall c d,
      In c (endpoints ((a, b) :: after) ++ rest) ->
      In d (endpoints ((a, b) :: after) ++ rest) -> c <> d ->
      distance (pt points a) (pt points b)
      <= distance (pt points c) (pt points d).

(** A*: a point inside the square grid of side [gridSize]. *)
Definition inGrid (gridSize : R) (p : Point) : Prop :=
  0 <= x p <= gridSize /\ 0 <= y p <= gridSize.

(** A*: the rounded cell of a point is the cell of no obstacle. *)
Definition offObstacles (obstacles : list Point) (p : Point) : Prop :=
  forall o, In o obstacles ->
    (round (x p), round (y p)) <> (round (x o), round (y o)).

(** A*: [q] is one move away from [p], 2 units along one or both
    axes. *)
Definition gridStep (p q : Point) : Prop :=
  exists dx dy, In (dx, dy) directions /\
    x q = x p + dx * 2 /\ y q = y p + dy * 2.

(** Every two consecutive points of a path are related by [rel]. *)
Fixpoint linked (rel : Point -> Point -> Prop) (path : list Point) : Prop :=
  match path with
  | p :: (q :: _) as rest => rel p q /\ linked rel rest
  | _ => True
  end.

(** A*: the path to a node makes grid moves only, and after its first
    point it stays inside the grid and off the obstacles. *)
Definition nodeGood (obstacles : list Point) (gridSize : R) (n : AStarNode)
  : Prop :=
  linked gridStep (nodePath n) /\
  Forall (fun p => inGrid gridSize p /\ offObstacles obstacles p)
         (tl (nodePath n)).

(** Map: the [L] commands of a path string through the points of [l],
    each after a space. *)
Fixpoint lineCommands (show : R -> string) (l : list Point) : string :=
  match l with
  | [] => ""%string
  | p :: t =>
    (" L " ++ show (x p) ++ " " ++ show (y p) ++ lineCommands show t)%string
  end.

(** A conversion of numbers to strings, used to instantiate the
    properties of the map. *)
Definition blank (_ : R) : string := ""%string.

(** A [toFixed] used to instantiate the properties of the
    application. *)
Definition noDigits (_ : nat) (_ : number) : string := ""%string.

(** The degree of a vertex in a list of edges: the number of edge ends
    at the vertex. *)
Definition degreeIn (edges : list edge) (v : nat) : nat :=
  count_occ Nat.eq_dec (endpoints edges) v.

(** A*: [p] is on the lattice of the points that moves reach from
    [start]. *)
Definition onLattice (start p : Point) : Prop :=
  exists i j : Z,
    x p = x start + 2 * IZR i /\ y p = y start + 2 * IZR j.

(** A stop in the middle of a lattice cell of the grid from the
    origin. *)
Definition midCell : Point := mkPoint (Id "mid-cell") 1 1 "Mid cell".

(** Prim: after the indices of [done] the scan holds a vertex of least
    key among those of them that are outside the tree. *)
Definition pickMin (inMST : list bool) (key : list number)
  (done : list nat) (st : option nat * number) : Prop :=
  match st with
  | (None, m) =>
    m = Infinity /\
    forall j, In j done ->
      nth j inMST false = true \/ nth j key Infinity = Infinity
  | (Some u, m) =>
    In u done /\ nth u inMST false = false /\ m = nth u key Infinity /\
    m <> Infinity /\
    forall j, In j done -> nth j inMST false = false ->
              nle m (nth j key Infinity)
  end.

(** Prim: the key and the parent of [v] once [u] has joined the
    tree. *)
Definition relaxed (points : list Point) (u : nat) (inMST : list bool)
  (key : list number) (parent : list (option nat)) (v : nat)
  : number * option nat :=
  if negb (nth v inMST false)
     && nltb (Fin (distance (pt points u) (pt points v)))
             (nth v key Infinity)
  then (Fin (distance (pt points u) (pt points v)), Some u)
  else (nth v key Infinity, nth v parent None).

(** Prim: the edge from [p] to [v] is a lightest edge between the
    vertices of [before] and the other vertices. *)
Definition cutEdge (points : list Point) (before : list nat) (p v : nat)
  : Prop :=
  In p before /\
  forall a b, In a before -> (b < length points)%nat -> ~ In b before ->
    distance (pt points p) (pt points v)
    <= distance (pt points a) (pt points b).

(** Prim: the vertices joined the tree in the order [order], each
    after the first through a lightest edge that leaves the tree built
    so far. *)
Definition primOrder (points : list Point) (order : list nat)
  (parent : list (option nat)) : Prop :=
  forall before v after, order = before ++ v :: after -> before <> [] ->
    exists p, nth v parent None = Some p /\ cutEdge points before p v.

(** Prim: what the keys and parents of the vertices outside the tree
    hold. *)
Definition primKeys (points : list Point) (joined : list nat)
  (inMST : list bool) (key : list number) (parent : list (option nat))
  : Prop :=
  let n := length points in
  match joined with
  | [] =>
    inMST = repeat false n /\ key = upd 0 (Fin 0) (repeat Infinity n) /\
    parent = repeat None n
  | _ :: _ =>
    forall v, (v < n)%nat -> ~ In v joined ->
      exists p, nth v parent None = Some p /\ In p joined /\
        nth v key Infinity = Fin (distance (pt points p) (pt points v)) /\
        forall w, In w joined ->
          distance (pt points p) (pt points v)
          <= distance (pt points w) (pt points v)
  end.

(** Prim: what the main loop keeps, [joined] being the vertices of the
    tree in the order in which they joined it. *)
Definition primJ (points : list Point) (joined : list nat)
  (inMST : list bool) (key : list number) (parent : list (option nat))
  : Prop :=
  let n := length points in
  length inMST = n /\ length key = n /\ length parent = n /\
  NoDup joined /\
  (forall v, In v joined <-> nth v inMST false = true) /\
  (forall v, In v joined -> (v < n)%nat) /\
  (joined <> [] -> hd_error joined = Some 0%nat) /\
  primKeys points joined inMST key parent /\
  primOrder points joined parent.

(** ** Spanning graphs and their weight *)

(** An edge of [H] joins [u] and [v], in either direction. *)
Definition joins (H : list edge) (u v : nat) : Prop :=
  In (u, v) H \/ In (v, u) H.

(** [v] is reached from [u] along the relation [E]. *)
Inductive reach (E : nat -> nat -> Prop) (u : nat) : nat -> Prop :=
| reach_refl : reach E u u
| reach_step (v w : nat) : reach E u v -> E v w -> reach E u w.

(** The edges of [H] link every one of the [n] vertices to vertex 0. *)
Definition connects (n : nat) (H : list edge) : Prop :=
  forall v, (v < n)%nat -> reach (joins H) 0%nat v.

(** The edges of [H] join indices of points. *)
Definition inRange (n : nat) (H : list edge) : Prop :=
  forall p i, In (p, i) H -> (p < n)%nat /\ (i < n)%nat.

(** The total length of the edges of [H]. *)
Definition weight (points : list Point) (H : list edge) : R :=
  fold_right
    (fun (e : edge) s => distance (pt points (fst e)) (pt points (snd e)) + s)
    0 H.

Definition edge_eq_dec (e1 e2 : edge) : {e1 = e2} + {e1 <> e2}.
Proof. decide equality; apply Nat.eq_dec. Defined.

(** The edges between the consecutive vertices of a route. *)
Fixpoint chainEdges (l : list nat) : list edge :=
  match l with
  | a :: (b :: _) as rest => (a, b) :: chainEdges rest
  | _ => []
  end.

(** ** Eulerian circuits *)

(** Hierholzer: the adjacency list of [u] ([[]] when there is none). *)
Definition adjL (adj : adjacency) (u : nat) : list nat :=
  match adj u with
  | Some l => l
  | None => []
  end.

(** The neighbours that the edge [e] gives to [u], one for each end of
    [e] at [u]. *)
Definition ends (e : edge) (u : nat) : list nat :=
  (if Nat.eqb (fst e) u then [snd e] else [])
  ++ (if Nat.eqb (snd e) u then [fst e] else []).

(** The neighbours of [u] along the edges of [E], with
    multiplicity. *)
Definition nbrs (E : list edge) (u : nat) : list nat :=
  flat_map (fun e => ends e u) E.

(** The number of times [v] is a neighbour of [u] along [E]. *)
Definition links (E : list edge) (u v : nat) : nat :=
  count_occ Nat.eq_dec (nbrs E u) v.

(** Hierholzer: the edge between the vertex popped last and the vertex
    [c] under which it lay on the stack. *)
Definition junction (c : option nat) (tour : list nat) : list edge :=
  match c with
  | Some c => [(c, last tour 0%nat)]
  | None => []
  end.

(** Hierholzer: the edges taken so far. *)
Definition usedEdges (stack tour : list nat) (c : option nat) : list edge :=
  chainEdges stack ++ chainEdges tour ++ junction c tour.

(** Hierholzer: what the loop keeps of the edges: each edge is either
    still in the adjacency lists or taken, on the stack, in the tour or
    between the two. *)
Record trailInv (edges : list edge) (adj : adjacency)
  (stack tour : list nat) (c : option nat) : Prop := {
  trailCount : forall u v,
    (links (usedEdges stack tour c) u v
     + count_occ Nat.eq_dec (adjL adj u) v = links edges u v)%nat;
  trailBottom : last stack 0%nat = 0%nat;
  trailStart : tour <> [] -> hd_error tour = Some 0%nat;
  trailJoin : c = None <-> (tour = [] \/ stack = [])
}.

(** An edge without its direction: the smaller end first. *)
Definition undirected (e : edge) : edge :=
  (Nat.min (fst e) (snd e), Nat.max (fst e) (snd e)).

(** Three vertices joined in a triangle. *)
Definition triangleEdges : list edge :=
  [(0%nat, 1%nat); (1%nat, 2%nat); (2%nat, 0%nat)].

(** * Properties *)

(** ** Numbers and geometry *)

Lemma Rltb_true (a b : R) : Rltb a b = true <-> a < b.
Proof. unfold Rltb. destruct (Rlt_dec a b); split; intros; try easy. Qed.

Lemma Rltb_false (a b : R) : Rltb a b = false <-> b <= a.
Proof.
  unfold Rltb. destruct (Rlt_dec a b); split; intros; try easy; lra.
Qed.

Lemma Reqb_true (a b : R) : Reqb a b = true <-> a = b.
Proof. unfold Reqb. destruct (Req_dec_T a b); split; intros; easy. Qed.

Lemma nltb_Infinity (a : R) : nltb (Fin a) Infinity = true.
Proof. reflexivity. Qed.

Lemma distance_nonneg (p q : Point) : 0 <= distance p q.
Proof. apply sqrt_pos. Qed.

Lemma distance_sym (p q : Point) : distance p q = distance q p.
Proof. unfold distance. f_equal. ring. Qed.

Lemma distance_refl (p : Point) : distance p p = 0.
Proof.
  unfold distance.
  replace ((x p - x p) ^ 2 + (y p - y p) ^ 2) with 0 by ring.
  apply sqrt_0.
Qed.

Lemma routeLoop_routeLength (path : list Point) (total : R) :
  routeLoop total path = total + routeLength path.
Proof.
  revert total. induction path as [|p rest IH]; intros total.
  - simpl. lra.
  - destruct rest as [|q rest]; [simpl; lra|].
    change (routeLoop total (p :: q :: rest))
      with (routeLoop (total + distance p q) (q :: rest)).
    rewrite IH.
    change (routeLength (p :: q :: rest))
      with (distance p q + routeLength (q :: rest)).
    lra.
Qed.

Lemma calculateRouteDistance_routeLength (path : list Point) :
  calculateRouteDistance path = routeLength path.
Proof. unfold calculateRouteDistance. rewrite routeLoop_routeLength. lra. Qed.

Lemma routeLength_nonneg (path : list Point) : 0 <= routeLength path.
Proof.
  induction path as [|p rest IH]; [simpl; lra|].
  destruct rest as [|q rest]; [simpl; lra|].
  change (routeLength (p :: q :: rest))
    with (distance p q + routeLength (q :: rest)).
  pose proof (distance_nonneg p q). lra.
Qed.

Lemma routeLength_snoc (path : list Point) (p q : Point) :
  routeLength ((path ++ [p]) ++ [q]) = routeLength (path ++ [p]) + distance p q.
Proof.
  induction path as [|a rest IH]; [simpl; lra|].
  destruct rest as [|b rest]; [simpl; lra|].
  change (routeLength (((a :: b :: rest) ++ [p]) ++ [q]))
    with (distance a b + routeLength (((b :: rest) ++ [p]) ++ [q])).
  change (routeLength ((a :: b :: rest) ++ [p]))
    with (distance a b + routeLength ((b :: rest) ++ [p])).
  rewrite IH. lra.
Qed.

Lemma routeLength_app (l1 l2 : list Point) (p : Point) :
  routeLength (l1 ++ p :: l2) = routeLength (l1 ++ [p]) + routeLength (p :: l2).
Proof.
  induction l1 as [|a rest IH]; [simpl; destruct l2; lra|].
  destruct rest as [|b rest].
  - simpl. destruct l2; lra.
  - change (routeLength ((a :: b :: rest) ++ p :: l2))
      with (distance a b + routeLength ((b :: rest) ++ p :: l2)).
    change (routeLength ((a :: b :: rest) ++ [p]))
      with (distance a b + routeLength ((b :: rest) ++ [p])).
    rewrite IH. lra.
Qed.

Lemma routeLength_rev (path : list Point) :
  routeLength (rev path) = routeLength path.
Proof.
  induction path as [|p rest IH]; [reflexivity|].
  destruct rest as [|q rest]; [reflexivity|].
  change (rev (p :: q :: rest)) with ((rev rest ++ [q]) ++ [p]).
  rewrite routeLength_snoc.
  change (rev rest ++ [q]) with (rev (q :: rest)). rewrite IH.
  change (routeLength (p :: q :: rest))
    with (distance p q + routeLength (q :: rest)).
  rewrite (distance_sym q p). lra.
Qed.

(** ** Arrays and sets *)

Lemma upd_length {A : Type} (i : nat) (v : A) (l : list A) :
  length (upd i v l) = length l.
Proof.
  revert i. induction l as [|h t IH]; intros [|i]; simpl; auto.
Qed.

Lemma nth_upd_eq {A : Type} (i : nat) (v d : A) (l : list A) :
  (i < length l)%nat -> nth i (upd i v l) d = v.
Proof.
  revert i. induction l as [|h t IH]; intros [|i] Hi; simpl in *; try lia; auto.
  apply IH. lia.
Qed.

Lemma nth_upd_neq {A : Type} (i j : nat) (v d : A) (l : list A) :
  i <> j -> nth j (upd i v l) d = nth j l d.
Proof.
  revert i j. induction l as [|h t IH]; intros [|i] [|j] Hij; simpl; auto;
    try lia.
Qed.

Lemma has_true (i : nat) (s : list nat) : has i s = true <-> In i s.
Proof.
  unfold has. split.
  - apply set_mem_correct1.
  - apply set_mem_correct2.
Qed.

Lemma has_false (i : nat) (s : list nat) : has i s = false <-> ~ In i s.
Proof.
  unfold has. split.
  - apply set_mem_complete1.
  - apply set_mem_complete2.
Qed.

(** Among [n] indices, a duplicate-free list of fewer than [n] of them
    misses one. *)
Lemma missing_index (n : nat) (s : list nat) :
  NoDup s -> (length s < n)%nat -> exists i, (i < n)%nat /\ ~ In i s.
Proof.
  intros Hnd Hlen.
  destruct (existsb (fun i => negb (has i s)) (seq 0 n)) eqn:E.
  - apply existsb_exists in E. destruct E as [i [Hi Hn]].
    exists i. apply in_seq in Hi. split; [lia|].
    apply has_false. now destruct (has i s).
  - exfalso.
    assert (Hincl : incl (seq 0 n) s).
    { intros i Hi. apply has_true.
      destruct (has i s) eqn:Hh; [reflexivity|].
      assert (existsb (fun i => negb (has i s)) (seq 0 n) = true).
      { apply existsb_exists. exists i. rewrite Hh. auto. }
      congruence. }
    apply NoDup_incl_length in Hincl; [|apply seq_NoDup].
    rewrite length_seq in Hincl. lia.
Qed.

(** ** Nearest neighbour *)

Lemma nnScan_inv (points : list Point) (visited : list nat) (current : nat)
  (l : list nat) (st : option nat * number) :
  (forall i, In i l -> (i < length points)%nat) ->
  scanInv points visited current st ->
  scanInv points visited current
    (fold_left (nnScanStep points visited current) l st).
Proof.
  revert st. induction l as [|a l IH]; intros st Hl Hst; [exact Hst|].
  simpl. apply IH; [intros i Hi; apply Hl; now right|].
  destruct st as [nearest minDist]. unfold nnScanStep.
  destruct (has a visited) eqn:Hv; cbn [negb]; [exact Hst|].
  destruct (nltb _ minDist); [|exact Hst].
  simpl. repeat split.
  - apply Hl. now left.
  - now apply has_false.
Qed.

Lemma nnScan_none (points : list Point) (visited : list nat) (current : nat)
  (l : list nat) (st : option nat * number) :
  (fst st = None -> snd st = Infinity) ->
  fst (fold_left (nnScanStep points visited current) l st) = None ->
  fst st = None /\ forall i, In i l -> In i visited.
Proof.
  revert st. induction l as [|a l IH]; intros st Hst Hnone.
  - split; [exact Hnone|intros i []].
  - simpl in Hnone. apply IH in Hnone.
    + destruct Hnone as [H1 H2].
      destruct st as [nearest minDist]. unfold nnScanStep in H1.
      destruct (has a visited) eqn:Hv; cbn [negb] in H1.
      * split; [exact H1|]. intros i [<-|Hi]; [now apply has_true|auto].
      * exfalso. destruct nearest as [i0|].
        -- destruct (nltb _ minDist); discriminate.
        -- simpl in Hst. rewrite Hst in H1 by reflexivity.
           rewrite nltb_Infinity in H1. discriminate.
    + destruct st as [nearest minDist]. unfold nnScanStep.
      destruct (has a visited); cbn [negb]; [exact Hst|].
      destruct (nltb _ minDist); [discriminate|exact Hst].
Qed.

(** The scan finds an unvisited point whenever there is one. *)
Lemma nnScan_some (points : list Point) (visited : list nat) (current : nat) :
  NoDup visited ->
  (length visited < length points)%nat ->
  exists i, (i < length points)%nat /\ ~ In i visited /\
    nnScan points visited current =
      (Some i, Fin (distance (pt points current) (pt points i))).
Proof.
  intros Hnd Hlen. unfold nnScan.
  pose proof (nnScan_inv points visited current (seq 0 (length points))
                (None, Infinity)) as Hinv.
  pose proof (nnScan_none points visited current (seq 0 (length points))
                (None, Infinity)) as Hnone.
  destruct (fold_left _ _ _) as [[i|] m].
  - destruct Hinv as [Hi [Hv Hm]]; [intros j Hj; apply in_seq in Hj; lia|reflexivity|].
    exists i. subst m. auto.
  - exfalso. destruct Hnone as [_ Hall]; [reflexivity|reflexivity|].
    destruct (missing_index (length points) visited Hnd Hlen) as [j [Hj Hnj]].
    apply Hnj, Hall, in_seq. lia.
Qed.

Lemma nnLoop_spec (points : list Point) (k : nat) :
  forall visited path total current,
  nnInv points visited path total current ->
  (length points <= k + length visited)%nat ->
  exists visited' path' total' current',
    nnLoop k points visited path total current = Some (path', total', current')
    /\ nnInv points visited' path' total' current'
    /\ (length points <= length visited')%nat.
Proof.
  induction k as [|k IH]; intros visited path total current Hinv Hk.
  - exists visited, path, total, current. simpl.
    destruct (Nat.ltb_spec (length visited) (length points)); [lia|].
    auto.
  - simpl.
    destruct (Nat.ltb_spec (length visited) (length points)) as [Hlt|Hge].
    + destruct Hinv as (Hnd & Hrange & Hhd & [before Hbefore] & Hpath & Htotal).
      destruct (nnScan_some points visited current Hnd Hlt)
        as (i & Hi & Hni & Hscan).
      rewrite Hscan.
      assert (Hadd : add i visited = visited ++ [i]).
      { unfold add. apply has_false in Hni. now rewrite Hni. }
      rewrite Hadd.
      apply IH.
      * repeat split.
        -- apply NoDup_rev in Hnd. rewrite <- (rev_involutive (visited ++ [i])).
           apply NoDup_rev. rewrite rev_app_distr. simpl.
           constructor; [rewrite <- in_rev; exact Hni|exact Hnd].
        -- intros j Hj. apply in_app_or in Hj. destruct Hj as [Hj|[<-|[]]]; auto.
        -- destruct visited; [discriminate|exact Hhd].
        -- exists visited. reflexivity.
        -- rewrite Hpath, map_app. reflexivity.
        -- rewrite Htotal. simpl. f_equal.
           rewrite Hpath, Hbefore, !map_app. simpl.
           rewrite routeLength_snoc. reflexivity.
      * rewrite length_app. simpl. lia.
    + exists visited, path, total, current. auto.
Qed.

(** The nearest-neighbour tour of two or more points: the order of
    visit, and the result built from it. *)
Lemma nn_spec (clk : nat -> R) (points : list Point) (t : nat) :
  (2 <= length points)%nat ->
  exists order,
    Permutation order (seq 0 (length points)) /\
    hd_error order = Some 0%nat /\
    solveTSPNearestNeighbor clk points t =
      Ok (mkRouteResult (map (pt points) order ++ [pt points 0])
            (Fin (routeLength (map (pt points) order ++ [pt points 0])))
            (clk (S t) - clk t) "Nearest Neighbor (Greedy)")
         (S (S t)).
Proof.
  intros Hn.
  destruct (nnLoop_spec points (length points) [0%nat] [pt points 0] (Fin 0)
              0%nat) as (visited & path & total & current & Hloop & Hinv & Hlen).
  { repeat split.
    - constructor; [intros []|constructor].
    - intros i [<-|[]]. lia.
    - exists []. reflexivity. }
  { simpl. lia. }
  destruct Hinv as (Hnd & Hrange & Hhd & [before Hbefore] & Hpath & Htotal).
  exists visited. split; [|split; [exact Hhd|]].
  - apply NoDup_Permutation_bis; [exact Hnd|rewrite length_seq; exact Hlen|].
    intros i Hi. apply in_seq. specialize (Hrange i Hi). lia.
  - unfold solveTSPNearestNeighbor, bind, now, ret.
    destruct (Nat.leb_spec (length points) 1); [lia|].
    rewrite Hloop. unfold bind, now, ret. subst total path.
    simpl. do 2 f_equal. rewrite Hbefore, !map_app. simpl.
    rewrite routeLength_snoc. reflexivity.
Qed.

(** ** 2-opt *)

Lemma upd_middle {A : Type} (l1 l2 : list A) (a v : A) :
  upd (length l1) v (l1 ++ a :: l2) = l1 ++ v :: l2.
Proof. induction l1 as [|h t IH]; simpl; [reflexivity|now rewrite IH]. Qed.

Lemma pt_middle (l1 l2 : list Point) (a : Point) :
  pt (l1 ++ a :: l2) (length l1) = a.
Proof. unfold pt. apply nth_middle. Qed.

Lemma swap_ends (A mid B : list Point) (p q : Point) :
  swap (A ++ p :: mid ++ q :: B) (length A) (length A + length mid + 1) =
  A ++ q :: mid ++ p :: B.
Proof.
  unfold swap.
  assert (Hr : forall c, (length A + length mid + 1)%nat
                         = length (A ++ c :: mid)).
  { intros c. rewrite length_app. simpl. lia. }
  assert (Hv : forall c, A ++ c :: mid ++ q :: B = (A ++ c :: mid) ++ q :: B).
  { intros c. rewrite <- app_assoc. reflexivity. }
  rewrite pt_middle.
  replace (pt (A ++ p :: mid ++ q :: B) (length A + length mid + 1)) with q
    by (rewrite (Hr p), (Hv p), pt_middle; reflexivity).
  rewrite upd_middle, (Hr q), (Hv q), upd_middle, <- app_assoc.
  reflexivity.
Qed.

Lemma list_ends {A : Type} (l : list A) :
  l = [] \/ (exists a, l = [a]) \/
  exists a mid b, l = a :: mid ++ [b].
Proof.
  destruct l as [|a l]; [now left|right].
  destruct (exists_last (l := a :: l)) as (l' & b & E); [discriminate|].
  destruct l' as [|a' l'].
  - left. exists a. simpl in E. injection E as <- ->. reflexivity.
  - right. simpl in E. injection E as -> ->. eauto.
Qed.

(** The in-place swap loop reverses the segment. *)
Lemma reverseSegment_rev (k : nat) :
  forall (A mid B : list Point),
  (length mid <= 2 * k)%nat ->
  reverseSegment k (A ++ mid ++ B) (length A) (length A + length mid - 1) =
  A ++ rev mid ++ B.
Proof.
  induction k as [|k IH]; intros A mid B Hk.
  - destruct mid; [reflexivity|simpl in Hk; lia].
  - simpl reverseSegment.
    destruct (list_ends mid) as [->|[[a ->]|(p & m & q & ->)]].
    + simpl. replace (length A + 0 - 1)%nat with (length A - 1)%nat by lia.
      destruct (Nat.ltb_spec (length A) (length A - 1)); [lia|reflexivity].
    + simpl. replace (length A + 1 - 1)%nat with (length A) by lia.
      rewrite Nat.ltb_irrefl. reflexivity.
    + simpl length. rewrite length_app. simpl length.
      destruct (Nat.ltb_spec (length A) (length A + S (length m + 1) - 1));
        [|lia].
      replace (length A + S (length m + 1) - 1)%nat
        with (length A + length m + 1)%nat by lia.
      replace (A ++ (p :: m ++ [q]) ++ B) with (A ++ p :: m ++ q :: B)
        by (simpl; rewrite <- app_assoc; reflexivity).
      rewrite swap_ends.
      replace (A ++ q :: m ++ p :: B) with ((A ++ [q]) ++ m ++ (p :: B))
        by (rewrite <- app_assoc; reflexivity).
      replace (S (length A)) with (length (A ++ [q]))
        by (rewrite length_app; simpl; lia).
      replace (length A + length m + 1 - 1)%nat
        with (length (A ++ [q]) + length m - 1)%nat
        by (rewrite length_app; simpl; lia).
      rewrite IH.
      * simpl. rewrite rev_app_distr. simpl.
        rewrite <- !app_assoc. reflexivity.
      * simpl in Hk. rewrite length_app in Hk. simpl in Hk. lia.
Qed.

Lemma path_split (path : list Point) (i j : nat) :
  (i < j)%nat -> (j < length path)%nat ->
  exists A a mid rest,
    path = A ++ a :: mid ++ rest /\ length A = i /\ length mid = (j - i)%nat.
Proof.
  intros Hij Hj.
  exists (firstn i path), (pt path i),
         (firstn (j - i) (skipn (S i) path)),
         (skipn (j - i) (skipn (S i) path)).
  split; [|split].
  - rewrite firstn_skipn.
    rewrite <- (firstn_skipn i path) at 1. f_equal.
    assert (Hi : (i < length path)%nat) by lia.
    clear Hij Hj. revert i Hi.
    induction path as [|h t IH]; intros [|i] Hi; simpl in *; try lia.
    + reflexivity.
    + apply IH. lia.
  - apply firstn_length_le. lia.
  - rewrite firstn_length_le; [reflexivity|]. rewrite length_skipn. lia.
Qed.

Ltac norm_app := repeat (progress (cbn [app]; rewrite <- ?app_assoc)).

Lemma pt_at (path l1 l2 : list Point) (a : Point) (k : nat) :
  path = l1 ++ a :: l2 -> length l1 = k -> pt path k = a.
Proof. intros -> <-. apply pt_middle. Qed.

Lemma routeLength_segment (A m Z : list Point) (a b c d : Point) :
  routeLength (A ++ a :: (b :: m ++ [c]) ++ d :: Z) =
  routeLength (A ++ [a]) + distance a b + routeLength (b :: m ++ [c])
  + distance c d + routeLength (d :: Z).
Proof.
  rewrite (routeLength_app A ((b :: m ++ [c]) ++ d :: Z) a).
  change (routeLength (a :: (b :: m ++ [c]) ++ d :: Z))
    with (distance a b + routeLength ((b :: m ++ [c]) ++ d :: Z)).
  replace ((b :: m ++ [c]) ++ d :: Z) with ((b :: m) ++ c :: d :: Z)
    by (simpl; rewrite <- app_assoc; reflexivity).
  rewrite (routeLength_app (b :: m) (d :: Z) c).
  change (routeLength (c :: d :: Z)) with (distance c d + routeLength (d :: Z)).
  change ((b :: m) ++ [c]) with (b :: m ++ [c]).
  lra.
Qed.

(** One 2-opt move keeps the points and the start, and shortens the
    closed tour. *)
Lemma twoOptStep_inv (path : list Point) (improved : bool) (i j : nat) :
  (i + 2 <= j)%nat -> (j < length path)%nat ->
  optInv path (twoOptStep i j (path, improved)).
Proof.
  intros Hij Hj. unfold twoOptStep.
  destruct (Rltb _ _) eqn:Hlt.
  2:{ repeat split; simpl; auto. lra. }
  apply Rltb_true in Hlt.
  destruct (path_split path i j) as (A & a & mid & rest & Hp & HA & Hmid);
    [lia|lia|].
  destruct (list_ends mid) as [->|[[b ->]|(b & m & c & ->)]];
    [simpl in Hmid; lia|simpl in Hmid; lia|].
  simpl in Hmid. rewrite length_app in Hmid. simpl in Hmid.
  assert (Ha : pt path i = a) by (apply (pt_at _ A _ _ _ Hp HA)).
  assert (Hb : pt path (i + 1) = b).
  { apply (pt_at _ (A ++ [a]) ((m ++ [c]) ++ rest)).
    - rewrite Hp. norm_app. reflexivity.
    - rewrite length_app. simpl. lia. }
  assert (Hc : pt path j = c).
  { apply (pt_at _ (A ++ a :: b :: m) rest).
    - rewrite Hp. norm_app. reflexivity.
    - rewrite length_app. simpl. lia. }
  assert (Hlen : length path = (j + 1 + length rest)%nat).
  { rewrite Hp. rewrite length_app. simpl. rewrite !length_app. simpl. lia. }
  assert (Hd : exists d Z, rest ++ [pt path 0] = d :: Z /\
                (if (j + 1 <? length path)%nat then pt path (j + 1)
                 else pt path 0) = d).
  { destruct rest as [|r0 rest'].
    - exists (pt path 0), []. split; [reflexivity|].
      destruct (Nat.ltb_spec (j + 1) (length path)); [simpl in Hlen; lia|].
      reflexivity.
    - exists r0, (rest' ++ [pt path 0]). split; [reflexivity|].
      destruct (Nat.ltb_spec (j + 1) (length path)); [|simpl in Hlen; lia].
      apply (pt_at _ (A ++ a :: b :: m ++ [c]) rest').
      + rewrite Hp. norm_app. reflexivity.
      + rewrite length_app. simpl. rewrite length_app. simpl. lia. }
  destruct Hd as (d & Z & HZ & Hd).
  rewrite Ha, Hb, Hc, Hd in Hlt.
  assert (Hrev : reverseSegment (length path) path (i + 1) j =
                 A ++ a :: rev (b :: m ++ [c]) ++ rest).
  { pose proof (reverseSegment_rev (length path) (A ++ [a]) (b :: m ++ [c])
                  rest) as H.
    replace (length (A ++ [a])) with (i + 1)%nat in H
      by (rewrite length_app; simpl; lia).
    replace (i + 1 + length (b :: m ++ [c]) - 1)%nat with j in H
      by (simpl; rewrite length_app; simpl; lia).
    replace ((A ++ [a]) ++ (b :: m ++ [c]) ++ rest) with path in H
      by (rewrite Hp; norm_app; reflexivity).
    rewrite H; [norm_app; reflexivity|].
    rewrite Hlen. simpl. rewrite length_app. simpl. lia. }
  rewrite Hrev. unfold optInv. cbn [fst].
  assert (H0 : pt (A ++ a :: rev (b :: m ++ [c]) ++ rest) 0 = pt path 0).
  { rewrite Hp. destruct A; reflexivity. }
  split; [|split; [|split]].
  - rewrite Hlen.
    repeat (rewrite length_app || rewrite length_rev || cbn [length]). lia.
  - rewrite Hp. apply Permutation_app_head. apply perm_skip.
    apply Permutation_app_tail. symmetry. apply Permutation_rev.
  - exact H0.
  - unfold cycleLength. rewrite H0.
    assert (Hrm : rev (b :: m ++ [c]) = c :: rev m ++ [b]).
    { simpl. rewrite rev_app_distr. reflexivity. }
    assert (Enew : (A ++ a :: rev (b :: m ++ [c]) ++ rest) ++ [pt path 0] =
                   A ++ a :: (c :: rev m ++ [b]) ++ d :: Z).
    { rewrite Hrm. norm_app. rewrite HZ. reflexivity. }
    assert (Eold : path ++ [pt path 0] =
                   A ++ a :: (b :: m ++ [c]) ++ d :: Z).
    { rewrite Hp at 1. norm_app. rewrite HZ. reflexivity. }
    rewrite Enew, Eold, !routeLength_segment.
    pose proof (routeLength_rev (b :: m ++ [c])) as E3.
    rewrite Hrm in E3. rewrite E3. lra.
Qed.

Lemma optInv_refl (path : list Point) (improved : bool) :
  optInv path (path, improved).
Proof. repeat split; simpl; auto. lra. Qed.

Lemma optInv_trans (p0 p1 : list Point) (b : bool) (st : list Point * bool) :
  optInv p0 (p1, b) -> optInv p1 st -> optInv p0 st.
Proof.
  intros (L1 & P1 & H1 & C1) (L2 & P2 & H2 & C2). simpl in *.
  repeat split.
  - congruence.
  - now transitivity p1.
  - congruence.
  - lra.
Qed.

Lemma twoOptRow_inv (path0 : list Point) (i : nat) (st : list Point * bool) :
  optInv path0 st -> optInv path0 (twoOptRow (length path0) st i).
Proof.
  unfold twoOptRow.
  assert (Hl : forall j, In j (seq (i + 2) (length path0 - (i + 2))) ->
                 (i + 2 <= j)%nat /\ (j < length path0)%nat).
  { intros j Hj. apply in_seq in Hj. lia. }
  revert st Hl.
  induction (seq (i + 2) (length path0 - (i + 2))) as [|j l IH];
    intros st Hl Hst; [exact Hst|].
  simpl. apply IH; [intros k Hk; apply Hl; now right|].
  destruct st as [p b].
  apply (optInv_trans path0 p b); [exact Hst|].
  destruct (Hl j (or_introl eq_refl)) as [H1 H2].
  destruct Hst as [HL _]. simpl in HL.
  apply twoOptStep_inv; lia.
Qed.

Lemma twoOptPass_inv (path : list Point) : optInv path (twoOptPass path).
Proof.
  unfold twoOptPass.
  generalize (optInv_refl path false).
  generalize (path, false) as st.
  induction (seq 0 (length path - 1)) as [|i l IH]; intros st Hst;
    [exact Hst|].
  simpl. apply IH. now apply twoOptRow_inv.
Qed.

Lemma twoOptLoop_inv (k : nat) (path : list Point) :
  optInv path (twoOptLoop k path, true).
Proof.
  revert path. induction k as [|k IH]; intros path; [apply optInv_refl|].
  simpl. pose proof (twoOptPass_inv path) as Hp.
  destruct (twoOptPass path) as [path' improved].
  destruct improved.
  - apply (optInv_trans path path' true); [exact Hp|apply IH].
  - destruct Hp as (H1 & H2 & H3 & H4). repeat split; assumption.
Qed.

(** The 2-opt result on three or more points, from the order of visit
    of its nearest-neighbour seed. *)
Lemma twoOpt_spec (clk : nat -> R) (points : list Point) (t : nat) :
  (3 <= length points)%nat ->
  exists order tour,
    Permutation order (seq 0 (length points)) /\
    hd_error order = Some 0%nat /\
    solveTSPNearestNeighbor clk points (S t) =
      Ok (mkRouteResult (map (pt points) order ++ [pt points 0])
            (Fin (routeLength (map (pt points) order ++ [pt points 0])))
            (clk (S (S t)) - clk (S t)) "Nearest Neighbor (Greedy)")
         (S (S (S t))) /\
    optInv (map (pt points) order) (tour, true) /\
    solveTSP2Opt clk points t =
      Ok (mkRouteResult (tour ++ [pt points 0])
            (Fin (routeLength (tour ++ [pt points 0])))
            (clk (S (S (S t))) - clk t) "2-Opt Local Search")
         (S (S (S (S t)))).
Proof.
  intros Hn.
  destruct (nn_spec clk points (S t)) as (order & Hperm & Hhd & Hnn); [lia|].
  exists order, (twoOptLoop maxIterations (map (pt points) order)).
  pose proof (twoOptLoop_inv maxIterations (map (pt points) order)) as Hinv.
  split; [exact Hperm|]. split; [exact Hhd|]. split; [exact Hnn|].
  split; [exact Hinv|].
  unfold solveTSP2Opt, bind, now.
  destruct (Nat.leb_spec (length points) 2); [lia|].
  rewrite Hnn. cbn [path]. rewrite removelast_last.
  unfold ret. rewrite calculateRouteDistance_routeLength.
  destruct Hinv as (_ & _ & H0 & _). cbn [fst] in H0. rewrite H0.
  assert (E : pt (map (pt points) order) 0 = pt points 0).
  { destruct order as [|o order]; [discriminate|].
    simpl in Hhd. injection Hhd as ->. reflexivity. }
  rewrite E. reflexivity.
Qed.

(** ** Christofides: Prim's minimum spanning tree *)

Lemma nltb_Infinity_false (a : number) :
  nltb a Infinity = false -> a = Infinity.
Proof. destruct a; [discriminate|reflexivity]. Qed.

Lemma nltb_true_Fin (a b : number) : nltb a b = true -> a <> Infinity.
Proof. destruct a; [discriminate|]. simpl. discriminate. Qed.

Lemma primPick_inv (n : nat) (inMST : list bool) (key : list number)
  (l : list nat) (st : option nat * number) :
  (forall i, In i l -> (i < n)%nat) ->
  pickInv n inMST key st ->
  pickInv n inMST key (fold_left (primPickStep inMST key) l st).
Proof.
  revert st. induction l as [|a l IH]; intros st Hl Hst; [exact Hst|].
  simpl. apply IH; [intros i Hi; apply Hl; now right|].
  destruct st as [u minKey]. unfold primPickStep.
  destruct (nth a inMST false) eqn:Hin; cbn [negb andb]; [exact Hst|].
  destruct (nltb (nth a key Infinity) minKey) eqn:Hlt; [|exact Hst].
  simpl. repeat split; auto.
  - apply Hl. now left.
  - eapply nltb_true_Fin. exact Hlt.
Qed.

Lemma primPick_none (inMST : list bool) (key : list number)
  (l : list nat) (st : option nat * number) :
  (fst st = None -> snd st = Infinity) ->
  fst (fold_left (primPickStep inMST key) l st) = None ->
  fst st = None /\
  forall i, In i l ->
    nth i inMST false = true \/ nth i key Infinity = Infinity.
Proof.
  revert st. induction l as [|a l IH]; intros st Hst Hnone.
  - split; [exact Hnone|intros i []].
  - simpl in Hnone. apply IH in Hnone.
    + destruct Hnone as [H1 H2].
      destruct st as [u minKey]. unfold primPickStep in H1.
      destruct (nth a inMST false) eqn:Hin; cbn [negb andb] in H1.
      * split; [exact H1|]. intros i [<-|Hi]; auto.
      * destruct (nltb (nth a key Infinity) minKey) eqn:Hlt;
          [discriminate|].
        simpl in H1. split; [exact H1|].
        intros i [<-|Hi]; auto.
        right. simpl in Hst. rewrite Hst in Hlt by exact H1.
        now apply nltb_Infinity_false.
    + destruct st as [u minKey]. unfold primPickStep.
      destruct (negb (nth a inMST false) && nltb (nth a key Infinity) minKey);
        [discriminate|exact Hst].
Qed.

Lemma primPick_spec (n : nat) (inMST : list bool) (key : list number) :
  match fst (primPick n inMST key) with
  | Some u =>
    (u < n)%nat /\ nth u inMST false = false /\ nth u key Infinity <> Infinity
  | None =>
    forall v, (v < n)%nat ->
      nth v inMST false = true \/ nth v key Infinity = Infinity
  end.
Proof.
  unfold primPick.
  pose proof (primPick_inv n inMST key (seq 0 n) (None, Infinity)) as Hinv.
  pose proof (primPick_none inMST key (seq 0 n) (None, Infinity)) as Hnone.
  destruct (fold_left _ _ _) as [[u|] m]; cbn [fst].
  - destruct Hinv as (H1 & H2 & H3 & H4);
      [intros i Hi; apply in_seq in Hi; lia|reflexivity|].
    subst m. auto.
  - destruct Hnone as [_ H]; [reflexivity|reflexivity|].
    intros v Hv. apply H, in_seq. lia.
Qed.

Lemma primRelaxStep_inv (points : list Point) (n u : nat) (inMST : list bool)
  (st : list number * list (option nat)) (v : nat) :
  (u < n)%nat -> nth u inMST false = true ->
  relaxInv n inMST st -> relaxInv n inMST (primRelaxStep points u inMST st v).
Proof.
  intros Hu Hin Hst. destruct st as [key parent]. unfold primRelaxStep.
  destruct (nth v inMST false) eqn:Hv; cbn [negb]; [exact Hst|].
  destruct (nltb _ (nth v key Infinity)) eqn:Hlt; [|exact Hst].
  destruct Hst as (L1 & L2 & HP & HK). cbn [fst snd] in *.
  unfold relaxInv. cbn [fst snd]. rewrite !upd_length.
  repeat split; auto.
  - destruct (Nat.eq_dec v v0) as [<-|Hne].
    + destruct (Nat.lt_ge_cases v (length parent)) as [Hlt'|Hge].
      * rewrite nth_upd_eq in H by exact Hlt'. injection H as <-. exact Hu.
      * rewrite nth_overflow in H; [discriminate|]. rewrite upd_length. lia.
    + rewrite nth_upd_neq in H by exact Hne. apply (HP _ _ H).
  - destruct (Nat.eq_dec v v0) as [<-|Hne].
    + destruct (Nat.lt_ge_cases v (length parent)) as [Hlt'|Hge].
      * rewrite nth_upd_eq in H by exact Hlt'. injection H as <-. exact Hin.
      * rewrite nth_overflow in H; [discriminate|]. rewrite upd_length. lia.
    + rewrite nth_upd_neq in H by exact Hne. apply (HP _ _ H).
  - intros v0 Hv0 Hin0 Hk.
    destruct (Nat.eq_dec v v0) as [<-|Hne].
    + right. exists u. apply nth_upd_eq. lia.
    + rewrite nth_upd_neq in Hk by exact Hne.
      rewrite nth_upd_neq by exact Hne. auto.
Qed.

(** The entries the update leaves alone, and the keys it makes finite. *)
Lemma primRelaxStep_frame (points : list Point) (u : nat) (inMST : list bool)
  (st : list number * list (option nat)) (v w : nat) :
  (nth w inMST false = true ->
   nth w (snd (primRelaxStep points u inMST st v)) None = nth w (snd st) None)
  /\ (nth w (fst st) Infinity <> Infinity ->
      nth w (fst (primRelaxStep points u inMST st v)) Infinity <> Infinity)
  /\ (w = v -> (v < length (fst st))%nat -> nth v inMST false = false ->
      nth w (fst (primRelaxStep points u inMST st v)) Infinity <> Infinity).
Proof.
  destruct st as [key parent]. unfold primRelaxStep. cbn [fst snd].
  destruct (nth v inMST false) eqn:Hv; cbn [negb fst snd].
  - repeat split; auto. intros _ _ H. discriminate.
  - destruct (nltb _ (nth v key Infinity)) eqn:Hlt; cbn [fst snd].
    + repeat split.
      * intros Hw. apply nth_upd_neq. congruence.
      * intros Hk. destruct (Nat.eq_dec v w) as [<-|Hne].
        -- destruct (Nat.lt_ge_cases v (length key)).
           ++ rewrite nth_upd_eq by assumption. discriminate.
           ++ rewrite nth_overflow in Hk; [congruence|lia].
        -- rewrite nth_upd_neq by exact Hne. exact Hk.
      * intros -> Hl _. rewrite nth_upd_eq by exact Hl. discriminate.
    + repeat split; auto.
      intros -> _ _ E. rewrite E in Hlt. discriminate.
Qed.

Lemma primRelax_spec (points : list Point) (u : nat) (inMST : list bool)
  (key : list number) (parent : list (option nat)) :
  let n := length points in
  (u < n)%nat -> nth u inMST false = true ->
  relaxInv n inMST (key, parent) ->
  let st' := primRelax points u inMST (key, parent) in
  relaxInv n inMST st' /\
  (forall w, nth w inMST false = true ->
             nth w (snd st') None = nth w parent None) /\
  (forall w, (w < n)%nat ->
             nth w inMST false = false \/ nth w key Infinity <> Infinity ->
             nth w (fst st') Infinity <> Infinity).
Proof.
  intros n Hu Hin Hst. unfold primRelax.
  assert (Hgen : forall l st,
    relaxInv n inMST st ->
    relaxInv n inMST (fold_left (primRelaxStep points u inMST) l st) /\
    (forall w, nth w inMST false = true ->
       nth w (snd (fold_left (primRelaxStep points u inMST) l st)) None
       = nth w (snd st) None) /\
    (forall w, (w < n)%nat ->
       (In w l /\ nth w inMST false = false) \/
       nth w (fst st) Infinity <> Infinity ->
       nth w (fst (fold_left (primRelaxStep points u inMST) l st)) Infinity
       <> Infinity)).
  { induction l as [|a l IH]; intros st Hi.
    - simpl. split; [exact Hi|]. split; [reflexivity|].
      intros w Hw [[[] _]|H]. exact H.
    - simpl.
      pose proof (primRelaxStep_inv points n u inMST st a Hu Hin Hi) as Hi'.
      destruct (IH _ Hi') as (I1 & I2 & I3).
      split; [exact I1|]. split.
      + intros w Hw. rewrite I2 by exact Hw.
        apply (primRelaxStep_frame points u inMST st a w). exact Hw.
      + intros w Hw Hc. apply I3; [exact Hw|].
        destruct (primRelaxStep_frame points u inMST st a w) as (_ & F2 & F3).
        destruct Hc as [[[<-|Hl] Hm]|Hk].
        * right. apply F3; auto. destruct Hi as (L1 & _). lia.
        * left. auto.
        * right. auto. }
  destruct (Hgen (seq 0 n) (key, parent) Hst) as (G1 & G2 & G3).
  split; [exact G1|]. split; [exact G2|].
  intros w Hw [Hm|Hk]; apply G3; auto.
  left. split; [apply in_seq; lia|exact Hm].
Qed.

Lemma tree_mono (inMST inMST' : list bool) (parent parent' : list (option nat))
  (v : nat) :
  (forall w, nth w inMST false = true ->
     nth w inMST' false = true /\ nth w parent' None = nth w parent None) ->
  tree inMST parent v -> tree inMST' parent' v.
Proof.
  intros H Ht. induction Ht as [|v p Hv Hp _ IH]; [constructor|].
  destruct (H v Hv) as [H1 H2].
  apply (tree_step _ _ v p); [exact H1|congruence|exact IH].
Qed.

Lemma treeSize_upd (u : nat) (inMST : list bool) :
  (u < length inMST)%nat -> nth u inMST false = false ->
  treeSize (upd u true inMST) = S (treeSize inMST).
Proof.
  unfold treeSize. revert u.
  induction inMST as [|b l IH]; intros [|u] Hu Hn; simpl in *; try lia.
  - subst b. reflexivity.
  - destruct b; simpl; rewrite IH; auto; lia.
Qed.

Lemma treeSize_full (inMST : list bool) :
  (length inMST <= treeSize inMST)%nat ->
  forall v, (v < length inMST)%nat -> nth v inMST false = true.
Proof.
  unfold treeSize.
  induction inMST as [|b l IH]; intros Hle v Hv; simpl in *; [lia|].
  pose proof (filter_length_le (fun b : bool => b) l) as Hf.
  destruct b; simpl in Hle; [|lia].
  destruct v as [|v]; [reflexivity|]. apply IH; lia.
Qed.

Lemma nth_true_lt (l : list bool) (v : nat) :
  nth v l false = true -> (v < length l)%nat.
Proof.
  intros H. destruct (Nat.lt_ge_cases v (length l)) as [|Hge]; [assumption|].
  rewrite nth_overflow in H by exact Hge. discriminate.
Qed.

Lemma nth_upd_true (u w : nat) (l : list bool) :
  nth w l false = true -> nth w (upd u true l) false = true.
Proof.
  intros H. destruct (Nat.eq_dec u w) as [<-|Hne].
  - apply nth_upd_eq. now apply nth_true_lt.
  - now rewrite nth_upd_neq.
Qed.

Lemma primLoop_spec (points : list Point) (k : nat) :
  forall inMST key parent,
  let n := length points in
  primInv n inMST key parent ->
  (n <= k + treeSize inMST)%nat ->
  exists inMST',
    length inMST' = n /\
    (forall v, (v < n)%nat -> nth v inMST' false = true) /\
    (forall v, (v < n)%nat ->
       tree inMST' (primLoop k points inMST key parent) v).
Proof.
  induction k as [|k IH]; intros inMST key parent n Hinv Hk.
  - destruct Hinv as (HL & _ & Ht & _).
    exists inMST. split; [exact HL|].
    assert (Hall : forall v, (v < n)%nat -> nth v inMST false = true).
    { intros v Hv. apply treeSize_full; lia. }
    split; [exact Hall|]. intros v Hv. apply Ht, Hall, Hv.
  - simpl. pose proof (primPick_spec n inMST key) as Hpick.
    fold n. destruct (primPick n inMST key) as [[u|] m]; cbn [fst] in Hpick.
    + destruct Hpick as (Hu & Hnu & Hku).
      destruct Hinv as (HL & Hrel & Ht & Hfin).
      set (inMST1 := upd u true inMST).
      assert (Hu1 : nth u inMST1 false = true).
      { apply nth_upd_eq. lia. }
      assert (Hmono : forall w, nth w inMST false = true ->
                                nth w inMST1 false = true).
      { intros w. apply nth_upd_true. }
      assert (Hrel1 : relaxInv n inMST1 (key, parent)).
      { destruct Hrel as (L1 & L2 & HP & HK). repeat split; auto.
        - apply (HP _ _ H).
        - apply Hmono, (HP _ _ H).
        - intros v Hv Hm Hkv. apply HK; auto.
          destruct (nth v inMST false) eqn:E; [|reflexivity].
          apply Hmono in E. congruence. }
      destruct (primRelax_spec points u inMST1 key parent Hu Hu1 Hrel1)
        as (Hrel' & Hframe & Hkeys).
      destruct (primRelax points u inMST1 (key, parent)) as [key' parent']
        eqn:Hrelax.
      cbn [fst snd] in *.
      apply IH.
      * split; [unfold inMST1; rewrite upd_length; exact HL|].
        split; [exact Hrel'|]. split.
        -- intros v Hv.
           assert (Hold : forall w, nth w inMST false = true ->
                                    tree inMST1 parent' w).
           { intros w Hw. apply (tree_mono inMST inMST1 parent parent').
             - intros w' Hw'. split; [now apply Hmono|].
               apply Hframe. now apply Hmono.
             - now apply Ht. }
           destruct (Nat.eq_dec v u) as [->|Hne].
           ++ destruct (Nat.eq_dec u 0) as [->|Hu0]; [constructor|].
              destruct Hrel as (_ & _ & HP & HK).
              destruct (HK u Hu Hnu Hku) as [|[p Hp]]; [contradiction|].
              apply (tree_step _ _ u p); [exact Hu1| |].
              ** rewrite Hframe by exact Hu1. exact Hp.
              ** apply Hold. apply (HP _ _ Hp).
           ++ apply Hold. unfold inMST1 in Hv.
              rewrite nth_upd_neq in Hv by congruence. exact Hv.
        -- intros v Hv Hm _. apply Hkeys; auto.
      * unfold inMST1. rewrite treeSize_upd; [lia|lia|exact Hnu].
    + destruct Hinv as (HL & _ & Ht & Hfin).
      exists inMST. split; [exact HL|].
      assert (Hall : forall v, (v < n)%nat -> nth v inMST false = true).
      { assert (H0 : (0 < n)%nat -> nth 0 inMST false = true).
        { intros Hn. destruct (nth 0 inMST false) eqn:E; [reflexivity|].
          destruct (Hpick 0%nat Hn) as [H|H]; [congruence|].
          exfalso. apply (Hfin 0%nat Hn E); auto. }
        intros v Hv. destruct (nth v inMST false) eqn:E; [reflexivity|].
        destruct (Hpick v Hv) as [H|H]; [congruence|].
        exfalso. apply (Hfin v Hv E); [|exact H]. right. apply H0. lia. }
      split; [exact Hall|]. intros v Hv. apply Ht, Hall, Hv.
Qed.

Lemma nth_repeat_any {A : Type} (a d : A) (n i : nat) :
  (i < n)%nat -> nth i (repeat a n) d = a.
Proof.
  revert i. induction n as [|n IH]; intros [|i] Hi; simpl; try lia; auto.
  apply IH. lia.
Qed.

Lemma primMST_spanning (points : list Point) :
  spanning (length points) (primMST points).
Proof.
  unfold primMST. set (n := length points).
  destruct (primLoop_spec points n (repeat false n)
              (upd 0 (Fin 0) (repeat Infinity n)) (repeat None n))
    as (inMST' & HL & Hall & Htree).
  { split; [apply repeat_length|]. split; [|split].
    - unfold relaxInv. cbn [fst snd].
      rewrite upd_length, !repeat_length. repeat split; auto.
      + rewrite nth_repeat in H. discriminate.
      + rewrite nth_repeat in H. discriminate.
      + intros v Hv _ Hk. destruct v as [|v]; [now left|].
        rewrite nth_upd_neq, nth_repeat in Hk by lia. congruence.
    - intros v Hv. rewrite nth_repeat in Hv. discriminate.
    - intros v Hv _ [->|H0].
      + rewrite nth_upd_eq by (rewrite repeat_length; exact Hv). discriminate.
      + rewrite nth_repeat in H0. discriminate. }
  { lia. }
  fold n in Htree.
  set (parent := primLoop n points (repeat false n)
                   (upd 0 (Fin 0) (repeat Infinity n)) (repeat None n)) in *.
  assert (Hin : forall p i, In (p, i)
      (flat_map (fun i => match nth i parent None with
                          | Some p => [(p, i)]
                          | None => []
                          end) (seq 1 (n - 1))) <->
      ((1 <= i < n)%nat /\ nth i parent None = Some p)).
  { intros p i. rewrite in_flat_map. split.
    - intros (j & Hj & Hi). apply in_seq in Hj.
      destruct (nth j parent None) as [q|] eqn:E; [|destruct Hi].
      destruct Hi as [Hi|[]]. injection Hi as -> ->. split; [lia|exact E].
    - intros [Hi Hp]. exists i. split; [apply in_seq; lia|].
      rewrite Hp. now left. }
  assert (Hrange : forall v p, (v < n)%nat -> nth v parent None = Some p ->
                     tree inMST' parent v -> (p < n)%nat \/ v = 0%nat).
  { intros v p Hv Hp Ht. inversion Ht as [|v' p' H1 H2 H3]; subst.
    - now right.
    - left. rewrite Hp in H2. injection H2 as <-.
      inversion H3 as [|v'' p'' H4 _ _]; subst; [lia|].
      apply nth_true_lt in H4. lia. }
  split.
  - intros p i Hpi. apply Hin in Hpi. destruct Hpi as [Hi Hp].
    split; [|lia].
    destruct (Hrange i p) as [H|H]; auto; [lia|apply Htree; lia|lia].
  - intros P H0 Hstep v Hv.
    specialize (Htree v Hv).
    induction Htree as [|v p H1 H2 H3 IH]; [exact H0|].
    destruct (Nat.eq_dec v 0) as [->|Hne]; [exact H0|].
    apply nth_true_lt in H1.
    apply (Hstep p v).
    + apply Hin. split; [lia|exact H2].
    + apply IH. inversion H3 as [|v' p' H4 _ _]; subst; [lia|].
      apply nth_true_lt in H4. lia.
Qed.

(** ** Christofides: vertices of odd degree *)

Lemma incr_length (i : nat) (degrees : list nat) :
  length (incr i degrees) = length degrees.
Proof. apply upd_length. Qed.

Lemma list_sum_upd (i v : nat) (l : list nat) :
  (i < length l)%nat ->
  (list_sum (upd i v l) + nth i l 0 = list_sum l + v)%nat.
Proof.
  revert i. induction l as [|h t IH]; intros [|i] Hi; simpl in *; try lia.
  specialize (IH i). lia.
Qed.

Lemma incr_sum (i : nat) (degrees : list nat) :
  (i < length degrees)%nat ->
  list_sum (incr i degrees) = S (list_sum degrees).
Proof.
  intros Hi. unfold incr.
  pose proof (list_sum_upd i (nth i degrees 0 + 1)%nat degrees Hi). lia.
Qed.

(** Handshake: the degrees add up to twice the number of edges. *)
Lemma mstDegrees_sum (n : nat) (mst : list edge) :
  (forall p i, In (p, i) mst -> (p < n)%nat /\ (i < n)%nat) ->
  length (mstDegrees n mst) = n /\
  list_sum (mstDegrees n mst) = (2 * length mst)%nat.
Proof.
  intros Hr. unfold mstDegrees.
  assert (Hgen : forall l degrees,
    (forall p i, In (p, i) l -> (p < n)%nat /\ (i < n)%nat) ->
    length degrees = n ->
    length (fold_left (fun degrees (e : edge) =>
                         incr (snd e) (incr (fst e) degrees)) l degrees) = n /\
    list_sum (fold_left (fun degrees (e : edge) =>
                         incr (snd e) (incr (fst e) degrees)) l degrees)
    = (list_sum degrees + 2 * length l)%nat).
  { induction l as [|[p i] l IH]; intros degrees Hl Hd; simpl.
    - split; [exact Hd|lia].
    - destruct (Hl p i (or_introl eq_refl)) as [Hp Hi].
      destruct (IH (incr i (incr p degrees))) as [I1 I2].
      + intros q j Hq. apply Hl. now right.
      + rewrite !incr_length. exact Hd.
      + split; [exact I1|]. rewrite I2.
        rewrite !incr_sum; rewrite ?incr_length; lia. }
  destruct (Hgen mst (repeat 0%nat n) Hr (repeat_length _ _)) as [G1 G2].
  split; [exact G1|]. rewrite G2.
  assert (E : list_sum (repeat 0%nat n) = 0%nat).
  { clear. induction n; simpl; auto. }
  rewrite E. reflexivity.
Qed.

Lemma mod2_odd (a : nat) : (a mod 2 =? 1)%nat = negb (Nat.even a).
Proof.
  destruct (Nat.even a) eqn:E; cbn [negb].
  - apply Nat.even_spec in E. destruct E as [k ->].
    rewrite Nat.mul_comm, Nat.Div0.mod_mul. reflexivity.
  - assert (O : Nat.odd a = true) by (unfold Nat.odd; now rewrite E).
    clear E.
    apply Nat.odd_spec in O. destruct O as [k ->].
    rewrite Nat.add_comm, Nat.mul_comm, Nat.Div0.mod_add. reflexivity.
Qed.

Lemma odd_count_parity (l : list nat) :
  Nat.even (length (filter (fun d => (d mod 2 =? 1)%nat) l))
  = Nat.even (list_sum l).
Proof.
  induction l as [|a l IH]; [reflexivity|].
  cbn [filter].
  change (list_sum (a :: l)) with (a + list_sum l)%nat.
  rewrite Nat.even_add, mod2_odd.
  destruct (Nat.even a); cbn [negb].
  - rewrite IH. destruct (Nat.even (list_sum l)); reflexivity.
  - cbn [length]. rewrite Nat.even_succ, <- Nat.negb_even, IH.
    destruct (Nat.even (list_sum l)); reflexivity.
Qed.

Lemma filter_index_length (f : nat -> bool) (l : list nat) (k : nat) :
  length (filter (fun i => f (nth (i - k) l 0%nat)) (seq k (length l)))
  = length (filter f l).
Proof.
  revert k. induction l as [|a l IH]; intros k; [reflexivity|].
  cbn [length seq filter].
  assert (E : filter (fun i => f (nth (i - k) (a :: l) 0%nat))
                     (seq (S k) (length l))
              = filter (fun i => f (nth (i - S k) l 0%nat))
                       (seq (S k) (length l))).
  { apply filter_ext_in. intros i Hi. apply in_seq in Hi.
    replace (i - k)%nat with (S (i - S k)) by lia. reflexivity. }
  rewrite E, Nat.sub_diag. cbn [nth].
  destruct (f a); cbn [length]; rewrite IH; reflexivity.
Qed.

Lemma oddVertices_length (degrees : list nat) :
  length (oddVerticesOf (length degrees) degrees)
  = length (filter (fun d => (d mod 2 =? 1)%nat) degrees).
Proof.
  unfold oddVerticesOf.
  rewrite <- (filter_index_length (fun d => (d mod 2 =? 1)%nat) degrees 0).
  f_equal. apply filter_ext. intros i. now rewrite Nat.sub_0_r.
Qed.

Lemma oddVertices_even (n : nat) (mst : list edge) :
  (forall p i, In (p, i) mst -> (p < n)%nat /\ (i < n)%nat) ->
  Nat.even (length (oddVerticesOf n (mstDegrees n mst))) = true.
Proof.
  intros Hr. destruct (mstDegrees_sum n mst Hr) as [HL HS].
  rewrite <- HL at 1. rewrite oddVertices_length, odd_count_parity, HS.
  rewrite Nat.even_mul. reflexivity.
Qed.

(** ** Christofides: greedy matching *)

Lemma closestPairStep_inv (points : list Point) (availArray : list nat)
  (i j : nat) (st : option edge * number) :
  (i < length availArray)%nat -> (j < length availArray)%nat ->
  pairInv availArray st ->
  pairInv availArray (closestPairStep points availArray i st j) /\
  fst (closestPairStep points availArray i st j) <> None.
Proof.
  intros Hi Hj Hst. destruct st as [bestPair minDist].
  unfold closestPairStep.
  destruct (nltb _ minDist) eqn:Hlt.
  - split; [|discriminate]. unfold pairInv. cbn [fst].
    split; apply nth_In; assumption.
  - split; [exact Hst|]. unfold pairInv in Hst. cbn [fst snd] in *.
    destruct bestPair; [discriminate|]. subst minDist.
    rewrite nltb_Infinity in Hlt. discriminate.
Qed.

Lemma closestPairRow_inv (points : list Point) (availArray : list nat)
  (i : nat) (st : option edge * number) :
  (i < length availArray)%nat ->
  pairInv availArray st ->
  pairInv availArray (closestPairRow points availArray st i) /\
  ((S i < length availArray)%nat \/ fst st <> None ->
   fst (closestPairRow points availArray st i) <> None).
Proof.
  intros Hi Hst. unfold closestPairRow.
  assert (Hgen : forall l st,
    (forall j, In j l -> (j < length availArray)%nat) ->
    pairInv availArray st ->
    pairInv availArray (fold_left (closestPairStep points availArray i) l st)
    /\ (l <> [] \/ fst st <> None ->
        fst (fold_left (closestPairStep points availArray i) l st) <> None)).
  { induction l as [|j l IH]; intros st0 Hl Hst0.
    - split; [exact Hst0|]. intros [H|H]; [congruence|exact H].
    - simpl.
      destruct (closestPairStep_inv points availArray i j st0 Hi
                  (Hl j (or_introl eq_refl)) Hst0) as [H1 H2].
      destruct (IH (closestPairStep points availArray i st0 j)) as [I1 I2];
        [intros k Hk; apply Hl; now right|exact H1|].
      split; [exact I1|]. intros _. apply I2. now right. }
  destruct (Hgen (seq (i + 1) (length availArray - (i + 1))) st) as [G1 G2].
  - intros j Hj. apply in_seq in Hj. lia.
  - exact Hst.
  - split; [exact G1|]. intros [H|H]; apply G2; [left|now right].
    destruct (length availArray - (i + 1))%nat eqn:E; [lia|discriminate].
Qed.

(** With two or more vertices left the search finds a pair of them. *)
Lemma closestPair_spec (points : list Point) (availArray : list nat) :
  (2 <= length availArray)%nat ->
  exists a b m, closestPair points availArray = (Some (a, b), m) /\
                In a availArray /\ In b availArray.
Proof.
  intros Hlen. unfold closestPair.
  assert (Hgen : forall l st,
    (forall i, In i l -> (i < length availArray)%nat) ->
    pairInv availArray st ->
    pairInv availArray (fold_left (closestPairRow points availArray) l st)
    /\ ((exists i, In i l /\ (S i < length availArray)%nat)
        \/ fst st <> None ->
        fst (fold_left (closestPairRow points availArray) l st) <> None)).
  { induction l as [|i l IH]; intros st Hl Hst.
    - split; [exact Hst|]. intros [(i & [] & _)|H]. exact H.
    - simpl.
      destruct (closestPairRow_inv points availArray i st
                  (Hl i (or_introl eq_refl)) Hst) as [H1 H2].
      destruct (IH (closestPairRow points availArray st i)) as [I1 I2];
        [intros k Hk; apply Hl; now right|exact H1|].
      split; [exact I1|].
      intros [(k & [<-|Hk] & Hlt)|H]; apply I2.
      + right. apply H2. now left.
      + left. eauto.
      + right. apply H2. now right. }
  destruct (Hgen (seq 0 (length availArray)) (None, Infinity)) as [G1 G2].
  - intros i Hi. apply in_seq in Hi. lia.
  - reflexivity.
  - destruct (fold_left _ _ _) as [[[a b]|] m].
    + exists a, b, m. split; [reflexivity|exact G1].
    + exfalso. apply G2; [|reflexivity].
      left. exists 0%nat. split; [apply in_seq|]; lia.
Qed.

Lemma set_remove_length (a : nat) (l : list nat) :
  In a l -> S (length (delete a l)) = length l.
Proof.
  unfold delete. induction l as [|h t IH]; intros Hin; [destruct Hin|].
  simpl. destruct (Nat.eq_dec a h) as [->|Hne]; [reflexivity|].
  simpl. rewrite IH; [reflexivity|]. destruct Hin; congruence.
Qed.

Lemma delete_incl (a v : nat) (l : list nat) : In v (delete a l) -> In v l.
Proof.
  unfold delete. induction l as [|h t IH]; simpl; [auto|].
  destruct (Nat.eq_dec a h); simpl; intuition.
Qed.

Lemma delete_length_le (a : nat) (l : list nat) :
  (length (delete a l) <= length l)%nat.
Proof.
  unfold delete. induction l as [|h t IH]; simpl; [lia|].
  destruct (Nat.eq_dec a h); simpl; lia.
Qed.

(** The matching loop ends, and it pairs vertices it was given. *)
Lemma matchLoop_spec (points : list Point) (k : nat) :
  forall available matching,
  (length available <= k)%nat ->
  exists matching',
    matchLoop k points available matching = Some matching' /\
    forall a b, In (a, b) matching' ->
      In (a, b) matching \/ (In a available /\ In b available).
Proof.
  induction k as [|k IH]; intros available matching Hk.
  - simpl. destruct (Nat.ltb_spec 1 (length available)); [lia|].
    exists matching. auto.
  - simpl. destruct (Nat.ltb_spec 1 (length available)) as [Hlt|Hge].
    + destruct (closestPair_spec points available Hlt)
        as (a & b & m & Hc & Ha & Hb).
      rewrite Hc. cbn [fst snd].
      destruct (IH (delete b (delete a available)) (matching ++ [(a, b)]))
        as (matching' & Hm & Hin).
      { pose proof (set_remove_length a available Ha).
        pose proof (delete_length_le b (delete a available)). lia. }
      exists matching'. split; [exact Hm|].
      intros c d Hcd. destruct (Hin c d Hcd) as [H|[H1 H2]].
      * apply in_app_or in H. destruct H as [H|[H|[]]]; [now left|].
        injection H as <- <-. now right.
      * right. split; eapply delete_incl, delete_incl; eassumption.
    + exists matching. auto.
Qed.

Lemma add_fold_incl (vertices : list nat) :
  forall s v, In v (fold_left (fun s v => add v s) vertices s) ->
              In v s \/ In v vertices.
Proof.
  induction vertices as [|a l IH]; intros s v Hv; [now left|].
  simpl in Hv. apply IH in Hv. destruct Hv as [Hv|Hv]; [|right; now right].
  unfold add in Hv. destruct (has a s); [now left|].
  apply in_app_or in Hv. destruct Hv as [Hv|[<-|[]]]; [now left|].
  right. now left.
Qed.

Lemma add_fold_length (vertices : list nat) :
  forall s, (length (fold_left (fun s v => add v s) vertices s)
             <= length s + length vertices)%nat.
Proof.
  induction vertices as [|a l IH]; intros s; simpl; [lia|].
  specialize (IH (add a s)). unfold add in *.
  destruct (has a s); [lia|]. rewrite length_app in IH. simpl in IH. lia.
Qed.

Lemma matching_spec (points : list Point) (vertices : list nat) :
  exists matching,
    minimumWeightPerfectMatching points vertices = inr matching /\
    forall a b, In (a, b) matching -> In a vertices /\ In b vertices.
Proof.
  unfold minimumWeightPerfectMatching.
  destruct (matchLoop_spec points (length vertices)
              (fold_left (fun s v => add v s) vertices []) [])
    as (matching & Hm & Hin).
  { pose proof (add_fold_length vertices []). simpl in *. lia. }
  rewrite Hm. exists matching. split; [reflexivity|].
  intros a b Hab. destruct (Hin a b Hab) as [[]|[Ha Hb]].
  apply add_fold_incl in Ha, Hb.
  destruct Ha as [[]|Ha], Hb as [[]|Hb]. auto.
Qed.

(** ** Christofides: Hierholzer's tour *)

Lemma list_sum_map_diff (f g : nat -> nat) (k n : nat) :
  (forall i, i <> k -> f i = g i) -> (k < n)%nat ->
  (list_sum (map f (seq 0 n)) + g k = list_sum (map g (seq 0 n)) + f k)%nat.
Proof.
  intros Hfg Hk. induction n as [|n IH]; [lia|].
  rewrite seq_S, !map_app, !list_sum_app. simpl.
  destruct (Nat.eq_dec k n) as [->|Hne].
  - assert (E : map f (seq 0 n) = map g (seq 0 n)).
    { apply map_ext_in. intros i Hi. apply in_seq in Hi. apply Hfg. lia. }
    rewrite E. lia.
  - rewrite (Hfg n) by congruence. lia.
Qed.

Lemma total_adjSet (n k : nat) (adj : adjacency) (l : list nat) :
  (k < n)%nat ->
  (total n (adjSet adj k l) + deg adj k = total n adj + length l)%nat.
Proof.
  intros Hk. unfold total.
  pose proof (list_sum_map_diff (deg (adjSet adj k l)) (deg adj) k n) as H.
  assert (E : deg (adjSet adj k l) k = length l).
  { unfold deg, adjSet. now rewrite Nat.eqb_refl. }
  rewrite E in H. apply H; [|exact Hk].
  intros i Hi. unfold deg, adjSet.
  destruct (Nat.eqb_spec i k); [contradiction|reflexivity].
Qed.

Lemma adjSet_same (adj : adjacency) (k : nat) (l : list nat) :
  adjSet adj k l k = Some l.
Proof. unfold adjSet. now rewrite Nat.eqb_refl. Qed.

Lemma adjSet_other (adj : adjacency) (k k' : nat) (l : list nat) :
  k' <> k -> adjSet adj k l k' = adj k'.
Proof. intros H. unfold adjSet. now destruct (Nat.eqb_spec k' k). Qed.

Lemma spliceFirst_incl (x v : nat) (l : list nat) :
  In v (spliceFirst x l) -> In v l.
Proof.
  induction l as [|h t IH]; simpl; [auto|].
  destruct (Nat.eqb_spec h x); simpl; intuition.
Qed.

Lemma spliceFirst_keep (x v : nat) (l : list nat) :
  In v l -> v <> x -> In v (spliceFirst x l).
Proof.
  induction l as [|h t IH]; simpl; [auto|].
  intros [->|Hin] Hne.
  - destruct (Nat.eqb_spec v x); [contradiction|now left].
  - destruct (Nat.eqb_spec h x); [exact Hin|right; auto].
Qed.

Lemma spliceFirst_length (x : nat) (l : list nat) :
  (length (spliceFirst x l) <= length l)%nat.
Proof.
  induction l as [|h t IH]; simpl; [lia|].
  destruct (Nat.eqb_spec h x); simpl; lia.
Qed.

Lemma removelast_incl (v : nat) (l : list nat) :
  In v (removelast l) -> In v l.
Proof.
  induction l as [|h t IH]; [auto|].
  destruct t as [|h' t']; [intros []|].
  intros [->|H]; [now left|right; auto].
Qed.

Lemma removelast_keep (v : nat) (l : list nat) :
  In v l -> v <> last l 0%nat -> In v (removelast l).
Proof.
  induction l as [|h t IH]; [auto|].
  destruct t as [|h' t']; [intros [->|[]] H; now elim H|].
  intros [->|H] Hne; [now left|right; auto].
Qed.

Lemma last_In (l : list nat) : l <> [] -> In (last l 0%nat) l.
Proof.
  induction l as [|h t IH]; [congruence|].
  destruct t as [|h' t']; [now left|]. intros _. right. apply IH. discriminate.
Qed.

Lemma removelast_length (l : list nat) :
  l <> [] -> S (length (removelast l)) = length l.
Proof.
  intros H. rewrite (app_removelast_last 0%nat H) at 2.
  rewrite length_app. simpl. lia.
Qed.

Lemma last_app_cons (l1 l2 : list nat) (a : nat) :
  last (l1 ++ a :: l2) 0%nat = last (a :: l2) 0%nat.
Proof.
  induction l1 as [|h t IH]; [reflexivity|].
  simpl app. rewrite <- IH.
  destruct (t ++ a :: l2) eqn:E; [destruct t; discriminate|reflexivity].
Qed.

Lemma eulerInv_pop (n : nat) (adj0 adj : adjacency) (curr : nat)
  (rest tour : list nat) :
  eulerInv n adj0 adj (curr :: rest) tour ->
  (forall w, ~ nbr adj curr w) ->
  eulerInv n adj0 adj rest (tour ++ [curr]).
Proof.
  intros [H1 H2 H3 H4 H5 H6 H7] Hc.
  assert (Hmem : forall u, In u ((curr :: rest) ++ tour) <->
                           In u (rest ++ tour ++ [curr])).
  { intros u. simpl. rewrite !in_app_iff. simpl. tauto. }
  constructor.
  - intros u v Huv. destruct (H1 u v Huv) as [H|[Ha Hb]]; [now left|].
    right. split; now apply Hmem.
  - intros v w Hv. apply in_app_or in Hv. destruct Hv as [Hv|[<-|[]]].
    + now apply H2.
    + apply Hc.
  - exact H3.
  - intros v Hv. apply H4. now apply Hmem.
  - exact H5.
  - rewrite <- app_assoc. exact H6.
  - rewrite <- app_assoc. exact H7.
Qed.

Lemma eulerInv_push (n : nat) (adj0 adj : adjacency) (curr : nat)
  (rest tour nb : list nat) :
  eulerInv n adj0 adj (curr :: rest) tour ->
  adj curr = Some nb -> nb <> [] ->
  let next := last nb 0%nat in
  let adj1 := adjSet adj curr (removelast nb) in
  exists other,
    adj1 next = Some other /\
    eulerInv n adj0 (adjSet adj1 next (spliceFirst curr other))
             (next :: curr :: rest) tour /\
    (total n (adjSet adj1 next (spliceFirst curr other)) < total n adj)%nat.
Proof.
  intros [H1 H2 H3 H4 H5 H6 H7] Hc Hnb next adj1.
  assert (Hnext : nbr adj curr next).
  { exists nb. split; [exact Hc|]. now apply last_In. }
  assert (Hcn : (curr < n)%nat) by (apply H4; now left).
  assert (Hnn : (next < n)%nat) by (apply (H5 _ _ Hnext)).
  assert (Hother : exists other, adj1 next = Some other /\
            ((next = curr /\ other = removelast nb) \/
             (next <> curr /\ adj next = Some other))).
  { destruct (Nat.eq_dec next curr) as [E|E].
    - exists (removelast nb). unfold adj1. rewrite E, adjSet_same. auto.
    - destruct (adj next) as [other|] eqn:En.
      + exists other. unfold adj1. rewrite adjSet_other by exact E. auto.
      + exfalso. now apply (H3 _ _ Hnext). }
  destruct Hother as (other & Ho & Hcase).
  exists other. split; [exact Ho|].
  set (adj2 := adjSet adj1 next (spliceFirst curr other)).
  assert (Hsub : forall u v, nbr adj2 u v -> nbr adj u v).
  { intros u v (l & Hl & Hv). unfold adj2 in Hl.
    destruct (Nat.eq_dec u next) as [->|Hun].
    - rewrite adjSet_same in Hl. injection Hl as <-.
      apply spliceFirst_incl in Hv.
      destruct Hcase as [[E ->]|[E Ha]].
      + rewrite E. exists nb. split; [exact Hc|now apply removelast_incl].
      + exists other. auto.
    - rewrite adjSet_other in Hl by exact Hun. unfold adj1 in Hl.
      destruct (Nat.eq_dec u curr) as [->|Huc].
      + rewrite adjSet_same in Hl. injection Hl as <-.
        exists nb. split; [exact Hc|now apply removelast_incl].
      + rewrite adjSet_other in Hl by exact Huc. exists l. auto. }
  assert (Hkeep : forall u v, nbr adj u v ->
            (u = curr /\ v = next) \/ (u = next /\ v = curr) \/ nbr adj2 u v).
  { intros u v (l & Hl & Hv).
    destruct (Nat.eq_dec u next) as [->|Hun].
    - destruct Hcase as [[E ->]|[E Ha]].
      + rewrite E in Hl. rewrite Hc in Hl. injection Hl as <-.
        destruct (Nat.eq_dec v next) as [->|Hvn]; [left; auto|].
        right. right. exists (spliceFirst curr (removelast nb)).
        split; [unfold adj2; apply adjSet_same|].
        apply spliceFirst_keep; [|congruence].
        apply removelast_keep; [exact Hv|exact Hvn].
      + rewrite Ha in Hl. injection Hl as <-.
        destruct (Nat.eq_dec v curr) as [->|Hvc]; [right; left; auto|].
        right. right. exists (spliceFirst curr other).
        split; [unfold adj2; apply adjSet_same|].
        now apply spliceFirst_keep.
    - destruct (Nat.eq_dec u curr) as [->|Huc].
      + rewrite Hc in Hl. injection Hl as <-.
        destruct (Nat.eq_dec v next) as [->|Hvn]; [left; auto|].
        right. right. exists (removelast nb). split.
        * unfold adj2, adj1.
          rewrite adjSet_other by exact Hun. apply adjSet_same.
        * now apply removelast_keep.
      + right. right. exists l. split; [|exact Hv].
        unfold adj2, adj1. now rewrite !adjSet_other. }
  split.
  - constructor.
    + intros u v Huv. destruct (H1 u v Huv) as [H|[Ha Hb]].
      * destruct (Hkeep u v H) as [[-> ->]|[[-> ->]|H']].
        -- right. simpl. auto.
        -- right. simpl. auto.
        -- now left.
      * right. split; now right.
    + intros v w Hv Hvw. apply (H2 v w Hv). now apply Hsub.
    + intros u v Huv. apply Hsub in Huv. apply H3 in Huv.
      unfold adj2, adj1, adjSet.
      destruct (Nat.eqb v next); [discriminate|].
      destruct (Nat.eqb v curr); [discriminate|exact Huv].
    + intros v [<-|Hv]; [exact Hnn|now apply H4].
    + intros u v Huv. apply (H5 u v). now apply Hsub.
    + rewrite last_app_cons. rewrite last_app_cons in H6. exact H6.
    + destruct tour; discriminate.
  - pose proof (total_adjSet n curr adj (removelast nb) Hcn) as T1.
    fold adj1 in T1.
    pose proof (total_adjSet n next adj1 (spliceFirst curr other) Hnn) as T2.
    fold adj2 in T2.
    assert (D1 : deg adj curr = length nb) by (unfold deg; now rewrite Hc).
    assert (D2 : deg adj1 next = length other) by (unfold deg; now rewrite Ho).
    pose proof (removelast_length nb Hnb).
    pose proof (spliceFirst_length curr other).
    unfold adj2, adj1 in *. lia.
Qed.

(** Hierholzer's loop ends, and with the stack empty. *)
Lemma eulerLoop_spec (n : nat) (adj0 : adjacency) (k : nat) :
  forall adj stack tour,
  eulerInv n adj0 adj stack tour ->
  (2 * total n adj + length stack <= k)%nat ->
  exists adj' tour',
    eulerLoop k adj stack tour = inr tour' /\
    eulerInv n adj0 adj' [] tour'.
Proof.
  induction k as [|k IH]; intros adj stack tour Hinv Hk.
  - destruct stack as [|curr rest]; [|simpl in Hk; lia].
    exists adj, tour. split; [reflexivity|exact Hinv].
  - destruct stack as [|curr rest].
    { exists adj, tour. split; [reflexivity|exact Hinv]. }
    simpl in Hk. cbn [eulerLoop].
    destruct (adj curr) as [[|n0 ns]|] eqn:Hc.
    + apply IH; [|lia]. apply eulerInv_pop; [exact Hinv|].
      intros w (l & Hl & Hw). rewrite Hc in Hl. injection Hl as <-.
      destruct Hw.
    + destruct (eulerInv_push n adj0 adj curr rest tour (n0 :: ns) Hinv Hc)
        as (other & Ho & Hinv' & Ht); [discriminate|].
      rewrite Ho. apply IH; [exact Hinv'|]. cbn [length]. lia.
    + apply IH; [|lia]. apply eulerInv_pop; [exact Hinv|].
      intros w (l & Hl & Hw). rewrite Hc in Hl. discriminate.
Qed.

Lemma adjInit_spec (n : nat) (adj : adjacency) (k : nat) :
  (forall a b, nbr (adjInit adj k) a b <-> nbr adj a b) /\
  (forall j, adjInit adj k j <> None <-> adj j <> None \/ j = k) /\
  ((k < n)%nat -> total n (adjInit adj k) = total n adj).
Proof.
  unfold adjInit. destruct (adj k) as [l|] eqn:Hk.
  - split; [tauto|]. split; [|reflexivity].
    intros j. split; [auto|]. intros [H| ->]; congruence.
  - split; [|split].
    + intros a b. unfold nbr, adjSet.
      destruct (Nat.eqb_spec a k) as [->|Hne]; [|tauto].
      split; intros (l & Hl & Hb).
      * injection Hl as <-. destruct Hb.
      * congruence.
    + intros j. unfold adjSet.
      destruct (Nat.eqb_spec j k) as [->|Hne].
      * split; [auto|discriminate].
      * split; [auto|]. intros [H|H]; [exact H|contradiction].
    + intros Hlt. pose proof (total_adjSet n k adj [] Hlt) as T.
      unfold deg in T at 1. rewrite Hk in T. simpl in T. lia.
Qed.

Lemma adjPush_spec (n : nat) (adj : adjacency) (k v : nat) :
  adj k <> None ->
  (forall a b, nbr (adjPush adj k v) a b <->
               nbr adj a b \/ (a = k /\ b = v)) /\
  (forall j, adjPush adj k v j <> None <-> adj j <> None) /\
  ((k < n)%nat -> total n (adjPush adj k v) = S (total n adj)).
Proof.
  intros Hk. unfold adjPush. destruct (adj k) as [l|] eqn:El; [|congruence].
  split; [|split].
  - intros a b. unfold nbr, adjSet.
    destruct (Nat.eqb_spec a k) as [->|Hne].
    + split.
      * intros (l' & Hl & Hb). injection Hl as <-.
        apply in_app_or in Hb. destruct Hb as [Hb|[<-|[]]]; [|auto].
        left. exists l. auto.
      * intros [(l' & Hl & Hb)|[_ ->]].
        -- rewrite El in Hl. injection Hl as <-.
           exists (l ++ [v]). split; [reflexivity|].
           apply in_or_app. now left.
        -- exists (l ++ [v]). split; [reflexivity|].
           apply in_or_app. right. now left.
    + split; [auto|]. intros [H|[H _]]; [exact H|contradiction].
  - intros j. unfold adjSet. destruct (Nat.eqb_spec j k) as [->|Hne].
    + split; [congruence|discriminate].
    + tauto.
  - intros Hlt. pose proof (total_adjSet n k adj (l ++ [v]) Hlt) as T.
    unfold deg in T at 1. rewrite El, length_app in T. simpl in T. lia.
Qed.

Lemma buildAdjStep_spec (n : nat) (adj : adjacency) (u v : nat) :
  (u < n)%nat -> (v < n)%nat ->
  (forall a b, nbr (buildAdjStep adj (u, v)) a b <->
     nbr adj a b \/ (a = u /\ b = v) \/ (a = v /\ b = u)) /\
  (forall j, buildAdjStep adj (u, v) j <> None <->
     adj j <> None \/ j = u \/ j = v) /\
  total n (buildAdjStep adj (u, v)) = S (S (total n adj)).
Proof.
  intros Hu Hv. unfold buildAdjStep.
  destruct (adjInit_spec n adj u) as (A1 & A2 & A3).
  destruct (adjInit_spec n (adjInit adj u) v) as (B1 & B2 & B3).
  set (adj2 := adjInit (adjInit adj u) v) in *.
  assert (Hu2 : adj2 u <> None) by (apply B2; left; apply A2; now right).
  assert (Hv2 : adj2 v <> None) by (apply B2; now right).
  destruct (adjPush_spec n adj2 u v Hu2) as (C1 & C2 & C3).
  set (adj3 := adjPush adj2 u v) in *.
  assert (Hv3 : adj3 v <> None) by (now apply C2).
  destruct (adjPush_spec n adj3 v u Hv3) as (D1 & D2 & D3).
  split; [|split].
  - intros a b. rewrite D1, C1, B1, A1. tauto.
  - intros j. rewrite D2, C2, B2, A2. tauto.
  - rewrite D3, C3, B3, A3; auto.
Qed.

Lemma buildAdj_spec (n : nat) (edges : list edge) :
  (forall p i, In (p, i) edges -> (p < n)%nat /\ (i < n)%nat) ->
  (forall a b, nbr (buildAdj edges) a b <->
     In (a, b) edges \/ In (b, a) edges) /\
  (forall j, buildAdj edges j <> None <->
     exists k, In (j, k) edges \/ In (k, j) edges) /\
  total n (buildAdj edges) = (2 * length edges)%nat.
Proof.
  intros Hr. unfold buildAdj.
  assert (Hgen : forall l adj,
    (forall p i, In (p, i) l -> (p < n)%nat /\ (i < n)%nat) ->
    (forall a b, nbr (fold_left buildAdjStep l adj) a b <->
       nbr adj a b \/ In (a, b) l \/ In (b, a) l) /\
    (forall j, fold_left buildAdjStep l adj j <> None <->
       adj j <> None \/ exists k, In (j, k) l \/ In (k, j) l) /\
    total n (fold_left buildAdjStep l adj) = (total n adj + 2 * length l)%nat).
  { induction l as [|[u v] l IH]; intros adj Hl.
    - simpl. split; [tauto|]. split; [|lia].
      intros j. split; [auto|]. intros [H|(k & [[]|[]])]. exact H.
    - cbn [fold_left].
      destruct (Hl u v (or_introl eq_refl)) as [Hu Hv].
      destruct (buildAdjStep_spec n adj u v Hu Hv) as (S1 & S2 & S3).
      destruct (IH (buildAdjStep adj (u, v))) as (I1 & I2 & I3);
        [intros p i Hp; apply Hl; now right|].
      split; [|split].
      + intros a b. rewrite I1, S1. simpl. split.
        * intros [[H|[[-> ->]|[-> ->]]]|[H|H]]; auto.
        * intros [H|[[H|H]|[H|H]]]; auto.
          -- injection H as -> ->. auto.
          -- injection H as -> ->. auto.
      + intros j. rewrite I2, S2. simpl. split.
        * intros [[H|[-> | ->]]|(k & H)]; eauto.
          right. exists k. tauto.
        * intros [H|(k & [[H|H]|[H|H]])]; eauto.
          -- injection H as -> ->. auto.
          -- injection H as -> ->. auto.
      + rewrite I3, S3. cbn [length]. lia. }
  destruct (Hgen edges (fun _ => None) Hr) as (G1 & G2 & G3).
  split; [|split].
  - intros a b. rewrite G1. split; [|auto].
    intros [(l & Hl & _)|H]; [discriminate|exact H].
  - intros j. rewrite G2. split; [|auto]. intros [H|H]; [congruence|exact H].
  - rewrite G3.
    assert (E : total n (fun _ => None) = 0%nat).
    { unfold total, deg. clear. induction (seq 0 n); simpl; auto. }
    rewrite E. reflexivity.
Qed.

Lemma hd_rev_last (l : list nat) :
  l <> [] -> hd_error (rev l) = Some (last l 0%nat).
Proof.
  intros H. rewrite (app_removelast_last 0%nat H) at 1.
  rewrite rev_app_distr. reflexivity.
Qed.

(** Hierholzer's tour of a graph on the vertices below [n]: it starts
    at vertex 0 and it holds every vertex joined to one it holds. *)
Lemma findEulerianTour_spec (n : nat) (edges : list edge) :
  (0 < n)%nat ->
  (forall p i, In (p, i) edges -> (p < n)%nat /\ (i < n)%nat) ->
  exists tour,
    findEulerianTour edges n = inr tour /\
    hd_error tour = Some 0%nat /\
    (forall v, In v tour -> (v < n)%nat) /\
    (forall u v, In (u, v) edges -> In u tour -> In v tour).
Proof.
  intros Hn Hr. destruct (buildAdj_spec n edges Hr) as (B1 & B2 & B3).
  unfold findEulerianTour.
  destruct (eulerLoop_spec n (buildAdj edges) (4 * length edges + 2)
              (buildAdj edges) [0%nat] []) as (adj' & tour & Hloop & Hinv).
  { constructor.
    - intros u v H. now left.
    - intros v w [].
    - intros u v Huv. apply B2. apply B1 in Huv. exists u. tauto.
    - intros v [<-|[]]. exact Hn.
    - intros u v Huv. apply B1 in Huv.
      destruct Huv as [H|H]; apply Hr in H; tauto.
    - reflexivity.
    - discriminate. }
  { rewrite B3. simpl. lia. }
  rewrite Hloop. exists (rev tour).
  destruct Hinv as [H1 H2 H3 H4 H5 H6 H7]. rewrite app_nil_r in H6, H7.
  split; [reflexivity|]. split; [|split].
  - rewrite hd_rev_last by exact H7. now rewrite H6.
  - intros v Hv. apply H4. simpl. now apply in_rev.
  - intros u v Huv Hu. apply in_rev in Hu. apply -> in_rev.
    destruct (H1 u v) as [H|[_ H]].
    + apply B1. now left.
    + exfalso. now apply (H2 u v).
    + exact H.
Qed.

(** ** Christofides: shortcutting and the whole pipeline *)

Lemma shortcut_fold (points : list Point) (l : list nat) :
  forall visited path,
  NoDup visited -> path = map (pt points) visited ->
  let st := fold_left (shortcutStep points) l (visited, path) in
  NoDup (fst st) /\
  (forall v, In v (fst st) <-> In v visited \/ In v l) /\
  snd st = map (pt points) (fst st) /\
  (visited <> [] -> hd_error (fst st) = hd_error visited) /\
  (visited = [] -> hd_error (fst st) = hd_error l).
Proof.
  induction l as [|a l IH]; intros visited path Hnd Hpath.
  - simpl. repeat split; auto; try tauto. intros ->. reflexivity.
  - cbn [fold_left].
    assert (E : shortcutStep points (visited, path) a =
                if has a visited then (visited, path)
                else (add a visited, path ++ [pt points a])).
    { unfold shortcutStep. destruct (has a visited); reflexivity. }
    rewrite E. clear E.
    destruct (has a visited) eqn:Ha.
    + apply has_true in Ha.
      destruct (IH visited path Hnd Hpath) as (I1 & I2 & I3 & I4 & I5).
      split; [exact I1|]. split; [|split; [exact I3|split; [exact I4|]]].
      * intros v. rewrite I2. simpl. split; [tauto|].
        intros [H|[<-|H]]; auto.
      * intros ->. destruct Ha.
    + apply has_false in Ha.
      assert (Hadd : add a visited = visited ++ [a]).
      { unfold add. apply has_false in Ha. now rewrite Ha. }
      rewrite Hadd. cbv zeta.
      destruct (IH (visited ++ [a]) (path ++ [pt points a]))
        as (I1 & I2 & I3 & I4 & I5).
      * apply NoDup_rev in Hnd. rewrite <- (rev_involutive (visited ++ [a])).
        apply NoDup_rev. rewrite rev_app_distr. simpl.
        constructor; [rewrite <- in_rev; exact Ha|exact Hnd].
      * rewrite Hpath, map_app. reflexivity.
      * split; [exact I1|]. split; [|split; [exact I3|split]].
        -- intros v. rewrite I2, in_app_iff. simpl. tauto.
        -- intros Hne. rewrite I4 by (destruct visited; discriminate).
           destruct visited; [congruence|reflexivity].
        -- intros ->. rewrite I4 by discriminate. reflexivity.
Qed.

Lemma christofides_spec (clk : nat -> R) (points : list Point) (t : nat) :
  (3 <= length points)%nat ->
  exists order,
    Permutation order (seq 0 (length points)) /\
    hd_error order = Some 0%nat /\
    solveTSPChristofides clk points t =
      Ok (mkRouteResult (map (pt points) order ++ [pt points 0])
            (Fin (routeLength (map (pt points) order ++ [pt points 0])))
            (clk (S t) - clk t) "Christofides (1.5-approx)")
         (S (S t)).
Proof.
  intros Hn. set (n := length points).
  destruct (primMST_spanning points) as [Hmr Hreach]. fold n in Hmr, Hreach.
  set (mst := primMST points) in *.
  set (odd := oddVerticesOf n (mstDegrees n mst)).
  destruct (matching_spec points odd) as (matching & Hm & Hmin).
  assert (Hgr : forall p i, In (p, i) (mst ++ matching) ->
                            (p < n)%nat /\ (i < n)%nat).
  { intros p i Hpi. apply in_app_or in Hpi. destruct Hpi as [H|H].
    - now apply Hmr.
    - destruct (Hmin p i H) as [Hp Hi]. unfold odd, oddVerticesOf in Hp, Hi.
      apply filter_In in Hp, Hi. destruct Hp as [Hp _], Hi as [Hi _].
      apply in_seq in Hp, Hi. lia. }
  destruct (findEulerianTour_spec n (mst ++ matching)) as
    (tour & Ht & Hhd & Hrange & Hclosed); [lia|exact Hgr|].
  assert (Hall : forall v, (v < n)%nat -> In v tour).
  { apply Hreach.
    - destruct tour as [|a tour]; [discriminate|].
      simpl in Hhd. injection Hhd as ->. now left.
    - intros p i Hpi. apply Hclosed. apply in_or_app. now left. }
  pose proof (shortcut_fold points tour [] [] (NoDup_nil _) eq_refl) as Hs.
  cbn zeta in Hs. fold (shortcut points tour) in Hs.
  destruct (shortcut points tour) as [visited path] eqn:Hsc.
  cbn [fst snd] in Hs. destruct Hs as (S1 & S2 & S3 & _ & S5).
  specialize (S5 eq_refl).
  exists visited. split; [|split].
  - apply NoDup_Permutation; [exact S1|apply seq_NoDup|].
    intros v. rewrite S2, in_seq. split.
    + intros [[]|H]. apply Hrange in H. lia.
    + intros H. right. apply Hall. lia.
  - congruence.
  - unfold solveTSPChristofides, bind, now. fold n.
    destruct (Nat.leb_spec n 2); [lia|].
    fold mst. fold odd. rewrite Hm. unfold lift at 1, ret at 1.
    rewrite Ht. unfold lift, ret. rewrite Hsc.
    destruct tour as [|first tour]; [discriminate|].
    simpl in Hhd. injection Hhd as ->.
    rewrite calculateRouteDistance_routeLength, S3. reflexivity.
Qed.

(** ** Held-Karp: bit masks *)

Lemma bits_eq (a b : Z) :
  (0 <= a)%Z -> (0 <= b)%Z -> (forall j, bit a j = bit b j) -> a = b.
Proof.
  intros Ha Hb H. apply Z.bits_inj'. intros z Hz.
  specialize (H (Z.to_nat z)). unfold bit in H.
  now rewrite Z2Nat.id in H by exact Hz.
Qed.

Lemma bits_bound (n : nat) (m : Z) :
  (0 <= m)%Z -> (forall j, (n <= j)%nat -> bit m j = false) ->
  (m < 2 ^ Z.of_nat n)%Z.
Proof.
  intros Hm H.
  assert (E : m = (m mod 2 ^ Z.of_nat n)%Z).
  { apply Z.bits_inj'. intros z Hz.
    rewrite Z.testbit_mod_pow2 by lia.
    destruct (Z.ltb_spec z (Z.of_nat n)); [reflexivity|].
    specialize (H (Z.to_nat z)). unfold bit in H.
    rewrite Z2Nat.id in H by exact Hz. apply H. lia. }
  rewrite E. apply Z.mod_pos_bound. apply Z.pow_pos_nonneg; lia.
Qed.

Lemma bound_bits (n : nat) (m : Z) (j : nat) :
  (0 <= m < 2 ^ Z.of_nat n)%Z -> (n <= j)%nat -> bit m j = false.
Proof.
  intros Hm Hj. unfold bit. rewrite <- (Z.mod_small m (2 ^ Z.of_nat n)) by lia.
  apply Z.mod_pow2_bits_high. lia.
Qed.

Lemma pow2_bit (i j : nat) : bit (2 ^ Z.of_nat i) j = Nat.eqb i j.
Proof.
  unfold bit. rewrite Z.pow2_bits_eqb by lia.
  destruct (Nat.eqb_spec i j) as [->|Hne].
  - apply Z.eqb_refl.
  - apply Z.eqb_neq. lia.
Qed.

Lemma pow2_le_30 (i : nat) :
  (i <= 30)%nat -> (0 < 2 ^ Z.of_nat i < 2 ^ 31)%Z.
Proof.
  intros Hi. split; [apply Z.pow_pos_nonneg; lia|].
  apply Z.pow_lt_mono_r; lia.
Qed.

Lemma int32_small (m : Z) : (0 <= m < 2 ^ 31)%Z -> int32 m = m.
Proof.
  intros Hm. unfold int32.
  change (2 ^ 31)%Z with 2147483648%Z in *.
  change (2 ^ 32)%Z with 4294967296%Z.
  rewrite Z.mod_small; lia.
Qed.

Lemma shl_1 (i : nat) : (i <= 30)%nat -> shl 1 i = (2 ^ Z.of_nat i)%Z.
Proof.
  intros Hi. unfold shl.
  rewrite (int32_small 1) by (change (2 ^ 31)%Z with 2147483648%Z; lia).
  rewrite Z.mod_small by lia. rewrite Z.shiftl_1_l.
  apply int32_small. pose proof (pow2_le_30 i Hi). lia.
Qed.

Lemma land_pow2 (m : Z) (i : nat) :
  Z.land m (2 ^ Z.of_nat i) = if bit m i then (2 ^ Z.of_nat i)%Z else 0%Z.
Proof.
  apply Z.bits_inj'. intros z Hz. rewrite Z.land_spec.
  rewrite Z.pow2_bits_eqb by lia.
  destruct (Z.eqb_spec (Z.of_nat i) z) as [<-|Hne].
  - fold (bit m i). destruct (bit m i).
    + now rewrite Z.pow2_bits_true by lia.
    + now rewrite Z.bits_0.
  - rewrite andb_false_r. destruct (bit m i).
    + now rewrite Z.pow2_bits_false by exact Hne.
    + now rewrite Z.bits_0.
Qed.

Lemma band_bit (m : Z) (i : nat) :
  (0 <= m < 2 ^ 31)%Z -> (i <= 30)%nat ->
  (band m (shl 1 i) =? 0)%Z = negb (bit m i).
Proof.
  intros Hm Hi. unfold band. rewrite shl_1 by exact Hi.
  pose proof (pow2_le_30 i Hi) as Hp.
  rewrite !int32_small by lia. rewrite land_pow2.
  destruct (bit m i); [|reflexivity].
  apply Z.eqb_neq. lia.
Qed.

Lemma band_1 (m : Z) :
  (0 <= m < 2 ^ 31)%Z -> (band m 1 =? 0)%Z = negb (bit m 0).
Proof.
  intros Hm. rewrite <- (band_bit m 0 Hm) by lia.
  rewrite shl_1 by lia. reflexivity.
Qed.

Lemma bxor_bit (m : Z) (i j : nat) :
  (0 <= m < 2 ^ 31)%Z -> (i <= 30)%nat ->
  bit (bxor m (shl 1 i)) j = xorb (bit m j) (Nat.eqb i j).
Proof.
  intros Hm Hi. unfold bxor. rewrite shl_1 by exact Hi.
  pose proof (pow2_le_30 i Hi) as Hp.
  rewrite !int32_small by lia.
  unfold bit. rewrite Z.lxor_spec. fold (bit m j).
  fold (bit (2 ^ Z.of_nat i) j). now rewrite pow2_bit.
Qed.

Lemma bxor_nonneg (m : Z) (i : nat) :
  (0 <= m < 2 ^ 31)%Z -> (i <= 30)%nat -> (0 <= bxor m (shl 1 i))%Z.
Proof.
  intros Hm Hi. unfold bxor. rewrite shl_1 by exact Hi.
  pose proof (pow2_le_30 i Hi) as Hp.
  rewrite !int32_small by lia. apply Z.lxor_nonneg. lia.
Qed.

Lemma maskOf_bit (rl : list nat) (j : nat) :
  bit (maskOf rl) j = Nat.eqb j 0 || existsb (Nat.eqb j) rl.
Proof.
  induction rl as [|i r IH]; simpl.
  - change 1%Z with (2 ^ Z.of_nat 0)%Z. rewrite pow2_bit.
    rewrite orb_false_r. apply Nat.eqb_sym.
  - unfold bit. rewrite Z.lor_spec. fold (bit (maskOf r) j).
    fold (bit (2 ^ Z.of_nat i) j). rewrite IH, pow2_bit.
    rewrite (Nat.eqb_sym i j).
    destruct (Nat.eqb j 0), (Nat.eqb j i), (existsb (Nat.eqb j) r);
      reflexivity.
Qed.

Lemma maskOf_bit_In (rl : list nat) (j : nat) :
  bit (maskOf rl) j = true <-> j = 0%nat \/ In j rl.
Proof.
  rewrite maskOf_bit, orb_true_iff, Nat.eqb_eq, existsb_exists.
  split; intros [H|H]; auto.
  - destruct H as (k & Hk & E). apply Nat.eqb_eq in E. subst. auto.
  - right. exists j. split; [exact H|apply Nat.eqb_refl].
Qed.

Lemma maskOf_nonneg (rl : list nat) : (0 <= maskOf rl)%Z.
Proof.
  induction rl as [|i r IH]; simpl; [lia|].
  apply Z.lor_nonneg. split; [exact IH|]. apply Z.pow_nonneg. lia.
Qed.

Lemma maskOf_bound (n : nat) (rl : list nat) :
  (0 < n)%nat -> (forall i, In i rl -> (i < n)%nat) ->
  (0 <= maskOf rl < 2 ^ Z.of_nat n)%Z.
Proof.
  intros Hn Hr. split; [apply maskOf_nonneg|].
  apply bits_bound; [apply maskOf_nonneg|].
  intros j Hj. destruct (bit (maskOf rl) j) eqn:E; [|reflexivity].
  apply maskOf_bit_In in E. destruct E as [->|E]; [lia|].
  apply Hr in E. lia.
Qed.

Lemma maskOf_perm (l1 l2 : list nat) :
  Permutation l1 l2 -> maskOf l1 = maskOf l2.
Proof.
  intros H. apply bits_eq; try apply maskOf_nonneg.
  intros j. destruct (bit (maskOf l1) j) eqn:E1, (bit (maskOf l2) j) eqn:E2;
    try reflexivity.
  - apply maskOf_bit_In in E1.
    assert (E : bit (maskOf l2) j = true).
    { apply maskOf_bit_In. destruct E1; [now left|right].
      eapply Permutation_in; eassumption. }
    congruence.
  - apply maskOf_bit_In in E2.
    assert (E : bit (maskOf l1) j = true).
    { apply maskOf_bit_In. destruct E2; [now left|right].
      eapply Permutation_in; [symmetry|]; eassumption. }
    congruence.
Qed.

Lemma filter_seq_shift (f : nat -> bool) (a k : nat) :
  length (filter f (seq (S a) k))
  = length (filter (fun i => f (S i)) (seq a k)).
Proof.
  revert a. induction k as [|k IH]; intros a; [reflexivity|].
  simpl. destruct (f (S a)); simpl; now rewrite IH.
Qed.

Lemma bit_succ (m : Z) (i : nat) : bit m (S i) = bit (m / 2) i.
Proof.
  unfold bit. change 2%Z with (2 ^ 1)%Z.
  rewrite Z.div_pow2_bits by lia. f_equal. lia.
Qed.

Lemma bitCount_S (k : nat) (m : Z) :
  bitCount (S k) m
  = ((if bit m 0 then 1 else 0) + bitCount k (m / 2))%nat.
Proof.
  unfold bitCount. cbn [seq filter].
  assert (E : length (filter (bit m) (seq 1 k))
              = length (filter (bit (m / 2)) (seq 0 k))).
  { rewrite filter_seq_shift. f_equal. apply filter_ext.
    intros i. apply bit_succ. }
  destruct (bit m 0); cbn [length]; rewrite E; reflexivity.
Qed.

Lemma bitCount_0 (k : nat) : bitCount k 0 = 0%nat.
Proof.
  unfold bitCount. induction (seq 0 k) as [|a l IH]; [reflexivity|].
  simpl. unfold bit at 1. now rewrite Z.bits_0.
Qed.

Lemma popLoop_count (k : nat) :
  forall fuel m c,
  (0 <= m < 2 ^ Z.of_nat k)%Z -> (k <= 31)%nat -> (k <= fuel)%nat ->
  popLoop fuel m c = (c + Z.of_nat (bitCount k m))%Z.
Proof.
  induction k as [|k IH]; intros fuel m c Hm Hk Hf.
  - assert (m = 0%Z) by (simpl in Hm; lia). subst m.
    destruct fuel; simpl; lia.
  - destruct fuel as [|fuel]; [lia|]. simpl popLoop.
    destruct (Z.eqb_spec m 0) as [->|Hne].
    { rewrite bitCount_0. lia. }
    assert (H31 : (0 <= m < 2 ^ 31)%Z).
    { split; [lia|]. apply Z.lt_le_trans with (2 ^ Z.of_nat (S k))%Z; [lia|].
      apply Z.pow_le_mono_r; lia. }
    assert (Esar : sar m 1 = (m / 2)%Z).
    { unfold sar. rewrite int32_small by exact H31.
      change (Z.of_nat 1 mod 32)%Z with 1%Z.
      rewrite Z.shiftr_div_pow2 by lia. reflexivity. }
    assert (Eband : band m 1 = if bit m 0 then 1%Z else 0%Z).
    { unfold band. rewrite int32_small by exact H31.
      rewrite (int32_small 1) by (change (2 ^ 31)%Z with 2147483648%Z; lia).
      apply (land_pow2 m 0). }
    rewrite Esar, Eband, IH, bitCount_S; try lia.
    + destruct (bit m 0); lia.
    + rewrite Nat2Z.inj_succ, Z.pow_succ_r in Hm by lia.
      split; [apply Z.div_pos; lia|].
      apply Z.div_lt_upper_bound; lia.
Qed.

Lemma popcount_maskOf (rl : list nat) :
  NoDup rl -> (forall i, In i rl -> (1 <= i <= 30)%nat) ->
  __builtin_popcount (maskOf rl) = Z.of_nat (S (length rl)).
Proof.
  intros Hnd Hr. unfold __builtin_popcount.
  rewrite (popLoop_count 31); try lia.
  2:{ apply (maskOf_bound 31); [lia|]. intros i Hi. apply Hr in Hi. lia. }
  rewrite Z.add_0_l. f_equal. unfold bitCount.
  change (S (length rl)) with (length (0%nat :: rl)).
  apply Permutation_length. apply NoDup_Permutation.
  - apply NoDup_filter, seq_NoDup.
  - constructor; [|exact Hnd]. intros H0. apply Hr in H0. lia.
  - intros j. rewrite filter_In, in_seq, maskOf_bit_In. simpl. split.
    + intros [_ [->|H]]; auto.
    + intros [<-|H]; [split; [lia|now left]|].
      split; [apply Hr in H; lia|now right].
Qed.

(** ** Held-Karp: the tables *)

Lemma keyEqb_eq (a b : key) : keyEqb a b = true <-> a = b.
Proof.
  destruct a as [m i], b as [m' i']. unfold keyEqb. simpl.
  rewrite andb_true_iff, Z.eqb_eq, Nat.eqb_eq.
  split; [intros [-> ->]; reflexivity|intros H; injection H; auto].
Qed.

Lemma tget_tset_same {V : Type} (m : table V) (k : key) (v : V) :
  tget (tset m k v) k = Some v.
Proof.
  unfold tget, tset. destruct (keyEqb k k) eqn:E; [reflexivity|].
  assert (keyEqb k k = true) by now apply keyEqb_eq. congruence.
Qed.

Lemma tget_tset_other {V : Type} (m : table V) (k k' : key) (v : V) :
  k' <> k -> tget (tset m k v) k' = tget m k'.
Proof.
  intros H. unfold tget, tset. destruct (keyEqb k' k) eqn:E; [|reflexivity].
  apply keyEqb_eq in E. contradiction.
Qed.

Lemma rcost_cons (points : list Point) (e p : nat) (r : list nat) :
  rcost points (e :: p :: r)
  = distance (pt points p) (pt points e) + rcost points (p :: r).
Proof. unfold rcost. simpl. now rewrite distance_sym. Qed.

Lemma rcost_single (points : list Point) (e : nat) :
  rcost points [e] = distance (pt points 0) (pt points e).
Proof. unfold rcost. simpl. rewrite distance_sym. lra. Qed.

Lemma bor_init (i : nat) : (i <= 30)%nat -> bor 1 (shl 1 i) = maskOf [i].
Proof.
  intros Hi. unfold bor. rewrite shl_1 by exact Hi.
  pose proof (pow2_le_30 i Hi).
  rewrite !int32_small; [reflexivity|lia|].
  change (2 ^ 31)%Z with 2147483648%Z. lia.
Qed.

Lemma dpInit_fold (points : list Point) (l : list nat) :
  (forall i, In i l -> (i <= 30)%nat) ->
  forall st e,
    (In e l ->
     tget (fst (fold_left (dpInitStep points) l st)) (maskOf [e], e)
       = Some (distance (pt points 0) (pt points e)) /\
     tget (snd (fold_left (dpInitStep points) l st)) (maskOf [e], e)
       = Some (Some 0%nat)) /\
    (~ In e l -> forall m,
     tget (fst (fold_left (dpInitStep points) l st)) (m, e)
       = tget (fst st) (m, e) /\
     tget (snd (fold_left (dpInitStep points) l st)) (m, e)
       = tget (snd st) (m, e)).
Proof.
  induction l as [|i l IH]; intros Hl st e.
  - split; [intros []|]. intros _ m. split; reflexivity.
  - cbn [fold_left].
    destruct (IH (fun j Hj => Hl j (or_intror Hj))
                 (dpInitStep points st i) e) as [I1 I2].
    destruct st as [dp parent].
    split.
    + intros Hin. destruct (in_dec Nat.eq_dec e l) as [Hel|Hel]; [auto|].
      destruct Hin as [->|Hin]; [|contradiction].
      destruct (I2 Hel (maskOf [e])) as [-> ->].
      unfold dpInitStep. cbn [fst snd].
      rewrite bor_init by (apply Hl; now left).
      rewrite !tget_tset_same. split; reflexivity.
    + intros Hn m. destruct (I2 (fun H => Hn (or_intror H)) m) as [-> ->].
      unfold dpInitStep. cbn [fst snd].
      rewrite !tget_tset_other; [split; reflexivity| |];
        intros E; injection E as _ <-; apply Hn; now left.
Qed.

Lemma dpInit_inv (points : list Point) :
  (length points <= 31)%nat -> dpInv points 2 (dpInit points).
Proof.
  intros Hn rl [Hnd Hr] Hlen.
  destruct rl as [|e [|e' r]]; [exact I| |simpl in Hlen; lia].
  assert (He : (1 <= e < length points)%nat) by (apply Hr; now left).
  destruct (dpInit_fold points (seq 1 (length points - 1))) with
    (st := ((fun _ => None) : table R, (fun _ => None) : table (option nat)))
    (e := e) as [[H1 H2] _].
  { intros i Hi. apply in_seq in Hi. lia. }
  { apply in_seq. lia. }
  fold (dpInit points) in H1, H2.
  exists (distance (pt points 0) (pt points e)), [e].
  split; [exact H1|]. split; [reflexivity|]. split; [reflexivity|].
  split; [now rewrite rcost_single|]. split; [split; [exact H2|exact I]|].
  intros rl' Hp _. apply Permutation_sym, Permutation_length_1_inv in Hp.
  subst rl'. rewrite rcost_single. lra.
Qed.

(** ** Held-Karp: the best predecessor *)

Lemma minStep_fold (cand : nat -> option R) (l : list nat) :
  forall done st,
  minInv cand done st ->
  minInv cand (done ++ l) (fold_left (minStep cand) l st).
Proof.
  induction l as [|a l IH]; intros done st Hst.
  - now rewrite app_nil_r.
  - cbn [fold_left].
    replace (done ++ a :: l) with ((done ++ [a]) ++ l)
      by (rewrite <- app_assoc; reflexivity).
    apply IH. unfold minStep.
    destruct st as [[m|] b]; cbn [fst].
    + destruct Hst as (p & -> & Hp & Hc & Hmin).
      destruct (cand a) as [c|] eqn:Ea.
      * simpl nltb. destruct (Rltb c m) eqn:Hlt.
        -- apply Rltb_true in Hlt.
           exists a. split; [reflexivity|].
           split; [apply in_or_app; right; now left|].
           split; [exact Ea|]. intros q c' Hq Hc'.
           apply in_app_or in Hq. destruct Hq as [Hq|[<-|[]]].
           ++ specialize (Hmin q c' Hq Hc'). lra.
           ++ rewrite Ea in Hc'. injection Hc' as <-. lra.
        -- apply Rltb_false in Hlt.
           exists p. split; [reflexivity|].
           split; [apply in_or_app; now left|].
           split; [exact Hc|]. intros q c' Hq Hc'.
           apply in_app_or in Hq. destruct Hq as [Hq|[<-|[]]].
           ++ exact (Hmin q c' Hq Hc').
           ++ rewrite Ea in Hc'. injection Hc' as <-. exact Hlt.
      * exists p. split; [reflexivity|].
        split; [apply in_or_app; now left|].
        split; [exact Hc|]. intros q c' Hq Hc'.
        apply in_app_or in Hq. destruct Hq as [Hq|[<-|[]]].
        -- exact (Hmin q c' Hq Hc').
        -- congruence.
    + destruct Hst as [-> Hnone].
      destruct (cand a) as [c|] eqn:Ea.
      * rewrite nltb_Infinity.
        exists a. split; [reflexivity|].
        split; [apply in_or_app; right; now left|].
        split; [exact Ea|]. intros q c' Hq Hc'.
        apply in_app_or in Hq. destruct Hq as [Hq|[<-|[]]].
        -- rewrite (Hnone q Hq) in Hc'. discriminate.
        -- rewrite Ea in Hc'. injection Hc' as <-. lra.
      * split; [reflexivity|]. intros q Hq.
        apply in_app_or in Hq. destruct Hq as [Hq|[<-|[]]]; auto.
Qed.

Lemma fold_left_ext_in' {A B : Type} (f g : A -> B -> A) (l : list B) :
  (forall a b, In b l -> f a b = g a b) ->
  forall a, fold_left f l a = fold_left g l a.
Proof.
  induction l as [|b l IH]; intros H a; [reflexivity|].
  simpl. rewrite H by now left. apply IH. intros a' b' Hb. apply H. now right.
Qed.

Lemma dpBestStep_min (points : list Point) (dp : table R)
  (prevMask : Z) (end_ : nat) (st : number * option nat) (prev : nat) :
  (0 <= prevMask < 2 ^ 31)%Z -> (prev <= 30)%nat ->
  dpBestStep points dp prevMask end_ st prev =
  minStep (candidate points dp prevMask end_) st prev.
Proof.
  intros Hm Hp. destruct st as [minDist bestPrev].
  unfold dpBestStep, minStep, candidate. rewrite band_bit by assumption.
  destruct (bit prevMask prev); cbn [negb fst]; [|reflexivity].
  destruct (tget dp (prevMask, prev)); reflexivity.
Qed.

Lemma dpBest_min (points : list Point) (dp : table R) (prevMask : Z)
  (end_ : nat) :
  (0 <= prevMask < 2 ^ 31)%Z -> (length points <= 31)%nat ->
  minInv (candidate points dp prevMask end_) (seq 1 (length points - 1))
         (dpBest points dp prevMask end_).
Proof.
  intros Hm Hn. unfold dpBest.
  rewrite (fold_left_ext_in' _ (minStep (candidate points dp prevMask end_))).
  - apply (minStep_fold _ _ [] (Infinity, None)). split; [reflexivity|].
    intros q [].
  - intros st prev Hp. apply in_seq in Hp. apply dpBestStep_min; [exact Hm|lia].
Qed.

Lemma dpClose_min (points : list Point) (dp : table R) (fullMask : Z) :
  minInv (closeCandidate points dp fullMask) (seq 1 (length points - 1))
         (dpClose points dp fullMask).
Proof.
  unfold dpClose.
  rewrite (fold_left_ext_in' _ (minStep (closeCandidate points dp fullMask))).
  - apply (minStep_fold _ _ [] (Infinity, None)). split; [reflexivity|].
    intros q [].
  - intros [minTour lastNode] i _. unfold dpCloseStep, minStep, closeCandidate.
    destruct (tget dp (fullMask, i)); reflexivity.
Qed.

(** ** Held-Karp: one pass over the subsets of a given size *)

Lemma validPath_perm (n : nat) (rl rl' : list nat) :
  Permutation rl' rl -> validPath n rl -> validPath n rl'.
Proof.
  intros Hp [Hnd Hr]. split.
  - eapply Permutation_NoDup; [symmetry|]; eassumption.
  - intros i Hi. apply Hr. eapply Permutation_in; eassumption.
Qed.

Lemma validPath_tail (n e : nat) (r : list nat) :
  validPath n (e :: r) -> validPath n r.
Proof.
  intros [Hnd Hr]. inversion Hnd; subst. split; [assumption|].
  intros i Hi. apply Hr. now right.
Qed.

Lemma validPath_le_30 (n : nat) (rl : list nat) :
  (n <= 31)%nat -> validPath n rl ->
  forall i, In i rl -> (1 <= i <= 30)%nat.
Proof. intros Hn [_ Hr] i Hi. apply Hr in Hi. lia. Qed.

Lemma maskOf_small (n : nat) (rl : list nat) :
  (n <= 31)%nat -> validPath n rl -> (0 <= maskOf rl < 2 ^ 31)%Z.
Proof.
  intros Hn Hv. apply (maskOf_bound 31); [lia|].
  intros i Hi. apply (validPath_le_30 n rl Hn Hv) in Hi. lia.
Qed.

Lemma prevMask_maskOf (n e : nat) (r : list nat) :
  (n <= 31)%nat -> validPath n (e :: r) ->
  bxor (maskOf (e :: r)) (shl 1 e) = maskOf r.
Proof.
  intros Hn Hv.
  pose proof (maskOf_small n _ Hn Hv) as Hm.
  assert (He : (1 <= e <= 30)%nat)
    by (apply (validPath_le_30 n _ Hn Hv); now left).
  apply bits_eq.
  - apply bxor_nonneg; [exact Hm|lia].
  - apply maskOf_nonneg.
  - intros j. rewrite bxor_bit by (try exact Hm; lia).
    rewrite !maskOf_bit. cbn [existsb].
    destruct Hv as [Hnd _]. inversion Hnd as [|? ? Hne _]; subst.
    destruct (Nat.eqb_spec e j) as [<-|Hej].
    + rewrite Nat.eqb_refl.
      destruct (Nat.eqb_spec e 0); [lia|].
      destruct (existsb (Nat.eqb e) r) eqn:Ex; [|reflexivity].
      apply existsb_exists in Ex. destruct Ex as (k & Hk & E).
      apply Nat.eqb_eq in E. subst k. contradiction.
    + destruct (Nat.eqb_spec j e); [congruence|].
      cbn [orb]. now rewrite xorb_false_r.
Qed.

Lemma key_size_neq (n s : nat) (rl : list nat) (m : Z) (e e' : nat) :
  (n <= 31)%nat -> validPath n rl ->
  __builtin_popcount m = Z.of_nat s -> S (length rl) <> s ->
  (maskOf rl, e') <> (m, e).
Proof.
  intros Hn Hv Hpop Hs E. injection E as <- _.
  rewrite popcount_maskOf in Hpop.
  - apply Nat2Z.inj in Hpop. contradiction.
  - apply Hv.
  - apply (validPath_le_30 n rl Hn Hv).
Qed.

Lemma chain_frame (n s : nat) (parent : table (option nat)) (m : Z)
  (e : nat) (b : option nat) (rl : list nat) :
  (n <= 31)%nat -> __builtin_popcount m = Z.of_nat s ->
  validPath n rl -> (S (length rl) <= s)%nat ->
  (maskOf rl, hd 0%nat rl) <> (m, e) ->
  chain parent rl -> chain (tset parent (m, e) b) rl.
Proof.
  intros Hn Hpop. induction rl as [|e0 r IH]; intros Hv Hlen Hkey Hc;
    [exact I|].
  destruct Hc as [H1 H2]. split.
  - rewrite tget_tset_other by exact Hkey. exact H1.
  - apply IH; [now apply validPath_tail in Hv|simpl in Hlen; lia| |exact H2].
    apply (key_size_neq n s); [exact Hn|now apply validPath_tail in Hv|
                               exact Hpop|simpl in Hlen; lia].
Qed.

Lemma entryOk_frame (points : list Point) (s : nat) (st : tables) (m : Z)
  (e : nat) (v : R) (b : option nat) (rl : list nat) :
  (length points <= 31)%nat -> __builtin_popcount m = Z.of_nat s ->
  validPath (length points) rl -> (S (length rl) <= s)%nat ->
  (maskOf rl, hd 0%nat rl) <> (m, e) ->
  entryOk points st rl ->
  entryOk points (tset (fst st) (m, e) v, tset (snd st) (m, e) b) rl.
Proof.
  intros Hn Hpop Hv Hlen Hkey Hok.
  destruct rl as [|e0 r]; [exact I|].
  destruct Hok as (v0 & rl0 & H1 & H2 & H3 & H4 & H5 & H6).
  exists v0, rl0. cbn [fst snd].
  split; [rewrite tget_tset_other by exact Hkey; exact H1|].
  split; [exact H2|]. split; [exact H3|]. split; [exact H4|].
  split; [|exact H6].
  apply (chain_frame (length points) s); auto.
  - now apply (validPath_perm _ _ _ H2).
  - rewrite (Permutation_length H2). exact Hlen.
  - rewrite (maskOf_perm _ _ H2).
    destruct rl0; [discriminate|]. simpl in H3. injection H3 as ->.
    exact Hkey.
Qed.

Lemma perm_head (q : nat) (r : list nat) :
  In q r -> exists r', Permutation (q :: r') r.
Proof.
  intros H. apply in_split in H. destruct H as (l1 & l2 & ->).
  exists (l1 ++ l2). apply Permutation_middle.
Qed.

(** The entry computed for a path of [s - 1] vertices from the entries
    of its shorter paths. *)
Lemma dpEndsStep_entry (points : list Point) (s : nat) (st : tables)
  (e : nat) (r : list nat) :
  let n := length points in
  (n <= 31)%nat -> (3 <= s)%nat ->
  validPath n (e :: r) -> length (e :: r) = (s - 1)%nat ->
  dpInv points (s - 1) st ->
  entryOk points (dpEndsStep points (maskOf (e :: r)) st e) (e :: r) /\
  exists v b,
    dpEndsStep points (maskOf (e :: r)) st e =
    (tset (fst st) (maskOf (e :: r), e) v,
     tset (snd st) (maskOf (e :: r), e) b).
Proof.
  intros n Hn Hs Hv Hlen Hinv.
  pose proof (maskOf_small n _ Hn Hv) as Hm.
  assert (He : (1 <= e <= 30)%nat)
    by (apply (validPath_le_30 n _ Hn Hv); now left).
  pose proof (validPath_tail n e r Hv) as Hvr.
  pose proof (maskOf_small n _ Hn Hvr) as Hmr.
  assert (Hpop : __builtin_popcount (maskOf (e :: r)) = Z.of_nat s).
  { rewrite popcount_maskOf;
      [f_equal; lia|apply Hv|apply (validPath_le_30 n _ Hn Hv)]. }
  destruct st as [dp parent]. unfold dpEndsStep.
  rewrite band_bit by (try exact Hm; lia).
  assert (Hbit : bit (maskOf (e :: r)) e = true).
  { apply maskOf_bit_In. right. now left. }
  rewrite Hbit. cbn [negb].
  rewrite (prevMask_maskOf n e r Hn Hv).
  pose proof (dpBest_min points dp (maskOf r) e Hmr Hn) as Hmin.
  (* every vertex of [r] gives a candidate *)
  assert (Hcand : forall q, In q r ->
            exists r' vq rlq,
              Permutation (q :: r') r /\
              candidate points dp (maskOf r) e q
                = Some (vq + distance (pt points q) (pt points e)) /\
              tget dp (maskOf r, q) = Some vq /\
              Permutation rlq r /\ hd_error rlq = Some q /\
              vq = rcost points rlq /\ chain parent rlq /\
              forall rl', Permutation rl' r -> hd_error rl' = Some q ->
                          vq <= rcost points rl').
  { intros q Hq. destruct (perm_head q r Hq) as (r' & Hp).
    assert (Hvq : validPath n (q :: r'))
      by (apply (validPath_perm n r); [exact Hp|exact Hvr]).
    assert (Hlq : (length (q :: r') < s - 1)%nat).
    { rewrite (Permutation_length Hp). simpl in Hlen. lia. }
    destruct (Hinv (q :: r') Hvq Hlq)
      as (vq & rlq & H1 & H2 & H3 & H4 & H5 & H6).
    cbn [fst snd] in *. rewrite (maskOf_perm _ _ Hp) in H1.
    exists r', vq, rlq. split; [exact Hp|].
    split; [|split; [exact H1|]].
    - unfold candidate.
      assert (Hb : bit (maskOf r) q = true)
        by (apply maskOf_bit_In; now right).
      now rewrite Hb, H1.
    - split; [now transitivity (q :: r')|]. split; [exact H3|].
      split; [exact H4|]. split; [exact H5|].
      intros rl' Hp' Hh. apply H6; [|exact Hh]. now transitivity r. }
  destruct (dpBest points dp (maskOf r) e) as [[m|] bestPrev].
  - destruct Hmin as (p & -> & Hp & Hc & Hle).
    split; [|eauto].
    assert (Hpr : In p r).
    { unfold candidate in Hc. destruct (bit (maskOf r) p) eqn:Hb;
        [|discriminate].
      apply maskOf_bit_In in Hb. destruct Hb as [->|Hb]; [|exact Hb].
      apply in_seq in Hp. lia. }
    destruct (Hcand p Hpr)
      as (r' & vp & rlp & P1 & P2 & P3 & P4 & P5 & P6 & P7 & P8).
    rewrite P2 in Hc. injection Hc as <-.
    destruct rlp as [|p0 rlp']; [discriminate|].
    simpl in P5. injection P5 as ->.
    exists (vp + distance (pt points p) (pt points e)), (e :: p :: rlp').
    cbn [fst snd].
    split; [apply tget_tset_same|].
    split; [now apply perm_skip|]. split; [reflexivity|].
    split; [rewrite rcost_cons; lra|]. split.
    + split.
      * rewrite (maskOf_perm (e :: p :: rlp') (e :: r))
          by now apply perm_skip.
        apply tget_tset_same.
      * assert (Hvp : validPath n (p :: rlp'))
          by now apply (validPath_perm n r).
        assert (Hlp : (S (length (p :: rlp')) < s)%nat).
        { rewrite (Permutation_length P4). simpl in Hlen. lia. }
        apply (chain_frame n s); auto; [lia|].
        apply (key_size_neq n s); auto. lia.
    + intros rl' Hp' Hh.
      destruct rl' as [|e' r'']; [discriminate|].
      simpl in Hh. injection Hh as ->.
      apply Permutation_cons_inv in Hp'.
      destruct r'' as [|q r3].
      { apply Permutation_length in Hp'. simpl in Hp', Hlen. lia. }
      assert (Hq : In q r)
        by (eapply Permutation_in; [exact Hp'|now left]).
      destruct (Hcand q Hq)
        as (rq & vq & rlq & Q1 & Q2 & Q3 & Q4 & Q5 & Q6 & Q7 & Q8).
      assert (Hseq : In q (seq 1 (length points - 1))).
      { apply in_seq. destruct Hvr as [_ Hr]. apply Hr in Hq. fold n. lia. }
      specialize (Hle q _ Hseq Q2).
      specialize (Q8 (q :: r3) Hp' eq_refl).
      rewrite rcost_cons. lra.
  - exfalso. destruct Hmin as [_ Hnone].
    destruct r as [|q r0]; [simpl in Hlen; lia|].
    destruct (Hcand q (or_introl eq_refl)) as (r' & vq & rlq & _ & Q2 & _).
    rewrite Hnone in Q2; [discriminate|].
    apply in_seq. destruct Hvr as [_ Hr].
    specialize (Hr q (or_introl eq_refl)). fold n. lia.
Qed.

Lemma passInv_weaken (points : list Point) (s : nat) (D D' : key -> Prop)
  (st : tables) :
  (forall k, D' k -> D k) -> passInv points s D st -> passInv points s D' st.
Proof.
  intros H [H1 H2]. split; [exact H1|].
  intros rl Hv Hl Hd. apply H2; auto.
Qed.

Lemma key_eq_dec (a b : key) : {a = b} + {a <> b}.
Proof.
  destruct (keyEqb a b) eqn:E.
  - left. now apply keyEqb_eq.
  - right. intros H. apply keyEqb_eq in H. congruence.
Qed.

Lemma dpEndsStep_pass (points : list Point) (s : nat) (D : key -> Prop)
  (st : tables) (mask : Z) (e : nat) :
  (length points <= 31)%nat -> (3 <= s)%nat ->
  __builtin_popcount mask = Z.of_nat s ->
  passInv points s D st ->
  passInv points s (fun k => D k \/ k = (mask, e))
          (dpEndsStep points mask st e).
Proof.
  intros Hn Hs Hpop [Hinv HD].
  assert (Hnew : forall rl, validPath (length points) rl ->
            length rl = (s - 1)%nat -> (maskOf rl, hd 0%nat rl) = (mask, e) ->
            entryOk points (dpEndsStep points mask st e) rl /\
            exists v b, dpEndsStep points mask st e =
                        (tset (fst st) (mask, e) v, tset (snd st) (mask, e) b)).
  { intros rl Hv Hl Hk. destruct rl as [|e0 r]; [simpl in Hl; lia|].
    simpl hd in Hk. injection Hk as Hm ->. rewrite <- Hm.
    apply (dpEndsStep_entry points s st e r); auto. }
  assert (Hshape : dpEndsStep points mask st e = st \/
            exists v b, dpEndsStep points mask st e =
                        (tset (fst st) (mask, e) v, tset (snd st) (mask, e) b)).
  { destruct st as [dp parent]. unfold dpEndsStep.
    destruct (band mask (shl 1 e) =? 0)%Z; [now left|].
    destruct (dpBest points dp (bxor mask (shl 1 e)) e) as [[m|] b];
      [right; eauto|now left]. }
  destruct Hshape as [E|(v & b & E)].
  - split; [rewrite E; exact Hinv|].
    intros rl Hv Hl [Hd|Hk].
    + rewrite E. now apply HD.
    + now apply Hnew.
  - split.
    + intros rl Hv Hl. rewrite E.
      apply (entryOk_frame points s);
        [exact Hn|exact Hpop|exact Hv|lia| |now apply Hinv].
      apply (key_size_neq (length points) s); auto. lia.
    + intros rl Hv Hl Hd.
      destruct (key_eq_dec (maskOf rl, hd 0%nat rl) (mask, e)) as [Hk|Hk].
      * now apply Hnew.
      * destruct Hd as [Hd|Hd]; [|contradiction].
        rewrite E.
        apply (entryOk_frame points s);
          [exact Hn|exact Hpop|exact Hv|lia|exact Hk|now apply HD].
Qed.

Lemma dpEnds_pass (points : list Point) (s : nat) (mask : Z) (l : list nat) :
  (length points <= 31)%nat -> (3 <= s)%nat ->
  __builtin_popcount mask = Z.of_nat s ->
  forall (D : key -> Prop) (st : tables),
  passInv points s D st ->
  passInv points s (fun k => D k \/ (fst k = mask /\ In (snd k) l))
          (fold_left (dpEndsStep points mask) l st).
Proof.
  intros Hn Hs Hpop. induction l as [|e l IH]; intros D st Hinv.
  - simpl. apply (passInv_weaken points s D); [|exact Hinv].
    intros k [H|[_ []]]. exact H.
  - cbn [fold_left].
    apply (passInv_weaken points s
             (fun k => (D k \/ k = (mask, e)) \/ (fst k = mask /\ In (snd k) l))).
    + intros [m i] [H|[H1 [H2|H2]]]; cbn [fst snd] in *; subst; auto.
    + apply IH. now apply dpEndsStep_pass.
Qed.

Lemma dpMasks_pass (points : list Point) (s : nat) (l : list Z) :
  (length points <= 31)%nat -> (3 <= s)%nat ->
  forall (D : key -> Prop) (st : tables),
  passInv points s D st ->
  passInv points s
    (fun k => D k \/
       (In (fst k) l /\ __builtin_popcount (fst k) = Z.of_nat s /\
        (band (fst k) 1 =? 0)%Z = false /\
        In (snd k) (seq 1 (length points - 1))))
    (fold_left (dpMasksStep points s) l st).
Proof.
  intros Hn Hs. induction l as [|mask l IH]; intros D st Hinv.
  - simpl. apply (passInv_weaken points s D); [|exact Hinv].
    intros k [H|[[] _]]. exact H.
  - cbn [fold_left].
    apply (passInv_weaken points s
      (fun k => (D k \/ (fst k = mask /\
                   __builtin_popcount mask = Z.of_nat s /\
                   (band mask 1 =? 0)%Z = false /\
                   In (snd k) (seq 1 (length points - 1)))) \/
         (In (fst k) l /\ __builtin_popcount (fst k) = Z.of_nat s /\
          (band (fst k) 1 =? 0)%Z = false /\
          In (snd k) (seq 1 (length points - 1))))).
    + intros [m i] [H|[[H1|H1] H2]]; cbn [fst snd] in *; subst; auto.
      all: try (left; right; tauto).
    + apply IH. unfold dpMasksStep.
      destruct (Z.eqb_spec (__builtin_popcount mask) (Z.of_nat s))
        as [Hpop|Hpop]; cbn [negb orb].
      * destruct (band mask 1 =? 0)%Z eqn:Hb.
        -- apply (passInv_weaken points s D); [|exact Hinv].
           intros k [H|(_ & _ & H & _)]; [exact H|discriminate].
        -- apply (passInv_weaken points s
                    (fun k => D k \/
                       (fst k = mask /\ In (snd k) (seq 1 (length points - 1))))).
           ++ intros k [H|(H1 & _ & _ & H2)]; auto.
           ++ now apply dpEnds_pass.
      * apply (passInv_weaken points s D); [|exact Hinv].
        intros k [H|(_ & H & _)]; [exact H|contradiction].
Qed.

Lemma dpMasks_inv (points : list Point) (s : nat) (st : tables) :
  (length points <= 30)%nat -> (3 <= s)%nat ->
  dpInv points (s - 1) st -> dpInv points s (dpMasks points s st).
Proof.
  intros Hn Hs Hinv. unfold dpMasks.
  destruct (dpMasks_pass points s
              (map Z.of_nat (seq 0 (Z.to_nat (shl 1 (length points)))))
              ltac:(lia) Hs (fun _ => False) st) as [H1 H2].
  { split; [exact Hinv|]. intros rl _ _ []. }
  intros rl Hv Hl.
  destruct (Nat.eq_dec (length rl) (s - 1)) as [E|E];
    [|apply H1; [exact Hv|lia]].
  apply H2; [exact Hv|exact E|]. right. cbn [fst snd].
  assert (Hn31 : (length points <= 31)%nat) by lia.
  destruct rl as [|e r]; [simpl in E; lia|].
  assert (He : (1 <= e < length points)%nat) by (apply Hv; now left).
  pose proof (maskOf_bound (length points) (e :: r)) as Hb.
  destruct Hb as [Hb1 Hb2]; [lia|intros i Hi; apply Hv in Hi; lia|].
  split; [|split; [|split]].
  - rewrite shl_1 by exact Hn. apply in_map_iff.
    exists (Z.to_nat (maskOf (e :: r))). split; [lia|].
    apply in_seq. lia.
  - rewrite popcount_maskOf;
      [f_equal; lia|apply Hv|apply (validPath_le_30 _ _ Hn31 Hv)].
  - rewrite band_1 by (apply (maskOf_small _ _ Hn31 Hv)).
    assert (Hbit : bit (maskOf (e :: r)) 0 = true)
      by (apply maskOf_bit_In; now left).
    now rewrite Hbit.
  - apply in_seq. simpl. lia.
Qed.

Lemma dpFill_inv (points : list Point) :
  (2 <= length points <= 30)%nat ->
  dpInv points (length points) (dpFill points (dpInit points)).
Proof.
  intros Hn. unfold dpFill.
  assert (Hgen : forall k a st, (3 <= a)%nat ->
            dpInv points (a - 1) st ->
            dpInv points (a + k - 1)
              (fold_left (fun st subsetSize => dpMasks points subsetSize st)
                         (seq a k) st)).
  { induction k as [|k IH]; intros a st Ha Hst.
    - simpl. now rewrite Nat.add_0_r.
    - cbn [seq fold_left].
      replace (a + S k - 1)%nat with (S a + k - 1)%nat by lia.
      apply IH; [lia|]. replace (S a - 1)%nat with a by lia.
      apply dpMasks_inv; [lia|exact Ha|exact Hst]. }
  replace (length points) with (3 + (length points - 2) - 1)%nat at 1 by lia.
  apply Hgen; [lia|]. apply dpInit_inv. lia.
Qed.

(** ** Held-Karp: closing the tour and reading the path back *)

Lemma fullMask_maskOf (n : nat) :
  (1 <= n <= 30)%nat -> (shl 1 n - 1)%Z = maskOf (seq 1 (n - 1)).
Proof.
  intros Hn. rewrite shl_1 by lia.
  replace (2 ^ Z.of_nat n - 1)%Z with (Z.ones (Z.of_nat n))
    by (rewrite Z.ones_equiv; lia).
  apply bits_eq.
  - rewrite Z.ones_equiv. pose proof (Z.pow_pos_nonneg 2 (Z.of_nat n)). lia.
  - apply maskOf_nonneg.
  - intros j. destruct (Nat.lt_ge_cases j n) as [Hj|Hj].
    + unfold bit at 1. rewrite Z.ones_spec_low by lia.
      symmetry. apply maskOf_bit_In.
      destruct j as [|j]; [now left|right]. apply in_seq. lia.
    + unfold bit at 1. rewrite Z.ones_spec_high by lia.
      destruct (bit (maskOf (seq 1 (n - 1))) j) eqn:E; [|reflexivity].
      apply maskOf_bit_In in E. destruct E as [->|E]; [lia|].
      apply in_seq in E. lia.
Qed.

Lemma full_perm (n : nat) (rl : list nat) :
  validPath n rl -> length rl = (n - 1)%nat ->
  Permutation rl (seq 1 (n - 1)).
Proof.
  intros [Hnd Hr] Hl. apply NoDup_Permutation_bis; [exact Hnd| |].
  - rewrite length_seq. lia.
  - intros i Hi. apply in_seq. apply Hr in Hi. lia.
Qed.

Lemma reconstruct_chain (points : list Point) (parent : table (option nat))
  (rl : list nat) :
  (length points <= 31)%nat -> validPath (length points) rl ->
  chain parent rl ->
  forall k path, (length rl <= k)%nat ->
  reconstruct k points parent (maskOf rl) (Some (hd 0%nat rl)) path
  = inr (path ++ map (pt points) rl).
Proof.
  intros Hn. induction rl as [|e r IH]; intros Hv Hc k path Hk.
  - simpl. destruct k; now rewrite app_nil_r.
  - assert (He : (1 <= e < length points)%nat) by (apply Hv; now left).
    destruct k as [|k]; [simpl in Hk; lia|].
    cbn [hd]. destruct e as [|e']; [lia|].
    cbn [reconstruct].
    assert (Hnth : nth_error points (S e') = Some (pt points (S e'))).
    { unfold pt. apply nth_error_nth'. lia. }
    rewrite Hnth. destruct Hc as [H1 H2]. rewrite H1.
    rewrite (prevMask_maskOf (length points) (S e') r Hn Hv).
    rewrite IH; [|now apply validPath_tail in Hv|exact H2|simpl in Hk; lia].
    rewrite <- app_assoc. reflexivity.
Qed.

(** The tables after the last pass: the best closing vertex, the path
    recorded for it, and its optimality. *)
Lemma dpClose_spec (points : list Point) :
  let n := length points in
  (2 <= n <= 30)%nat ->
  exists rl0,
    validPath n rl0 /\ length rl0 = (n - 1)%nat /\
    chain (snd (dpFill points (dpInit points))) rl0 /\
    dpClose points (fst (dpFill points (dpInit points))) (shl 1 n - 1)
    = (Fin (rcost points rl0
            + distance (pt points (hd 0%nat rl0)) (pt points 0)),
       Some (hd 0%nat rl0)) /\
    forall rl, validPath n rl -> length rl = (n - 1)%nat ->
      rcost points rl0 + distance (pt points (hd 0%nat rl0)) (pt points 0)
      <= rcost points rl + distance (pt points (hd 0%nat rl)) (pt points 0).
Proof.
  intros n Hn.
  pose proof (dpFill_inv points Hn) as Hinv. fold n in Hinv.
  destruct (dpFill points (dpInit points)) as [dp parent]. cbn [fst snd].
  rewrite fullMask_maskOf by lia.
  set (full := seq 1 (n - 1)).
  assert (Hentry : forall rl, validPath n rl -> length rl = (n - 1)%nat ->
            exists v rl0,
              closeCandidate points dp (maskOf full) (hd 0%nat rl)
                = Some (v + distance (pt points (hd 0%nat rl)) (pt points 0))
              /\ validPath n rl0 /\ length rl0 = (n - 1)%nat
              /\ hd 0%nat rl0 = hd 0%nat rl /\ v = rcost points rl0
              /\ chain parent rl0 /\ v <= rcost points rl).
  { intros rl Hv Hl. pose proof (full_perm n rl Hv Hl) as Hp. fold full in Hp.
    destruct rl as [|e r]; [simpl in Hl; lia|].
    destruct (Hinv (e :: r) Hv) as (v & rl0 & H1 & H2 & H3 & H4 & H5 & H6);
      [lia|].
    cbn [fst snd hd] in *. exists v, rl0.
    rewrite (maskOf_perm _ _ Hp) in H1.
    unfold closeCandidate. rewrite H1.
    split; [reflexivity|]. split; [now apply (validPath_perm n (e :: r))|].
    split; [now rewrite (Permutation_length H2)|].
    split; [destruct rl0; [discriminate|]; simpl in H3; now injection H3|].
    split; [exact H4|]. split; [exact H5|].
    apply H6; [reflexivity|reflexivity]. }
  pose proof (dpClose_min points dp (maskOf full)) as Hmin. fold n in Hmin.
  fold full in Hmin.
  assert (Hfull : forall q, In q full ->
            exists r, validPath n (q :: r) /\ length (q :: r) = (n - 1)%nat).
  { intros q Hq. destruct (perm_head q full Hq) as (r & Hp).
    exists r. split.
    - apply (validPath_perm n full); [exact Hp|]. split; [apply seq_NoDup|].
      intros i Hi. apply in_seq in Hi. lia.
    - rewrite (Permutation_length Hp). apply length_seq. }
  destruct (dpClose points dp (maskOf full)) as [[m|] lastNode].
  - destruct Hmin as (p & -> & Hp & Hc & Hle).
    destruct (Hfull p Hp) as (r & Hv & Hl).
    destruct (Hentry (p :: r) Hv Hl)
      as (v & rl0 & E1 & E2 & E3 & E4 & E5 & E6 & E7).
    cbn [hd] in *. rewrite E1 in Hc. injection Hc as <-.
    exists rl0. rewrite E4, <- E5.
    split; [exact E2|]. split; [exact E3|]. split; [exact E6|].
    split; [reflexivity|].
    intros rl Hvr Hlr.
    destruct (Hentry rl Hvr Hlr) as (v' & _ & F1 & _ & _ & _ & _ & _ & F7).
    assert (Hq : In (hd 0%nat rl) full).
    { destruct rl as [|q rq]; [simpl in Hlr; lia|]. cbn [hd].
      apply in_seq. destruct Hvr as [_ Hr].
      specialize (Hr q (or_introl eq_refl)). lia. }
    specialize (Hle _ _ Hq F1). lra.
  - exfalso. destruct Hmin as [_ Hnone].
    assert (H1 : In 1%nat full) by (apply in_seq; lia).
    destruct (Hfull 1%nat H1) as (r & Hv & Hl).
    destruct (Hentry (1%nat :: r) Hv Hl) as (v & _ & E1 & _).
    cbn [hd] in E1. rewrite (Hnone 1%nat H1) in E1. discriminate.
Qed.

(** The exact solver on 2 to 30 points: the order of visit, the result
    and its optimality among the closed tours from point 0. *)
Lemma dp_spec (clk : nat -> R) (points : list Point) (t : nat) :
  (2 <= length points <= 30)%nat ->
  exists order,
    Permutation order (seq 0 (length points)) /\
    hd_error order = Some 0%nat /\
    solveTSPExactDP clk points t =
      Ok (mkRouteResult (map (pt points) order ++ [pt points 0])
            (Fin (routeLength (map (pt points) order ++ [pt points 0])))
            (clk (S t) - clk t) "Exact DP (Held-Karp)")
         (S (S t)) /\
    forall order',
      Permutation order' (seq 0 (length points)) ->
      hd_error order' = Some 0%nat ->
      routeLength (map (pt points) order ++ [pt points 0])
      <= routeLength (map (pt points) order' ++ [pt points 0]).
Proof.
  intros Hn. set (n := length points) in *.
  destruct (dpClose_spec points Hn) as (rl0 & Hv & Hl & Hc & Hclose & Hopt).
  fold n in Hv, Hl, Hclose, Hopt.
  assert (Hlen : forall rl, validPath n rl -> length rl = (n - 1)%nat ->
            routeLength (map (pt points) (0%nat :: rev rl) ++ [pt points 0])
            = rcost points rl
              + distance (pt points (hd 0%nat rl)) (pt points 0)).
  { intros rl _ Hlr.
    assert (E : map (pt points) (0%nat :: rev rl) ++ [pt points 0]
                = rev (map (pt points) (0%nat :: rl ++ [0%nat]))).
    { rewrite <- map_rev. cbn [rev]. rewrite rev_app_distr.
      cbn [rev app map]. rewrite map_app. reflexivity. }
    rewrite E, routeLength_rev.
    destruct rl as [|e r]; [simpl in Hlr; lia|].
    unfold rcost. cbn [app map hd].
    change (routeLength (pt points 0 :: pt points e
                         :: map (pt points) (r ++ [0%nat])))
      with (distance (pt points 0) (pt points e)
            + routeLength (pt points e :: map (pt points) (r ++ [0%nat]))).
    rewrite (distance_sym (pt points e)). lra. }
  exists (0%nat :: rev rl0).
  assert (Hperm : forall rl, validPath n rl -> length rl = (n - 1)%nat ->
            Permutation (0%nat :: rev rl) (seq 0 n)).
  { intros rl Hvr Hlr. replace n with (S (n - 1)) at 1 by lia.
    cbn [seq]. apply perm_skip. rewrite <- Permutation_rev.
    now apply full_perm. }
  split; [now apply Hperm|]. split; [reflexivity|]. split.
  - unfold solveTSPExactDP, bind, now. fold n.
    destruct (Nat.leb_spec n 1); [lia|].
    destruct (dpFill points (dpInit points)) as [dp parent].
    cbn [fst snd] in *. rewrite Hclose.
    assert (Hfm : (shl 1 n - 1)%Z = maskOf rl0).
    { rewrite fullMask_maskOf by lia. symmetry. apply maskOf_perm.
      now apply full_perm. }
    rewrite Hfm, reconstruct_chain; [|lia|exact Hv|exact Hc|lia].
    unfold lift, ret. rewrite Hlen by assumption.
    do 2 f_equal.
    rewrite rev_app_distr. cbn [rev app map]. rewrite map_rev.
    reflexivity.
  - intros order' Hp' Hh'. rewrite Hlen by assumption.
    destruct order' as [|o sigma]; [discriminate|].
    simpl in Hh'. injection Hh' as ->.
    assert (Hps : Permutation sigma (seq 1 (n - 1))).
    { replace n with (S (n - 1)) in Hp' at 1 by lia. cbn [seq] in Hp'.
      now apply Permutation_cons_inv in Hp'. }
    assert (Hvs : validPath n (rev sigma)).
    { apply (validPath_perm n (seq 1 (n - 1))).
      - now rewrite <- Permutation_rev.
      - split; [apply seq_NoDup|]. intros i Hi. apply in_seq in Hi. lia. }
    assert (Hls : length (rev sigma) = (n - 1)%nat).
    { rewrite length_rev, (Permutation_length Hps). apply length_seq. }
    rewrite <- (rev_involutive sigma) at 1.
    rewrite (Hlen (rev sigma) Hvs Hls). now apply Hopt.
Qed.

(** ** The four tour solvers return sound results *)

Lemma elapsed_nonneg (clk : nat -> R) (x : R) :
  monotone clk -> elapsed clk x -> 0 <= x.
Proof.
  intros Hm [->|(i & j & Hij & ->)]; [lra|].
  specialize (Hm i j Hij). lra.
Qed.

Lemma elapsed_diff (clk : nat -> R) (i j : nat) :
  (i <= j)%nat -> elapsed clk (clk j - clk i).
Proof. intros H. right. eauto. Qed.

Lemma routeLength_short (points : list Point) :
  (length points <= 1)%nat -> routeLength points = 0.
Proof. destruct points as [|p [|q l]]; simpl; intros; try reflexivity; lia. Qed.

Lemma nn_sound (clk : nat -> R) (points : list Point) (t : nat) :
  exists r t', solveTSPNearestNeighbor clk points t = Ok r t' /\ sound clk r.
Proof.
  destruct (Nat.le_gt_cases (length points) 1) as [Hn|Hn].
  - unfold solveTSPNearestNeighbor, bind, now, ret.
    destruct (Nat.leb_spec (length points) 1); [|lia].
    eexists _, _. split; [reflexivity|]. split; cbn.
    + now rewrite routeLength_short.
    + now left.
  - destruct (nn_spec clk points t Hn) as (order & _ & _ & E).
    rewrite E. eexists _, _. split; [reflexivity|].
    split; [reflexivity|]. apply elapsed_diff. lia.
Qed.

Lemma dp_sound (clk : nat -> R) (points : list Point) (t : nat) :
  (length points <= 30)%nat ->
  exists r t', solveTSPExactDP clk points t = Ok r t' /\ sound clk r.
Proof.
  intros H30. destruct (Nat.le_gt_cases (length points) 1) as [Hn|Hn].
  - unfold solveTSPExactDP, bind, now, ret.
    destruct (Nat.leb_spec (length points) 1); [|lia].
    eexists _, _. split; [reflexivity|]. split; cbn.
    + now rewrite routeLength_short.
    + now left.
  - destruct (dp_spec clk points t) as (order & _ & _ & E & _); [lia|].
    rewrite E. eexists _, _. split; [reflexivity|].
    split; [reflexivity|]. apply elapsed_diff. lia.
Qed.

Lemma twoOpt_sound (clk : nat -> R) (points : list Point) (t : nat) :
  exists r t', solveTSP2Opt clk points t = Ok r t' /\ sound clk r.
Proof.
  destruct (Nat.le_gt_cases (length points) 2) as [Hn|Hn].
  - unfold solveTSP2Opt, bind, now, ret.
    destruct (Nat.leb_spec (length points) 2); [|lia].
    eexists _, _. split; [reflexivity|]. split; cbn.
    + now rewrite calculateRouteDistance_routeLength.
    + now left.
  - destruct (twoOpt_spec clk points t Hn) as (order & tour & _ & _ & _ & _ & E).
    rewrite E. eexists _, _. split; [reflexivity|].
    split; [reflexivity|]. apply elapsed_diff. lia.
Qed.

Lemma christofides_sound (clk : nat -> R) (points : list Point) (t : nat) :
  exists r t', solveTSPChristofides clk points t = Ok r t' /\ sound clk r.
Proof.
  destruct (Nat.le_gt_cases (length points) 2) as [Hn|Hn].
  - unfold solveTSPChristofides, bind, now, ret.
    destruct (Nat.leb_spec (length points) 2); [|lia].
    eexists _, _. split; [reflexivity|]. split; cbn.
    + now rewrite calculateRouteDistance_routeLength.
    + now left.
  - destruct (christofides_spec clk points t Hn) as (order & _ & _ & E).
    rewrite E. eexists _, _. split; [reflexivity|].
    split; [reflexivity|]. apply elapsed_diff. lia.
Qed.

(** The dispatcher on the four tour selectors. *)
Lemma solveTSP_sound (clk : nat -> R) (fuel : nat) (points : list Point)
  (algo : AlgorithmType) (t : nat) :
  algo <> Astar ->
  exists r t', solveTSP clk fuel points algo t = Ok r t' /\ sound clk r.
Proof.
  intros Ha. destruct algo; cbn [solveTSP]; try contradiction.
  - destruct (Nat.leb_spec (length points) 20).
    + apply dp_sound. lia.
    + destruct (nn_sound clk points t) as (r & t' & E & Hs1 & Hs2).
      unfold bind, ret. rewrite E. eexists _, _. split; [reflexivity|].
      split; assumption.
  - apply nn_sound.
  - apply twoOpt_sound.
  - apply christofides_sound.
Qed.

(** ** A* search *)

Lemma insertByF_perm (a : AStarNode) (l : list AStarNode) :
  Permutation (insertByF a l) (a :: l).
Proof.
  induction l as [|b t IH]; simpl; [reflexivity|].
  destruct (Rltb (Node.f b) (Node.f a)); [|reflexivity].
  rewrite IH. apply perm_swap.
Qed.

Lemma sortByF_perm (l : list AStarNode) : Permutation (sortByF l) l.
Proof.
  induction l as [|a t IH]; simpl; [reflexivity|].
  rewrite insertByF_perm. now apply perm_skip.
Qed.

Lemma coordEqb_eq (a b : R * R) : coordEqb a b = true <-> a = b.
Proof.
  destruct a as [a1 a2], b as [b1 b2]. unfold coordEqb. simpl.
  rewrite andb_true_iff, !Reqb_true.
  split; [intros [-> ->]; reflexivity|intros H; injection H; auto].
Qed.

Lemma closed_has (key : R * R) (closedSet : list (R * R)) :
  existsb (coordEqb key) closedSet = true <-> In key closedSet.
Proof.
  rewrite existsb_exists. split.
  - intros (c & Hc & E). apply coordEqb_eq in E. now subst.
  - intros H. exists key. split; [exact H|now apply coordEqb_eq].
Qed.

Lemma zrange_In (N : nat) (i : Z) :
  (- Z.of_nat N <= i <= Z.of_nat N)%Z -> In i (zrange N).
Proof.
  intros Hi. unfold zrange. apply in_map_iff.
  exists (Z.to_nat (i + Z.of_nat N)). split; [lia|]. apply in_seq. lia.
Qed.

Lemma gridCells_In (sx sy : R) (N : nat) (c : R * R) :
  onGrid sx sy N c -> In c (gridCells sx sy N).
Proof.
  intros (i & j & Hi & Hj & Hx & Hy). unfold gridCells. apply in_map_iff.
  exists (i, j). split.
  - destruct c as [cx cy]. simpl in *. now subst.
  - apply in_prod; now apply zrange_In.
Qed.

Lemma gridCells_length (sx sy : R) (N : nat) :
  length (gridCells sx sy N) = ((2 * N + 1) * (2 * N + 1))%nat.
Proof.
  unfold gridCells, zrange.
  now rewrite length_map, length_prod, !length_map, !length_seq.
Qed.

Lemma closed_bound (sx sy : R) (N : nat) (closedSet : list (R * R)) :
  NoDup closedSet -> (forall c, In c closedSet -> onGrid sx sy N c) ->
  (length closedSet <= (2 * N + 1) * (2 * N + 1))%nat.
Proof.
  intros Hnd Hin. rewrite <- (gridCells_length sx sy N).
  apply NoDup_incl_length; [exact Hnd|].
  intros c Hc. apply gridCells_In. now apply Hin.
Qed.

Lemma exists_nat_above (r : R) : exists n : nat, r <= INR n.
Proof.
  destruct (archimed (Rabs r)) as [Hup _].
  pose proof (Rabs_pos r) as Hpos. pose proof (Rle_abs r) as Hle.
  assert (Hz : (0 < up (Rabs r))%Z) by (apply lt_IZR; lra).
  exists (Z.to_nat (up (Rabs r))).
  rewrite INR_IZR_INZ, Z2Nat.id by lia. lra.
Qed.

Lemma directions_integral (d : R * R) :
  In d directions ->
  exists a b : Z, (-1 <= a <= 1)%Z /\ (-1 <= b <= 1)%Z /\
                  d = (IZR a, IZR b).
Proof.
  unfold directions. intros H.
  repeat (destruct H as [<-|H];
          [first [ exists (-1)%Z, (-1)%Z; split; [lia|split; [lia|reflexivity]]
                 | exists (-1)%Z, 0%Z; split; [lia|split; [lia|reflexivity]]
                 | exists (-1)%Z, 1%Z; split; [lia|split; [lia|reflexivity]]
                 | exists 0%Z, (-1)%Z; split; [lia|split; [lia|reflexivity]]
                 | exists 0%Z, 1%Z; split; [lia|split; [lia|reflexivity]]
                 | exists 1%Z, (-1)%Z; split; [lia|split; [lia|reflexivity]]
                 | exists 1%Z, 0%Z; split; [lia|split; [lia|reflexivity]]
                 | exists 1%Z, 1%Z; split; [lia|split; [lia|reflexivity]] ]|]).
  destruct H.
Qed.

Lemma grid_range (s0 G B : R) (N : nat) (i : Z) :
  Rabs s0 <= B -> Rabs G <= B -> B <= INR N ->
  0 <= s0 + 2 * IZR i -> s0 + 2 * IZR i <= G ->
  (- Z.of_nat N <= i <= Z.of_nat N)%Z.
Proof.
  intros Hs HG HB H0 H1.
  pose proof (Rle_abs s0). pose proof (Rle_abs (- s0)) as Hn.
  rewrite Rabs_Ropp in Hn. pose proof (Rle_abs G).
  pose proof (Rabs_pos s0). pose proof (Rabs_pos G).
  rewrite INR_IZR_INZ in HB.
  split; apply le_IZR; [rewrite opp_IZR|]; lra.
Qed.

Lemma expandStep_spec (sx sy G : R) (N : nat) (goal : Point)
  (obstacleSet : list (Z * Z)) (current : AStarNode)
  (openSet : list AStarNode) (d : R * R) :
  Rabs sx + Rabs sy + Rabs G <= INR N ->
  onGrid sx sy N (nodeKey current) -> 0 <= Node.g current ->
  In d directions ->
  let openSet' := expandStep goal obstacleSet G current openSet d in
  (forall n, In n openSet' ->
     In n openSet \/ (onGrid sx sy N (nodeKey n) /\ 0 <= Node.g n)) /\
  (length openSet' <= S (length openSet))%nat.
Proof.
  intros HB (i & j & Hi & Hj & Hx & Hy) Hg Hd.
  destruct (directions_integral d Hd) as (a & b & Ha & Hb & ->).
  unfold expandStep. unfold nodeKey in Hx, Hy. cbn [fst snd] in Hx, Hy.
  set (newX := x (Node.point current) + IZR a * 2).
  set (newY := y (Node.point current) + IZR b * 2).
  destruct (Rltb newX 0 || Rltb G newX || Rltb newY 0 || Rltb G newY)
    eqn:Hbounds.
  { split; [auto|lia]. }
  destruct (existsb _ obstacleSet).
  { split; [auto|lia]. }
  apply orb_false_iff in Hbounds. destruct Hbounds as [Hbounds H4].
  apply orb_false_iff in Hbounds. destruct Hbounds as [Hbounds H3].
  apply orb_false_iff in Hbounds. destruct Hbounds as [H1 H2].
  apply Rltb_false in H1, H2, H3, H4.
  pose proof (Rabs_pos sx). pose proof (Rabs_pos sy). pose proof (Rabs_pos G).
  assert (Ex : newX = sx + 2 * IZR (i + a)).
  { unfold newX. rewrite Hx, plus_IZR. ring. }
  assert (Ey : newY = sy + 2 * IZR (j + b)).
  { unfold newY. rewrite Hy, plus_IZR. ring. }
  split.
  - intros n Hn. apply in_app_or in Hn. destruct Hn as [Hn|[<-|[]]];
      [now left|right].
    split.
    + exists (i + a)%Z, (j + b)%Z. cbn.
      split; [|split; [|split; [exact Ex|exact Ey]]].
      * apply (grid_range sx G (Rabs sx + Rabs sy + Rabs G)); lra.
      * apply (grid_range sy G (Rabs sx + Rabs sy + Rabs G)); lra.
    + cbn. pose proof (distance_nonneg (Node.point current)
        (mkPoint (CoordId newX newY) newX newY "")). lra.
  - rewrite length_app. simpl. lia.
Qed.

Lemma expand_spec (sx sy G : R) (N : nat) (goal : Point)
  (obstacleSet : list (Z * Z)) (current : AStarNode)
  (openSet : list AStarNode) :
  Rabs sx + Rabs sy + Rabs G <= INR N ->
  onGrid sx sy N (nodeKey current) -> 0 <= Node.g current ->
  (forall n, In n (expand goal obstacleSet G current openSet) ->
     In n openSet \/ (onGrid sx sy N (nodeKey n) /\ 0 <= Node.g n)) /\
  (length (expand goal obstacleSet G current openSet)
   <= length openSet + 8)%nat.
Proof.
  intros HB Hc Hg. unfold expand.
  assert (Hgen : forall ds l,
    (forall d, In d ds -> In d directions) ->
    (forall n, In n (fold_left (expandStep goal obstacleSet G current) ds l) ->
       In n l \/ (onGrid sx sy N (nodeKey n) /\ 0 <= Node.g n)) /\
    (length (fold_left (expandStep goal obstacleSet G current) ds l)
     <= length l + length ds)%nat).
  { induction ds as [|d ds IH]; intros l Hds.
    - simpl. split; [auto|lia].
    - cbn [fold_left].
      destruct (expandStep_spec sx sy G N goal obstacleSet current l d HB Hc Hg
                  (Hds d (or_introl eq_refl))) as [S1 S2].
      destruct (IH (expandStep goal obstacleSet G current l d)) as [I1 I2];
        [intros d' Hd'; apply Hds; now right|].
      split.
      + intros n Hn. destruct (I1 n Hn) as [H|H]; [|now right].
        now apply S1.
      + simpl. lia. }
  destruct (Hgen directions openSet (fun d H => H)) as [G1 G2].
  split; [exact G1|exact G2].
Qed.

(** With enough iterations left the search ends, and a node it finds
    has a cost that is not negative. *)
Lemma aStarLoop_ends (sx sy G : R) (N : nat) (goal : Point)
  (obstacleSet : list (Z * Z)) :
  Rabs sx + Rabs sy + Rabs G <= INR N ->
  forall k openSet closedSet,
  aStarInv sx sy N openSet closedSet ->
  (aStarMeasure N openSet closedSet < k)%nat ->
  match aStarLoop k goal obstacleSet G openSet closedSet with
  | Found current => 0 <= Node.g current
  | Exhausted => True
  | Unfinished => False
  end.
Proof.
  intros HB. induction k as [|k IH]; intros openSet closedSet Hinv Hk; [lia|].
  cbn [aStarLoop]. pose proof (sortByF_perm openSet) as Hperm.
  destruct (sortByF openSet) as [|current rest]; [exact I|].
  destruct Hinv as (Hopen & Hnd & Hclosed).
  assert (Hcur : In current openSet)
    by (eapply Permutation_in; [exact Hperm|now left]).
  assert (Hrest : forall n, In n rest -> In n openSet)
    by (intros n Hn; eapply Permutation_in; [exact Hperm|now right]).
  assert (Hlen : length openSet = S (length rest))
    by (rewrite <- (Permutation_length Hperm); reflexivity).
  destruct (Hopen current Hcur) as [Hgrid Hg].
  fold (nodeKey current).
  unfold aStarMeasure in Hk.
  destruct (existsb (coordEqb (nodeKey current)) closedSet) eqn:Hmem.
  - apply IH.
    + split; [|split; assumption]. intros n Hn. apply Hopen, Hrest, Hn.
    + unfold aStarMeasure. lia.
  - destruct (Rltb (distance (Node.point current) goal) 1); [exact Hg|].
    assert (Hnd' : NoDup (closedSet ++ [nodeKey current])).
    { apply NoDup_rev in Hnd.
      rewrite <- (rev_involutive (closedSet ++ [nodeKey current])).
      apply NoDup_rev. rewrite rev_app_distr. simpl.
      constructor; [|exact Hnd]. rewrite <- in_rev. intros Hin.
      apply closed_has in Hin. congruence. }
    assert (Hclosed' : forall c, In c (closedSet ++ [nodeKey current]) ->
                                 onGrid sx sy N c).
    { intros c Hc. apply in_app_or in Hc. destruct Hc as [Hc|[<-|[]]]; auto. }
    pose proof (closed_bound sx sy N _ Hnd' Hclosed') as Hb.
    rewrite length_app in Hb. simpl in Hb.
    destruct (expand_spec sx sy G N goal obstacleSet current rest HB Hgrid Hg)
      as [E1 E2].
    apply IH.
    + split; [|split; assumption].
      intros n Hn. destruct (E1 n Hn) as [H|H]; [|exact H].
      apply Hopen, Hrest, H.
    + unfold aStarMeasure. rewrite length_app. simpl. lia.
Qed.

Lemma aStarLoop_mono (goal : Point) (obstacleSet : list (Z * Z)) (G : R)
  (k : nat) :
  forall k' openSet closedSet, (k <= k')%nat ->
  aStarLoop k goal obstacleSet G openSet closedSet <> Unfinished ->
  aStarLoop k' goal obstacleSet G openSet closedSet
  = aStarLoop k goal obstacleSet G openSet closedSet.
Proof.
  induction k as [|k IH]; intros k' openSet closedSet Hk Hu.
  - destruct k'; [reflexivity|]. cbn [aStarLoop] in *.
    destruct (sortByF openSet); [reflexivity|]. now elim Hu.
  - destruct k' as [|k']; [lia|]. cbn [aStarLoop] in *.
    destruct (sortByF openSet) as [|current rest]; [reflexivity|].
    destruct (existsb _ closedSet).
    + apply IH; [lia|exact Hu].
    + destruct (Rltb _ 1); [reflexivity|]. apply IH; [lia|exact Hu].
Qed.

(** A* always returns: from some number of iterations on, the same
    path and the same distance, which is not negative. *)
Lemma aStar_total (start goal : Point) (obstacles : list Point)
  (gridSize : R) :
  exists fuel0 pth dist label,
    0 <= dist /\
    forall clk fuel t, (fuel0 <= fuel)%nat ->
      aStarPathfinding clk fuel start goal obstacles gridSize t =
      Ok (mkRouteResult pth (Fin dist) (clk (S t) - clk t) label) (S (S t)).
Proof.
  destruct (exists_nat_above (Rabs (x start) + Rabs (y start) + Rabs gridSize))
    as [N HB].
  set (startNode := mkNode start 0 (distance start goal)
                           (distance start goal) None).
  set (obstacleSet := map (fun o => (round (x o), round (y o))) obstacles).
  set (fuel0 := S (aStarMeasure N [startNode] [])).
  pose proof (aStarLoop_ends (x start) (y start) gridSize N goal obstacleSet
                HB fuel0 [startNode] []) as Hend.
  assert (Hres : forall fuel, (fuel0 <= fuel)%nat ->
            aStarLoop fuel goal obstacleSet gridSize [startNode] []
            = aStarLoop fuel0 goal obstacleSet gridSize [startNode] []).
  { intros fuel Hf. apply aStarLoop_mono; [exact Hf|].
    intros E. rewrite E in Hend. apply Hend; [|unfold fuel0; lia].
    split; [|split; [constructor|intros c []]].
    intros n [<-|[]]. split; [|simpl; lra].
    exists 0%Z, 0%Z. cbn. repeat split; try lia; lra. }
  destruct (aStarLoop fuel0 goal obstacleSet gridSize [startNode] [])
    as [current| |] eqn:E.
  - exists fuel0, (nodePath current), (Node.g current), "A* Pathfinding"%string.
    split.
    + apply Hend; [|unfold fuel0; lia].
      split; [|split; [constructor|intros c []]].
      intros n [<-|[]]. split; [|simpl; lra].
      exists 0%Z, 0%Z. cbn. repeat split; try lia; lra.
    + intros clk fuel t Hf. unfold aStarPathfinding, bind, now, ret.
      fold startNode. fold obstacleSet. rewrite (Hres fuel Hf). reflexivity.
  - exists fuel0, [start; goal], (distance start goal),
           "A* Pathfinding (Direct)"%string.
    split; [apply distance_nonneg|].
    intros clk fuel t Hf. unfold aStarPathfinding, bind, now, ret.
    fold startNode. fold obstacleSet. rewrite (Hres fuel Hf). reflexivity.
  - exfalso. apply Hend; [|unfold fuel0; lia].
    split; [|split; [constructor|intros c []]].
    intros n [<-|[]]. split; [|simpl; lra].
    exists 0%Z, 0%Z. cbn. repeat split; try lia; lra.
Qed.

(** ** Tours as rearrangements of the input *)

Lemma map_pt_seq (points : list Point) :
  map (pt points) (seq 0 (length points)) = points.
Proof.
  unfold pt. induction points as [|p l IH]; [reflexivity|].
  cbn [length seq map nth]. f_equal.
  rewrite <- seq_shift, map_map. exact IH.
Qed.

Lemma order_closedTour (points : list Point) (order : list nat) :
  (1 <= length points)%nat ->
  Permutation order (seq 0 (length points)) -> hd_error order = Some 0%nat ->
  closedTour points (map (pt points) order ++ [pt points 0]).
Proof.
  intros Hn Hp Hh. exists (map (pt points) order). split; [|split].
  - rewrite <- (map_pt_seq points) at 2. now apply Permutation_map.
  - destruct order as [|o order]; [discriminate|].
    simpl in Hh. injection Hh as ->.
    destruct points; [simpl in Hn; lia|reflexivity].
  - reflexivity.
Qed.

(** A rearrangement of the points that keeps the first point first is
    the points taken in some order of their indices, index 0 first. *)
Lemma tour_order (points tour : list Point) :
  points <> [] ->
  Permutation tour points -> hd_error tour = hd_error points ->
  exists order,
    Permutation order (seq 0 (length points)) /\
    hd_error order = Some 0%nat /\ tour = map (pt points) order.
Proof.
  intros Hne Hp Hh.
  destruct points as [|p0 prest]; [congruence|].
  destruct tour as [|q0 trest]; [discriminate|].
  simpl in Hh. injection Hh as ->.
  apply Permutation_cons_inv in Hp.
  rewrite <- (map_pt_seq prest) in Hp.
  apply Permutation_map_inv in Hp. destruct Hp as (l3 & E & Hp3).
  exists (0%nat :: map S l3). split; [|split].
  - cbn [length seq]. apply perm_skip.
    rewrite <- seq_shift. apply Permutation_map. now symmetry.
  - reflexivity.
  - cbn [map]. f_equal. rewrite E, map_map. reflexivity.
Qed.
(** ** The dispatcher *)

Lemma runAll_sound (clk : nat -> R) (fuel : nat) (points : list Point)
  (toRun : list AlgorithmType) :
  (forall a, In a toRun -> a <> Astar) ->
  forall t, exists rs t',
    runAll clk fuel points toRun t = Ok rs t' /\
    Forall2 (fun a r => exists t1 t2,
               solveTSP clk fuel points a t1 = Ok r t2) toRun rs /\
    Forall (sound clk) rs.
Proof.
  induction toRun as [|a rest IH]; intros Ha t.
  - exists [], t. repeat split; constructor.
  - destruct (solveTSP_sound clk fuel points a t (Ha a (or_introl eq_refl)))
      as (r & t1 & E & Hs).
    destruct (IH (fun b Hb => Ha b (or_intror Hb)) t1)
      as (rs & t2 & Er & HF & Hsd).
    exists (r :: rs), t2. cbn [runAll]. unfold bind, ret. rewrite E, Er.
    split; [reflexivity|]. split; constructor; eauto.
Qed.

Lemma nn_result_indep (clk : nat -> R) (points : list Point) (t t' : nat)
  (r r' : RouteResult) (u u' : nat) :
  solveTSPNearestNeighbor clk points t = Ok r u ->
  solveTSPNearestNeighbor clk points t' = Ok r' u' ->
  path r = path r' /\ distance_ r = distance_ r'.
Proof.
  unfold solveTSPNearestNeighbor, bind, now, ret, fail.
  destruct (length points <=? 1)%nat.
  - intros E E'. injection E as <- _. injection E' as <- _. auto.
  - destruct (nnLoop _ _ _ _ _ _) as [[[p d] c]|]; [|discriminate].
    intros E E'. injection E as <- _. injection E' as <- _. auto.
Qed.

(** C3.  Monotonic improvement: on every input the distance of the
    2-opt result is at most the distance of the nearest-neighbour tour
    it starts from. *)
Theorem two_opt_never_longer_than_seed (clk : nat -> R)
  (points : list Point) (t t' : nat) :
  exists r2 rn u u',
    solveTSP2Opt clk points t = Ok r2 u /\
    solveTSPNearestNeighbor clk points t' = Ok rn u' /\
    nle (distance_ r2) (distance_ rn).
Proof.
  destruct (Nat.le_gt_cases (length points) 2) as [Hn|Hn].
  - assert (E2 : solveTSP2Opt clk points t =
                 Ok (mkRouteResult points (Fin (routeLength points)) 0 "2-Opt")
                    (S t)).
    { unfold solveTSP2Opt, bind, now, ret.
      destruct (Nat.leb_spec (length points) 2); [|lia].
      now rewrite calculateRouteDistance_routeLength. }
    destruct (nn_sound clk points t') as (rn & u' & En & Hd & _).
    exists (mkRouteResult points (Fin (routeLength points)) 0 "2-Opt"),
           rn, (S t), u'.
    split; [exact E2|]. split; [exact En|].
    cbn [distance_]. rewrite Hd. cbn [nle].
    destruct points as [|a [|b [|c l]]]; try (simpl in Hn; lia).
    + apply routeLength_nonneg.
    + apply routeLength_nonneg.
    + destruct (nn_spec clk [a; b] t') as (order & Hp & Hh & E);
        [simpl; lia|].
      rewrite E in En. injection En as <- _. cbn [path].
      apply Permutation_sym, Permutation_length_2_inv in Hp.
      destruct Hp as [-> | ->]; [|discriminate].
      cbn. pose proof (distance_nonneg b a). lra.
  - destruct (twoOpt_spec clk points t Hn)
      as (order & tour & Hp & Hh & Hnn & Hinv & E2).
    destruct (nn_sound clk points t') as (rn & u' & En & _).
    destruct (nn_result_indep clk points _ _ _ _ _ _ Hnn En) as [_ Hd].
    eexists _, rn, _, u'. split; [exact E2|]. split; [exact En|].
    rewrite <- Hd. cbn [distance_ nle].
    destruct Hinv as (_ & _ & H0 & Hc). cbn [fst] in H0, Hc.
    unfold cycleLength in Hc. rewrite H0 in Hc.
    assert (E0 : pt (map (pt points) order) 0 = pt points 0).
    { destruct order as [|o order]; [discriminate|].
      simpl in Hh. injection Hh as ->. reflexivity. }
    now rewrite E0 in Hc.
Qed.

(** C4.  Size limit of the exact solver: with more than 20 points the
    selector [exact-dp] returns the nearest-neighbour result under a
    label that tells the substitution and is not the label of the exact
    solver; with 20 points or fewer it runs the exact solver. *)
Theorem dp_size_limit (clk : nat -> R) (fuel : nat) (points : list Point)
  (t : nat) :
  ((20 < length points)%nat ->
   exists r t',
     solveTSPNearestNeighbor clk points t = Ok r t' /\
     solveTSP clk fuel points ExactDp t =
       Ok (mkRouteResult (path r) (distance_ r) (timeMs r)
             "Nearest Neighbor (DP limit exceeded)") t' /\
     "Nearest Neighbor (DP limit exceeded)"%string
       <> "Exact DP (Held-Karp)"%string) /\
  ((length points <= 20)%nat ->
   solveTSP clk fuel points ExactDp t = solveTSPExactDP clk points t).
Proof.
  split; intros Hn; cbn [solveTSP].
  - destruct (Nat.leb_spec (length points) 20); [lia|].
    destruct (nn_sound clk points t) as (r & t' & E & _).
    exists r, t'. split; [exact E|]. split; [|discriminate].
    unfold bind, ret. now rewrite E.
  - destruct (Nat.leb_spec (length points) 20); [reflexivity|lia].
Qed.

(** C5, as amended.  Compare-all runs the four tour solvers, in the
    order exact-dp, nearest-neighbor, 2-opt, christofides, the exact
    solver left out above 20 points, and returns their results in that
    order; the A* selector is never run. *)
Theorem compare_all_runs_tour_solvers (clk : nat -> R) (fuel : nat)
  (points : list Point) (t : nat) :
  exists rs t',
    compareAlgorithms clk fuel points t = Ok rs t' /\
    Forall2 (fun a r => exists t1 t2,
               solveTSP clk fuel points a t1 = Ok r t2)
            (if (length points <=? 20)%nat
             then [ExactDp; NearestNeighbor; TwoOpt; Christofides]
             else [NearestNeighbor; TwoOpt; Christofides])
            rs.
Proof.
  unfold compareAlgorithms.
  destruct (length points <=? 20)%nat; cbn [filter algoEqb negb].
  - destruct (runAll_sound clk fuel points
                [ExactDp; NearestNeighbor; TwoOpt; Christofides]) with (t := t)
      as (rs & t' & E & HF & _).
    { intros a [<-|[<-|[<-|[<-|[]]]]]; discriminate. }
    eauto.
  - destruct (runAll_sound clk fuel points
                [NearestNeighbor; TwoOpt; Christofides]) with (t := t)
      as (rs & t' & E & HF & _).
    { intros a [<-|[<-|[<-|[]]]]; discriminate. }
    eauto.
Qed.

(** C6.  A* fallback: when the open set runs empty before a node
    within distance 1 of the goal is taken from it, the result is the
    direct path from start to goal with their Euclidean distance. *)
Theorem astar_fallback (clk : nat -> R) (fuel : nat) (start goal : Point)
  (obstacles : list Point) (gridSize : R) (t : nat) :
  aStarLoop fuel goal (map (fun o => (round (x o), round (y o))) obstacles)
            gridSize
            [mkNode start 0 (distance start goal) (distance start goal) None]
            [] = Exhausted ->
  aStarPathfinding clk fuel start goal obstacles gridSize t =
    Ok (mkRouteResult [start; goal] (Fin (distance start goal))
          (clk (S t) - clk t) "A* Pathfinding (Direct)")
       (S (S t)).
Proof.
  intros H. unfold aStarPathfinding, bind, now, ret. now rewrite H.
Qed.

(** C7.  Degenerate inputs: with no point or one point every selector
    returns the input as path, with distance 0. *)
Theorem degenerate_inputs (clk : nat -> R) (fuel : nat) (points : list Point)
  (algo : AlgorithmType) (t : nat) :
  (length points <= 1)%nat ->
  exists r t',
    solveTSP clk fuel points algo t = Ok r t' /\
    distance_ r = Fin 0 /\ path r = points.
Proof.
  intros Hn.
  assert (Hc : calculateRouteDistance points = 0).
  { rewrite calculateRouteDistance_routeLength. now apply routeLength_short. }
  destruct algo; cbn [solveTSP].
  - destruct (Nat.leb_spec (length points) 20); [|lia].
    unfold solveTSPExactDP, bind, now, ret.
    destruct (Nat.leb_spec (length points) 1); [|lia]. eauto.
  - unfold solveTSPNearestNeighbor, bind, now, ret.
    destruct (Nat.leb_spec (length points) 1); [|lia]. eauto.
  - unfold solveTSP2Opt, bind, now, ret.
    destruct (Nat.leb_spec (length points) 2); [|lia].
    rewrite Hc. eauto.
  - unfold solveTSPChristofides, bind, now, ret.
    destruct (Nat.leb_spec (length points) 2); [|lia].
    rewrite Hc. eauto.
  - destruct (Nat.ltb_spec (length points) 2); [|lia].
    unfold ret. eauto.
Qed.

(** C9.  Odd-degree parity: the list of vertices of odd degree that
    Christofides extracts from Prim's tree has an even number of
    elements, whatever the points. *)
Theorem odd_vertices_even (points : list Point) :
  let n := length points in
  Nat.even (length (oddVerticesOf n (mstDegrees n (primMST points)))) = true.
Proof.
  intros n. apply oddVertices_even.
  apply (primMST_spanning points).
Qed.


(** ** Closed tours, optimality and signs *)

Lemma hd_pt (l : list Point) : l <> [] -> hd_error l = Some (pt l 0).
Proof. destruct l; [congruence|reflexivity]. Qed.

Lemma dp_closed (clk : nat -> R) (points : list Point) (t : nat) :
  (2 <= length points <= 30)%nat ->
  exists r t',
    solveTSPExactDP clk points t = Ok r t' /\
    closedTour points (path r) /\
    distance_ r = Fin (routeLength (path r)) /\
    forall tourPath, closedTour points tourPath ->
                     nle (distance_ r) (Fin (routeLength tourPath)).
Proof.
  intros Hn. destruct (dp_spec clk points t Hn) as (order & Hp & Hh & E & Hopt).
  eexists _, _. split; [exact E|]. cbn [path distance_].
  split; [apply order_closedTour; [lia|exact Hp|exact Hh]|].
  split; [reflexivity|].
  intros tourPath (tour & Hpt & Hht & ->). cbn [nle].
  destruct (tour_order points tour) as (order' & Hp' & Hh' & ->);
    [destruct points; [simpl in Hn; lia|discriminate]|exact Hpt|exact Hht|].
  now apply Hopt.
Qed.

Lemma nn_closed (clk : nat -> R) (points : list Point) (t : nat) :
  (2 <= length points)%nat ->
  exists r t',
    solveTSPNearestNeighbor clk points t = Ok r t' /\
    closedTour points (path r) /\
    distance_ r = Fin (routeLength (path r)).
Proof.
  intros Hn. destruct (nn_spec clk points t Hn) as (order & Hp & Hh & E).
  eexists _, _. split; [exact E|]. cbn [path distance_].
  split; [apply order_closedTour; [lia|exact Hp|exact Hh]|reflexivity].
Qed.

Lemma twoOpt_closed (clk : nat -> R) (points : list Point) (t : nat) :
  (3 <= length points)%nat ->
  exists r t',
    solveTSP2Opt clk points t = Ok r t' /\
    closedTour points (path r) /\
    distance_ r = Fin (routeLength (path r)).
Proof.
  intros Hn.
  destruct (twoOpt_spec clk points t Hn)
    as (order & tour & Hp & Hh & _ & Hinv & E).
  eexists _, _. split; [exact E|]. cbn [path distance_].
  split; [|reflexivity].
  destruct Hinv as (HL & HP & H0 & _). cbn [fst] in *.
  assert (Hpts : Permutation (map (pt points) order) points).
  { rewrite <- (map_pt_seq points) at 2. now apply Permutation_map. }
  exists tour. split; [now transitivity (map (pt points) order)|].
  split; [|reflexivity].
  assert (E0 : pt (map (pt points) order) 0 = pt points 0).
  { destruct order as [|o order]; [discriminate|].
    simpl in Hh. injection Hh as ->. reflexivity. }
  rewrite hd_pt, (hd_pt points), H0, E0; [reflexivity| |].
  - destruct points; [simpl in Hn; lia|discriminate].
  - destruct tour; [|discriminate].
    apply Permutation_length in HP, Hpts. simpl in HP. lia.
Qed.

Lemma christofides_closed (clk : nat -> R) (points : list Point) (t : nat) :
  (3 <= length points)%nat ->
  exists r t',
    solveTSPChristofides clk points t = Ok r t' /\
    closedTour points (path r) /\
    distance_ r = Fin (routeLength (path r)).
Proof.
  intros Hn.
  destruct (christofides_spec clk points t Hn) as (order & Hp & Hh & E).
  eexists _, _. split; [exact E|]. cbn [path distance_].
  split; [apply order_closedTour; [lia|exact Hp|exact Hh]|reflexivity].
Qed.

(** C1, as amended.  Closure: on two or more points (at most 30) the
    exact solver, on two or more points nearest neighbour, and on three
    or more points 2-opt and Christofides return the input points
    rearranged with the first point kept first, each point once,
    followed by the first point again. *)
Theorem closure_of_tour_solvers (clk : nat -> R) (points : list Point)
  (t : nat) :
  ((2 <= length points <= 30)%nat ->
   exists r t', solveTSPExactDP clk points t = Ok r t' /\
                closedTour points (path r)) /\
  ((2 <= length points)%nat ->
   exists r t', solveTSPNearestNeighbor clk points t = Ok r t' /\
                closedTour points (path r)) /\
  ((3 <= length points)%nat ->
   exists r t', solveTSP2Opt clk points t = Ok r t' /\
                closedTour points (path r)) /\
  ((3 <= length points)%nat ->
   exists r t', solveTSPChristofides clk points t = Ok r t' /\
                closedTour points (path r)).
Proof.
  split; [|split; [|split]]; intros Hn.
  - destruct (dp_closed clk points t Hn) as (r & t' & E & Hc & _). eauto.
  - destruct (nn_closed clk points t Hn) as (r & t' & E & Hc & _). eauto.
  - destruct (twoOpt_closed clk points t Hn) as (r & t' & E & Hc & _). eauto.
  - destruct (christofides_closed clk points t Hn) as (r & t' & E & Hc & _).
    eauto.
Qed.

(** C2, as amended.  Exactness: on at most 8 points the distance of the
    exact solver is at most the length of every closed tour from the
    first point, and at most the distance that nearest neighbour returns
    on the same input; unless there are exactly two points it is also at
    most the distances that 2-opt and Christofides return, and on at
    most one point it is at most the distance of the A* selector. *)
Theorem exact_dp_is_shortest (clk : nat -> R) (fuel : nat)
  (points : list Point) (t : nat) :
  (length points <= 8)%nat ->
  exists rd td,
    solveTSPExactDP clk points t = Ok rd td /\
    (forall tourPath, closedTour points tourPath ->
                      nle (distance_ rd) (Fin (routeLength tourPath))) /\
    (exists rn tn, solveTSPNearestNeighbor clk points t = Ok rn tn /\
                   nle (distance_ rd) (distance_ rn)) /\
    (length points <> 2%nat ->
     exists ro to, solveTSP2Opt clk points t = Ok ro to /\
                   nle (distance_ rd) (distance_ ro)) /\
    (length points <> 2%nat ->
     exists rc tc, solveTSPChristofides clk points t = Ok rc tc /\
                   nle (distance_ rd) (distance_ rc)) /\
    ((length points <= 1)%nat ->
     exists ra ta, solveTSP clk fuel points Astar t = Ok ra ta /\
                   nle (distance_ rd) (distance_ ra)).
Proof.
  intros Hn. destruct (Nat.le_gt_cases (length points) 1) as [H1|H1].
  - assert (Hc : calculateRouteDistance points = 0).
    { rewrite calculateRouteDistance_routeLength. now apply routeLength_short. }
    exists (mkRouteResult points (Fin 0) 0 "Exact DP (Held-Karp)"), (S t).
    split.
    { unfold solveTSPExactDP, bind, now, ret.
      destruct (Nat.leb_spec (length points) 1); [reflexivity|lia]. }
    cbn [distance_ nle]. split; [intros tourPath _; apply routeLength_nonneg|].
    split; [|split; [|split]]; try intros _.
    + unfold solveTSPNearestNeighbor, bind, now, ret.
      destruct (Nat.leb_spec (length points) 1); [|lia].
      eexists _, _. split; [reflexivity|]. cbn. lra.
    + unfold solveTSP2Opt, bind, now, ret.
      destruct (Nat.leb_spec (length points) 2); [|lia].
      eexists _, _. split; [reflexivity|]. cbn. rewrite Hc. lra.
    + unfold solveTSPChristofides, bind, now, ret.
      destruct (Nat.leb_spec (length points) 2); [|lia].
      eexists _, _. split; [reflexivity|]. cbn. rewrite Hc. lra.
    + cbn [solveTSP]. destruct (Nat.ltb_spec (length points) 2); [|lia].
      unfold ret. eexists _, _. split; [reflexivity|]. cbn. lra.
  - destruct (dp_closed clk points t) as (rd & td & E & _ & _ & Hopt); [lia|].
    exists rd, td. split; [exact E|]. split; [exact Hopt|].
    split; [|split; [|split]]; try intros H2.
    + destruct (nn_closed clk points t) as (r & t' & Er & Hc & Hd); [lia|].
      exists r, t'. split; [exact Er|]. rewrite Hd. now apply Hopt.
    + destruct (twoOpt_closed clk points t) as (r & t' & Er & Hc & Hd); [lia|].
      exists r, t'. split; [exact Er|]. rewrite Hd. now apply Hopt.
    + destruct (christofides_closed clk points t) as (r & t' & Er & Hc & Hd);
        [lia|].
      exists r, t'. split; [exact Er|]. rewrite Hd. now apply Hopt.
    + lia.
Qed.

Lemma nonneg_nadd (a : number) (d : R) :
  nonneg a -> 0 <= d -> nonneg (nadd a (Fin d)).
Proof. destruct a; simpl; intros; [lra|exact I]. Qed.

Lemma astarLegs_total (points : list Point) (legs : list nat) :
  forall st, nonneg (fst st) ->
  exists fuel0 st',
    nonneg (fst st') /\
    forall clk fuel t, (fuel0 <= fuel)%nat ->
      astarLegs clk fuel legs points st t = Ok st' (t + 2 * length legs).
Proof.
  induction legs as [|i legs IH]; intros [totalDist fullPath] Hst.
  - exists 0%nat, (totalDist, fullPath). split; [exact Hst|].
    intros clk fuel t _. simpl. unfold ret. f_equal. lia.
  - destruct (aStar_total (pt points i) (pt points (i + 1)) [] 100)
      as (fuel1 & pth & dist & label & Hd & Ha).
    destruct (IH (nadd totalDist (Fin dist), fullPath ++ tl pth))
      as (fuel2 & st' & Hst' & Hl).
    { now apply nonneg_nadd. }
    exists (Nat.max fuel1 fuel2), st'. split; [exact Hst'|].
    intros clk fuel t Hf. cbn [astarLegs]. unfold bind.
    rewrite Ha by lia. cbn [distance_ path].
    rewrite Hl by lia. f_equal. cbn [length]. lia.
Qed.

Lemma solveTSP_astar_total (points : list Point) :
  exists fuel0,
    forall clk fuel t, (fuel0 <= fuel)%nat ->
    exists r t',
      solveTSP clk fuel points Astar t = Ok r t' /\
      nonneg (distance_ r) /\ elapsed clk (timeMs r).
Proof.
  destruct (Nat.ltb_spec (length points) 2) as [Hn|Hn].
  - exists 0%nat. intros clk fuel t _. cbn [solveTSP].
    destruct (Nat.ltb_spec (length points) 2); [|lia].
    eexists _, _. split; [reflexivity|]. cbn. split; [lra|now left].
  - destruct (astarLegs_total points (seq 0 (length points - 1))
                (Fin 0, [pt points 0])) as (fuel1 & [total fullPath] & Hst & Hl).
    { simpl. lra. }
    destruct (aStar_total (last fullPath origin) (pt points 0) [] 100)
      as (fuel2 & pth & dist & label & Hd & Ha).
    exists (Nat.max fuel1 fuel2). intros clk fuel t Hf. cbn [solveTSP].
    destruct (Nat.ltb_spec (length points) 2); [lia|].
    unfold bind, now. rewrite Hl by lia. rewrite Ha by lia.
    unfold ret. eexists _, _. split; [reflexivity|].
    cbn [distance_ timeMs fst] in *. split.
    + now apply nonneg_nadd.
    + apply elapsed_diff. lia.
Qed.

(** C8.  Non-negativity: when the clock never runs backwards, the
    results of the dispatcher for every selector, of compare-all and of
    A* have a distance and a time that are not negative; each of them
    is returned (A* once its loop is given enough iterations). *)
Theorem non_negativity (clk : nat -> R) :
  monotone clk ->
  (forall points algo t, exists fuel0, forall fuel, (fuel0 <= fuel)%nat ->
     exists r t', solveTSP clk fuel points algo t = Ok r t' /\
                  nonneg (distance_ r) /\ 0 <= timeMs r) /\
  (forall points fuel t,
     exists rs t', compareAlgorithms clk fuel points t = Ok rs t' /\
       forall r, In r rs -> nonneg (distance_ r) /\ 0 <= timeMs r) /\
  (forall start goal obstacles gridSize t,
     exists fuel0, forall fuel, (fuel0 <= fuel)%nat ->
     exists r t',
       aStarPathfinding clk fuel start goal obstacles gridSize t = Ok r t' /\
       nonneg (distance_ r) /\ 0 <= timeMs r).
Proof.
  intros Hm.
  assert (Hsound : forall r, sound clk r ->
            nonneg (distance_ r) /\ 0 <= timeMs r).
  { intros r [Hd He]. rewrite Hd. split; [apply routeLength_nonneg|].
    now apply (elapsed_nonneg clk). }
  split; [|split].
  - intros points algo t.
    destruct algo;
      try (exists 0%nat; intros fuel _;
           match goal with
           | |- context [solveTSP _ _ _ ?a _] =>
             destruct (solveTSP_sound clk fuel points a t)
               as (r & t' & E & Hs); [discriminate|]
           end;
           exists r, t'; split; [exact E|now apply Hsound]).
    destruct (solveTSP_astar_total points) as [fuel0 H].
    exists fuel0. intros fuel Hf.
    destruct (H clk fuel t Hf) as (r & t' & E & Hd & He).
    exists r, t'. split; [exact E|]. split; [exact Hd|].
    now apply (elapsed_nonneg clk).
  - intros points fuel t. unfold compareAlgorithms.
    destruct (runAll_sound clk fuel points
                (if (length points <=? 20)%nat
                 then [ExactDp; NearestNeighbor; TwoOpt; Christofides]
                 else filter (fun a => negb (algoEqb a ExactDp))
                        [ExactDp; NearestNeighbor; TwoOpt; Christofides]))
      with (t := t) as (rs & t' & E & _ & HF).
    { destruct (length points <=? 20)%nat; cbn;
        intros a H; repeat (destruct H as [<-|H]; [discriminate|]);
        destruct H. }
    exists rs, t'. split; [exact E|].
    intros r Hr. apply Hsound. rewrite Forall_forall in HF. now apply HF.
  - intros start goal obstacles gridSize t.
    destruct (aStar_total start goal obstacles gridSize)
      as (fuel0 & pth & dist & label & Hd & Ha).
    exists fuel0. intros fuel Hf. rewrite (Ha clk fuel t Hf).
    eexists _, _. split; [reflexivity|]. cbn. split; [exact Hd|].
    pose proof (Hm t (S t) (Nat.le_succ_diag_r t)). lra.
Qed.

(** ** A*: the cost of a node is the length of its path *)

Lemma nodePath_last (n : AStarNode) :
  exists pre, nodePath n = pre ++ [Node.point n].
Proof.
  destruct n as [p g h f [par|]]; cbn [nodePath Node.point].
  - now exists (nodePath par).
  - now exists [].
Qed.

Lemma expandStep_ok (start goal : Point) (obstacleSet : list (Z * Z))
  (G : R) (current : AStarNode) (openSet : list AStarNode) (d : R * R) :
  nodeOk start current -> Forall (nodeOk start) openSet ->
  Forall (nodeOk start) (expandStep goal obstacleSet G current openSet d).
Proof.
  intros [Hh Hg] Ho. destruct d as [dx dy]. unfold expandStep.
  destruct (_ || _); [exact Ho|].
  destruct (existsb _ _); [exact Ho|].
  apply Forall_app. split; [exact Ho|]. constructor; [|constructor].
  destruct (nodePath_last current) as [pre E].
  unfold nodeOk. cbn [nodePath Node.g]. split.
  - destruct (nodePath current); [discriminate Hh|exact Hh].
  - rewrite Hg, E. now rewrite routeLength_snoc.
Qed.

Lemma expand_ok (start goal : Point) (obstacleSet : list (Z * Z)) (G : R)
  (current : AStarNode) (openSet : list AStarNode) :
  nodeOk start current -> Forall (nodeOk start) openSet ->
  Forall (nodeOk start) (expand goal obstacleSet G current openSet).
Proof.
  intros Hc. unfold expand. generalize directions as ds.
  intros ds. revert openSet.
  induction ds as [|d ds IH]; intros openSet Ho; [exact Ho|].
  cbn [fold_left]. apply IH. now apply expandStep_ok.
Qed.

Lemma aStarLoop_ok (start goal : Point) (obstacleSet : list (Z * Z)) (G : R)
  (k : nat) :
  forall openSet closedSet current,
  Forall (nodeOk start) openSet ->
  aStarLoop k goal obstacleSet G openSet closedSet = Found current ->
  nodeOk start current.
Proof.
  induction k as [|k IH]; intros openSet closedSet current Ho E.
  - cbn [aStarLoop] in E. destruct (sortByF openSet); discriminate.
  - cbn [aStarLoop] in E.
    assert (Hs : Forall (nodeOk start) (sortByF openSet)).
    { eapply Permutation_Forall; [apply Permutation_sym, sortByF_perm|].
      exact Ho. }
    destruct (sortByF openSet) as [|c rest]; [discriminate|].
    inversion Hs as [|? ? Hc Hrest]; subst.
    destruct (existsb _ closedSet).
    + now apply (IH rest closedSet).
    + destruct (Rltb _ 1).
      * now injection E as <-.
      * apply (IH _ _ _ (expand_ok start goal obstacleSet G c rest Hc Hrest) E).
Qed.

(** The distance of an A* result is the length of its path, which
    starts at [start]. *)
Lemma aStar_consistent (clk : nat -> R) (fuel : nat) (start goal : Point)
  (obstacles : list Point) (gridSize : R) (t t' : nat) (r : RouteResult) :
  aStarPathfinding clk fuel start goal obstacles gridSize t = Ok r t' ->
  hd_error (path r) = Some start /\
  distance_ r = Fin (routeLength (path r)).
Proof.
  unfold aStarPathfinding, bind, now, ret.
  destruct (aStarLoop _ _ _ _ _ _) as [current| |] eqn:E;
    [| |discriminate]; intros H; injection H as <- _; cbn [path distance_].
  - apply aStarLoop_ok with (start := start) in E.
    + destruct E as [Hh Hg]. now rewrite Hg.
    + constructor; [|constructor]. split; cbn; [reflexivity|reflexivity].
  - split; [reflexivity|]. cbn. f_equal. lra.
Qed.

(** On at most two points the distance of the A* selector is the
    length of its path. *)
Lemma astar_two_consistent (clk : nat -> R) (fuel : nat)
  (points : list Point) (t t' : nat) (r : RouteResult) :
  (length points <= 2)%nat ->
  solveTSP clk fuel points Astar t = Ok r t' ->
  distance_ r = Fin (routeLength (path r)).
Proof.
  intros Hn. cbn [solveTSP].
  destruct (Nat.ltb_spec (length points) 2) as [H1|H1].
  - unfold ret. intros H. injection H as <- _. cbn [path distance_].
    f_equal. symmetry. apply routeLength_short. lia.
  - destruct points as [|a [|b [|c rest]]]; cbn [length] in *; try lia.
    cbn [seq Nat.sub astarLegs]. unfold bind, now.
    change (pt [a; b] 0) with a. change (pt [a; b] (0 + 1)) with b.
    destruct (aStarPathfinding clk fuel a b [] 100 (S t)) as [r1 t1|e] eqn:E1;
      [|discriminate].
    cbn [astarLegs]. unfold ret at 1.
    destruct (aStarPathfinding clk fuel _ a [] 100 t1) as [r2 t2|e] eqn:E2;
      [|discriminate].
    unfold ret. intros H. injection H as <- _. cbn [path distance_].
    apply aStar_consistent in E1, E2.
    destruct E1 as [Hh1 ->]. destruct E2 as [Hh2 ->].
    destruct (path r1) as [|a' tl1] eqn:P1; [discriminate|].
    injection Hh1 as ->. cbn [tl app] in *.
    destruct (path r2) as [|l tl2] eqn:P2; [discriminate|].
    injection Hh2 as ->. cbn [tl nadd]. f_equal.
    destruct (exists_last (l := a :: tl1)) as (pre & z & Ez); [discriminate|].
    change (match tl1 with [] => a | _ :: _ => last tl1 origin end)
      with (last (a :: tl1) origin).
    change (a :: tl1 ++ tl2) with ((a :: tl1) ++ tl2).
    rewrite Ez, last_last, <- app_assoc. cbn [app].
    rewrite (routeLength_app pre tl2 z). lra.
Qed.

(** C10, as amended.  For the four tour selectors on every input, and
    for the A* selector on at most two points, the distance of the
    result is the length of its path, the sum of the Euclidean distances
    between consecutive points (the A* loop being given enough
    iterations). *)
Theorem distance_is_route_length (clk : nat -> R) (points : list Point)
  (algo : AlgorithmType) (t : nat) :
  algo <> Astar \/ (length points <= 2)%nat ->
  exists fuel0, forall fuel, (fuel0 <= fuel)%nat ->
  exists r t',
    solveTSP clk fuel points algo t = Ok r t' /\
    distance_ r = Fin (routeLength (path r)).
Proof.
  intros H.
  assert (Hs : algo <> Astar ->
    exists fuel0, forall fuel, (fuel0 <= fuel)%nat ->
    exists r t',
      solveTSP clk fuel points algo t = Ok r t' /\
      distance_ r = Fin (routeLength (path r))).
  { intros Ha. exists 0%nat. intros fuel _.
    destruct (solveTSP_sound clk fuel points algo t Ha)
      as (r & t' & E & Hd & _).
    eauto. }
  destruct algo; try (apply Hs; discriminate).
  destruct H as [H|Hn]; [contradiction|].
  destruct (solveTSP_astar_total points) as [fuel0 Ht].
  exists fuel0. intros fuel Hf.
  destruct (Ht clk fuel t Hf) as (r & t' & E & _).
  exists r, t'. split; [exact E|].
  now apply (astar_two_consistent clk fuel points t t').
Qed.

(** ** Instances *)

Lemma distance_east (p q : Point) :
  y p = y q -> x p <= x q -> distance p q = x q - x p.
Proof.
  intros Hy Hx. unfold distance. rewrite Hy.
  replace ((x p - x q) ^ 2 + (y q - y q) ^ 2) with ((x q - x p) * (x q - x p))
    by ring.
  apply sqrt_square. lra.
Qed.

Lemma distance_west (p q : Point) :
  y p = y q -> x q <= x p -> distance p q = x p - x q.
Proof.
  intros Hy Hx. rewrite distance_sym. now apply distance_east.
Qed.

Lemma distance_ge_dx (p q : Point) : x p - x q <= distance p q.
Proof.
  unfold distance.
  destruct (Rle_dec (x p - x q) 0) as [H|H];
    [pose proof (sqrt_pos ((x p - x q) ^ 2 + (y p - y q) ^ 2)); lra|].
  rewrite <- (sqrt_square (x p - x q)) at 1 by lra.
  apply sqrt_le_1_alt. pose proof (pow2_ge_0 (y p - y q)). lra.
Qed.

Lemma distance_ge_dy (p q : Point) : y p - y q <= distance p q.
Proof.
  unfold distance.
  destruct (Rle_dec (y p - y q) 0) as [H|H];
    [pose proof (sqrt_pos ((x p - x q) ^ 2 + (y p - y q) ^ 2)); lra|].
  rewrite <- (sqrt_square (y p - y q)) at 1 by lra.
  apply sqrt_le_1_alt. pose proof (pow2_ge_0 (x p - x q)). lra.
Qed.

Lemma tickClock_monotone : monotone tickClock.
Proof. intros i j H. unfold tickClock. now apply le_INR. Qed.

Lemma twoStops_distance : distance manhattanHub nearHub = / 2.
Proof. rewrite distance_east; cbn; lra. Qed.

(** A* finds at once a goal less than 1 away from the start. *)
Lemma aStar_immediate (clk : nat -> R) (fuel : nat) (start goal : Point)
  (obstacles : list Point) (gridSize : R) (t : nat) :
  (1 <= fuel)%nat -> distance start goal < 1 ->
  aStarPathfinding clk fuel start goal obstacles gridSize t =
    Ok (mkRouteResult [start] (Fin 0) (clk (S t) - clk t) "A* Pathfinding")
       (S (S t)).
Proof.
  intros Hf Hd. destruct fuel as [|fuel]; [lia|].
  unfold aStarPathfinding, bind, now, ret.
  cbn [aStarLoop sortByF fold_right insertByF existsb Node.point].
  apply Rltb_true in Hd. rewrite Hd. reflexivity.
Qed.

Lemma dp_two_points (clk : nat -> R) (a b : Point) (t : nat) :
  exists r t',
    solveTSPExactDP clk [a; b] t = Ok r t' /\
    path r = [a; b; a] /\
    distance_ r = Fin (distance a b + distance b a).
Proof.
  destruct (dp_spec clk [a; b] t) as (order & Hp & Hh & E & _);
    [simpl; lia|].
  apply Permutation_sym, Permutation_length_2_inv in Hp.
  destruct Hp as [-> | ->]; [|discriminate].
  eexists _, _. split; [exact E|]. cbn. split; [reflexivity|].
  f_equal. lra.
Qed.

Lemma closedTour_length (points tourPath : list Point) :
  closedTour points tourPath -> length tourPath = S (length points).
Proof.
  intros (tour & Hp & _ & ->). rewrite length_app.
  rewrite (Permutation_length Hp). cbn. lia.
Qed.

(** With 31 points the 32-bit mask [1 << n] of the exact solver is
    negative: no subset is filled in, and the path that is rebuilt holds
    an undefined element. *)
Lemma dp_31_points (clk : nat -> R) (t : nat) :
  solveTSPExactDP clk (repeat manhattanHub 31) t = Err Undefined.
Proof.
  unfold solveTSPExactDP, bind, now. vm_compute. reflexivity.
Qed.

(** C1, counterexample.  On two stops 2-opt and Christofides return the
    two stops as they are, a path that does not come back to the first
    stop; on one stop the exact solver and nearest neighbour return the
    stop alone, not repeated; on 31 stops the exact solver returns no
    path. *)
Lemma closure_fails_on_small_inputs :
  (exists r t',
     solveTSP2Opt tickClock twoStops 0%nat = Ok r t' /\
     ~ closedTour twoStops (path r)) /\
  (exists r t',
     solveTSPChristofides tickClock twoStops 0%nat = Ok r t' /\
     ~ closedTour twoStops (path r)) /\
  (exists r t',
     solveTSPExactDP tickClock [manhattanHub] 0%nat = Ok r t' /\
     ~ closedTour [manhattanHub] (path r)) /\
  (exists r t',
     solveTSPNearestNeighbor tickClock [manhattanHub] 0%nat = Ok r t' /\
     ~ closedTour [manhattanHub] (path r)) /\
  solveTSPExactDP tickClock (repeat manhattanHub 31) 0%nat = Err Undefined.
Proof.
  repeat split; try (apply dp_31_points);
    (eexists _, _; split; [reflexivity|]; cbn [path];
     intros H; apply closedTour_length in H; discriminate H).
Qed.

(** On two stops half a unit apart the exact solver returns the round
    trip, of length 1, while 2-opt returns the one-way length 1/2 and
    multi-point A* returns 0. *)
Lemma two_stops_exactness :
  exists rd td ro to ra ta,
    solveTSPExactDP tickClock twoStops 0%nat = Ok rd td /\
    solveTSP2Opt tickClock twoStops 0%nat = Ok ro to /\
    solveTSP tickClock 1 twoStops Astar 0%nat = Ok ra ta /\
    ~ nle (distance_ rd) (distance_ ro) /\
    ~ nle (distance_ rd) (distance_ ra).
Proof.
  destruct (dp_two_points tickClock manhattanHub nearHub 0%nat)
    as (rd & td & Ed & _ & Hd).
  rewrite (distance_sym nearHub), twoStops_distance in Hd.
  assert (Ea : solveTSP tickClock 1 twoStops Astar 0%nat =
               Ok (mkRouteResult [manhattanHub] (Fin (0 + 0 + 0))
                     (tickClock 5 - tickClock 0)
                     "A* Pathfinding (Multi-point)") 6).
  { cbn [solveTSP twoStops length Nat.ltb Nat.leb seq Nat.sub astarLegs].
    unfold bind, now.
    change (pt twoStops 0) with manhattanHub.
    change (pt twoStops (0 + 1)) with nearHub.
    rewrite aStar_immediate; [|lia|rewrite twoStops_distance; lra].
    cbn [distance_ path tl app nadd astarLegs last]. unfold ret at 1.
    rewrite aStar_immediate; [|lia|rewrite distance_refl; lra].
    unfold ret. cbn [distance_ path tl app nadd].
    reflexivity. }
  exists rd, td. eexists _, _, _, _.
  split; [exact Ed|]. split; [reflexivity|]. split; [exact Ea|].
  rewrite Hd. cbn [distance_ nle].
  rewrite calculateRouteDistance_routeLength. cbn [twoStops routeLength].
  rewrite twoStops_distance. split; lra.
Qed.

(** C5, counterexample.  Compare-all returns four results, none of
    them the result of the A* selector. *)
Lemma compare_all_omits_astar :
  exists rs t',
    compareAlgorithms tickClock 0 [] 0%nat = Ok rs t' /\
    length rs = 4%nat /\
    forall ra t1 t2,
      solveTSP tickClock 0 [] Astar t1 = Ok ra t2 -> ~ In ra rs.
Proof.
  eexists _, _. split; [reflexivity|]. split; [reflexivity|].
  intros ra t1 t2 E. cbn in E. unfold ret in E. injection E as <- _.
  intros H. cbn in H.
  repeat (destruct H as [H|H]; [discriminate H|]). exact H.
Qed.

(** ** Instances of one-step A* searches *)

Lemma expandStep_out (goal : Point) (obstacleSet : list (Z * Z)) (G : R)
  (current : AStarNode) (openSet : list AStarNode) (dx dy : R) :
  x (Node.point current) + dx * 2 < 0 \/ G < x (Node.point current) + dx * 2 \/
  y (Node.point current) + dy * 2 < 0 \/ G < y (Node.point current) + dy * 2 ->
  expandStep goal obstacleSet G current openSet (dx, dy) = openSet.
Proof.
  intros H. unfold expandStep.
  destruct H as [H|[H|[H|H]]]; apply Rltb_true in H; rewrite H;
    rewrite ?orb_true_r; reflexivity.
Qed.

Lemma expandStep_in (goal : Point) (G : R) (current : AStarNode)
  (openSet : list AStarNode) (dx dy : R) :
  0 <= x (Node.point current) + dx * 2 <= G ->
  0 <= y (Node.point current) + dy * 2 <= G ->
  expandStep goal [] G current openSet (dx, dy)
  = openSet ++ [neighborNode goal current dx dy].
Proof.
  intros [H1 H2] [H3 H4]. unfold expandStep.
  apply Rltb_false in H1, H2, H3, H4. rewrite H1, H2, H3, H4.
  reflexivity.
Qed.

Lemma insertByF_least (m : AStarNode) (l : list AStarNode) :
  (forall a, In a l -> Node.f m <= Node.f a) -> insertByF m l = m :: l.
Proof.
  destruct l as [|b t]; [reflexivity|]. intros H. simpl.
  assert (Hb : Rltb (Node.f b) (Node.f m) = false)
    by (apply Rltb_false, H; now left).
  now rewrite Hb.
Qed.

(** The sort puts first the leftmost node of least [f]. *)
Lemma sortByF_head (l1 l2 : list AStarNode) (m : AStarNode) :
  (forall a, In a l1 -> Node.f m < Node.f a) ->
  (forall a, In a l2 -> Node.f m <= Node.f a) ->
  exists rest, sortByF (l1 ++ m :: l2) = m :: rest.
Proof.
  intros H1 H2. induction l1 as [|a l1 IH].
  - exists (sortByF l2). simpl. apply insertByF_least.
    intros a Ha. apply H2. eapply Permutation_in; [apply sortByF_perm|exact Ha].
  - destruct IH as [rest E]; [intros b Hb; apply H1; now right|].
    exists (insertByF a rest). simpl. rewrite E. simpl.
    assert (Hlt : Rltb (Node.f m) (Node.f a) = true)
      by (apply Rltb_true, H1; now left).
    now rewrite Hlt.
Qed.

(** A search that takes the start node, expands it, and then takes a
    node within distance 1 of the goal. *)
Lemma aStar_second (clk : nat -> R) (fuel : nat) (start goal : Point)
  (G : R) (t : nat) (m : AStarNode) (rest : list AStarNode) :
  (2 <= fuel)%nat -> 1 <= distance start goal ->
  sortByF (expand goal [] G (startNodeOf start goal) []) = m :: rest ->
  nodeKey m <> (x start, y start) ->
  distance (Node.point m) goal < 1 ->
  aStarPathfinding clk fuel start goal [] G t =
    Ok (mkRouteResult (nodePath m) (Fin (Node.g m)) (clk (S t) - clk t)
          "A* Pathfinding")
       (S (S t)).
Proof.
  intros Hf Hd Hs Hk Hm. destruct fuel as [|[|fuel]]; try lia.
  unfold aStarPathfinding, bind, now, ret. fold (startNodeOf start goal).
  cbn [map]. cbn [aStarLoop].
  change (sortByF [startNodeOf start goal]) with [startNodeOf start goal].
  cbn [existsb Node.point startNodeOf].
  assert (E1 : Rltb (distance start goal) 1 = false) by now apply Rltb_false.
  rewrite E1. fold (startNodeOf start goal). rewrite Hs.
  cbn [app existsb]. fold (nodeKey m).
  assert (E2 : coordEqb (nodeKey m) (x start, y start) = false).
  { destruct (coordEqb _ _) eqn:E; [|reflexivity].
    apply coordEqb_eq in E. contradiction. }
  rewrite E2. cbn [orb].
  apply Rltb_true in Hm. rewrite Hm. reflexivity.
Qed.

Ltac dist_bounds :=
  repeat match goal with
  | |- context [distance ?p ?q] =>
    lazymatch goal with
    | _ : x p - x q <= distance p q |- _ => fail
    | _ => pose proof (distance_ge_dx p q); pose proof (distance_ge_dy p q);
           pose proof (distance_ge_dx q p); pose proof (distance_ge_dy q p);
           pose proof (distance_sym p q)
    end
  end.

Ltac flat_dist :=
  repeat match goal with
  | |- context [distance ?p ?q] =>
    first [ rewrite (distance_east p q) by (cbn; lra)
          | rewrite (distance_west p q) by (cbn; lra) ]
  end.

Ltac expand_all :=
  unfold expand, directions; cbn [fold_left];
  repeat first [ rewrite expandStep_out by (cbn; lra)
               | rewrite expandStep_in by (cbn; lra) ];
  cbn [app].

Lemma edge_leg_BC (clk : nat -> R) (t : nat) :
  let m := neighborNode stopC (startNodeOf stopB stopC) 1 0 in
  aStarPathfinding clk 2 stopB stopC [] 100 t =
    Ok (mkRouteResult [stopB; Node.point m] (Fin (Node.g m))
          (clk (S t) - clk t) "A* Pathfinding")
       (S (S t)).
Proof.
  intros m.
  assert (Hex : expand stopC [] 100 (startNodeOf stopB stopC) [] =
                [neighborNode stopC (startNodeOf stopB stopC) 0 1]
                  ++ m :: [neighborNode stopC (startNodeOf stopB stopC) 1 1]).
  { expand_all. reflexivity. }
  destruct (sortByF_head
              [neighborNode stopC (startNodeOf stopB stopC) 0 1]
              [neighborNode stopC (startNodeOf stopB stopC) 1 1] m)
    as [rest Hs].
  { intros a [<-|[]]. unfold m. cbn. flat_dist. dist_bounds. cbn in *. lra. }
  { intros a [<-|[]]. unfold m. cbn. flat_dist. dist_bounds. cbn in *. lra. }
  rewrite <- Hex in Hs.
  rewrite (aStar_second clk 2 stopB stopC 100 t m rest); [reflexivity|lia| |exact Hs| |].
  - rewrite distance_east; cbn; lra.
  - unfold m. cbn. intros E. injection E as E _. lra.
  - unfold m. cbn. rewrite distance_east; cbn; lra.
Qed.

Lemma edge_leg_back (clk : nat -> R) (t : nat) :
  let pm := Node.point (neighborNode stopC (startNodeOf stopB stopC) 1 0) in
  let m := neighborNode stopA (startNodeOf pm stopA) (-1) 0 in
  aStarPathfinding clk 2 pm stopA [] 100 t =
    Ok (mkRouteResult [pm; Node.point m] (Fin (Node.g m))
          (clk (S t) - clk t) "A* Pathfinding")
       (S (S t)).
Proof.
  intros pm m.
  assert (Hex : expand stopA [] 100 (startNodeOf pm stopA) [] =
                [] ++ m :: [neighborNode stopA (startNodeOf pm stopA) (-1) 1;
                            neighborNode stopA (startNodeOf pm stopA) 0 1;
                            neighborNode stopA (startNodeOf pm stopA) 1 0;
                            neighborNode stopA (startNodeOf pm stopA) 1 1]).
  { unfold pm. expand_all. reflexivity. }
  destruct (sortByF_head []
              [neighborNode stopA (startNodeOf pm stopA) (-1) 1;
               neighborNode stopA (startNodeOf pm stopA) 0 1;
               neighborNode stopA (startNodeOf pm stopA) 1 0;
               neighborNode stopA (startNodeOf pm stopA) 1 1] m)
    as [rest Hs].
  { intros a []. }
  { intros a [<-|[<-|[<-|[<-|[]]]]]; unfold m, pm; cbn; flat_dist;
      dist_bounds; cbn in *; lra. }
  rewrite <- Hex in Hs.
  rewrite (aStar_second clk 2 pm stopA 100 t m rest); [reflexivity|lia| |exact Hs| |].
  - unfold pm. rewrite distance_west; cbn; lra.
  - unfold m, pm. cbn. intros E. injection E as E _. lra.
  - unfold m, pm. cbn. rewrite distance_west; cbn; lra.
Qed.

(** On three stops along the southern edge the A* selector reports the
    distance 4, while its path has length 4 + 1/2: the second search
    starts from a stop that the path never visits. *)
Lemma edge_astar :
  exists r t',
    solveTSP tickClock 2 edgeStops Astar 0%nat = Ok r t' /\
    distance_ r = Fin 4 /\ routeLength (path r) = 4 + / 2.
Proof.
  cbn [solveTSP edgeStops length Nat.ltb Nat.leb seq Nat.sub astarLegs].
  unfold bind, now.
  change (pt edgeStops 0) with stopA.
  change (pt edgeStops (0 + 1)) with stopB.
  change (pt edgeStops 1) with stopB.
  change (pt edgeStops (1 + 1)) with stopC.
  rewrite aStar_immediate; [|lia|rewrite distance_east; cbn; lra].
  cbn [distance_ path tl app nadd astarLegs].
  rewrite edge_leg_BC.
  cbn [distance_ path tl app nadd astarLegs last]. unfold ret at 1.
  rewrite edge_leg_back.
  unfold ret. cbn [distance_ path tl app nadd].
  eexists _, _. split; [reflexivity|]. cbn [distance_ path].
  split.
  - f_equal. cbn. flat_dist. cbn. lra.
  - cbn. flat_dist. cbn. lra.
Qed.

(** On the same three stops the exact solver returns the distance 5. *)
Lemma edge_dp :
  exists r t',
    solveTSPExactDP tickClock edgeStops 0%nat = Ok r t' /\
    distance_ r = Fin 5.
Proof.
  destruct (dp_spec tickClock edgeStops 0%nat) as (order & Hp & Hh & E & _);
    [cbn; lia|].
  eexists _, _. split; [exact E|]. cbn [distance_]. f_equal.
  destruct order as [|o rest]; [discriminate|].
  injection Hh as ->. cbn [length edgeStops seq] in Hp.
  apply Permutation_cons_inv, Permutation_sym, Permutation_length_2_inv in Hp.
  destruct Hp as [-> | ->]; cbn; flat_dist; cbn; lra.
Qed.

(** C10, counterexample.  On three stops along the southern edge the
    distance that the A* selector reports, 4, is not the length of the
    path it returns, 4 + 1/2. *)
Lemma astar_distance_is_not_route_length :
  exists r t',
    solveTSP tickClock 2 edgeStops Astar 0%nat = Ok r t' /\
    distance_ r = Fin 4 /\
    routeLength (path r) = 4 + / 2 /\
    distance_ r <> Fin (routeLength (path r)).
Proof.
  destruct edge_astar as (r & t' & E & Hd & Hl).
  exists r, t'. repeat split; try assumption.
  rewrite Hd, Hl. intros H. injection H as H. lra.
Qed.

(** C2, counterexample.  On two stops half a unit apart the exact
    solver returns the round trip, of length 1, while 2-opt returns the
    one-way length 1/2 and multi-point A* returns 0; on the three stops
    along the southern edge the exact solver returns 5 and multi-point
    A* returns 4. *)
Lemma exactness_fails_on_small_inputs :
  (exists rd td ro to ra ta,
     solveTSPExactDP tickClock twoStops 0%nat = Ok rd td /\
     solveTSP2Opt tickClock twoStops 0%nat = Ok ro to /\
     solveTSP tickClock 1 twoStops Astar 0%nat = Ok ra ta /\
     ~ nle (distance_ rd) (distance_ ro) /\
     ~ nle (distance_ rd) (distance_ ra)) /\
  (exists rd td ra ta,
     solveTSPExactDP tickClock edgeStops 0%nat = Ok rd td /\
     solveTSP tickClock 2 edgeStops Astar 0%nat = Ok ra ta /\
     ~ nle (distance_ rd) (distance_ ra)).
Proof.
  split.
  - exact two_stops_exactness.
  - destruct edge_dp as (rd & td & Ed & Hd).
    destruct edge_astar as (ra & ta & Ea & Ha & _).
    exists rd, td, ra, ta. split; [exact Ed|]. split; [exact Ea|].
    rewrite Hd, Ha. cbn [nle]. lra.
Qed.

(** ** Instances of the properties *)

(** A search from the corner of a grid of side 1 runs out of nodes: every
    neighbour of the corner is off the grid. *)
Lemma corner_search_exhausted :
  aStarLoop 1 manhattanHub (map (fun o => (round (x o), round (y o))) []) 1
    [mkNode origin 0 (distance origin manhattanHub)
            (distance origin manhattanHub) None] [] = Exhausted.
Proof.
  cbn [map aStarLoop sortByF fold_right insertByF existsb Node.point].
  assert (E : Rltb (distance origin manhattanHub) 1 = false).
  { apply Rltb_false. pose proof (distance_ge_dx manhattanHub origin) as H.
    rewrite distance_sym in H. cbn in H. lra. }
  rewrite E. unfold expand, directions. cbn [fold_left].
  repeat rewrite expandStep_out by (cbn; lra).
  reflexivity.
Qed.

(** C1 on the three sample stops. *)
Lemma closure_of_tour_solvers_on_three_stops :
  ((2 <= length threeStops <= 30)%nat /\ (3 <= length threeStops)%nat) /\
  (exists r t', solveTSPExactDP tickClock threeStops 0%nat = Ok r t' /\
                closedTour threeStops (path r)) /\
  (exists r t', solveTSPNearestNeighbor tickClock threeStops 0%nat = Ok r t' /\
                closedTour threeStops (path r)) /\
  (exists r t', solveTSP2Opt tickClock threeStops 0%nat = Ok r t' /\
                closedTour threeStops (path r)) /\
  (exists r t', solveTSPChristofides tickClock threeStops 0%nat = Ok r t' /\
                closedTour threeStops (path r)).
Proof.
  assert (H30 : (2 <= length threeStops <= 30)%nat) by (cbn; lia).
  assert (H2 : (2 <= length threeStops)%nat) by (cbn; lia).
  assert (H3 : (3 <= length threeStops)%nat) by (cbn; lia).
  destruct (closure_of_tour_solvers tickClock threeStops 0%nat)
    as (Hd & Hn & Ho & Hc).
  split; [split; assumption|].
  split; [exact (Hd H30)|]. split; [exact (Hn H2)|].
  split; [exact (Ho H3)|exact (Hc H3)].
Defined.

(** C2 on the three sample stops, and on a single stop for the A*
    selector. *)
Lemma exact_dp_is_shortest_on_samples :
  ((length threeStops <= 8)%nat /\ length threeStops <> 2%nat /\
   (length [manhattanHub] <= 8)%nat /\ (length [manhattanHub] <= 1)%nat) /\
  (exists rd td,
     solveTSPExactDP tickClock threeStops 0%nat = Ok rd td /\
     (forall tourPath, closedTour threeStops tourPath ->
                       nle (distance_ rd) (Fin (routeLength tourPath))) /\
     (exists rn tn, solveTSPNearestNeighbor tickClock threeStops 0%nat
                    = Ok rn tn /\
                    nle (distance_ rd) (distance_ rn)) /\
     (exists ro to, solveTSP2Opt tickClock threeStops 0%nat = Ok ro to /\
                    nle (distance_ rd) (distance_ ro)) /\
     (exists rc tc, solveTSPChristofides tickClock threeStops 0%nat
                    = Ok rc tc /\
                    nle (distance_ rd) (distance_ rc))) /\
  (exists rd td,
     solveTSPExactDP tickClock [manhattanHub] 0%nat = Ok rd td /\
     exists ra ta,
       solveTSP tickClock 0 [manhattanHub] Astar 0%nat = Ok ra ta /\
       nle (distance_ rd) (distance_ ra)).
Proof.
  assert (H : (length threeStops <= 8)%nat) by (cbn; lia).
  assert (H2 : length threeStops <> 2%nat) by (cbn; lia).
  assert (H' : (length [manhattanHub] <= 8)%nat) by (cbn; lia).
  assert (H1 : (length [manhattanHub] <= 1)%nat) by (cbn; lia).
  split; [repeat split; assumption|]. split.
  - destruct (exact_dp_is_shortest tickClock 0 threeStops 0%nat H)
      as (rd & td & E & Ht & Hn & Ho & Hc & _).
    exists rd, td. split; [exact E|]. split; [exact Ht|]. split; [exact Hn|].
    split; [exact (Ho H2)|exact (Hc H2)].
  - destruct (exact_dp_is_shortest tickClock 0 [manhattanHub] 0%nat H')
      as (rd & td & E & _ & _ & _ & _ & Ha).
    exists rd, td. split; [exact E|exact (Ha H1)].
Defined.

(** C4 on 21 stops and on the three sample stops. *)
Lemma dp_size_limit_on_samples :
  ((20 < length manyStops)%nat /\ (length threeStops <= 20)%nat) /\
  (exists r t',
     solveTSPNearestNeighbor tickClock manyStops 0%nat = Ok r t' /\
     solveTSP tickClock 0 manyStops ExactDp 0%nat =
       Ok (mkRouteResult (path r) (distance_ r) (timeMs r)
             "Nearest Neighbor (DP limit exceeded)") t' /\
     "Nearest Neighbor (DP limit exceeded)"%string
       <> "Exact DP (Held-Karp)"%string) /\
  solveTSP tickClock 0 threeStops ExactDp 0%nat
  = solveTSPExactDP tickClock threeStops 0%nat.
Proof.
  assert (Hm : (20 < length manyStops)%nat) by (cbn; lia).
  assert (Ht : (length threeStops <= 20)%nat) by (cbn; lia).
  split; [split; assumption|]. split.
  - exact (proj1 (dp_size_limit tickClock 0 manyStops 0%nat) Hm).
  - exact (proj2 (dp_size_limit tickClock 0 threeStops 0%nat) Ht).
Defined.

(** C6 on a search from the corner of a grid of side 1. *)
Lemma astar_fallback_on_corner :
  aStarLoop 1 manhattanHub (map (fun o => (round (x o), round (y o))) []) 1
    [mkNode origin 0 (distance origin manhattanHub)
            (distance origin manhattanHub) None] [] = Exhausted /\
  aStarPathfinding tickClock 1 origin manhattanHub [] 1 0%nat =
    Ok (mkRouteResult [origin; manhattanHub]
          (Fin (distance origin manhattanHub))
          (tickClock 1 - tickClock 0) "A* Pathfinding (Direct)") 2%nat.
Proof.
  split; [exact corner_search_exhausted|].
  exact (astar_fallback tickClock 1 origin manhattanHub [] 1 0%nat
           corner_search_exhausted).
Defined.

(** C7 on a single stop, with the Christofides selector. *)
Lemma degenerate_inputs_on_one_stop :
  (length [manhattanHub] <= 1)%nat /\
  exists r t',
    solveTSP tickClock 0 [manhattanHub] Christofides 0%nat = Ok r t' /\
    distance_ r = Fin 0 /\ path r = [manhattanHub].
Proof.
  assert (H : (length [manhattanHub] <= 1)%nat) by (cbn; lia).
  split; [exact H|].
  exact (degenerate_inputs tickClock 0 [manhattanHub] Christofides 0%nat H).
Defined.

(** C8 with the clock that advances by one at each reading. *)
Lemma non_negativity_on_tick_clock :
  monotone tickClock /\
  (forall points algo t, exists fuel0, forall fuel, (fuel0 <= fuel)%nat ->
     exists r t', solveTSP tickClock fuel points algo t = Ok r t' /\
                  nonneg (distance_ r) /\ 0 <= timeMs r) /\
  (forall points fuel t,
     exists rs t', compareAlgorithms tickClock fuel points t = Ok rs t' /\
       forall r, In r rs -> nonneg (distance_ r) /\ 0 <= timeMs r) /\
  (forall start goal obstacles gridSize t,
     exists fuel0, forall fuel, (fuel0 <= fuel)%nat ->
     exists r t',
       aStarPathfinding tickClock fuel start goal obstacles gridSize t
       = Ok r t' /\
       nonneg (distance_ r) /\ 0 <= timeMs r).
Proof.
  split; [exact tickClock_monotone|].
  exact (non_negativity tickClock tickClock_monotone).
Defined.

(** C10 on the two stops half a unit apart, with the A* selector. *)
Lemma distance_is_route_length_on_two_stops :
  (Astar <> Astar \/ (length twoStops <= 2)%nat) /\
  exists fuel0, forall fuel, (fuel0 <= fuel)%nat ->
  exists r t',
    solveTSP tickClock fuel twoStops Astar 0%nat = Ok r t' /\
    distance_ r = Fin (routeLength (path r)).
Proof.
  assert (H : Astar <> Astar \/ (length twoStops <= 2)%nat)
    by (right; cbn; lia).
  split; [exact H|].
  exact (distance_is_route_length tickClock twoStops Astar 0%nat H).
Defined.

(** * Further properties of the engine *)

(** ** Geometry *)

Lemma distance_triangle (p q r : Point) :
  distance p r <= distance p q + distance q r.
Proof.
  unfold distance. rewrite <- !Rsqr_pow2.
  apply (triangle (x p) (y p) (x r) (y r) (x q) (y q)).
Qed.

Lemma distance_zero (p q : Point) :
  distance p q = 0 <-> x p = x q /\ y p = y q.
Proof.
  unfold distance. split.
  - intros H.
    pose proof (pow2_ge_0 (x p - x q)) as Hx.
    pose proof (pow2_ge_0 (y p - y q)) as Hy.
    apply sqrt_eq_0 in H; [|lra].
    assert (Ex : (x p - x q) ^ 2 = 0) by lra.
    assert (Ey : (y p - y q) ^ 2 = 0) by lra.
    replace ((x p - x q) ^ 2) with (Rsqr (x p - x q)) in Ex
      by (unfold Rsqr; ring).
    replace ((y p - y q) ^ 2) with (Rsqr (y p - y q)) in Ey
      by (unfold Rsqr; ring).
    apply Rsqr_0_uniq in Ex, Ey. lra.
  - intros [-> ->]. replace ((x q - x q) ^ 2 + (y q - y q) ^ 2) with 0 by ring.
    apply sqrt_0.
Qed.

Lemma last_cons_default (q p : Point) (rest : list Point) :
  last (q :: rest) p = last rest q.
Proof.
  revert q p. induction rest as [|a rest IH]; intros q p; [reflexivity|].
  change (last (q :: a :: rest) p) with (last (a :: rest) p).
  now rewrite (IH a p), (IH a q).
Qed.

Lemma straight_line (p : Point) (rest : list Point) :
  distance p (last rest p) <= routeLength (p :: rest).
Proof.
  revert p. induction rest as [|q rest IH]; intros p.
  - cbn. rewrite distance_refl. lra.
  - change (routeLength (p :: q :: rest))
      with (distance p q + routeLength (q :: rest)).
    specialize (IH q). rewrite last_cons_default.
    pose proof (distance_triangle p q (last rest q)). lra.
Qed.

(** X1.  [distance] is a metric on coordinates: it is never negative,
    it is symmetric, it is 0 exactly between points of equal
    coordinates, and it obeys the triangle inequality. *)
Theorem distance_is_metric (p q r : Point) :
  0 <= distance p q /\
  distance p q = distance q p /\
  (distance p q = 0 <-> x p = x q /\ y p = y q) /\
  distance p r <= distance p q + distance q r.
Proof.
  split; [apply distance_nonneg|]. split; [apply distance_sym|].
  split; [apply distance_zero|apply distance_triangle].
Qed.

(** X2.  [calculateRouteDistance] does not depend on the direction of
    travel, and the distance of a route is the sum of the distances of
    its two parts when it is cut at a stop. *)
Theorem route_distance_reverse_and_split (l1 l2 : list Point) (p : Point) :
  calculateRouteDistance (rev l1) = calculateRouteDistance l1 /\
  calculateRouteDistance (l1 ++ p :: l2)
  = calculateRouteDistance (l1 ++ [p]) + calculateRouteDistance (p :: l2).
Proof.
  rewrite !calculateRouteDistance_routeLength. split.
  - apply routeLength_rev.
  - apply routeLength_app.
Qed.

(** X3.  A route is never shorter than the straight line between its
    first and its last stop. *)
Theorem route_distance_at_least_straight_line (p : Point)
  (rest : list Point) :
  distance p (last rest p) <= calculateRouteDistance (p :: rest).
Proof.
  rewrite calculateRouteDistance_routeLength. apply straight_line.
Qed.

(** ** Bit counting *)

(** X4.  On a 31-bit non-negative integer [__builtin_popcount] returns
    the number of bits that are set. *)
Theorem popcount_counts_set_bits (n : Z) :
  (0 <= n < 2 ^ 31)%Z ->
  __builtin_popcount n = Z.of_nat (bitCount 31 n).
Proof.
  intros Hn. unfold __builtin_popcount.
  rewrite (popLoop_count 31 32 n 0); [lia|exact Hn|lia|lia].
Qed.

Lemma popcount_counts_set_bits_of_11 :
  (0 <= 11 < 2 ^ 31)%Z /\
  __builtin_popcount 11 = Z.of_nat (bitCount 31 11).
Proof.
  assert (H : (0 <= 11 < 2 ^ 31)%Z) by (cbn; lia).
  split; [exact H|exact (popcount_counts_set_bits 11 H)].
Defined.

(** ** Nearest neighbour is greedy *)

Lemma nnScan_min_fold (points : list Point) (visited : list nat)
  (current : nat) (l : list nat) :
  forall done st,
  scanMin points visited current done st ->
  scanMin points visited current (done ++ l)
    (fold_left (nnScanStep points visited current) l st).
Proof.
  induction l as [|a l IH]; intros done st Hst.
  - now rewrite app_nil_r.
  - cbn [fold_left].
    replace (done ++ a :: l) with ((done ++ [a]) ++ l)
      by (rewrite <- app_assoc; reflexivity).
    apply IH. destruct st as [[i|] m]; unfold nnScanStep.
    + destruct Hst as [-> Hmin].
      destruct (has a visited) eqn:Hv; cbn [negb].
      * split; [reflexivity|]. intros j Hj Hnj.
        apply in_app_or in Hj. destruct Hj as [Hj|[<-|[]]]; [auto|].
        apply has_true in Hv. contradiction.
      * cbn [nltb]. destruct (Rltb _ _) eqn:Hlt.
        -- apply Rltb_true in Hlt. split; [reflexivity|].
           intros j Hj Hnj. apply in_app_or in Hj.
           destruct Hj as [Hj|[<-|[]]]; [|lra].
           specialize (Hmin j Hj Hnj). lra.
        -- apply Rltb_false in Hlt. split; [reflexivity|].
           intros j Hj Hnj. apply in_app_or in Hj.
           destruct Hj as [Hj|[<-|[]]]; [auto|exact Hlt].
    + destruct Hst as [-> Hall].
      destruct (has a visited) eqn:Hv; cbn [negb].
      * split; [reflexivity|]. intros j Hj. apply in_app_or in Hj.
        destruct Hj as [Hj|[<-|[]]]; [auto|now apply has_true].
      * cbn [nltb]. split; [reflexivity|].
        intros j Hj Hnj. apply in_app_or in Hj.
        destruct Hj as [Hj|[<-|[]]]; [|lra].
        exfalso. auto.
Qed.

(** The scan finds a nearest unvisited point whenever there is one. *)
Lemma nnScan_min (points : list Point) (visited : list nat) (current : nat) :
  NoDup visited ->
  (length visited < length points)%nat ->
  exists i, (i < length points)%nat /\ ~ In i visited /\
    nnScan points visited current =
      (Some i, Fin (distance (pt points current) (pt points i))) /\
    forall j, (j < length points)%nat -> ~ In j visited ->
      distance (pt points current) (pt points i)
      <= distance (pt points current) (pt points j).
Proof.
  intros Hnd Hlen.
  destruct (nnScan_some points visited current Hnd Hlen)
    as (i & Hi & Hni & E).
  exists i. split; [exact Hi|]. split; [exact Hni|]. split; [exact E|].
  pose proof (nnScan_min_fold points visited current (seq 0 (length points))
                [] (None, Infinity)) as H.
  fold (nnScan points visited current) in H. rewrite E in H.
  destruct H as [_ Hmin]; [split; [reflexivity|intros j []]|].
  intros j Hj Hnj. apply Hmin; [|exact Hnj]. apply in_seq. lia.
Qed.

Lemma greedy_snoc (points : list Point) (before : list nat) (c i : nat) :
  greedy points (before ++ [c]) ->
  (forall j, (j < length points)%nat -> ~ In j (before ++ [c]) ->
     distance (pt points c) (pt points i)
     <= distance (pt points c) (pt points j)) ->
  greedy points ((before ++ [c]) ++ [i]).
Proof.
  intros Hg Hmin b c' nxt after E j Hj Hnj.
  destruct after as [|a0 after0].
  - assert (E' : (before ++ [c]) ++ [i] = (b ++ [c']) ++ [nxt]).
    { rewrite E, <- app_assoc. reflexivity. }
    apply app_inj_tail in E'. destruct E' as [E1 <-].
    apply app_inj_tail in E1. destruct E1 as [<- <-].
    now apply Hmin.
  - destruct (exists_last (l := a0 :: after0)) as (after' & z & Ez);
      [discriminate|].
    rewrite Ez in E.
    assert (E' : (before ++ [c]) ++ [i] = (b ++ c' :: nxt :: after') ++ [z]).
    { rewrite E, <- app_assoc. reflexivity. }
    apply app_inj_tail in E'. destruct E' as [E1 _].
    now apply (Hg b c' nxt after' E1).
Qed.

Lemma nnLoop_greedy (points : list Point) (k : nat) :
  forall visited path total current,
  nnInv points visited path total current ->
  greedy points visited ->
  (length points <= k + length visited)%nat ->
  exists visited' path' total' current',
    nnLoop k points visited path total current = Some (path', total', current')
    /\ nnInv points visited' path' total' current'
    /\ greedy points visited'
    /\ (length points <= length visited')%nat.
Proof.
  induction k as [|k IH]; intros visited path total current Hinv Hg Hk.
  - exists visited, path, total, current. simpl.
    destruct (Nat.ltb_spec (length visited) (length points)); [lia|].
    auto.
  - simpl.
    destruct (Nat.ltb_spec (length visited) (length points)) as [Hlt|Hge].
    + destruct Hinv as (Hnd & Hrange & Hhd & [before Hbefore] & Hpath & Htotal).
      destruct (nnScan_min points visited current Hnd Hlt)
        as (i & Hi & Hni & Hscan & Hmin).
      rewrite Hscan.
      assert (Hadd : add i visited = visited ++ [i]).
      { unfold add. apply has_false in Hni. now rewrite Hni. }
      rewrite Hadd.
      apply IH.
      * repeat split.
        -- apply NoDup_rev in Hnd. rewrite <- (rev_involutive (visited ++ [i])).
           apply NoDup_rev. rewrite rev_app_distr. simpl.
           constructor; [rewrite <- in_rev; exact Hni|exact Hnd].
        -- intros j Hj. apply in_app_or in Hj. destruct Hj as [Hj|[<-|[]]]; auto.
        -- destruct visited; [discriminate|exact Hhd].
        -- exists visited. reflexivity.
        -- rewrite Hpath, map_app. reflexivity.
        -- rewrite Htotal. simpl. f_equal.
           rewrite Hpath, Hbefore, !map_app. simpl.
           rewrite routeLength_snoc. reflexivity.
      * subst visited. apply greedy_snoc; assumption.
      * rewrite length_app. simpl. lia.
    + exists visited, path, total, current. auto.
Qed.

(** X5.  Nearest neighbour is greedy: on two or more points it visits
    every point once, starting from the first, each time moving to a
    point nearest to the current one among those not yet visited, and
    comes back to the first point; its distance is the length of that
    route. *)
Theorem nearest_neighbor_is_greedy (clk : nat -> R) (points : list Point)
  (t : nat) :
  (2 <= length points)%nat ->
  exists order r t',
    solveTSPNearestNeighbor clk points t = Ok r t' /\
    Permutation order (seq 0 (length points)) /\
    hd_error order = Some 0%nat /\
    greedy points order /\
    path r = map (pt points) order ++ [pt points 0] /\
    distance_ r = Fin (routeLength (path r)).
Proof.
  intros Hn.
  destruct (nnLoop_greedy points (length points) [0%nat] [pt points 0] (Fin 0)
              0%nat)
    as (visited & pth & total & current & Hloop & Hinv & Hg & Hlen).
  { repeat split.
    - constructor; [intros []|constructor].
    - intros i [<-|[]]. lia.
    - exists []. reflexivity. }
  { intros b c nxt after E. destruct b as [|? [|? ?]]; discriminate. }
  { simpl. lia. }
  destruct Hinv as (Hnd & Hrange & Hhd & [before Hbefore] & Hpath & Htotal).
  exists visited. eexists _, _.
  unfold solveTSPNearestNeighbor, bind, now, ret.
  destruct (Nat.leb_spec (length points) 1); [lia|].
  rewrite Hloop. unfold bind, now, ret.
  split; [reflexivity|]. cbn [path distance_].
  split; [|split; [exact Hhd|split; [exact Hg|]]].
  - apply NoDup_Permutation_bis; [exact Hnd|rewrite length_seq; exact Hlen|].
    intros i Hi. apply in_seq. specialize (Hrange i Hi). lia.
  - subst total pth. split; [reflexivity|].
    simpl. f_equal. rewrite Hbefore, !map_app. simpl.
    rewrite routeLength_snoc. reflexivity.
Qed.

Lemma nearest_neighbor_is_greedy_on_three_stops :
  (2 <= length threeStops)%nat /\
  exists order r t',
    solveTSPNearestNeighbor tickClock threeStops 0%nat = Ok r t' /\
    Permutation order (seq 0 (length threeStops)) /\
    hd_error order = Some 0%nat /\
    greedy threeStops order /\
    path r = map (pt threeStops) order ++ [pt threeStops 0] /\
    distance_ r = Fin (routeLength (path r)).
Proof.
  assert (H : (2 <= length threeStops)%nat) by (cbn; lia).
  split; [exact H|].
  exact (nearest_neighbor_is_greedy tickClock threeStops 0%nat H).
Defined.

(** ** 2-opt stops at a local optimum *)

Lemma twoOptStep_false (i j : nat) (st : list Point * bool) :
  snd (twoOptStep i j st) = false ->
  twoOptStep i j st = st /\ snd st = false /\ ~ improves (fst st) i j.
Proof.
  destruct st as [path improved]. unfold twoOptStep, improves.
  cbn [fst snd].
  destruct (Rltb _ _) eqn:E; cbn [snd]; [discriminate|].
  intros ->. apply Rltb_false in E. repeat split. lra.
Qed.

Lemma twoOptRow_false (len i : nat) (st : list Point * bool) :
  snd (twoOptRow len st i) = false ->
  twoOptRow len st i = st /\ snd st = false /\
  forall j, In j (seq (i + 2) (len - (i + 2))) -> ~ improves (fst st) i j.
Proof.
  unfold twoOptRow. generalize (seq (i + 2) (len - (i + 2))) as l.
  intros l. revert st. induction l as [|j l IH]; intros st H.
  - cbn in *. repeat split; [exact H|intros j []].
  - cbn [fold_left] in *. apply IH in H. destruct H as (E & Hf & Hl).
    apply twoOptStep_false in Hf. destruct Hf as (E' & Hf & Hj).
    rewrite E' in E, Hl |- *. repeat split; [exact E|exact Hf|].
    intros j' [<-|Hj']; auto.
Qed.

Lemma twoOptRows_false (len : nat) (l : list nat) :
  forall st,
  snd (fold_left (twoOptRow len) l st) = false ->
  fold_left (twoOptRow len) l st = st /\ snd st = false /\
  forall i j, In i l -> In j (seq (i + 2) (len - (i + 2))) ->
              ~ improves (fst st) i j.
Proof.
  induction l as [|i l IH]; intros st H.
  - cbn in *. repeat split; [exact H|intros i j []].
  - cbn [fold_left] in *. apply IH in H. destruct H as (E & Hf & Hl).
    apply twoOptRow_false in Hf. destruct Hf as (E' & Hf & Hi).
    rewrite E' in E, Hl |- *. repeat split; [exact E|exact Hf|].
    intros i' j [<-|Hi'] Hj; auto.
Qed.

(** A pass that reports no improvement has changed nothing, and no
    exchange was worth making. *)
Lemma twoOptPass_false (path path' : list Point) :
  twoOptPass path = (path', false) -> path' = path /\ locallyOptimal path.
Proof.
  intros E. unfold twoOptPass in E.
  destruct (twoOptRows_false (length path) (seq 0 (length path - 1))
              (path, false)) as (E' & _ & H).
  { now rewrite E. }
  rewrite E' in E. injection E as <-. split; [reflexivity|].
  intros i j Hij Hj. apply (H i j); apply in_seq; lia.
Qed.

Lemma twoOptLoop_optimal (k : nat) :
  forall path,
  (twoOptIterations k path < k)%nat -> locallyOptimal (twoOptLoop k path).
Proof.
  induction k as [|k IH]; intros path H; [cbn in H; lia|].
  cbn [twoOptLoop twoOptIterations] in *.
  destruct (twoOptPass path) as [path' [|]] eqn:E.
  - apply IH. lia.
  - apply twoOptPass_false in E. now destruct E as [-> E].
Qed.

(** On three points a pass finds nothing to exchange. *)
Lemma twoOptPass_three (path : list Point) :
  length path = 3%nat -> twoOptPass path = (path, false).
Proof.
  intros H. destruct path as [|p0 [|p1 [|p2 [|? ?]]]]; try discriminate.
  unfold twoOptPass, twoOptRow. cbn [length Nat.sub seq fold_left Nat.add].
  unfold twoOptStep. cbn [length Nat.add Nat.ltb Nat.leb pt nth].
  assert (E : Rltb (distance p0 p2 + distance p1 p0)
                   (distance p0 p1 + distance p2 p0 - 1 / 10000) = false).
  { apply Rltb_false. rewrite (distance_sym p1 p0), (distance_sym p2 p0). lra. }
  now rewrite E.
Qed.

(** X6.  2-opt ends at a local optimum unless it runs out of
    iterations: on three or more points its path is the tour that the
    loop leaves, closed by its first point, and when the loop has made
    fewer than 1000 passes no exchange of two edges of that tour gains
    more than 0.0001. *)
Theorem two_opt_local_optimum (clk : nat -> R) (points : list Point)
  (t : nat) :
  (3 <= length points)%nat ->
  exists rn tn r t' tour,
    solveTSPNearestNeighbor clk points (S t) = Ok rn tn /\
    solveTSP2Opt clk points t = Ok r t' /\
    tour = twoOptLoop maxIterations (removelast (path rn)) /\
    path r = tour ++ [pt tour 0] /\
    ((twoOptIterations maxIterations (removelast (path rn)) < maxIterations)%nat
     -> locallyOptimal tour).
Proof.
  intros Hn.
  destruct (nn_spec clk points (S t)) as (order & Hp & Hh & E); [lia|].
  eexists _, _, _, _, _. split; [exact E|].
  unfold solveTSP2Opt, bind, now, ret.
  destruct (Nat.leb_spec (length points) 2); [lia|].
  rewrite E. cbn [path].
  split; [reflexivity|]. split; [reflexivity|]. split; [reflexivity|].
  apply twoOptLoop_optimal.
Qed.

Lemma two_opt_local_optimum_on_three_stops :
  (3 <= length threeStops)%nat /\
  exists rn tn r t' tour,
    solveTSPNearestNeighbor tickClock threeStops 1%nat = Ok rn tn /\
    solveTSP2Opt tickClock threeStops 0%nat = Ok r t' /\
    tour = twoOptLoop maxIterations (removelast (path rn)) /\
    path r = tour ++ [pt tour 0] /\
    (twoOptIterations maxIterations (removelast (path rn)) < maxIterations)%nat
    /\ locallyOptimal tour.
Proof.
  assert (H : (3 <= length threeStops)%nat) by (cbn; lia).
  split; [exact H|].
  destruct (two_opt_local_optimum tickClock threeStops 0%nat H)
    as (rn & tn & r & t' & tour & En & Eo & Et & Ep & Hopt).
  assert (Hit : (twoOptIterations maxIterations (removelast (path rn))
                 < maxIterations)%nat).
  { destruct (nn_spec tickClock threeStops 1%nat) as (order & Hp & _ & E);
      [cbn; lia|].
    rewrite E in En. injection En as <- _. cbn [path].
    rewrite removelast_last.
    assert (L : length (map (pt threeStops) order) = 3%nat).
    { rewrite length_map, (Permutation_length Hp), length_seq. reflexivity. }
    unfold maxIterations. cbn [twoOptIterations].
    rewrite (twoOptPass_three _ L). lia. }
  exists rn, tn, r, t', tour. repeat split; try assumption. now apply Hopt.
Defined.

(** ** The spanning tree of Prim *)

(** The parents that Prim's loop leaves link every vertex to vertex 0. *)
Lemma prim_parents (points : list Point) :
  let n := length points in
  let parent := primLoop n points (repeat false n)
                  (upd 0 (Fin 0) (repeat Infinity n)) (repeat None n) in
  exists inMST, forall v, (v < n)%nat -> tree inMST parent v.
Proof.
  intros n parent.
  destruct (primLoop_spec points n (repeat false n)
              (upd 0 (Fin 0) (repeat Infinity n)) (repeat None n))
    as (inMST' & HL & Hall & Htree).
  { split; [apply repeat_length|]. split; [|split].
    - unfold relaxInv. cbn [fst snd].
      rewrite upd_length, !repeat_length. repeat split; auto.
      + rewrite nth_repeat in H. discriminate.
      + rewrite nth_repeat in H. discriminate.
      + intros v Hv _ Hk. destruct v as [|v]; [now left|].
        rewrite nth_upd_neq, nth_repeat in Hk by lia. congruence.
    - intros v Hv. rewrite nth_repeat in Hv. discriminate.
    - intros v Hv _ [->|H0].
      + rewrite nth_upd_eq by (rewrite repeat_length; exact Hv). discriminate.
      + rewrite nth_repeat in H0. discriminate. }
  { lia. }
  exists inMST'. exact Htree.
Qed.

Lemma flat_map_single {A B : Type} (f : A -> list B) (g : B -> A)
  (l : list A) :
  (forall a, In a l -> exists b, f a = [b] /\ g b = a) ->
  map g (flat_map f l) = l.
Proof.
  induction l as [|a l IH]; intros H; [reflexivity|].
  cbn [flat_map]. rewrite map_app, IH by (intros; apply H; now right).
  destruct (H a) as (b & -> & <-); [now left|]. reflexivity.
Qed.

(** X7.  Prim returns a spanning tree rooted at vertex 0: one edge
    [(parent, child)] for each vertex from 1 on, in the order of the
    children, with both ends among the vertices, and every vertex is
    linked to vertex 0 through the edges. *)
Theorem prim_returns_spanning_tree (points : list Point) :
  let n := length points in
  let mst := primMST points in
  map snd mst = seq 1 (n - 1) /\
  length mst = (n - 1)%nat /\
  (forall p i, In (p, i) mst -> (p < n)%nat /\ (i < n)%nat) /\
  (forall P : nat -> Prop,
     P 0%nat -> (forall p i, In (p, i) mst -> P p -> P i) ->
     forall v, (v < n)%nat -> P v).
Proof.
  intros n mst.
  assert (Hchildren : map snd mst = seq 1 (n - 1)).
  { destruct (prim_parents points) as [inMST Htree]. fold n in Htree.
    unfold mst, primMST. fold n. apply flat_map_single.
    intros i Hi. apply in_seq in Hi.
    assert (Ht : tree inMST
              (primLoop n points (repeat false n)
                 (upd 0 (Fin 0) (repeat Infinity n)) (repeat None n)) i)
      by (apply Htree; lia).
    inversion Ht as [|v p _ Hp _]; subst; [lia|].
    rewrite Hp. now exists (p, i). }
  split; [exact Hchildren|]. split.
  - transitivity (length (map snd mst)); [symmetry; apply length_map|].
    rewrite Hchildren. apply length_seq.
  - exact (primMST_spanning points).
Qed.

(** ** The greedy matching *)

Lemma closestPairStep_min (points : list Point) (availArray : list nat)
  (i j : nat) (done : list (nat * nat)) (st : option edge * number) :
  pairMin points availArray done st ->
  pairMin points availArray (done ++ [(i, j)])
    (closestPairStep points availArray i st j).
Proof.
  destruct st as [[[a b]|] m]; unfold closestPairStep; cbn [pairMin].
  - intros (-> & (i0 & j0 & Hin & Ea & Eb) & Hmin). cbn [nltb].
    destruct (Rltb _ _) eqn:Hlt.
    + apply Rltb_true in Hlt. split; [reflexivity|]. split.
      * exists i, j. split; [apply in_or_app; right; now left|auto].
      * intros i' j' H. apply in_app_or in H.
        destruct H as [H|[H|[]]].
        -- specialize (Hmin i' j' H). lra.
        -- injection H as <- <-. lra.
    + apply Rltb_false in Hlt. split; [reflexivity|]. split.
      * exists i0, j0. split; [apply in_or_app; now left|auto].
      * intros i' j' H. apply in_app_or in H.
        destruct H as [H|[H|[]]]; [auto|].
        injection H as <- <-. exact Hlt.
  - intros (-> & ->). cbn [nltb app]. split; [reflexivity|]. split.
    + exists i, j. split; [now left|auto].
    + intros i' j' [H|[]]. injection H as <- <-. lra.
Qed.

Lemma closestPairRow_min (points : list Point) (availArray : list nat)
  (i : nat) (done : list (nat * nat)) (st : option edge * number) :
  pairMin points availArray done st ->
  pairMin points availArray (done ++ pairRow (length availArray) i)
    (closestPairRow points availArray st i).
Proof.
  unfold closestPairRow, pairRow.
  generalize (seq (i + 1) (length availArray - (i + 1))) as l.
  intros l. revert done st. induction l as [|j l IH]; intros done st H.
  - cbn. now rewrite app_nil_r.
  - cbn [fold_left map].
    replace (done ++ (i, j) :: map (pair i) l)
      with ((done ++ [(i, j)]) ++ map (pair i) l)
      by (rewrite <- app_assoc; reflexivity).
    apply IH. now apply closestPairStep_min.
Qed.

Lemma closestPairRows_min (points : list Point) (availArray : list nat)
  (l : list nat) :
  forall done st,
  pairMin points availArray done st ->
  pairMin points availArray (done ++ pairRows (length availArray) l)
    (fold_left (closestPairRow points availArray) l st).
Proof.
  induction l as [|i l IH]; intros done st H.
  - cbn. now rewrite app_nil_r.
  - cbn [fold_left pairRows flat_map]. rewrite app_assoc.
    apply IH. now apply closestPairRow_min.
Qed.

Lemma pairRows_all (len i j : nat) :
  (i < j)%nat -> (j < len)%nat -> In (i, j) (pairRows len (seq 0 len)).
Proof.
  intros Hij Hj. unfold pairRows. apply in_flat_map.
  exists i. split; [apply in_seq; lia|].
  unfold pairRow. apply in_map, in_seq. lia.
Qed.

Lemma pairRows_lt (len i j : nat) (l : list nat) :
  In (i, j) (pairRows len l) -> (i < j)%nat /\ (j < len)%nat.
Proof.
  unfold pairRows. rewrite in_flat_map. intros (k & _ & H).
  unfold pairRow in H. apply in_map_iff in H.
  destruct H as (j' & E & H). injection E as -> ->.
  apply in_seq in H. lia.
Qed.

(** With two or more distinct vertices left the search finds two of
    them that are closest to each other. *)
Lemma closestPair_min (points : list Point) (availArray : list nat) :
  NoDup availArray -> (2 <= length availArray)%nat ->
  exists a b m, closestPair points availArray = (Some (a, b), m) /\
    In a availArray /\ In b availArray /\ a <> b /\
    forall c d, In c availArray -> In d availArray -> c <> d ->
      distance (pt points a) (pt points b)
      <= distance (pt points c) (pt points d).
Proof.
  intros Hnd Hlen.
  pose proof (closestPairRows_min points availArray
                (seq 0 (length availArray)) [] (None, Infinity)) as H.
  fold (closestPair points availArray) in H. cbn [app] in H.
  specialize (H (conj eq_refl eq_refl)).
  destruct (closestPair points availArray) as [[[a b]|] m].
  - destruct H as (_ & (i & j & Hin & -> & ->) & Hmin).
    apply pairRows_lt in Hin. destruct Hin as [Hij Hj].
    eexists _, _, m. split; [reflexivity|].
    split; [apply nth_In; lia|]. split; [apply nth_In; lia|]. split.
    + intros E. apply (NoDup_nth availArray 0%nat) in E; [lia|exact Hnd|lia|lia].
    + intros c d Hc Hd Hcd.
      destruct (In_nth _ _ 0%nat Hc) as (i' & Hi' & <-).
      destruct (In_nth _ _ 0%nat Hd) as (j' & Hj' & <-).
      destruct (Nat.lt_total i' j') as [L|[->|L]]; [| congruence |].
      * apply Hmin, pairRows_all; assumption.
      * rewrite (distance_sym (pt points (nth i' availArray 0%nat))).
        apply Hmin, pairRows_all; assumption.
  - exfalso. destruct H as [_ H].
    pose proof (pairRows_all (length availArray) 0 1) as Hin.
    rewrite H in Hin. apply Hin; lia.
Qed.

Lemma delete_perm (a : nat) (l : list nat) :
  In a l -> Permutation l (a :: delete a l).
Proof.
  unfold delete. induction l as [|h t IH]; intros Hin; [destruct Hin|].
  cbn [set_remove]. destruct (Nat.eq_dec a h) as [->|Hne]; [reflexivity|].
  destruct Hin as [->|Hin]; [congruence|].
  rewrite perm_swap. constructor. now apply IH.
Qed.

Lemma delete_NoDup (a : nat) (l : list nat) :
  NoDup l -> NoDup (delete a l) /\ ~ In a (delete a l).
Proof.
  intros H. split; [now apply set_remove_nodup|].
  unfold delete. intros Hin. apply set_remove_iff in Hin; [|exact H].
  now destruct Hin.
Qed.

Lemma add_fold_NoDup (vertices : list nat) :
  forall s, NoDup (s ++ vertices) ->
            fold_left (fun s v => add v s) vertices s = s ++ vertices.
Proof.
  induction vertices as [|a l IH]; intros s H; [now rewrite app_nil_r|].
  cbn [fold_left]. unfold add at 2.
  assert (Ha : has a s = false).
  { apply has_false. intros Hin. apply NoDup_remove_2 in H.
    apply H, in_or_app. now left. }
  rewrite Ha, IH; rewrite <- app_assoc; [reflexivity|exact H].
Qed.

Lemma matchLoop_greedy (points : list Point) (k : nat) :
  forall available matching,
  NoDup available -> (length available <= k)%nat ->
  exists added rest,
    matchLoop k points available matching = Some (matching ++ added) /\
    Permutation (endpoints added ++ rest) available /\
    length rest = (length available mod 2)%nat /\
    greedyPairs points added rest.
Proof.
  induction k as [|k IH]; intros available matching Hnd Hk.
  - exists [], available. cbn [matchLoop].
    destruct (Nat.ltb_spec 1 (length available)); [lia|].
    rewrite app_nil_r. split; [reflexivity|]. split; [reflexivity|].
    split; [destruct available; [reflexivity|cbn in *; lia]|].
    intros [|? ?] a b after E; discriminate.
  - cbn [matchLoop].
    destruct (Nat.ltb_spec 1 (length available)) as [Hlt|Hge].
    + destruct (closestPair_min points available Hnd Hlt)
        as (a & b & m & Hc & Ha & Hb & Hab & Hmin).
      rewrite Hc. cbn [fst snd].
      assert (Hb' : In b (delete a available)).
      { unfold delete. apply set_remove_iff; auto. }
      destruct (delete_NoDup a available Hnd) as [Hnd1 _].
      destruct (delete_NoDup b (delete a available) Hnd1) as [Hnd2 _].
      assert (Hperm : Permutation available
                        (a :: b :: delete b (delete a available))).
      { rewrite (delete_perm a available Ha) at 1. constructor.
        now apply delete_perm. }
      destruct (IH (delete b (delete a available)) (matching ++ [(a, b)])
                  Hnd2) as (added & rest & Hm & Hp & Hr & Hg).
      { apply Permutation_length in Hperm. cbn [length] in Hperm. lia. }
      exists ((a, b) :: added), rest.
      split; [rewrite <- app_assoc in Hm; exact Hm|].
      split; [cbn [endpoints flat_map fst snd app];
              fold (endpoints added); rewrite Hperm, Hp; reflexivity|].
      split.
      { rewrite Hr. apply Permutation_length in Hperm. cbn [length] in Hperm.
        rewrite Hperm.
        change (S (S ?n)) with (2 + n)%nat.
        replace (2 + length (delete b (delete a available)))%nat
          with (length (delete b (delete a available)) + 1 * 2)%nat by lia.
        now rewrite Nat.Div0.mod_add. }
      intros before a' b' after E c d Hcin Hdin Hcd.
      destruct before as [|e before].
      * injection E as <- <- <-. apply Hmin; [| |exact Hcd].
        -- eapply Permutation_in; [symmetry; exact Hperm|].
           cbn [endpoints flat_map fst snd app] in Hcin.
           fold (endpoints added) in Hcin.
           destruct Hcin as [<-|[<-|Hcin]]; [now left|right; now left|].
           right; right. eapply Permutation_in; [exact Hp|exact Hcin].
        -- eapply Permutation_in; [symmetry; exact Hperm|].
           cbn [endpoints flat_map fst snd app] in Hdin.
           fold (endpoints added) in Hdin.
           destruct Hdin as [<-|[<-|Hdin]]; [now left|right; now left|].
           right; right. eapply Permutation_in; [exact Hp|exact Hdin].
      * injection E as _ E. now apply (Hg before a' b' after E).
    + exists [], available. rewrite app_nil_r.
      split; [reflexivity|]. split; [reflexivity|].
      split; [destruct available as [|? [|? ?]];
              [reflexivity|reflexivity|cbn in *; lia]|].
      intros [|? ?] a b after E; discriminate.
Qed.

(** X8.  The greedy matching pairs up the vertices it is given: on
    distinct indices of points every vertex is an end of exactly one
    edge of the matching, but for one vertex left over when their
    number is odd, and each edge joins a closest pair among the
    vertices not yet matched. *)
Theorem greedy_matching_pairs_vertices (points : list Point)
  (vertices : list nat) :
  NoDup vertices ->
  (forall v, In v vertices -> (v < length points)%nat) ->
  exists matching rest,
    minimumWeightPerfectMatching points vertices = inr matching /\
    Permutation (endpoints matching ++ rest) vertices /\
    length rest = (length vertices mod 2)%nat /\
    greedyPairs points matching rest.
Proof.
  intros Hnd _. unfold minimumWeightPerfectMatching.
  rewrite (add_fold_NoDup vertices []) by exact Hnd. cbn [app].
  destruct (matchLoop_greedy points (length vertices) vertices [] Hnd)
    as (added & rest & E & Hp & Hr & Hg); [lia|].
  rewrite E. cbn [app]. exists added, rest. auto.
Qed.

Lemma greedy_matching_pairs_vertices_of_three_stops :
  (NoDup [0; 1; 2]%nat /\
   forall v, In v [0; 1; 2]%nat -> (v < length threeStops)%nat) /\
  exists matching rest,
    minimumWeightPerfectMatching threeStops [0; 1; 2]%nat = inr matching /\
    Permutation (endpoints matching ++ rest) [0; 1; 2]%nat /\
    length rest = (length [0; 1; 2]%nat mod 2)%nat /\
    greedyPairs threeStops matching rest.
Proof.
  assert (H : NoDup [0; 1; 2]%nat).
  { repeat constructor; cbn; intuition lia. }
  assert (Hr : forall v, In v [0; 1; 2]%nat -> (v < length threeStops)%nat).
  { cbn. intuition lia. }
  split; [split; assumption|].
  exact (greedy_matching_pairs_vertices threeStops [0; 1; 2]%nat H Hr).
Defined.

(** ** Hierholzer's tour *)

Lemma edges_below (edges : list edge) :
  exists n, (0 < n)%nat /\
    forall p i, In (p, i) edges -> (p < n)%nat /\ (i < n)%nat.
Proof.
  exists (S (list_max (endpoints edges))). split; [lia|].
  intros p i H.
  assert (Hle : Forall (fun k => (k <= list_max (endpoints edges))%nat)
                       (endpoints edges)).
  { apply list_max_le. lia. }
  rewrite Forall_forall in Hle.
  assert (Hp : In p (endpoints edges)).
  { unfold endpoints. apply in_flat_map. exists (p, i). split; [exact H|].
    now left. }
  assert (Hi : In i (endpoints edges)).
  { unfold endpoints. apply in_flat_map. exists (p, i). split; [exact H|].
    right. now left. }
  apply Hle in Hp, Hi. lia.
Qed.

(** X9.  [findEulerianTour] returns a tour for every list of edges: the
    tour starts at vertex 0 and, with a vertex, holds every vertex that
    an edge joins to it, in either direction. *)
Theorem eulerian_tour_covers_linked_vertices (edges : list edge) (n : nat) :
  exists tour,
    findEulerianTour edges n = inr tour /\
    hd_error tour = Some 0%nat /\
    forall u v, In (u, v) edges \/ In (v, u) edges ->
                In u tour -> In v tour.
Proof.
  destruct (edges_below edges) as (m & Hm & Hr).
  destruct (buildAdj_spec m edges Hr) as (B1 & B2 & B3).
  unfold findEulerianTour.
  destruct (eulerLoop_spec m (buildAdj edges) (4 * length edges + 2)
              (buildAdj edges) [0%nat] []) as (adj' & tour & Hloop & Hinv).
  { constructor.
    - intros u v H. now left.
    - intros v w [].
    - intros u v Huv. apply B2. apply B1 in Huv. exists u. tauto.
    - intros v [<-|[]]. exact Hm.
    - intros u v Huv. apply B1 in Huv.
      destruct Huv as [H|H]; apply Hr in H; tauto.
    - reflexivity.
    - discriminate. }
  { rewrite B3. simpl. lia. }
  rewrite Hloop. exists (rev tour).
  destruct Hinv as [H1 H2 H3 H4 H5 H6 H7]. rewrite app_nil_r in H6, H7.
  split; [reflexivity|]. split.
  - rewrite hd_rev_last by exact H7. now rewrite H6.
  - intros u v Huv Hu. apply in_rev in Hu. apply -> in_rev.
    destruct (H1 u v) as [H|[_ H]].
    + now apply B1.
    + exfalso. now apply (H2 u v).
    + exact H.
Qed.

(** ** A*: the shape of the result *)

Lemma linked_snoc (rel : Point -> Point -> Prop) (pre : list Point)
  (p q : Point) :
  linked rel (pre ++ [p]) -> rel p q -> linked rel ((pre ++ [p]) ++ [q]).
Proof.
  induction pre as [|a pre IH]; intros H Hpq.
  - cbn. auto.
  - destruct pre as [|b pre].
    + cbn in *. destruct H as [H _]. auto.
    + change (linked rel (a :: (b :: pre ++ [p]) ++ [q])).
      change (rel a b /\ linked rel ((b :: pre) ++ [p])) in H.
      destruct H as [Hab H]. split; [exact Hab|]. now apply IH.
Qed.

Lemma cellEqb_eq (a b : Z * Z) : cellEqb a b = true <-> a = b.
Proof.
  destruct a as [a1 a2], b as [b1 b2]. unfold cellEqb. cbn [fst snd].
  rewrite andb_true_iff, !Z.eqb_eq. split.
  - intros [-> ->]. reflexivity.
  - intros E. injection E as -> ->. auto.
Qed.

Lemma expandStep_good (goal : Point) (obstacles : list Point) (G : R)
  (current : AStarNode) (openSet : list AStarNode) (d : R * R) :
  In d directions ->
  nodeGood obstacles G current -> Forall (nodeGood obstacles G) openSet ->
  Forall (nodeGood obstacles G)
    (expandStep goal (map (fun o => (round (x o), round (y o))) obstacles)
       G current openSet d).
Proof.
  intros Hd [Hl Hf] Ho. destruct d as [dx dy]. unfold expandStep.
  destruct (_ || _) eqn:Hb; [exact Ho|].
  destruct (existsb _ _) eqn:Hobs; [exact Ho|].
  apply Forall_app. split; [exact Ho|]. constructor; [|constructor].
  destruct (nodePath_last current) as [pre E].
  apply orb_false_iff in Hb. destruct Hb as [Hb H4].
  apply orb_false_iff in Hb. destruct Hb as [Hb H3].
  apply orb_false_iff in Hb. destruct Hb as [H1 H2].
  apply Rltb_false in H1, H2, H3, H4.
  unfold nodeGood. cbn [nodePath]. rewrite E in *. split.
  - apply linked_snoc; [exact Hl|]. exists dx, dy. cbn. auto.
  - assert (Et : tl ((pre ++ [Node.point current]) ++
                  [mkPoint (CoordId (x (Node.point current) + dx * 2)
                                    (y (Node.point current) + dy * 2))
                           (x (Node.point current) + dx * 2)
                           (y (Node.point current) + dy * 2) ""])
               = tl (pre ++ [Node.point current]) ++
                  [mkPoint (CoordId (x (Node.point current) + dx * 2)
                                    (y (Node.point current) + dy * 2))
                           (x (Node.point current) + dx * 2)
                           (y (Node.point current) + dy * 2) ""]).
    { destruct pre; reflexivity. }
    rewrite Et. apply Forall_app. split; [exact Hf|].
    constructor; [|constructor]. split.
    + unfold inGrid. cbn. lra.
    + intros o Ho' Heq. cbn [x y] in Heq.
      assert (existsb
                (cellEqb (round (x (Node.point current) + dx * 2),
                          round (y (Node.point current) + dy * 2)))
                (map (fun o => (round (x o), round (y o))) obstacles) = true).
      { apply existsb_exists. exists (round (x o), round (y o)).
        split; [apply in_map_iff; now exists o|].
        apply cellEqb_eq. exact Heq. }
      congruence.
Qed.

Lemma expand_good (goal : Point) (obstacles : list Point) (G : R)
  (current : AStarNode) (openSet : list AStarNode) :
  nodeGood obstacles G current -> Forall (nodeGood obstacles G) openSet ->
  Forall (nodeGood obstacles G)
    (expand goal (map (fun o => (round (x o), round (y o))) obstacles)
       G current openSet).
Proof.
  intros Hc. unfold expand.
  assert (Hgen : forall ds, incl ds directions ->
    forall openSet, Forall (nodeGood obstacles G) openSet ->
    Forall (nodeGood obstacles G)
      (fold_left
         (expandStep goal (map (fun o => (round (x o), round (y o))) obstacles)
            G current) ds openSet)).
  { induction ds as [|d ds IH]; intros Hin os Ho; [exact Ho|].
    cbn [fold_left]. apply IH; [intros a Ha; apply Hin; now right|].
    apply expandStep_good; [apply Hin; now left|exact Hc|exact Ho]. }
  apply Hgen. apply incl_refl.
Qed.

Lemma aStarLoop_good (goal : Point) (obstacles : list Point) (G : R)
  (k : nat) :
  forall openSet closedSet current,
  Forall (nodeGood obstacles G) openSet ->
  aStarLoop k goal (map (fun o => (round (x o), round (y o))) obstacles) G
            openSet closedSet = Found current ->
  nodeGood obstacles G current /\ distance (Node.point current) goal < 1.
Proof.
  induction k as [|k IH]; intros openSet closedSet current Ho E.
  - cbn [aStarLoop] in E. destruct (sortByF openSet); discriminate.
  - cbn [aStarLoop] in E.
    assert (Hs : Forall (nodeGood obstacles G) (sortByF openSet)).
    { eapply Permutation_Forall; [apply Permutation_sym, sortByF_perm|].
      exact Ho. }
    destruct (sortByF openSet) as [|c rest]; [discriminate|].
    inversion Hs as [|? ? Hc Hrest]; subst.
    destruct (existsb _ closedSet).
    + now apply (IH rest closedSet).
    + destruct (Rltb _ 1) eqn:Hlt.
      * injection E as <-. apply Rltb_true in Hlt. auto.
      * apply (IH _ _ _ (expand_good goal obstacles G c rest Hc Hrest) E).
Qed.

(** What a result of A* looks like. *)
Lemma aStar_shape (clk : nat -> R) (fuel : nat) (start goal : Point)
  (obstacles : list Point) (gridSize : R) (t t' : nat) (r : RouteResult) :
  (1 <= fuel)%nat ->
  aStarPathfinding clk fuel start goal obstacles gridSize t = Ok r t' ->
  (algorithm r = "A* Pathfinding"%string /\
   distance (last (path r) start) goal < 1 /\
   linked gridStep (path r) /\
   Forall (fun p => inGrid gridSize p /\ offObstacles obstacles p)
          (tl (path r))) \/
  (algorithm r = "A* Pathfinding (Direct)"%string /\
   path r = [start; goal] /\ 1 <= distance start goal).
Proof.
  intros Hf E.
  destruct (Rlt_dec (distance start goal) 1) as [Hd|Hd].
  - rewrite (aStar_immediate clk fuel start goal obstacles gridSize t Hf Hd)
      in E.
    injection E as <- _. left. cbn. repeat split; try exact Hd. constructor.
  - revert E. unfold aStarPathfinding, bind, now, ret.
    destruct (aStarLoop _ _ _ _ _ _) as [current| |] eqn:E;
      [| |discriminate]; intros H; injection H as <- _;
      cbn [path algorithm]; [left|right].
    + apply aStarLoop_good in E.
      * destruct E as [[Hl Hfor] Hlt]. split; [reflexivity|].
        destruct (nodePath_last current) as [pre Ep].
        rewrite Ep at 1. rewrite last_last. auto.
      * constructor; [|constructor]. split; cbn; auto.
    + split; [reflexivity|]. split; [reflexivity|lra].
Qed.

(** X10.  A* always returns: for every start, goal, obstacles and grid
    size the search loop ends, and every run gives the same path and
    distance.  The path starts at the start point, and the distance is
    the length of the path.  Either the path ends less than 1 away from
    the goal, or it is the direct path from start to goal, labelled as
    such, with start and goal at least 1 apart. *)
Theorem astar_returns_a_path (start goal : Point) (obstacles : list Point)
  (gridSize : R) :
  exists fuel0 pth dist label,
    (forall clk fuel t, (fuel0 <= fuel)%nat ->
       aStarPathfinding clk fuel start goal obstacles gridSize t =
       Ok (mkRouteResult pth (Fin dist) (clk (S t) - clk t) label)
          (S (S t))) /\
    hd_error pth = Some start /\
    dist = routeLength pth /\
    ((label = "A* Pathfinding"%string /\
      distance (last pth start) goal < 1) \/
     (label = "A* Pathfinding (Direct)"%string /\
      pth = [start; goal] /\ 1 <= distance start goal)).
Proof.
  destruct (aStar_total start goal obstacles gridSize)
    as (fuel0 & pth & dist & label & _ & H).
  exists (S fuel0), pth, dist, label.
  split; [intros clk fuel t Hf; apply H; lia|].
  pose proof (H (fun _ => 0) (S fuel0) 0%nat (Nat.le_succ_diag_r fuel0)) as E.
  destruct (aStar_consistent _ _ _ _ _ _ _ _ _ E) as [Hh Hd].
  cbn [path distance_] in Hh, Hd. injection Hd as Hd.
  split; [exact Hh|]. split; [exact Hd|].
  destruct (aStar_shape _ _ _ _ _ _ _ _ _ (le_n_S _ _ (Nat.le_0_l fuel0)) E)
    as [(Hl & Hlast & _)|Hdir]; cbn [path algorithm] in *; auto.
Qed.

(** X11.  A path that A* finds makes grid moves only, each 2 units
    along one or both axes, and after its first point it stays inside
    the grid and off the cells of the obstacles. *)
Theorem astar_path_stays_on_free_grid (clk : nat -> R) (fuel : nat)
  (start goal : Point) (obstacles : list Point) (gridSize : R)
  (t t' : nat) (r : RouteResult) :
  aStarPathfinding clk fuel start goal obstacles gridSize t = Ok r t' ->
  algorithm r = "A* Pathfinding"%string ->
  linked gridStep (path r) /\
  Forall (fun p => inGrid gridSize p /\ offObstacles obstacles p)
         (tl (path r)).
Proof.
  intros E Hl.
  assert (Hf : (1 <= fuel)%nat).
  { destruct fuel; [|lia]. unfold aStarPathfinding, bind, now in E.
    cbn in E. discriminate. }
  destruct (aStar_shape _ _ _ _ _ _ _ _ _ Hf E)
    as [(_ & _ & H1 & H2)|(Hd & _)]; [auto|].
  rewrite Hd in Hl. discriminate.
Qed.

Lemma astar_path_stays_on_free_grid_on_edge :
  (aStarPathfinding tickClock 2 stopB stopC [] 100 0%nat =
     Ok (mkRouteResult
           [stopB;
            Node.point (neighborNode stopC (startNodeOf stopB stopC) 1 0)]
           (Fin (Node.g (neighborNode stopC (startNodeOf stopB stopC) 1 0)))
           (tickClock 1 - tickClock 0) "A* Pathfinding") 2%nat /\
   "A* Pathfinding"%string = "A* Pathfinding"%string) /\
  linked gridStep
    [stopB; Node.point (neighborNode stopC (startNodeOf stopB stopC) 1 0)] /\
  Forall (fun p => inGrid 100 p /\ offObstacles [] p)
    [Node.point (neighborNode stopC (startNodeOf stopB stopC) 1 0)].
Proof.
  pose proof (edge_leg_BC tickClock 0%nat) as E. cbv zeta in E.
  split; [split; [exact E|reflexivity]|].
  exact (astar_path_stays_on_free_grid tickClock 2 stopB stopC [] 100
           0%nat 2%nat _ E eq_refl).
Defined.

(** X12.  When the start is less than 1 away from the goal, A* returns
    the start alone with distance 0, whatever the obstacles and the
    grid: the goal is not part of the path. *)
Theorem astar_start_near_goal (clk : nat -> R) (fuel : nat)
  (start goal : Point) (obstacles : list Point) (gridSize : R) (t : nat) :
  (1 <= fuel)%nat -> distance start goal < 1 ->
  aStarPathfinding clk fuel start goal obstacles gridSize t =
    Ok (mkRouteResult [start] (Fin 0) (clk (S t) - clk t) "A* Pathfinding")
       (S (S t)).
Proof. apply aStar_immediate. Qed.

Lemma astar_start_near_goal_on_two_stops :
  ((1 <= 1)%nat /\ distance manhattanHub nearHub < 1) /\
  aStarPathfinding tickClock 1 manhattanHub nearHub [] 100 0%nat =
    Ok (mkRouteResult [manhattanHub] (Fin 0) (tickClock 1 - tickClock 0)
          "A* Pathfinding") 2%nat.
Proof.
  assert (H1 : (1 <= 1)%nat) by lia.
  assert (H2 : distance manhattanHub nearHub < 1)
    by (rewrite twoStops_distance; lra).
  split; [split; assumption|].
  exact (astar_start_near_goal tickClock 1 manhattanHub nearHub [] 100 0%nat
           H1 H2).
Defined.

Lemma expandStep_blocked (goal : Point) (obstacles : list Point) (G : R)
  (current : AStarNode) (openSet : list AStarNode) (d : R * R) :
  (forall q, x q = x (Node.point current) + fst d * 2 ->
             y q = y (Node.point current) + snd d * 2 ->
             ~ (inGrid G q /\ offObstacles obstacles q)) ->
  expandStep goal (map (fun o => (round (x o), round (y o))) obstacles)
    G current openSet d = openSet.
Proof.
  intros H. destruct d as [dx dy]. unfold expandStep. cbn [fst snd] in H.
  destruct (_ || _) eqn:Hb; [reflexivity|].
  destruct (existsb _ _) eqn:Hobs; [reflexivity|].
  exfalso.
  apply orb_false_iff in Hb. destruct Hb as [Hb H4].
  apply orb_false_iff in Hb. destruct Hb as [Hb H3].
  apply orb_false_iff in Hb. destruct Hb as [H1 H2].
  apply Rltb_false in H1, H2, H3, H4.
  apply (H (mkPoint (CoordId (x (Node.point current) + dx * 2)
                             (y (Node.point current) + dy * 2))
                    (x (Node.point current) + dx * 2)
                    (y (Node.point current) + dy * 2) ""));
    [reflexivity|reflexivity|].
  split; [unfold inGrid; cbn; lra|].
  intros o Ho Heq. cbn [x y] in Heq.
  assert (existsb
            (cellEqb (round (x (Node.point current) + dx * 2),
                      round (y (Node.point current) + dy * 2)))
            (map (fun o => (round (x o), round (y o))) obstacles) = true).
  { apply existsb_exists. exists (round (x o), round (y o)).
    split; [apply in_map_iff; now exists o|].
    apply cellEqb_eq. exact Heq. }
  congruence.
Qed.

(** X13.  When the start is 1 or more away from the goal and every
    move from the start leads off the grid or onto an obstacle, A*
    returns the direct path from start to goal, through whatever lies
    between, with their Euclidean distance. *)
Theorem astar_boxed_in_goes_direct (clk : nat -> R) (fuel : nat)
  (start goal : Point) (obstacles : list Point) (gridSize : R) (t : nat) :
  (1 <= fuel)%nat -> 1 <= distance start goal ->
  (forall q, gridStep start q ->
             ~ (inGrid gridSize q /\ offObstacles obstacles q)) ->
  aStarPathfinding clk fuel start goal obstacles gridSize t =
    Ok (mkRouteResult [start; goal] (Fin (distance start goal))
          (clk (S t) - clk t) "A* Pathfinding (Direct)")
       (S (S t)).
Proof.
  intros Hf Hd Hbox. destruct fuel as [|fuel]; [lia|].
  unfold aStarPathfinding, bind, now, ret.
  cbn [aStarLoop sortByF fold_right insertByF existsb Node.point].
  apply Rltb_false in Hd. rewrite Hd.
  assert (Hex : expand goal
                  (map (fun o => (round (x o), round (y o))) obstacles)
                  gridSize
                  (mkNode start 0 (distance start goal) (distance start goal)
                          None) [] = []).
  { unfold expand.
    assert (Hgen : forall ds, incl ds directions ->
      fold_left
        (expandStep goal (map (fun o => (round (x o), round (y o))) obstacles)
           gridSize
           (mkNode start 0 (distance start goal) (distance start goal) None))
        ds [] = []).
    { induction ds as [|d ds IH]; intros Hin; [reflexivity|].
      cbn [fold_left]. rewrite expandStep_blocked.
      - apply IH. intros a Ha. apply Hin. now right.
      - intros q Hx Hy. apply Hbox. exists (fst d), (snd d).
        cbn [Node.point] in Hx, Hy.
        split; [|auto]. rewrite <- surjective_pairing. apply Hin. now left. }
    apply Hgen, incl_refl. }
  rewrite Hex. destruct fuel; reflexivity.
Qed.

Lemma astar_boxed_in_goes_direct_on_corner :
  ((1 <= 1)%nat /\ 1 <= distance origin manhattanHub /\
   forall q, gridStep origin q -> ~ (inGrid 1 q /\ offObstacles [] q)) /\
  aStarPathfinding tickClock 1 origin manhattanHub [] 1 0%nat =
    Ok (mkRouteResult [origin; manhattanHub]
          (Fin (distance origin manhattanHub))
          (tickClock 1 - tickClock 0) "A* Pathfinding (Direct)") 2%nat.
Proof.
  assert (H1 : (1 <= 1)%nat) by lia.
  assert (H2 : 1 <= distance origin manhattanHub).
  { pose proof (distance_ge_dx manhattanHub origin) as H.
    rewrite distance_sym in H. cbn in H. lra. }
  assert (H3 : forall q, gridStep origin q ->
                         ~ (inGrid 1 q /\ offObstacles [] q)).
  { intros q (dx & dy & Hin & Hx & Hy) [[Hgx Hgy] _]. cbn in Hx, Hy.
    cbn in Hin.
    repeat (destruct Hin as [Hin|Hin];
            [injection Hin as <- <-; lra|]).
    exact Hin. }
  split; [repeat split; assumption|].
  exact (astar_boxed_in_goes_direct tickClock 1 origin manhattanHub [] 1
           0%nat H1 H2 H3).
Defined.

(** ** The dispatcher *)

(** X14.  Over the whole range in which the dispatcher runs it, 2 to
    20 points, the selector [exact-dp] returns a closed tour from the
    first point that is a shortest one, under the label of the exact
    solver, with the length of the tour as distance. *)
Theorem dispatcher_exact_dp_is_optimal (clk : nat -> R) (fuel : nat)
  (points : list Point) (t : nat) :
  (2 <= length points <= 20)%nat ->
  exists r t',
    solveTSP clk fuel points ExactDp t = Ok r t' /\
    algorithm r = "Exact DP (Held-Karp)"%string /\
    closedTour points (path r) /\
    distance_ r = Fin (routeLength (path r)) /\
    forall tourPath, closedTour points tourPath ->
                     nle (distance_ r) (Fin (routeLength tourPath)).
Proof.
  intros Hn. cbn [solveTSP].
  destruct (Nat.leb_spec (length points) 20); [|lia].
  destruct (dp_closed clk points t) as (r & t' & E & Hc & Hd & Hopt); [lia|].
  exists r, t'. split; [exact E|]. split; [|auto].
  destruct (dp_spec clk points t) as (order & _ & _ & E' & _); [lia|].
  rewrite E' in E. now injection E as <- _.
Qed.

Lemma dispatcher_exact_dp_is_optimal_on_three_stops :
  (2 <= length threeStops <= 20)%nat /\
  exists r t',
    solveTSP tickClock 0 threeStops ExactDp 0%nat = Ok r t' /\
    algorithm r = "Exact DP (Held-Karp)"%string /\
    closedTour threeStops (path r) /\
    distance_ r = Fin (routeLength (path r)) /\
    forall tourPath, closedTour threeStops tourPath ->
                     nle (distance_ r) (Fin (routeLength tourPath)).
Proof.
  assert (H : (2 <= length threeStops <= 20)%nat) by (cbn; lia).
  split; [exact H|].
  exact (dispatcher_exact_dp_is_optimal tickClock 0 threeStops 0%nat H).
Defined.

(** 2-opt against nearest neighbour run at another time. *)
Lemma twoOpt_le_nn (clk : nat -> R) (points : list Point) (t t' u u' : nat)
  (ro rn : RouteResult) :
  (3 <= length points)%nat ->
  solveTSP2Opt clk points t = Ok ro u ->
  solveTSPNearestNeighbor clk points t' = Ok rn u' ->
  nle (distance_ ro) (distance_ rn).
Proof.
  intros Hn Eo En.
  destruct (twoOpt_spec clk points t Hn)
    as (order & tour & Hp & Hh & Hnn & Hinv & E2).
  destruct (nn_result_indep clk points _ _ _ _ _ _ Hnn En) as [_ Hd].
  rewrite E2 in Eo. injection Eo as <- _.
  rewrite <- Hd. cbn [distance_ nle].
  destruct Hinv as (_ & _ & H0 & Hc). cbn [fst] in H0, Hc.
  unfold cycleLength in Hc. rewrite H0 in Hc.
  assert (E0 : pt (map (pt points) order) 0 = pt points 0).
  { destruct order as [|o order]; [discriminate|].
    simpl in Hh. injection Hh as ->. reflexivity. }
  now rewrite E0 in Hc.
Qed.

(** The results of compare-all on 3 to 20 points. *)
Lemma compare_all_shortest_first (clk : nat -> R) (fuel : nat)
  (points : list Point) (t : nat) :
  (3 <= length points <= 20)%nat ->
  exists rd rn ro rc t',
    compareAlgorithms clk fuel points t = Ok [rd; rn; ro; rc] t' /\
    (algorithm rd = "Exact DP (Held-Karp)"%string /\
     algorithm rn = "Nearest Neighbor (Greedy)"%string /\
     algorithm ro = "2-Opt Local Search"%string /\
     algorithm rc = "Christofides (1.5-approx)"%string) /\
    nle (distance_ rd) (distance_ rn) /\
    nle (distance_ rd) (distance_ ro) /\
    nle (distance_ rd) (distance_ rc) /\
    nle (distance_ ro) (distance_ rn).
Proof.
  intros Hn. unfold compareAlgorithms.
  destruct (Nat.leb_spec (length points) 20); [|lia].
  cbn [runAll solveTSP].
  destruct (Nat.leb_spec (length points) 20); [|lia].
  destruct (dp_spec clk points t) as (od & _ & _ & Ed & _); [lia|].
  destruct (dp_closed clk points t) as (rd & td & Ed' & _ & _ & Hopt); [lia|].
  rewrite Ed in Ed'. injection Ed' as Erd _.
  destruct (nn_spec clk points (S (S t))) as (on & _ & _ & En); [lia|].
  destruct (nn_closed clk points (S (S t)))
    as (rn & tn & En' & Hcn & Hdn); [lia|].
  destruct (twoOpt_spec clk points (S (S (S (S t)))))
    as (oo & tour & _ & _ & _ & _ & Eo); [lia|].
  destruct (twoOpt_closed clk points (S (S (S (S t)))))
    as (ro & to & Eo' & Hco & Hdo); [lia|].
  destruct (christofides_spec clk points (S (S (S (S (S (S (S (S t)))))))))
    as (oc & _ & _ & Ec); [lia|].
  destruct (christofides_closed clk points (S (S (S (S (S (S (S (S t)))))))))
    as (rc & tc & Ec' & Hcc & Hdc); [lia|].
  unfold bind. rewrite Ed, En, Eo, Ec. unfold ret.
  eexists _, _, _, _, _. split; [reflexivity|].
  cbn [algorithm]. split; [auto|].
  pose proof (twoOpt_le_nn clk points _ _ _ _ _ _ (proj1 Hn) Eo En) as Hon.
  rewrite Eo in Eo'. injection Eo' as Ero _.
  rewrite Ec in Ec'. injection Ec' as Erc _.
  rewrite En in En'. injection En' as Ern _.
  rewrite Erd. split; [|split; [|split]].
  - rewrite Ern, Hdn. now apply Hopt.
  - rewrite Ero, Hdo. now apply Hopt.
  - rewrite Erc, Hdc. now apply Hopt.
  - exact Hon.
Qed.

(** X15.  On 3 to 20 points compare-all returns four results, of the
    exact solver, nearest neighbour, 2-opt and Christofides in this
    order; the first one has the least distance, and 2-opt is at most
    nearest neighbour. *)
Theorem compare_all_first_is_shortest (clk : nat -> R) (fuel : nat)
  (points : list Point) (t : nat) :
  (3 <= length points <= 20)%nat ->
  exists rd rn ro rc t',
    compareAlgorithms clk fuel points t = Ok [rd; rn; ro; rc] t' /\
    (algorithm rd = "Exact DP (Held-Karp)"%string /\
     algorithm rn = "Nearest Neighbor (Greedy)"%string /\
     algorithm ro = "2-Opt Local Search"%string /\
     algorithm rc = "Christofides (1.5-approx)"%string) /\
    nle (distance_ rd) (distance_ rn) /\
    nle (distance_ rd) (distance_ ro) /\
    nle (distance_ rd) (distance_ rc) /\
    nle (distance_ ro) (distance_ rn).
Proof.
  intros Hn.
  destruct (compare_all_shortest_first clk fuel points t Hn)
    as (rd & rn & ro & rc & t' & E & Hl & Hd).
  exists rd, rn, ro, rc, t'. auto.
Qed.

Lemma compare_all_first_is_shortest_on_three_stops :
  (3 <= length threeStops <= 20)%nat /\
  exists rd rn ro rc t',
    compareAlgorithms tickClock 0 threeStops 0%nat = Ok [rd; rn; ro; rc] t' /\
    (algorithm rd = "Exact DP (Held-Karp)"%string /\
     algorithm rn = "Nearest Neighbor (Greedy)"%string /\
     algorithm ro = "2-Opt Local Search"%string /\
     algorithm rc = "Christofides (1.5-approx)"%string) /\
    nle (distance_ rd) (distance_ rn) /\
    nle (distance_ rd) (distance_ ro) /\
    nle (distance_ rd) (distance_ rc) /\
    nle (distance_ ro) (distance_ rn).
Proof.
  assert (H : (3 <= length threeStops <= 20)%nat) by (cbn; lia).
  split; [exact H|].
  exact (compare_all_first_is_shortest tickClock 0 threeStops 0%nat H).
Defined.

(** * Properties of the components *)

(** ** Results panel *)

Lemma nle_refl (a : number) : nle a a.
Proof. destruct a; cbn; [lra|exact I]. Qed.

Lemma nle_trans (a b c : number) : nle a b -> nle b c -> nle a c.
Proof. destruct a, b, c; cbn; try tauto; lra. Qed.

Lemma nltb_false_nle (a b : number) : nltb a b = false <-> nle b a.
Proof.
  destruct a, b; cbn; try rewrite Rltb_false; try tauto.
  split; [discriminate|tauto].
Qed.

Lemma nltb_true_nle (a b : number) : nltb a b = true -> nle a b.
Proof.
  destruct a, b; cbn; try rewrite Rltb_true; try tauto; try discriminate.
  lra.
Qed.

Lemma bestStep_fold (l : list RouteResult) :
  forall b,
  let r := fold_left Panel.bestStep l b in
  (r = b \/ In r l) /\
  nle (distance_ r) (distance_ b) /\
  forall c, In c l -> nle (distance_ r) (distance_ c).
Proof.
  induction l as [|a l IH]; intros b; cbn [fold_left].
  - split; [now left|]. split; [apply nle_refl|intros c []].
  - destruct (IH (Panel.bestStep b a)) as (Hin & Hle & Hall).
    unfold Panel.bestStep in *.
    destruct (nltb (distance_ a) (distance_ b)) eqn:E.
    + apply nltb_true_nle in E. split; [|split].
      * destruct Hin as [->|Hin]; right; [now left|now right].
      * eapply nle_trans; eassumption.
      * intros c [<-|Hc]; auto.
    + apply nltb_false_nle in E. split; [|split].
      * destruct Hin as [Hin|Hin]; [now left|right; now right].
      * exact Hle.
      * intros c [<-|Hc]; [eapply nle_trans; eassumption|auto].
Qed.

Lemma isBest_spec (best r : RouteResult) :
  Panel.isBest best r = true <-> distance_ r = distance_ best.
Proof.
  unfold Panel.isBest. destruct (distance_ r), (distance_ best);
    try rewrite Reqb_true; split; try discriminate; try reflexivity.
  - now intros ->.
  - intros E. now injection E.
Qed.

(** X16.  The results panel never fails.  When there is a result to
    show it lists the current result first, followed by the results of
    the comparison that carry another label, and the result it calls
    best is one of the list with the least distance; the rows marked
    [Best] are the rows with that distance. *)
Theorem results_panel_marks_least_distance (results : list RouteResult)
  (currentResult : option RouteResult) :
  results <> [] \/ currentResult <> None ->
  exists rows best,
    Panel.ResultsPanel results currentResult = inr (Panel.Comparison rows best)
    /\ map fst rows = Panel.allResultsOf results currentResult
    /\ (forall c, currentResult = Some c ->
          hd_error (map fst rows) = Some c /\
          forall r, In r (tl (map fst rows)) ->
                    In r results /\ algorithm r <> algorithm c)
    /\ In best (map fst rows)
    /\ forall r b, In (r, b) rows ->
         nle (distance_ best) (distance_ r) /\
         (b = true <-> distance_ r = distance_ best).
Proof.
  intros H.
  assert (Hne : Panel.allResultsOf results currentResult <> []).
  { destruct currentResult as [c|]; [discriminate|].
    destruct H as [H|H]; [exact H|congruence]. }
  destruct (Panel.allResultsOf results currentResult) as [|first rest] eqn:Ea;
    [congruence|].
  pose proof (bestStep_fold (first :: rest) first) as (Hin & _ & Hall).
  exists (map (fun r => (r, Panel.isBest
                              (fold_left Panel.bestStep (first :: rest) first)
                              r)) (first :: rest)),
         (fold_left Panel.bestStep (first :: rest) first).
  assert (Emap : map fst
            (map (fun r => (r, Panel.isBest
                              (fold_left Panel.bestStep (first :: rest) first)
                              r)) (first :: rest)) = first :: rest).
  { rewrite map_map. cbn [fst]. apply map_id. }
  split.
  { unfold Panel.ResultsPanel.
    destruct results as [|r0 results], currentResult as [c|];
      try (rewrite Ea; reflexivity).
    destruct H; congruence. }
  rewrite Emap. split; [reflexivity|]. split; [|split].
  - intros c ->. cbn [Panel.allResultsOf] in Ea. injection Ea as <- <-.
    split; [reflexivity|]. cbn [tl]. intros r Hr.
    apply filter_In in Hr. destruct Hr as [Hr Hb]. split; [exact Hr|].
    intros E. rewrite E, String.eqb_refl in Hb. discriminate.
  - destruct Hin as [->|Hin]; [now left|exact Hin].
  - intros r b Hrb. apply in_map_iff in Hrb.
    destruct Hrb as (r' & E & Hr'). injection E as -> <-.
    split; [now apply Hall|apply isBest_spec].
Qed.

Lemma results_panel_marks_least_distance_on_sample :
  ([mkRouteResult [] (Fin 0) 0 "Nearest Neighbor"] <> [] \/ @None RouteResult <> None) /\
  exists rows best,
    Panel.ResultsPanel [mkRouteResult [] (Fin 0) 0 "Nearest Neighbor"] None
    = inr (Panel.Comparison rows best)
    /\ map fst rows
       = Panel.allResultsOf [mkRouteResult [] (Fin 0) 0 "Nearest Neighbor"] None
    /\ (forall c, None = Some c ->
          hd_error (map fst rows) = Some c /\
          forall r, In r (tl (map fst rows)) ->
                    In r [mkRouteResult [] (Fin 0) 0 "Nearest Neighbor"] /\
                    algorithm r <> algorithm c)
    /\ In best (map fst rows)
    /\ forall r b, In (r, b) rows ->
         nle (distance_ best) (distance_ r) /\
         (b = true <-> distance_ r = distance_ best).
Proof.
  assert (H : [mkRouteResult [] (Fin 0) 0 "Nearest Neighbor"] <> []
              \/ @None RouteResult <> None) by (left; discriminate).
  split; [exact H|].
  exact (results_panel_marks_least_distance _ _ H).
Defined.

(** ** Map *)

Lemma append_assoc (a b c : string) :
  ((a ++ b) ++ c = a ++ (b ++ c))%string.
Proof. induction a as [|ch a IH]; cbn; [reflexivity|now rewrite IH]. Qed.

Lemma append_nil_r (a : string) : (a ++ "" = a)%string.
Proof. induction a as [|ch a IH]; cbn; [reflexivity|now rewrite IH]. Qed.

Section MapFacts.

Variable show : R -> string.

Lemma concat_commands (c0 : string) (l : list Point) (i : nat) :
  (String.concat " " (c0 :: mapi (pathCommand show) (S i) l)
   = c0 ++ lineCommands show l)%string.
Proof.
  revert c0 i. induction l as [|p t IH]; intros c0 i.
  - cbn. now rewrite append_nil_r.
  - cbn [mapi]. change (String.concat " " (c0 :: ?a :: ?l))
      with (c0 ++ " " ++ String.concat " " (a :: l))%string.
    rewrite IH. unfold pathCommand. cbn [Nat.eqb lineCommands].
    rewrite !append_assoc. reflexivity.
Qed.

Lemma lineCommands_app (l1 l2 : list Point) :
  (lineCommands show (l1 ++ l2) = lineCommands show l1 ++ lineCommands show l2)%string.
Proof.
  induction l1 as [|p t IH]; [reflexivity|].
  cbn [app lineCommands]. rewrite IH, !append_assoc. reflexivity.
Qed.

Lemma animated_fold (points : list Point) (m : nat) (s0 : string) :
  (m < length points)%nat ->
  (fold_left (animatedStep show points) (seq 0 m) s0
   = s0 ++ lineCommands show (firstn m (tl points)))%string.
Proof.
  intros Hm. induction m as [|m IH].
  - cbn. now rewrite append_nil_r.
  - rewrite seq_S, fold_left_app, IH by lia. cbn [fold_left Nat.add].
    unfold animatedStep.
    assert (E : firstn (S m) (tl points)
                = firstn m (tl points) ++ [pt points (m + 1)]).
    { destruct points as [|p0 rest]; [cbn in Hm; lia|].
      cbn [tl length] in *. rewrite Nat.add_1_r. unfold pt. cbn [nth].
      clear IH. revert m Hm. induction rest as [|a rest IH]; intros m Hm;
        [cbn in Hm; lia|].
      destruct m as [|m]; [reflexivity|].
      cbn [firstn nth app]. f_equal. apply IH. cbn in Hm. lia. }
    rewrite E, lineCommands_app. cbn [lineCommands].
    rewrite !append_assoc, append_nil_r. reflexivity.
Qed.

Lemma pathString_commands (p0 : Point) (rest : list Point) :
  rest <> [] ->
  generatePathString show (p0 :: rest)
  = ("M " ++ show (x p0) ++ " " ++ show (y p0) ++ lineCommands show rest)%string.
Proof.
  intros Hne. unfold generatePathString.
  destruct rest as [|p1 rest]; [congruence|].
  cbn [length Nat.ltb Nat.leb mapi].
  rewrite (concat_commands _ (p1 :: rest) 0).
  unfold pathCommand. cbn [Nat.eqb]. rewrite !append_assoc. reflexivity.
Qed.

End MapFacts.

(** X17.  At progress 1 the animated path is the complete path: the
    two path strings are equal, for every list of points. *)
Theorem animated_path_ends_complete (show : R -> string)
  (points : list Point) :
  generateAnimatedPath show points 1 = inr (generatePathString show points).
Proof.
  unfold generateAnimatedPath.
  destruct (Nat.ltb_spec (length points) 2) as [H|H].
  - unfold generatePathString.
    destruct (Nat.ltb_spec (length points) 2); [reflexivity|lia].
  - rewrite Rmult_1_l. unfold floor. rewrite Int_part_INR.
    rewrite Z.ltb_irrefl, Nat2Z.id, Nat.min_id.
    destruct points as [|p0 rest]; [cbn in H; lia|].
    rewrite animated_fold by (cbn [length]; lia).
    cbn [tl length Nat.sub]. rewrite Nat.sub_0_r, firstn_all.
    rewrite pathString_commands.
    + unfold pt. cbn [nth]. now rewrite !append_assoc.
    + destruct rest; [cbn in H; lia|discriminate].
Qed.

(** X18.  Before the end the animated path draws the points passed so
    far and stops on the segment to the next one: for a progress [k + s]
    segments, [k] whole segments and a fraction [0 <= s < 1], it is the
    path through the first [k + 1] points followed by a line to the
    point at fraction [s] between point [k] and point [k + 1]. *)
Theorem animated_path_interpolates (show : R -> string)
  (points : list Point) (progress : R) (k : nat) (s : R) :
  (k + 1 < length points)%nat -> 0 <= s < 1 ->
  progress * INR (length points - 1) = INR k + s ->
  generateAnimatedPath show points progress =
  inr ("M " ++ show (x (pt points 0)) ++ " " ++ show (y (pt points 0))
       ++ lineCommands show (firstn k (tl points))
       ++ " L "
       ++ show (x (pt points k) + (x (pt points (k + 1)) - x (pt points k)) * s)
       ++ " "
       ++ show (y (pt points k) + (y (pt points (k + 1)) - y (pt points k)) * s)
      )%string.
Proof.
  intros Hk Hs Hp. unfold generateAnimatedPath.
  destruct (Nat.ltb_spec (length points) 2) as [H|H]; [lia|].
  assert (Ef : floor (progress * INR (length points - 1)) = Z.of_nat k).
  { unfold floor. symmetry. apply Int_part_spec.
    rewrite Hp, <- INR_IZR_INZ. lra. }
  rewrite Ef, Nat2Z.id.
  replace (Nat.min k (length points - 1)) with k by lia.
  destruct (Z.ltb_spec (Z.of_nat k) (Z.of_nat (length points - 1))); [|lia].
  unfold at_.
  destruct (Z.ltb_spec (Z.of_nat k) 0); [lia|].
  destruct (Z.ltb_spec (Z.of_nat k + 1) 0); [lia|].
  replace (Z.to_nat (Z.of_nat k + 1)) with (k + 1)%nat by lia.
  rewrite Nat2Z.id.
  rewrite (nth_error_nth' points origin) by lia.
  rewrite (nth_error_nth' points origin) by lia.
  fold (pt points k). fold (pt points (k + 1)).
  rewrite animated_fold by lia.
  rewrite Hp, <- INR_IZR_INZ.
  replace (INR k + s - INR k) with s by ring.
  now rewrite !append_assoc.
Qed.

Lemma animated_path_interpolates_on_three_stops :
  ((1 + 1 < length threeStops)%nat /\ 0 <= / 2 < 1 /\
   3 / 4 * INR (length threeStops - 1) = INR 1 + / 2) /\
  generateAnimatedPath blank threeStops (3 / 4) =
  inr ("M " ++ blank (x (pt threeStops 0)) ++ " " ++ blank (y (pt threeStops 0))
       ++ lineCommands blank (firstn 1 (tl threeStops))
       ++ " L "
       ++ blank (x (pt threeStops 1)
                + (x (pt threeStops (1 + 1)) - x (pt threeStops 1)) * / 2)
       ++ " "
       ++ blank (y (pt threeStops 1)
                + (y (pt threeStops (1 + 1)) - y (pt threeStops 1)) * / 2)
      )%string.
Proof.
  assert (H1 : (1 + 1 < length threeStops)%nat) by (cbn; lia).
  assert (H2 : 0 <= / 2 < 1) by lra.
  assert (H3 : 3 / 4 * INR (length threeStops - 1) = INR 1 + / 2)
    by (cbn; lra).
  split; [repeat split; try assumption; lra|].
  exact (animated_path_interpolates blank threeStops (3 / 4) 1 (/ 2) H1 H2 H3).
Defined.

(** ** Application *)

(** X19.  Compare All on 3 to 15 stops: the handler sets the computing
    flag and schedules the comparison; the comparison stores the four
    results, makes the result of the exact solver the current one,
    announces four algorithms and clears the flag.  The current result
    has the least distance of the four, and the results panel then
    lists the four results in the same order and calls the current one
    best. *)
Theorem compare_all_shows_exact_result_as_best (clk : nat -> R) (fuel : nat)
  (toFixed : nat -> number -> string) (show : R -> string)
  (points : list Point) (selectedAlgorithm : AlgorithmType) (t : nat) :
  (3 <= length points <= 15)%nat ->
  exists rd rn ro rc t' rows,
    App.handleCompareAll clk fuel toFixed show points selectedAlgorithm
    = ([App.SetIsComputing true],
       Some (App.compareAllLater clk fuel show points)) /\
    App.compareAllLater clk fuel show points t
    = Ok [App.SetAllResults [rd; rn; ro; rc];
          App.SetCurrentResult (Some rd);
          App.Toast App.Success
            ("Compared " ++ show (INR 4) ++ " algorithms!")%string;
          App.SetIsComputing false] t' /\
    algorithm rd = "Exact DP (Held-Karp)"%string /\
    (forall r, In r [rd; rn; ro; rc] -> nle (distance_ rd) (distance_ r)) /\
    Panel.ResultsPanel [rd; rn; ro; rc] (Some rd)
    = inr (Panel.Comparison rows rd) /\
    map fst rows = [rd; rn; ro; rc].
Proof.
  intros Hn.
  destruct (compare_all_shortest_first clk fuel points t)
    as (rd & rn & ro & rc & t' & E & (Ld & Ln & Lo & Lc) & Hdn & Hdo & Hdc & _);
    [lia|].
  exists rd, rn, ro, rc, t'. eexists.
  split.
  { unfold App.handleCompareAll.
    destruct (Nat.ltb_spec (length points) 2); [lia|].
    destruct (Nat.ltb_spec 15 (length points)); [lia|]. reflexivity. }
  split.
  { unfold App.compareAllLater. rewrite E. reflexivity. }
  split; [exact Ld|]. split.
  { intros r [<-|[<-|[<-|[<-|[]]]]]; auto. apply nle_refl. }
  unfold Panel.ResultsPanel, Panel.allResultsOf. cbn [filter].
  rewrite Ld, Ln, Lo, Lc. cbn [String.eqb Ascii.eqb Bool.eqb negb andb].
  unfold Panel.bestResultOf. cbn [fold_left]. unfold Panel.bestStep.
  assert (E0 : nltb (distance_ rd) (distance_ rd) = false)
    by (apply nltb_false_nle, nle_refl).
  rewrite E0.
  apply nltb_false_nle in Hdn, Hdo, Hdc. rewrite Hdn, Hdo, Hdc.
  split; [reflexivity|]. reflexivity.
Qed.

Lemma compare_all_shows_exact_result_as_best_on_three_stops :
  (3 <= length threeStops <= 15)%nat /\
  exists rd rn ro rc t' rows,
    App.handleCompareAll tickClock 0 noDigits blank threeStops TwoOpt
    = ([App.SetIsComputing true],
       Some (App.compareAllLater tickClock 0 blank threeStops)) /\
    App.compareAllLater tickClock 0 blank threeStops 0%nat
    = Ok [App.SetAllResults [rd; rn; ro; rc];
          App.SetCurrentResult (Some rd);
          App.Toast App.Success
            ("Compared " ++ blank (INR 4) ++ " algorithms!")%string;
          App.SetIsComputing false] t' /\
    algorithm rd = "Exact DP (Held-Karp)"%string /\
    (forall r, In r [rd; rn; ro; rc] -> nle (distance_ rd) (distance_ r)) /\
    Panel.ResultsPanel [rd; rn; ro; rc] (Some rd)
    = inr (Panel.Comparison rows rd) /\
    map fst rows = [rd; rn; ro; rc].
Proof.
  assert (H : (3 <= length threeStops <= 15)%nat) by (cbn; lia).
  split; [exact H|].
  exact (compare_all_shows_exact_result_as_best tickClock 0 noDigits blank
           threeStops TwoOpt 0%nat H).
Defined.

(** X20.  Compare All on more than 15 stops compares nothing: it warns
    and does what Run Algorithm does.  With a tour selector the
    scheduled run makes the result of the selected algorithm the
    current one, announces its distance and clears the computing flag;
    the list of compared results is left as it was. *)
Theorem compare_all_over_limit_runs_selected (clk : nat -> R) (fuel : nat)
  (toFixed : nat -> number -> string) (show : R -> string)
  (points : list Point) (selectedAlgorithm : AlgorithmType) (t : nat) :
  (15 < length points)%nat -> selectedAlgorithm <> Astar ->
  exists r t',
    solveTSP clk fuel points selectedAlgorithm t = Ok r t' /\
    App.handleCompareAll clk fuel toFixed show points selectedAlgorithm
    = ([App.Toast App.Warning
          "Too many points for comparison (max 15). Running selected algorithm only.";
        App.SetIsComputing true],
       Some (App.runAlgorithmLater clk fuel toFixed points selectedAlgorithm))
    /\
    App.runAlgorithmLater clk fuel toFixed points selectedAlgorithm t
    = Ok [App.SetCurrentResult (Some r);
          App.Toast App.Success
            ("Route optimized! Distance: " ++ toFixed 2%nat (distance_ r)
             ++ " units")%string;
          App.SetIsComputing false] t'.
Proof.
  intros Hn Ha.
  destruct (solveTSP_sound clk fuel points selectedAlgorithm t Ha)
    as (r & t' & E & _).
  exists r, t'. split; [exact E|]. split.
  - unfold App.handleCompareAll, App.handleRunAlgorithm.
    destruct (Nat.ltb_spec (length points) 2); [lia|].
    destruct (Nat.ltb_spec 15 (length points)); [|lia]. reflexivity.
  - unfold App.runAlgorithmLater. rewrite E.
    destruct (Nat.leb_spec (length points) 15); [lia|]. reflexivity.
Qed.

Lemma compare_all_over_limit_runs_selected_on_many_stops :
  ((15 < length manyStops)%nat /\ ExactDp <> Astar) /\
  exists r t',
    solveTSP tickClock 0 manyStops ExactDp 0%nat = Ok r t' /\
    App.handleCompareAll tickClock 0 noDigits blank manyStops ExactDp
    = ([App.Toast App.Warning
          "Too many points for comparison (max 15). Running selected algorithm only.";
        App.SetIsComputing true],
       Some (App.runAlgorithmLater tickClock 0 noDigits manyStops ExactDp))
    /\
    App.runAlgorithmLater tickClock 0 noDigits manyStops ExactDp 0%nat
    = Ok [App.SetCurrentResult (Some r);
          App.Toast App.Success
            ("Route optimized! Distance: " ++ noDigits 2%nat (distance_ r)
             ++ " units")%string;
          App.SetIsComputing false] t'.
Proof.
  assert (H1 : (15 < length manyStops)%nat) by (cbn; lia).
  assert (H2 : ExactDp <> Astar) by discriminate.
  split; [split; assumption|].
  exact (compare_all_over_limit_runs_selected tickClock 0 noDigits blank
           manyStops ExactDp 0%nat H1 H2).
Defined.


(** ** Christofides: the multigraph has even degrees *)

Lemma nth_incr (i v : nat) (degrees : list nat) :
  (i < length degrees)%nat ->
  nth v (incr i degrees) 0%nat
  = (nth v degrees 0 + (if Nat.eq_dec i v then 1 else 0))%nat.
Proof.
  intros Hi. unfold incr. destruct (Nat.eq_dec i v) as [->|Hne].
  - now rewrite nth_upd_eq.
  - rewrite nth_upd_neq by congruence. lia.
Qed.

(** The degree table that Christofides fills holds the degrees. *)
Lemma mstDegrees_degreeIn (n : nat) (edges : list edge) (v : nat) :
  (forall p i, In (p, i) edges -> (p < n)%nat /\ (i < n)%nat) ->
  nth v (mstDegrees n edges) 0%nat = degreeIn edges v.
Proof.
  intros Hr. unfold mstDegrees, degreeIn.
  assert (Hgen : forall degrees, length degrees = n ->
    nth v (fold_left (fun degrees (e : edge) =>
                        incr (snd e) (incr (fst e) degrees)) edges degrees)
        0%nat
    = (nth v degrees 0 + count_occ Nat.eq_dec (endpoints edges) v)%nat).
  { induction edges as [|[p i] edges IH]; intros degrees HL.
    - cbn. lia.
    - cbn [fold_left fst snd].
      destruct (Hr p i (or_introl eq_refl)) as [Hp Hi].
      rewrite IH.
      + rewrite !nth_incr by (rewrite ?incr_length; lia).
        cbn [endpoints flat_map fst snd app count_occ].
        fold (endpoints edges).
        destruct (Nat.eq_dec p v), (Nat.eq_dec i v); lia.
      + intros p' i' H. apply Hr. now right.
      + now rewrite !incr_length. }
  rewrite Hgen by apply repeat_length.
  rewrite nth_repeat. reflexivity.
Qed.

Lemma degreeIn_app (e1 e2 : list edge) (v : nat) :
  degreeIn (e1 ++ e2) v = (degreeIn e1 v + degreeIn e2 v)%nat.
Proof.
  unfold degreeIn, endpoints. rewrite flat_map_app. apply count_occ_app.
Qed.

Lemma count_occ_filter_seq (f : nat -> bool) (n v : nat) :
  count_occ Nat.eq_dec (filter f (seq 0 n)) v
  = if (v <? n)%nat && f v then 1%nat else 0%nat.
Proof.
  assert (Hnd : NoDup (filter f (seq 0 n))) by apply NoDup_filter, seq_NoDup.
  destruct ((v <? n)%nat && f v) eqn:E.
  - apply andb_true_iff in E. destruct E as [Hv Hf].
    apply Nat.ltb_lt in Hv.
    apply NoDup_count_occ' with (decA := Nat.eq_dec); [exact Hnd|].
    apply filter_In. split; [apply in_seq; lia|exact Hf].
  - apply count_occ_not_In. intros Hin. apply filter_In in Hin.
    destruct Hin as [Hs Hf]. apply in_seq in Hs.
    assert ((v <? n)%nat = true) by (apply Nat.ltb_lt; lia).
    rewrite H, Hf in E. discriminate.
Qed.

(** The spanning tree and the matching of its odd vertices together
    give every vertex an even number of edge ends. *)
Lemma multigraph_even (points : list Point) :
  let n := length points in
  let mst := primMST points in
  let oddVertices := oddVerticesOf n (mstDegrees n mst) in
  exists matching,
    minimumWeightPerfectMatching points oddVertices = inr matching /\
    Permutation (endpoints matching) oddVertices /\
    forall v, Nat.even (degreeIn (mst ++ matching) v) = true.
Proof.
  intros n mst oddVertices.
  pose proof (primMST_spanning points) as [Hr _]. fold n mst in Hr.
  assert (Hnd : NoDup oddVertices) by apply NoDup_filter, seq_NoDup.
  assert (Hev : Nat.even (length oddVertices) = true)
    by (apply oddVertices_even; exact Hr).
  unfold minimumWeightPerfectMatching.
  rewrite (add_fold_NoDup oddVertices []) by exact Hnd. cbn [app].
  destruct (matchLoop_greedy points (length oddVertices) oddVertices [] Hnd)
    as (matching & rest & E & Hp & Hrest & _); [lia|].
  rewrite E. cbn [app]. exists matching. split; [reflexivity|].
  assert (Hnil : rest = []).
  { apply Nat.even_spec in Hev. destruct Hev as [k Hk].
    rewrite Hk, Nat.mul_comm, Nat.Div0.mod_mul in Hrest.
    now destruct rest. }
  subst rest. rewrite app_nil_r in Hp. split; [exact Hp|].
  intros v. rewrite degreeIn_app, Nat.even_add.
  unfold degreeIn at 2.
  rewrite (Permutation_count_occ Nat.eq_dec) in Hp. rewrite Hp.
  unfold oddVertices, oddVerticesOf. rewrite count_occ_filter_seq.
  rewrite (mstDegrees_degreeIn n mst v Hr), mod2_odd.
  destruct (Nat.ltb_spec v n) as [Hv|Hv]; cbn [andb].
  - destruct (Nat.even (degreeIn mst v)); reflexivity.
  - assert (E0 : degreeIn mst v = 0%nat).
    { unfold degreeIn. apply count_occ_not_In. intros Hin.
      unfold endpoints in Hin. apply in_flat_map in Hin.
      destruct Hin as ([p i] & He & Hv').
      destruct (Hr p i He) as [Hp' Hi'].
      cbn in Hv'. destruct Hv' as [<-|[<-|[]]]; lia. }
    rewrite E0. reflexivity.
Qed.

(** X21.  The multigraph of Christofides, the spanning tree together
    with the matching of its vertices of odd degree, has an even number
    of edge ends at every vertex: the matching exists and adds one edge
    end at each vertex of odd degree and none elsewhere. *)
Theorem christofides_multigraph_is_even (points : list Point) :
  let n := length points in
  let mst := primMST points in
  let oddVertices := oddVerticesOf n (mstDegrees n mst) in
  exists matching,
    minimumWeightPerfectMatching points oddVertices = inr matching /\
    Permutation (endpoints matching) oddVertices /\
    forall v, Nat.even (degreeIn (mst ++ matching) v) = true.
Proof.
  intros n mst oddVertices.
  destruct (multigraph_even points) as (matching & Hm & Hp & Hev).
  exists matching. split; [exact Hm|]. split; [exact Hp|exact Hev].
Qed.



(** ** A*: the goal is reached from lattice points only *)

Lemma gridStep_lattice (start p q : Point) :
  onLattice start p -> gridStep p q -> onLattice start q.
Proof.
  intros (i & j & Hx & Hy) (dx & dy & Hd & Hqx & Hqy).
  destruct (directions_integral (dx, dy) Hd) as (a & b & _ & _ & E).
  injection E as -> ->.
  exists (i + a)%Z, (j + b)%Z. rewrite !plus_IZR. split; lra.
Qed.

Lemma linked_lattice (start : Point) (pth : list Point) :
  forall p, onLattice start p -> linked gridStep (p :: pth) ->
            onLattice start (last pth p).
Proof.
  induction pth as [|q pth IH]; intros p Hp Hl; [exact Hp|].
  rewrite last_cons_default. destruct Hl as [Hpq Hl].
  apply IH; [|exact Hl]. now apply (gridStep_lattice start p q).
Qed.

(** X22.  A* ends a search only at the start point or at a point that
    moves of 2 units reach from it: when every such lattice point is 1
    or more away from the goal, the result is the direct path from
    start to goal, whatever the obstacles and the grid. *)
Theorem astar_needs_lattice_point_near_goal (start goal : Point)
  (obstacles : list Point) (gridSize : R) :
  (forall p, onLattice start p -> 1 <= distance p goal) ->
  exists fuel0, forall clk fuel t, (fuel0 <= fuel)%nat ->
    aStarPathfinding clk fuel start goal obstacles gridSize t =
      Ok (mkRouteResult [start; goal] (Fin (distance start goal))
            (clk (S t) - clk t) "A* Pathfinding (Direct)")
         (S (S t)).
Proof.
  intros Hfar.
  destruct (aStar_total start goal obstacles gridSize)
    as (fuel0 & pth & dist & label & _ & H).
  exists (S fuel0). intros clk fuel t Hf.
  pose proof (H (fun _ => 0) (S fuel0) 0%nat (Nat.le_succ_diag_r fuel0)) as E.
  destruct (aStar_consistent _ _ _ _ _ _ _ _ _ E) as [Hh Hd].
  cbn [path distance_] in Hh, Hd. injection Hd as Hd.
  destruct (aStar_shape _ _ _ _ _ _ _ _ _ (le_n_S _ _ (Nat.le_0_l fuel0)) E)
    as [(_ & Hlast & Hl & _)|(Hlab & Hpth & _)]; cbn [path algorithm] in *.
  - exfalso. destruct pth as [|p0 rest]; [discriminate|].
    injection Hh as ->. rewrite last_cons_default in Hlast.
    assert (Hon : onLattice start (last rest start)).
    { apply linked_lattice; [|exact Hl]. exists 0%Z, 0%Z. split; lra. }
    specialize (Hfar _ Hon). lra.
  - rewrite H by lia. subst pth label. cbn in Hd. subst dist.
    now rewrite Rplus_0_r.
Qed.

Lemma astar_needs_lattice_point_near_goal_mid_cell :
  (forall p, onLattice origin p -> 1 <= distance p midCell) /\
  exists fuel0, forall clk fuel t, (fuel0 <= fuel)%nat ->
    aStarPathfinding clk fuel origin midCell [] 100 t =
      Ok (mkRouteResult [origin; midCell] (Fin (distance origin midCell))
            (clk (S t) - clk t) "A* Pathfinding (Direct)")
         (S (S t)).
Proof.
  assert (H : forall p, onLattice origin p -> 1 <= distance p midCell).
  { intros p (i & j & Hx & _). cbn in Hx.
    pose proof (distance_ge_dx p midCell) as H1.
    pose proof (distance_ge_dx midCell p) as H2.
    rewrite (distance_sym midCell p) in H2. cbn in H1, H2.
    destruct (Z_le_gt_dec i 0) as [Hi|Hi].
    - apply IZR_le in Hi. lra.
    - assert (Hi' : (1 <= i)%Z) by lia. apply IZR_le in Hi'. lra. }
  split; [exact H|].
  exact (astar_needs_lattice_point_near_goal origin midCell [] 100 H).
Defined.


(** ** Beyond the range of the exact solver *)




(** ** Prim adds a lightest edge at each step *)

Lemma primPick_min_fold (inMST : list bool) (key : list number)
  (l : list nat) :
  forall done st,
  pickMin inMST key done st ->
  pickMin inMST key (done ++ l) (fold_left (primPickStep inMST key) l st).
Proof.
  induction l as [|i l IH]; intros done st H.
  - now rewrite app_nil_r.
  - cbn [fold_left].
    replace (done ++ i :: l) with ((done ++ [i]) ++ l)
      by (rewrite <- app_assoc; reflexivity).
    apply IH. destruct st as [[u|] m]; unfold primPickStep; cbn [pickMin] in *.
    + destruct H as (Hu & Hnu & Hm & Hfin & Hmin).
      destruct (nth i inMST false) eqn:Ei; cbn [negb andb].
      * split; [apply in_or_app; now left|]. repeat split; auto.
        intros j Hj Hnj. apply in_app_or in Hj.
        destruct Hj as [Hj|[<-|[]]]; [auto|congruence].
      * destruct (nltb (nth i key Infinity) m) eqn:Hlt.
        -- split; [apply in_or_app; right; now left|].
           split; [exact Ei|]. split; [reflexivity|]. split.
           ++ intros E. rewrite E in Hlt. destruct m; discriminate.
           ++ intros j Hj Hnj. apply in_app_or in Hj.
              destruct Hj as [Hj|[<-|[]]]; [|apply nle_refl].
              eapply nle_trans; [apply nltb_true_nle; exact Hlt|auto].
        -- split; [apply in_or_app; now left|]. repeat split; auto.
           intros j Hj Hnj. apply in_app_or in Hj.
           destruct Hj as [Hj|[<-|[]]]; [auto|].
           now apply nltb_false_nle.
    + destruct H as (-> & Hall).
      destruct (nth i inMST false) eqn:Ei; cbn [negb andb].
      * split; [reflexivity|]. intros j Hj. apply in_app_or in Hj.
        destruct Hj as [Hj|[<-|[]]]; [auto|now left].
      * destruct (nltb (nth i key Infinity) Infinity) eqn:Hlt.
        -- split; [apply in_or_app; right; now left|].
           split; [exact Ei|]. split; [reflexivity|]. split.
           ++ intros E. rewrite E in Hlt. discriminate.
           ++ intros j Hj Hnj. apply in_app_or in Hj.
              destruct Hj as [Hj|[<-|[]]]; [|apply nle_refl].
              destruct (Hall j Hj) as [H|H]; [congruence|].
              rewrite H. now destruct (nth i key Infinity).
        -- split; [reflexivity|]. intros j Hj. apply in_app_or in Hj.
           destruct Hj as [Hj|[<-|[]]]; [auto|]. right.
           destruct (nth i key Infinity); [discriminate|reflexivity].
Qed.

Lemma primPick_min (n : nat) (inMST : list bool) (key : list number) :
  pickMin inMST key (seq 0 n) (primPick n inMST key).
Proof.
  apply (primPick_min_fold inMST key (seq 0 n) [] (None, Infinity)).
  split; [reflexivity|intros j []].
Qed.

Lemma primRelax_fold (points : list Point) (u : nat) (inMST : list bool)
  (key : list number) (parent : list (option nat)) (l : list nat) :
  let n := length points in
  forall key1 parent1,
  NoDup l -> (forall v, In v l -> (v < n)%nat) ->
  length key1 = n -> length parent1 = n ->
  (forall v, In v l -> nth v key1 Infinity = nth v key Infinity /\
                       nth v parent1 None = nth v parent None) ->
  let st := fold_left (primRelaxStep points u inMST) l (key1, parent1) in
  length (fst st) = n /\ length (snd st) = n /\
  forall v,
    (In v l -> (nth v (fst st) Infinity, nth v (snd st) None)
               = relaxed points u inMST key parent v) /\
    (~ In v l -> nth v (fst st) Infinity = nth v key1 Infinity /\
                 nth v (snd st) None = nth v parent1 None).
Proof.
  intros n. induction l as [|i l IH]; intros key1 parent1 Hnd Hr L1 L2 Horig.
  - cbn. repeat split; auto. intros [].
  - cbn [fold_left]. inversion Hnd as [|? ? Hni Hnd']; subst.
    assert (Hi : (i < n)%nat) by (apply Hr; now left).
    destruct (Horig i (or_introl eq_refl)) as [Ek Ep].
    set (st1 := primRelaxStep points u inMST (key1, parent1) i).
    assert (Hst1 : length (fst st1) = n /\ length (snd st1) = n /\
              (nth i (fst st1) Infinity, nth i (snd st1) None)
              = relaxed points u inMST key parent i /\
              forall v, v <> i ->
                nth v (fst st1) Infinity = nth v key1 Infinity /\
                nth v (snd st1) None = nth v parent1 None).
    { unfold st1, primRelaxStep, relaxed. rewrite Ek.
      destruct (nth i inMST false); cbn [negb andb fst snd];
        [rewrite <- Ek, Ep; repeat split; auto|].
      destruct (nltb _ _); cbn [fst snd].
      - rewrite !upd_length, !nth_upd_eq by lia. repeat split; auto;
          rewrite nth_upd_neq by congruence; reflexivity.
      - rewrite <- Ek, Ep. repeat split; auto. }
    destruct Hst1 as (L1' & L2' & Hi1 & Hoth).
    destruct st1 as [key2 parent2] eqn:Est. cbn [fst snd] in *.
    destruct (IH key2 parent2 Hnd') as (M1 & M2 & Hall); auto.
    { intros v Hv. apply Hr. now right. }
    { intros v Hv. assert (v <> i) by (intros ->; contradiction).
      destruct (Hoth v H) as [-> ->]. apply Horig. now right. }
    split; [exact M1|]. split; [exact M2|]. intros v. split.
    + intros [<-|Hv].
      * destruct (Hall i) as [_ Hn]. destruct (Hn Hni) as [-> ->].
        exact Hi1.
      * now apply Hall.
    + intros Hnv. destruct (Hall v) as [_ Hn].
      destruct Hn as [-> ->]; [intros H; apply Hnv; now right|].
      apply Hoth. intros ->. apply Hnv. now left.
Qed.

Lemma primRelax_pointwise (points : list Point) (u : nat)
  (inMST : list bool) (key : list number) (parent : list (option nat)) :
  let n := length points in
  length key = n -> length parent = n ->
  let st := primRelax points u inMST (key, parent) in
  length (fst st) = n /\ length (snd st) = n /\
  forall v, (v < n)%nat ->
    (nth v (fst st) Infinity, nth v (snd st) None)
    = relaxed points u inMST key parent v.
Proof.
  intros n L1 L2 st.
  destruct (primRelax_fold points u inMST key parent (seq 0 n) key parent)
    as (M1 & M2 & H); auto.
  - apply seq_NoDup.
  - intros v Hv. apply in_seq in Hv. lia.
  - split; [exact M1|]. split; [exact M2|].
    intros v Hv. apply H, in_seq. lia.
Qed.

Lemma nth_upd_bool (u v : nat) (inMST : list bool) :
  (u < length inMST)%nat ->
  nth v (upd u true inMST) false
  = if Nat.eq_dec v u then true else nth v inMST false.
Proof.
  intros Hu. destruct (Nat.eq_dec v u) as [->|Hne].
  - now apply nth_upd_eq.
  - now apply nth_upd_neq.
Qed.

Lemma relaxed_eq (points : list Point) (u : nat) (inMST : list bool)
  (key key' : list number) (parent parent' : list (option nat)) (v : nat) :
  (nth v key' Infinity, nth v parent' None)
  = relaxed points u inMST key parent v ->
  (nth v inMST false = true ->
   nth v key' Infinity = nth v key Infinity /\
   nth v parent' None = nth v parent None) /\
  (nth v inMST false = false ->
   forall k, nth v key Infinity = Fin k ->
     (distance (pt points u) (pt points v) < k /\
      nth v key' Infinity = Fin (distance (pt points u) (pt points v)) /\
      nth v parent' None = Some u) \/
     (k <= distance (pt points u) (pt points v) /\
      nth v key' Infinity = Fin k /\
      nth v parent' None = nth v parent None)) /\
  (nth v inMST false = false -> nth v key Infinity = Infinity ->
   nth v key' Infinity = Fin (distance (pt points u) (pt points v)) /\
   nth v parent' None = Some u).
Proof.
  unfold relaxed. intros E. split; [|split].
  - intros Hin. rewrite Hin in E. cbn in E. now injection E.
  - intros Hin k Hk. rewrite Hin, Hk in E. cbn [negb andb nltb] in E.
    destruct (Rltb _ k) eqn:Hlt.
    + apply Rltb_true in Hlt. injection E as -> ->. left. auto.
    + apply Rltb_false in Hlt. injection E as E1 ->. right.
      rewrite E1. auto.
  - intros Hin Hk. rewrite Hin, Hk in E. cbn in E. now injection E.
Qed.

Lemma primJ_step (points : list Point) (joined : list nat)
  (inMST : list bool) (key : list number) (parent : list (option nat)) :
  let n := length points in
  primJ points joined inMST key parent ->
  (length joined < n)%nat ->
  exists u m,
    primPick n inMST key = (Some u, m) /\
    primJ points (joined ++ [u]) (upd u true inMST)
      (fst (primRelax points u (upd u true inMST) (key, parent)))
      (snd (primRelax points u (upd u true inMST) (key, parent))).
Proof.
  intros n (L0 & L1 & L2 & Hnd & Hin & Hr & Hhd & Hkeys & Hord) Hlen.
  pose proof (primPick_min n inMST key) as Hpick.
  destruct joined as [|j0 js].
  - (* the first vertex is 0 *)
    destruct Hkeys as (-> & -> & ->). fold n in Hpick |- *.
    destruct (primPick n (repeat false n)
                (upd 0 (Fin 0) (repeat Infinity n))) as [[u|] m].
    + destruct Hpick as (Hu & _ & Hm & Hfin & _).
      assert (u = 0%nat).
      { destruct u as [|u]; [reflexivity|]. exfalso. apply Hfin.
        rewrite Hm, nth_upd_neq, nth_repeat by lia. reflexivity. }
      subst u. exists 0%nat, m. split; [reflexivity|].
      destruct (primRelax_pointwise points 0 (upd 0 true (repeat false n))
                  (upd 0 (Fin 0) (repeat Infinity n)) (repeat None n))
        as (M1 & M2 & Hpt); [now rewrite upd_length, repeat_length
                            |apply repeat_length|].
      fold n in M1, M2, Hpt.
      assert (Hb : forall v, nth v (upd 0 true (repeat false n)) false
                             = if Nat.eq_dec v 0 then true else false).
      { intros v. rewrite nth_upd_bool by (rewrite repeat_length; lia).
        destruct (Nat.eq_dec v 0); [reflexivity|apply nth_repeat]. }
      cbn [app]. repeat split.
      * now rewrite upd_length, repeat_length.
      * exact M1.
      * exact M2.
      * constructor; [intros []|constructor].
      * intros [<-|[]]. now rewrite Hb.
      * intros H. rewrite Hb in H. destruct (Nat.eq_dec v 0); [|discriminate].
        now left.
      * intros v [<-|[]]. lia.
      * intros v Hv Hnv. exists 0%nat.
        assert (v <> 0%nat) by (intros ->; apply Hnv; now left).
        destruct (relaxed_eq _ _ _ _ _ _ _ v (Hpt v Hv)) as (_ & _ & H3).
        destruct H3 as [E1 E2].
        { rewrite Hb. destruct (Nat.eq_dec v 0); [contradiction|reflexivity]. }
        { rewrite nth_upd_neq, nth_repeat by lia. reflexivity. }
        split; [exact E2|]. split; [now left|]. split; [exact E1|].
        intros w [<-|[]]. lra.
      * intros before v after E Hne. exfalso.
        destruct before as [|b [|? ?]]; [congruence| |]; cbn in E;
          injection E as _ E; destruct after; discriminate.
    + exfalso. destruct Hpick as [_ Hall].
      destruct (Hall 0%nat) as [H|H]; [apply in_seq; lia| |].
      * rewrite nth_repeat in H. discriminate.
      * rewrite nth_upd_eq in H by (rewrite repeat_length; lia).
        discriminate.
  - (* a lightest edge leaves the tree *)
    set (joined := j0 :: js) in *.
    assert (Hout : forall v, ~ In v joined <-> nth v inMST false = false).
    { intros v. rewrite Hin. destruct (nth v inMST false); split; congruence. }
    cbn [primKeys] in Hkeys. fold joined n in Hkeys.
    destruct (missing_index n joined Hnd Hlen) as (x & Hx & Hnx).
    destruct (primPick n inMST key) as [[u|] m].
    2:{ exfalso. destruct Hpick as [_ Hall].
        destruct (Hkeys x Hx Hnx) as (p & _ & _ & Hk & _).
        destruct (Hall x) as [H|H]; [apply in_seq; lia| |].
        - apply Hin in H. contradiction.
        - rewrite H in Hk. discriminate. }
    destruct Hpick as (Hu & Hnu & Hm & Hfin & Hmin).
    apply in_seq in Hu. assert (Hun : (u < n)%nat) by lia.
    apply Hout in Hnu.
    destruct (Hkeys u Hun Hnu) as (pu & Hpu & Hpin & Hku & Hpmin).
    assert (Hcut : cutEdge points joined pu u).
    { split; [exact Hpin|]. intros a b Ha Hb Hnb.
      destruct (Hkeys b Hb Hnb) as (pb & _ & _ & Hkb & Hbmin).
      specialize (Hmin b). rewrite Hm, Hku, Hkb in Hmin. cbn [nle] in Hmin.
      specialize (Hbmin a Ha).
      assert (distance (pt points pu) (pt points u)
              <= distance (pt points pb) (pt points b)).
      { apply Hmin; [apply in_seq; lia|now apply Hout]. }
      lra. }
    exists u, m. split; [reflexivity|].
    destruct (primRelax_pointwise points u (upd u true inMST) key parent
                L1 L2) as (M1 & M2 & Hpt).
    fold n in M1, M2, Hpt.
    assert (Hb : forall v, nth v (upd u true inMST) false
                           = if Nat.eq_dec v u then true
                             else nth v inMST false).
    { intros v. apply nth_upd_bool. lia. }
    repeat split.
    + now rewrite upd_length.
    + exact M1.
    + exact M2.
    + apply NoDup_rev in Hnd. rewrite <- (rev_involutive (joined ++ [u])).
      apply NoDup_rev. rewrite rev_app_distr. cbn [rev app].
      constructor; [rewrite <- in_rev; exact Hnu|exact Hnd].
    + intros H. rewrite Hb. destruct (Nat.eq_dec v u); [reflexivity|].
      apply in_app_or in H. destruct H as [H|[<-|[]]]; [|congruence].
      now apply Hin.
    + intros H. rewrite Hb in H. apply in_or_app.
      destruct (Nat.eq_dec v u) as [->|]; [right; now left|].
      left. now apply Hin.
    + intros v H. apply in_app_or in H. destruct H as [H|[<-|[]]]; auto.
    + intros _. exact (Hhd ltac:(discriminate)).
    + unfold primKeys. fold n.
      destruct (joined ++ [u]) as [|c0 cs] eqn:Ej;
        [destruct joined; discriminate|].
      rewrite <- Ej. intros v Hv Hnv.
      assert (Hnv1 : ~ In v joined)
        by (intros H; apply Hnv, in_or_app; now left).
      assert (Hvu : v <> u)
        by (intros ->; apply Hnv, in_or_app; right; now left).
      destruct (Hkeys v Hv Hnv1) as (pv & Hpv & Hpvin & Hkv & Hvmin).
      destruct (relaxed_eq _ _ _ _ _ _ _ v (Hpt v Hv)) as (_ & H2 & _).
      destruct (H2 ltac:(rewrite Hb; destruct (Nat.eq_dec v u);
                         [contradiction|now apply Hout]) _ Hkv)
        as [(Hlt & E1 & E2)|(Hge & E1 & E2)].
      * exists u. split; [exact E2|]. split; [apply in_or_app; right; now left|].
        split; [exact E1|]. intros w Hw. apply in_app_or in Hw.
        destruct Hw as [Hw|[<-|[]]]; [|lra].
        specialize (Hvmin w Hw). lra.
      * exists pv. split; [now rewrite E2|].
        split; [apply in_or_app; now left|]. split; [exact E1|].
        intros w Hw. apply in_app_or in Hw.
        destruct Hw as [Hw|[<-|[]]]; [auto|exact Hge].
    + intros before v after E Hne.
      assert (Hframe : forall w, In w (joined ++ [u]) -> (w < n)%nat ->
                nth w (snd (primRelax points u (upd u true inMST)
                              (key, parent))) None = nth w parent None).
      { intros w Hw Hwn.
        destruct (relaxed_eq _ _ _ _ _ _ _ w (Hpt w Hwn)) as (H1 & _).
        apply H1. rewrite Hb. destruct (Nat.eq_dec w u); [reflexivity|].
        apply in_app_or in Hw. destruct Hw as [Hw|[<-|[]]]; [|congruence].
        now apply Hin. }
      destruct after as [|a0 after0].
      * assert (E' : joined ++ [u] = before ++ [v]) by exact E.
        apply app_inj_tail in E'. destruct E' as [<- <-].
        exists pu. split; [|exact Hcut].
        rewrite Hframe; [exact Hpu|apply in_or_app; right; now left|exact Hun].
      * destruct (exists_last (l := a0 :: after0)) as (after' & z & Ez);
          [discriminate|].
        rewrite Ez in E.
        assert (E' : joined ++ [u] = (before ++ v :: after') ++ [z]).
        { rewrite E, <- app_assoc. reflexivity. }
        apply app_inj_tail in E'. destruct E' as [E1 _].
        destruct (Hord before v after' E1 Hne) as (p & Hp & Hc).
        exists p. split; [|exact Hc].
        assert (Hvj : In v joined)
          by (rewrite E1; apply in_or_app; right; now left).
        rewrite Hframe; [exact Hp|apply in_or_app; now left|now apply Hr].
Qed.

Lemma primLoop_cut (points : list Point) (k : nat) :
  let n := length points in
  forall joined inMST key parent,
  primJ points joined inMST key parent ->
  (k + length joined = n)%nat ->
  exists order,
    Permutation order (seq 0 n) /\
    (order <> [] -> hd_error order = Some 0%nat) /\
    primOrder points order (primLoop k points inMST key parent).
Proof.
  intros n. induction k as [|k IH]; intros joined inMST key parent HJ Hk.
  - exists joined. destruct HJ as (_ & _ & _ & Hnd & _ & Hr & Hhd & _ & Hord).
    split; [|split; [exact Hhd|exact Hord]].
    apply NoDup_Permutation_bis; [exact Hnd|rewrite length_seq; lia|].
    intros v Hv. apply in_seq. specialize (Hr v Hv). fold n in Hr. lia.
  - destruct (primJ_step points joined inMST key parent HJ) as (u & m & E & HJ');
      [fold n; lia|].
    cbn [primLoop]. fold n in E. fold n. rewrite E.
    destruct (primRelax points u (upd u true inMST) (key, parent))
      as [key' parent'] eqn:Er.
    cbn [fst snd] in HJ'.
    apply (IH (joined ++ [u])); [exact HJ'|].
    rewrite length_app. cbn [length]. lia.
Qed.

(** The order in which Prim's vertices join the tree, and the edges
    through which they do. *)
Lemma primMST_cut (points : list Point) :
  exists order,
    Permutation order (seq 0 (length points)) /\
    (order <> [] -> hd_error order = Some 0%nat) /\
    forall before v after, order = before ++ v :: after -> before <> [] ->
      exists p, In (p, v) (primMST points) /\ cutEdge points before p v.
Proof.
  set (n := length points).
  destruct (primLoop_cut points n [] (repeat false n)
              (upd 0 (Fin 0) (repeat Infinity n)) (repeat None n))
    as (order & Hp & Hhd & Hord).
  { unfold primJ. fold n. rewrite upd_length, !repeat_length.
    repeat split; try reflexivity.
    - constructor.
    - intros [].
    - intros H. rewrite nth_repeat in H. discriminate.
    - intros v [].
    - intros H. congruence.
    - intros before v after E. destruct before; discriminate. }
  { cbn [length]. lia. }
  exists order. split; [exact Hp|]. split; [exact Hhd|].
  intros before v after E Hne.
  destruct (Hord before v after E Hne) as (p & Hpar & Hc).
  exists p. split; [|exact Hc].
  assert (Hnd : NoDup order).
  { eapply Permutation_NoDup; [symmetry; exact Hp|apply seq_NoDup]. }
  assert (Hv : In v (seq 0 n)).
  { eapply Permutation_in; [exact Hp|]. rewrite E. apply in_or_app.
    right. now left. }
  apply in_seq in Hv.
  assert (Hv0 : v <> 0%nat).
  { intros ->. destruct before as [|b before]; [congruence|].
    rewrite E in Hhd, Hnd. cbn in Hhd.
    injection (Hhd ltac:(discriminate)) as ->.
    inversion Hnd as [|? ? Hni _]; subst. apply Hni, in_or_app.
    right. now left. }
  unfold primMST. fold n. apply in_flat_map. exists v.
  split; [apply in_seq; lia|].
  fold n in Hpar. rewrite Hpar. now left.
Qed.



(** ** Prim's tree is a minimum spanning tree *)

Lemma reach_trans (E : nat -> nat -> Prop) (u v w : nat) :
  reach E u v -> reach E v w -> reach E u w.
Proof.
  intros Huv Hvw. induction Hvw as [|w' w'' _ IH Hs]; [exact Huv|].
  eapply reach_step; [exact IH|exact Hs].
Qed.

Lemma reach_sym (E : nat -> nat -> Prop) (u v : nat) :
  (forall a b, E a b -> E b a) -> reach E u v -> reach E v u.
Proof.
  intros Hsym H. induction H as [|v w _ IH Hs]; [constructor|].
  eapply reach_trans; [|exact IH].
  eapply reach_step; [constructor|apply Hsym; exact Hs].
Qed.

Lemma reach_mono (E F : nat -> nat -> Prop) (u v : nat) :
  (forall a b, E a b -> F a b) -> reach E u v -> reach F u v.
Proof.
  intros Hsub H. induction H as [|v w _ IH Hs]; [constructor|].
  eapply reach_step; [exact IH|apply Hsub; exact Hs].
Qed.

Lemma joins_sym (H : list edge) (a b : nat) : joins H a b -> joins H b a.
Proof. unfold joins. tauto. Qed.

Lemma weight_nonneg (points : list Point) (H : list edge) :
  0 <= weight points H.
Proof.
  induction H as [|e H IH]; cbn; [lra|].
  pose proof (distance_nonneg (pt points (fst e)) (pt points (snd e))).
  unfold weight in IH. lra.
Qed.

Lemma weight_remove (points : list Point) (e : edge) (H : list edge) :
  In e H ->
  weight points (remove edge_eq_dec e H)
  + distance (pt points (fst e)) (pt points (snd e))
  <= weight points H.
Proof.
  induction H as [|h H IH]; intros Hin; [destruct Hin|].
  cbn [remove]. destruct (edge_eq_dec e h) as [<-|Hne].
  - change (weight points (e :: H))
      with (distance (pt points (fst e)) (pt points (snd e))
            + weight points H).
    destruct (in_dec edge_eq_dec e H) as [Hi|Hi].
    + specialize (IH Hi).
      pose proof (distance_nonneg (pt points (fst e)) (pt points (snd e))).
      lra.
    + rewrite notin_remove by exact Hi. lra.
  - change (weight points (h :: remove edge_eq_dec e H))
      with (distance (pt points (fst h)) (pt points (snd h))
            + weight points (remove edge_eq_dec e H)).
    change (weight points (h :: H))
      with (distance (pt points (fst h)) (pt points (snd h))
            + weight points H).
    destruct Hin as [->|Hin]; [congruence|]. specialize (IH Hin). lra.
Qed.

(** Distinct edges that all occur in [H] weigh no more than [H]. *)
Lemma weight_incl (points : list Point) (T : list edge) :
  forall H, NoDup T -> incl T H -> weight points T <= weight points H.
Proof.
  induction T as [|e T IH]; intros H Hnd Hin.
  - apply weight_nonneg.
  - inversion Hnd as [|? ? Hne Hnd']; subst.
    change (weight points (e :: T))
      with (distance (pt points (fst e)) (pt points (snd e))
            + weight points T).
    pose proof (weight_remove points e H (Hin e (or_introl eq_refl))) as Hr.
    assert (IH' : weight points T
                  <= weight points (remove edge_eq_dec e H)).
    { apply IH; [exact Hnd'|]. intros x Hx. apply in_in_remove.
      - intros ->. contradiction.
      - apply Hin. now right. }
    lra.
Qed.

(** The exchange: an edge [(p, v)] that leaves the set [S] can take
    the place of an edge of [H] that leaves [S], and the vertices that
    [H] links stay linked. *)
Lemma exchange (H : list edge) (S : list nat) (p v : nat) :
  In p S -> ~ In v S -> reach (joins H) p v ->
  exists a b f,
    In f H /\ (f = (a, b) \/ f = (b, a)) /\ In a S /\ ~ In b S /\
    forall x y, reach (joins H) x y ->
                reach (joins ((p, v) :: remove edge_eq_dec f H)) x y.
Proof.
  intros Hp Hv Hpv.
  set (Ein := fun a b => joins H a b /\ In a S /\ In b S).
  set (X := reach Ein p).
  set (Eout := fun a b => joins H a b /\ ~ X a /\ ~ X b).
  assert (HXS : forall y, X y -> In y S).
  { intros y Hy. induction Hy as [|w z _ IH (_ & _ & Hz)]; auto. }
  assert (Hout : forall b y, ~ X b -> reach Eout b y -> ~ X y).
  { intros b y Hb Hy. induction Hy as [|w z _ IH (_ & _ & Hz)]; auto. }
  assert (Hsplit : forall y, reach (joins H) p y ->
            X y \/ exists a b, joins H a b /\ X a /\ ~ X b /\ reach Eout b y).
  { intros y Hy. induction Hy as [|w z _ IH Hs].
    - left. constructor.
    - destruct (Classical_Prop.classic (X z)) as [Hz|Hz]; [now left|right].
      destruct IH as [Hw|(a & b & Hab & Ha & Hb & Hbw)].
      + exists w, z. split; [exact Hs|]. split; [exact Hw|].
        split; [exact Hz|constructor].
      + exists a, b. split; [exact Hab|]. split; [exact Ha|].
        split; [exact Hb|].
        eapply reach_step; [exact Hbw|].
        split; [exact Hs|]. split; [|exact Hz].
        now apply (Hout b w). }
  destruct (Hsplit v Hpv) as [Hx|(a & b & Hab & Ha & Hb & Hbv)];
    [exfalso; apply Hv, HXS, Hx|].
  assert (Ha' : In a S) by now apply HXS.
  assert (Hb' : ~ In b S).
  { intros Hb'. apply Hb. eapply reach_step; [exact Ha|].
    split; [exact Hab|auto]. }
  assert (Hf : exists f, In f H /\ (f = (a, b) \/ f = (b, a))).
  { destruct Hab as [Hab|Hab]; eauto. }
  destruct Hf as (f & Hf & Hfab).
  exists a, b, f. split; [exact Hf|]. split; [exact Hfab|].
  split; [exact Ha'|]. split; [exact Hb'|].
  set (H' := (p, v) :: remove edge_eq_dec f H).
  assert (Hkeep : forall x y, joins H x y ->
            joins H' x y \/ (x = a /\ y = b) \/ (x = b /\ y = a)).
  { intros x y [Hxy|Hxy].
    - destruct (edge_eq_dec (x, y) f) as [E|E].
      + right. destruct Hfab as [->| ->]; injection E as -> ->; auto.
      + left. left. right. now apply in_in_remove.
    - destruct (edge_eq_dec (y, x) f) as [E|E].
      + right. destruct Hfab as [->| ->]; injection E as -> ->; auto.
      + left. right. right. now apply in_in_remove. }
  assert (Hin' : reach (joins H') p a).
  { apply (reach_mono Ein); [|exact Ha].
    intros x y (Hxy & Hx & Hy).
    destruct (Hkeep x y Hxy) as [K|[[-> ->]|[-> ->]]];
      [exact K|contradiction|contradiction]. }
  assert (Hout' : reach (joins H') b v).
  { apply (reach_mono Eout); [|exact Hbv].
    intros x y (Hxy & Hx & Hy).
    destruct (Hkeep x y Hxy) as [K|[[-> ->]|[-> ->]]];
      [exact K|contradiction|contradiction]. }
  assert (Hab' : reach (joins H') a b).
  { eapply reach_trans; [apply reach_sym; [apply joins_sym|exact Hin']|].
    eapply reach_trans; [|apply reach_sym; [apply joins_sym|exact Hout']].
    eapply reach_step; [constructor|]. left. now left. }
  intros x y Hxy. induction Hxy as [|y z _ IH Hs]; [constructor|].
  destruct (Hkeep y z Hs) as [K|[[-> ->]|[-> ->]]].
  - eapply reach_step; [exact IH|exact K].
  - eapply reach_trans; [exact IH|exact Hab'].
  - eapply reach_trans; [exact IH|].
    apply reach_sym; [apply joins_sym|exact Hab'].
Qed.

(** The children of the edges of Prim are the vertices from 1 on. *)
Lemma primMST_children (points : list Point) :
  map snd (primMST points) = seq 1 (length points - 1).
Proof.
  set (n := length points).
  destruct (prim_parents points) as [inMST Htree]. fold n in Htree.
  unfold primMST. fold n. apply flat_map_single.
  intros i Hi. apply in_seq in Hi.
  assert (Ht : tree inMST
            (primLoop n points (repeat false n)
               (upd 0 (Fin 0) (repeat Infinity n)) (repeat None n)) i)
    by (apply Htree; lia).
  inversion Ht as [|v p _ Hp _]; subst; [lia|].
  rewrite Hp. now exists (p, i).
Qed.

Lemma primMST_parent_unique (points : list Point) (a b c : nat) :
  In (a, c) (primMST points) -> In (b, c) (primMST points) -> a = b.
Proof.
  pose proof (primMST_children points) as Hc.
  assert (Hnd : NoDup (map snd (primMST points)))
    by (rewrite Hc; apply seq_NoDup).
  clear Hc. induction (primMST points) as [|[p i] T IH]; intros Ha Hb;
    [destruct Ha|].
  cbn [map snd] in Hnd. inversion Hnd as [|? ? Hni Hnd']; subst.
  destruct Ha as [Ea|Ha], Hb as [Eb|Hb].
  - congruence.
  - injection Ea as -> ->. exfalso. apply Hni.
    apply in_map_iff. now exists (b, c).
  - injection Eb as -> ->. exfalso. apply Hni.
    apply in_map_iff. now exists (a, c).
  - now apply IH.
Qed.

Lemma primMST_NoDup (points : list Point) : NoDup (primMST points).
Proof.
  apply (NoDup_map_inv snd). rewrite primMST_children. apply seq_NoDup.
Qed.

Lemma primMST_connects (points : list Point) :
  connects (length points) (primMST points).
Proof.
  destruct (primMST_spanning points) as [_ Hind].
  intros v Hv. apply (Hind (reach (joins (primMST points)) 0%nat));
    [constructor| |exact Hv].
  intros p i Hpi Hp. eapply reach_step; [exact Hp|]. now left.
Qed.

(** One exchange: the graph takes in the edge through which the next
    vertex joins Prim's tree, and gets no heavier. *)
Lemma mst_exchange_step (points : list Point) (order pre post : list nat)
  (v : nat) (H : list edge) :
  let n := length points in
  let T := primMST points in
  Permutation order (seq 0 n) ->
  (forall before w after, order = before ++ w :: after -> before <> [] ->
     exists p, In (p, w) T /\ cutEdge points before p w) ->
  order = pre ++ v :: post -> pre <> [] ->
  inRange n H -> connects n H ->
  (forall p w, In (p, w) T -> In w pre -> In p pre /\ In (p, w) H) ->
  exists H1,
    inRange n H1 /\ connects n H1 /\
    (forall p w, In (p, w) T -> In w (pre ++ [v]) ->
                 In p (pre ++ [v]) /\ In (p, w) H1) /\
    weight points H1 <= weight points H.
Proof.
  intros n T Hperm Hcut Eo Hne Hr Hc Hin.
  destruct (Hcut pre v post Eo Hne) as (p & HpT & Hp & Hmin).
  assert (Hnd : NoDup order).
  { eapply Permutation_NoDup; [symmetry; exact Hperm|apply seq_NoDup]. }
  assert (Hv : ~ In v pre).
  { rewrite Eo in Hnd. apply NoDup_remove_2 in Hnd.
    intros Hv. apply Hnd, in_or_app. now left. }
  assert (Hvn : (v < n)%nat).
  { assert (In v (seq 0 n)).
    { eapply Permutation_in; [exact Hperm|]. rewrite Eo. apply in_or_app.
      right. now left. }
    apply in_seq in H0. lia. }
  assert (Hpn : (p < n)%nat).
  { destruct (primMST_spanning points) as [HrT _].
    now destruct (HrT p v HpT). }
  assert (Hpv : reach (joins H) p v).
  { eapply reach_trans; [|apply Hc; exact Hvn].
    apply reach_sym; [apply joins_sym|apply Hc; exact Hpn]. }
  destruct (exchange H pre p v Hp Hv Hpv)
    as (a & b & f & Hf & Hfab & Ha & Hb & Hkeep).
  exists ((p, v) :: remove edge_eq_dec f H).
  assert (Hbn : (b < n)%nat).
  { destruct Hfab as [->| ->]; destruct (Hr _ _ Hf); assumption. }
  split; [|split; [|split]].
  - intros x y [E|Hxy]; [injection E as <- <-; auto|].
    apply in_remove in Hxy. destruct Hxy as [Hxy _]. now apply Hr.
  - intros w Hw. apply Hkeep, Hc, Hw.
  - intros q w HqT Hw. apply in_app_or in Hw.
    destruct Hw as [Hw|[<-|[]]].
    + destruct (Hin q w HqT Hw) as [Hq HqH].
      split; [apply in_or_app; now left|]. right.
      apply in_in_remove; [|exact HqH].
      intros E. destruct Hfab as [->| ->]; injection E as -> ->; contradiction.
    + assert (q = p) by (eapply primMST_parent_unique; eassumption).
      subst q. split; [apply in_or_app; now left|now left].
  - change (weight points ((p, v) :: remove edge_eq_dec f H))
      with (distance (pt points p) (pt points v)
            + weight points (remove edge_eq_dec f H)).
    pose proof (weight_remove points f H Hf) as Hw.
    specialize (Hmin a b Ha Hbn Hb).
    destruct Hfab as [->| ->]; cbn [fst snd] in Hw;
      [|rewrite (distance_sym (pt points b)) in Hw]; lra.
Qed.

Lemma mst_exchange_all (points : list Point) (order : list nat) :
  let n := length points in
  let T := primMST points in
  Permutation order (seq 0 n) ->
  (forall before w after, order = before ++ w :: after -> before <> [] ->
     exists p, In (p, w) T /\ cutEdge points before p w) ->
  forall post pre H,
  order = pre ++ post -> pre <> [] ->
  inRange n H -> connects n H ->
  (forall p w, In (p, w) T -> In w pre -> In p pre /\ In (p, w) H) ->
  exists H1,
    (forall p w, In (p, w) T -> In w order -> In (p, w) H1) /\
    weight points H1 <= weight points H.
Proof.
  intros n T Hperm Hcut. induction post as [|v post IH];
    intros pre H Eo Hne Hr Hc Hin.
  - rewrite app_nil_r in Eo. subst pre. exists H. split; [|lra].
    intros p w HpT Hw. now apply Hin.
  - destruct (mst_exchange_step points order pre post v H Hperm Hcut Eo Hne
                Hr Hc Hin) as (H1 & Hr1 & Hc1 & Hin1 & Hw1).
    destruct (IH (pre ++ [v]) H1) as (H2 & Hin2 & Hw2); auto.
    + rewrite Eo, <- app_assoc. reflexivity.
    + destruct pre; discriminate.
    + exists H2. split; [exact Hin2|]. fold n T in Hw1. lra.
Qed.

(** Prim's tree against the graphs that link every vertex to
    vertex 0. *)
Lemma prim_minimum (points : list Point) :
  let n := length points in
  inRange n (primMST points) /\
  connects n (primMST points) /\
  forall H, inRange n H -> connects n H ->
            weight points (primMST points) <= weight points H.
Proof.
  intros n.
  split; [exact (proj1 (primMST_spanning points))|].
  split; [apply primMST_connects|].
  intros H Hr Hc.
  destruct (primMST_cut points) as (order & Hperm & Hhd & Hcut).
  fold n in Hperm.
  destruct order as [|o rest].
  - (* no point at all *)
    apply Permutation_length in Hperm. rewrite length_seq in Hperm.
    cbn in Hperm.
    assert (E : primMST points = []).
    { apply length_zero_iff_nil.
      transitivity (length (map snd (primMST points)));
        [symmetry; apply length_map|].
      rewrite primMST_children, length_seq. fold n. lia. }
    rewrite E. apply weight_nonneg.
  - injection (Hhd ltac:(discriminate)) as ->.
    destruct (mst_exchange_all points (0%nat :: rest) Hperm Hcut rest
                [0%nat] H) as (H1 & Hin1 & Hw1); auto.
    + discriminate.
    + intros p w HpT [<-|[]]. exfalso.
      assert (Hs : In 0%nat (map snd (primMST points))).
      { apply in_map_iff. now exists (p, 0%nat). }
      rewrite primMST_children in Hs. apply in_seq in Hs. lia.
    + assert (weight points (primMST points) <= weight points H1).
      { apply weight_incl; [apply primMST_NoDup|].
        intros [p w] HpT. apply Hin1; [exact HpT|].
        eapply Permutation_in; [symmetry; exact Hperm|].
        destruct (primMST_spanning points) as [HrT _].
        apply in_seq. destruct (HrT p w HpT). fold n. lia. }
      lra.
Qed.

(** X24.  Prim returns a minimum spanning tree: its edges link every
    vertex to vertex 0, and their total length is at most the total
    length of any list of edges between the points that links every
    vertex to vertex 0. *)
Theorem prim_returns_minimum_spanning_tree (points : list Point) :
  let n := length points in
  inRange n (primMST points) /\
  connects n (primMST points) /\
  forall H, inRange n H -> connects n H ->
            weight points (primMST points) <= weight points H.
Proof.
  intros n. destruct (prim_minimum points) as (Hr & Hc & Hmin).
  split; [exact Hr|]. split; [exact Hc|exact Hmin].
Qed.


(** ** The spanning tree is a lower bound for tours *)

Lemma weight_chainEdges (points : list Point) (order : list nat) :
  weight points (chainEdges order) = routeLength (map (pt points) order).
Proof.
  induction order as [|a order IH]; [reflexivity|].
  destruct order as [|b order]; [reflexivity|].
  change (weight points (chainEdges (a :: b :: order)))
    with (distance (pt points a) (pt points b)
          + weight points (chainEdges (b :: order))).
  change (routeLength (map (pt points) (a :: b :: order)))
    with (distance (pt points a) (pt points b)
          + routeLength (map (pt points) (b :: order))).
  now rewrite IH.
Qed.

Lemma chainEdges_reach (l : list nat) :
  forall a v, In v (a :: l) -> reach (joins (chainEdges (a :: l))) a v.
Proof.
  induction l as [|b l IH]; intros a v Hv.
  - destruct Hv as [<-|[]]. constructor.
  - destruct Hv as [<-|Hv]; [constructor|].
    eapply reach_trans.
    + eapply reach_step; [constructor|]. left. now left.
    + apply (reach_mono (joins (chainEdges (b :: l)))); [|now apply IH].
      intros x y [H|H]; [left|right]; now right.
Qed.

Lemma chainEdges_range (l : list nat) (a b : nat) :
  In (a, b) (chainEdges l) -> In a l /\ In b l.
Proof.
  induction l as [|x l IH]; [intros []|].
  destruct l as [|y l]; [intros []|].
  intros [E|H].
  - injection E as <- <-. split; [now left|right; now left].
  - destruct (IH H). split; now right.
Qed.

Lemma routeLength_snoc_le (l : list Point) (p : Point) :
  routeLength l <= routeLength (l ++ [p]).
Proof.
  induction l as [|a l IH]; [cbn; lra|].
  destruct l as [|b l].
  - cbn. pose proof (distance_nonneg a p). lra.
  - change (routeLength (a :: b :: l))
      with (distance a b + routeLength (b :: l)).
    change (routeLength ((a :: b :: l) ++ [p]))
      with (distance a b + routeLength ((b :: l) ++ [p])).
    lra.
Qed.

(** A closed tour without its last leg links every point to the
    first, so it weighs at least as much as the spanning tree. *)
Lemma mst_below_tour (points tourPath : list Point) :
  closedTour points tourPath ->
  weight points (primMST points) <= routeLength tourPath.
Proof.
  intros (tour & Hp & Hh & ->).
  destruct points as [|p0 rest] eqn:Ep.
  - apply Permutation_sym, Permutation_nil in Hp. subst tour. cbn. lra.
  - rewrite <- Ep in *.
    destruct (tour_order points tour) as (order & Ho & Hho & ->);
      [rewrite Ep; discriminate|exact Hp|exact Hh|].
    eapply Rle_trans; [|apply routeLength_snoc_le].
    rewrite <- weight_chainEdges.
    apply (proj2 (proj2 (prim_minimum points))).
    + intros a b Hab. apply chainEdges_range in Hab. destruct Hab as [Ha Hb].
      apply (Permutation_in _ Ho), in_seq in Ha.
      apply (Permutation_in _ Ho), in_seq in Hb. lia.
    + intros v Hv. destruct order as [|o order]; [discriminate|].
      injection Hho as ->. apply chainEdges_reach.
      eapply Permutation_in; [symmetry; exact Ho|]. apply in_seq. lia.
Qed.

(** X25.  The spanning tree of Prim is a lower bound for tours: its
    total length is at most the length of every closed tour through the
    points. *)
Theorem spanning_tree_is_at_most_any_tour (points tourPath : list Point) :
  closedTour points tourPath ->
  weight points (primMST points) <= routeLength tourPath.
Proof.
  intros Htour. destruct Htour as (tour & Hp & Hh & ->).
  apply (mst_below_tour points (tour ++ [pt points 0])).
  exists tour. split; [exact Hp|]. split; [exact Hh|reflexivity].
Qed.


Lemma spanning_tree_is_at_most_any_tour_on_three_stops :
  closedTour threeStops (threeStops ++ [manhattanHub]) /\
  weight threeStops (primMST threeStops)
  <= routeLength (threeStops ++ [manhattanHub]).
Proof.
  assert (H : closedTour threeStops (threeStops ++ [manhattanHub])).
  { exists threeStops. split; [reflexivity|]. split; reflexivity. }
  split; [exact H|].
  exact (spanning_tree_is_at_most_any_tour threeStops _ H).
Defined.


(** ** Hierholzer's tour is an Eulerian circuit *)

Lemma links_app (E1 E2 : list edge) (u v : nat) :
  links (E1 ++ E2) u v = (links E1 u v + links E2 u v)%nat.
Proof. unfold links, nbrs. rewrite flat_map_app. apply count_occ_app. Qed.

Lemma links_cons (e : edge) (E : list edge) (u v : nat) :
  links (e :: E) u v
  = (count_occ Nat.eq_dec (ends e u) v + links E u v)%nat.
Proof. unfold links, nbrs. cbn [flat_map]. apply count_occ_app. Qed.

Lemma links_nil (u v : nat) : links [] u v = 0%nat.
Proof. reflexivity. Qed.

Lemma ends_count (a b u v : nat) :
  count_occ Nat.eq_dec (ends (a, b) u) v
  = ((if Nat.eqb a u && Nat.eqb b v then 1 else 0)
     + (if Nat.eqb b u && Nat.eqb a v then 1 else 0))%nat.
Proof.
  unfold ends. cbn [fst snd]. rewrite count_occ_app.
  destruct (Nat.eqb_spec a u), (Nat.eqb_spec b u); cbn [count_occ andb];
    repeat match goal with
    | |- context [Nat.eq_dec ?x ?y] => destruct (Nat.eq_dec x y)
    | |- context [Nat.eqb ?x ?y] => destruct (Nat.eqb_spec x y)
    end; subst; try lia; congruence.
Qed.

Lemma ends_flip (a b u v : nat) :
  count_occ Nat.eq_dec (ends (a, b) u) v
  = count_occ Nat.eq_dec (ends (b, a) u) v.
Proof. rewrite !ends_count. lia. Qed.

Lemma links_sym (E : list edge) (u v : nat) : links E u v = links E v u.
Proof.
  induction E as [|[a b] E IH]; [reflexivity|].
  rewrite !links_cons, IH, !ends_count.
  destruct (Nat.eqb_spec a u), (Nat.eqb_spec b v), (Nat.eqb_spec b u),
    (Nat.eqb_spec a v); cbn [andb]; subst; lia.
Qed.

Lemma links_loop_even (E : list edge) (u : nat) :
  Nat.even (links E u u) = true.
Proof.
  induction E as [|[a b] E IH]; [reflexivity|].
  rewrite links_cons, Nat.even_add, IH, ends_count.
  destruct (Nat.eqb_spec a u), (Nat.eqb_spec b u); reflexivity.
Qed.

Lemma chainEdges_cons (a b : nat) (l : list nat) :
  chainEdges (a :: b :: l) = (a, b) :: chainEdges (b :: l).
Proof. reflexivity. Qed.

Lemma chainEdges_snoc (l : list nat) (b : nat) :
  l <> [] -> chainEdges (l ++ [b]) = chainEdges l ++ [(last l 0%nat, b)].
Proof.
  induction l as [|x l IH]; intros Hne; [congruence|].
  destruct l as [|y l]; [reflexivity|].
  change (chainEdges ((x :: y :: l) ++ [b]))
    with ((x, y) :: chainEdges ((y :: l) ++ [b])).
  rewrite IH by discriminate. reflexivity.
Qed.

Lemma count_removelast (l : list nat) (v : nat) :
  l <> [] ->
  (count_occ Nat.eq_dec (removelast l) v
   + (if Nat.eqb (last l 0%nat) v then 1 else 0)
   = count_occ Nat.eq_dec l v)%nat.
Proof.
  intros Hne. destruct (exists_last Hne) as (l' & z & ->).
  rewrite removelast_last, last_last, count_occ_app. cbn [count_occ].
  destruct (Nat.eqb_spec z v), (Nat.eq_dec z v); lia || congruence.
Qed.

Lemma count_spliceFirst (x : nat) (l : list nat) (v : nat) :
  In x l ->
  (count_occ Nat.eq_dec (spliceFirst x l) v
   + (if Nat.eqb x v then 1 else 0)
   = count_occ Nat.eq_dec l v)%nat.
Proof.
  induction l as [|h t IH]; intros Hin; [destruct Hin|].
  cbn [spliceFirst]. destruct (Nat.eqb_spec h x) as [->|Hne].
  - cbn [count_occ]. destruct (Nat.eq_dec x v), (Nat.eqb_spec x v);
      lia || congruence.
  - destruct Hin as [->|Hin]; [congruence|]. specialize (IH Hin).
    cbn [count_occ]. destruct (Nat.eq_dec h v); lia.
Qed.

(** The number of edge ends of a trail at a vertex is odd exactly when
    the vertex is one end of the trail and not the other. *)
Lemma chain_parity (l : list nat) (u : nat) :
  l <> [] ->
  Nat.even (length (nbrs (chainEdges l) u))
  = Bool.eqb (Nat.eqb (hd 0%nat l) u) (Nat.eqb (last l 0%nat) u).
Proof.
  induction l as [|a l IH]; intros Hne; [congruence|].
  destruct l as [|b l].
  - cbn. now destruct (Nat.eqb a u).
  - rewrite chainEdges_cons. unfold nbrs. cbn [flat_map].
    fold (nbrs (chainEdges (b :: l)) u).
    rewrite length_app, Nat.even_add, IH by discriminate.
    change (last (a :: b :: l) 0%nat) with (last (b :: l) 0%nat).
    unfold ends. cbn [fst snd hd].
    destruct (Nat.eqb a u), (Nat.eqb b u), (Nat.eqb (last (b :: l) 0%nat) u);
      reflexivity.
Qed.

Lemma junction_parity (c : nat) (tour : list nat) (u : nat) :
  Nat.even (length (nbrs (junction (Some c) tour) u))
  = Bool.eqb (Nat.eqb c u) (Nat.eqb (last tour 0%nat) u).
Proof.
  unfold junction, nbrs, ends. cbn [flat_map fst snd]. rewrite app_nil_r.
  destruct (Nat.eqb c u), (Nat.eqb (last tour 0%nat) u); reflexivity.
Qed.

Lemma nbrs_app (E1 E2 : list edge) (u : nat) :
  nbrs (E1 ++ E2) u = nbrs E1 u ++ nbrs E2 u.
Proof. unfold nbrs. apply flat_map_app. Qed.

(** Equal counts of links mean the same neighbours. *)
Lemma links_perm (E1 E2 : list edge) (u : nat) :
  (forall v, links E1 u v = links E2 u v) ->
  Permutation (nbrs E1 u) (nbrs E2 u).
Proof.
  intros H. apply (Permutation_count_occ Nat.eq_dec). exact H.
Qed.

Lemma length_nbrs_app (E1 E2 : list edge) (u : nat) :
  length (nbrs (E1 ++ E2) u)
  = (length (nbrs E1 u) + length (nbrs E2 u))%nat.
Proof. now rewrite nbrs_app, length_app. Qed.

(** With even degrees, the vertex on top of the stack that has no
    edge left is the vertex under which the last popped vertex lay
    (vertex 0 when nothing was popped). *)
Lemma trail_stuck (edges : list edge) (adj : adjacency) (top : nat)
  (below tour : list nat) (c : option nat) :
  (forall u, Nat.even (length (nbrs edges u)) = true) ->
  trailInv edges adj (top :: below) tour c ->
  adjL adj top = [] ->
  match tour with
  | [] => top = 0%nat
  | _ :: _ => c = Some top
  end.
Proof.
  intros Hev [Hc Hb Hs Hj] Hstuck.
  assert (Hp : Permutation (nbrs (usedEdges (top :: below) tour c) top)
                 (nbrs edges top)).
  { apply links_perm. intros v. rewrite <- (Hc top v), Hstuck. cbn. lia. }
  apply Permutation_length in Hp.
  pose proof (Hev top) as He. rewrite <- Hp in He. clear Hp.
  unfold usedEdges in He. rewrite !length_nbrs_app, !Nat.even_add in He.
  rewrite chain_parity in He by discriminate. rewrite Hb in He.
  cbn [hd] in He. rewrite Nat.eqb_refl in He.
  destruct tour as [|t1 ts].
  - assert (c = None) by (apply Hj; now left). subst c. cbn in He.
    destruct top as [|k]; [reflexivity|discriminate He].
  - destruct c as [c0|].
    2:{ destruct (proj1 Hj eq_refl) as [H|H]; discriminate H. }
    specialize (Hs ltac:(discriminate)). injection Hs as ->.
    rewrite chain_parity, junction_parity in He by discriminate.
    cbn [hd] in He. f_equal. apply Nat.eqb_eq.
    destruct (Nat.eqb 0 top), (Nat.eqb c0 top),
      (Nat.eqb (last (0%nat :: ts) 0%nat) top); try reflexivity;
      discriminate He.
Qed.

Ltac links_norm :=
  change (chainEdges []) with (@nil edge);
  repeat match goal with
  | |- context [chainEdges [?a]] => change (chainEdges [a]) with (@nil edge)
  end;
  repeat first [rewrite links_app | rewrite links_cons | rewrite links_nil];
  unfold edge.

(** Hierholzer: popping the top of the stack keeps the account of the
    edges. *)
Lemma trailInv_pop (edges : list edge) (adj : adjacency) (top : nat)
  (below tour : list nat) (c : option nat) :
  (forall u, Nat.even (length (nbrs edges u)) = true) ->
  trailInv edges adj (top :: below) tour c ->
  adjL adj top = [] ->
  trailInv edges adj below (tour ++ [top])
    (match below with [] => None | b :: _ => Some b end).
Proof.
  intros Hev Hinv Hstuck.
  pose proof (trail_stuck edges adj top below tour c Hev Hinv Hstuck) as Hk.
  destruct Hinv as [Hc Hb Hs Hj]. constructor.
  - intros u v. rewrite <- (Hc u v). f_equal. unfold usedEdges.
    destruct tour as [|t1 ts].
    + assert (c = None) by (apply Hj; now left). subst c top.
      destruct below as [|b bs]; [reflexivity|].
      rewrite chainEdges_cons. cbn [app junction last].
      links_norm. rewrite (ends_flip b 0). lia.
    + subst c. rewrite chainEdges_snoc by discriminate.
      destruct below as [|b bs].
      * cbn [junction app]. links_norm.
        rewrite (ends_flip top). lia.
      * rewrite chainEdges_cons. cbn [junction]. rewrite last_last.
        links_norm.
        rewrite (ends_flip top b), (ends_flip top (last (t1 :: ts) 0%nat)).
        lia.
  - destruct below as [|b bs]; [reflexivity|exact Hb].
  - intros _. destruct tour as [|t1 ts].
    + subst top. reflexivity.
    + apply Hs. discriminate.
  - destruct below as [|b bs].
    + split; auto.
    + split; [discriminate|]. intros [H|H]; [|discriminate H].
      now destruct tour.
Qed.

(** Hierholzer: what is left of the adjacency lists is symmetric, and
    holds each loop twice. *)
Lemma trail_left_sym (edges : list edge) (adj : adjacency)
  (stack tour : list nat) (c : option nat) (a b : nat) :
  trailInv edges adj stack tour c ->
  count_occ Nat.eq_dec (adjL adj a) b = count_occ Nat.eq_dec (adjL adj b) a.
Proof.
  intros [Hc _ _ _]. pose proof (Hc a b) as H1. pose proof (Hc b a) as H2.
  rewrite (links_sym _ a b) in H1. rewrite (links_sym edges a b) in H1. lia.
Qed.

Lemma trail_left_loops (edges : list edge) (adj : adjacency)
  (stack tour : list nat) (c : option nat) (a : nat) :
  trailInv edges adj stack tour c ->
  Nat.even (count_occ Nat.eq_dec (adjL adj a) a) = true.
Proof.
  intros [Hc _ _ _]. pose proof (Hc a a) as H.
  pose proof (links_loop_even edges a) as He. rewrite <- H in He.
  rewrite Nat.even_add, links_loop_even in He.
  now destruct (Nat.even (count_occ Nat.eq_dec (adjL adj a) a)).
Qed.

(** Hierholzer: taking the last edge of the top of the stack keeps the
    account of the edges. *)
Lemma trailInv_push (edges : list edge) (adj : adjacency) (top : nat)
  (below tour : list nat) (c : option nat) (nb other : list nat) :
  trailInv edges adj (top :: below) tour c ->
  adj top = Some nb -> nb <> [] ->
  let next := last nb 0%nat in
  let adj1 := adjSet adj top (removelast nb) in
  adj1 next = Some other ->
  trailInv edges (adjSet adj1 next (spliceFirst top other))
    (next :: top :: below) tour c.
Proof.
  intros Hinv Hnb Hne next adj1 Ho.
  pose proof (fun a b => trail_left_sym edges adj _ _ _ a b Hinv) as Hsym.
  pose proof (fun a => trail_left_loops edges adj _ _ _ a Hinv) as Hloop.
  assert (HnbL : adjL adj top = nb) by (unfold adjL; now rewrite Hnb).
  assert (Hlast : In next nb).
  { unfold next. destruct (exists_last Hne) as (l' & z & ->).
    rewrite last_last. apply in_or_app. right. now left. }
  destruct Hinv as [Hc Hb Hs Hj]. constructor.
  - intros u v. rewrite <- (Hc u v). unfold usedEdges.
    rewrite chainEdges_cons. cbn [app].
    rewrite (links_cons _ _ u v), ends_count.
    set (old := links (chainEdges (top :: below) ++ _) u v).
    enough (((if Nat.eqb next u && Nat.eqb top v then 1 else 0)
             + (if Nat.eqb top u && Nat.eqb next v then 1 else 0)
             + count_occ Nat.eq_dec
                 (adjL (adjSet adj1 next (spliceFirst top other)) u) v
             = count_occ Nat.eq_dec (adjL adj u) v)%nat) by lia.
    clear old. unfold adj1 in *. unfold adjL at 1. unfold adjSet in *.
    pose proof (count_removelast nb v Hne) as Hrl. fold next in Hrl.
    destruct (Nat.eqb_spec next top) as [Ent|Hnt].
    + (* a loop at the top *)
      injection Ho as <-.
      assert (Hin : In top (removelast nb)).
      { specialize (Hloop top). rewrite HnbL in Hloop.
        pose proof (count_removelast nb top Hne) as H2. fold next in H2.
        rewrite Ent, Nat.eqb_refl in H2.
        apply (count_occ_In Nat.eq_dec).
        destruct (count_occ Nat.eq_dec (removelast nb) top) as [|k];
          [|lia].
        rewrite <- H2 in Hloop. discriminate Hloop. }
      pose proof (count_spliceFirst top (removelast nb) v Hin) as Hsp.
      rewrite Ent in *.
      destruct (Nat.eqb_spec u top) as [->|Hut].
      * rewrite Nat.eqb_refl, HnbL. cbn [andb].
        destruct (Nat.eqb top v); lia.
      * destruct (Nat.eqb_spec top u); [congruence|]. cbn [andb].
        reflexivity.
    + destruct (Nat.eqb_spec u next) as [->|Hun].
      * assert (HoL : adjL adj next = other) by (unfold adjL; now rewrite Ho).
        assert (Hin : In top other).
        { apply (count_occ_In Nat.eq_dec). rewrite <- HoL, Hsym, HnbL.
          now apply count_occ_In. }
        pose proof (count_spliceFirst top other v Hin) as Hsp.
        rewrite Nat.eqb_refl, HoL.
        destruct (Nat.eqb_spec top next); [congruence|]. cbn [andb].
        destruct (Nat.eqb top v); lia.
      * destruct (Nat.eqb_spec next u); [congruence|]. cbn [andb].
        destruct (Nat.eqb_spec u top) as [->|Hut].
        -- rewrite Nat.eqb_refl, HnbL. cbn [andb].
           destruct (Nat.eqb next v); lia.
        -- destruct (Nat.eqb_spec top u); [congruence|]. cbn [andb].
           reflexivity.
  - exact Hb.
  - exact Hs.
  - rewrite Hj. split; (intros [H|H]; [now left|discriminate H]).
Qed.

(** Hierholzer's loop, with even degrees: it ends with the stack empty
    and every edge accounted for. *)
Lemma eulerLoop_trail (n : nat) (adj0 : adjacency) (edges : list edge) :
  (forall u, Nat.even (length (nbrs edges u)) = true) ->
  forall k adj stack tour c,
  eulerInv n adj0 adj stack tour ->
  trailInv edges adj stack tour c ->
  (2 * total n adj + length stack <= k)%nat ->
  exists adj' tour',
    eulerLoop k adj stack tour = inr tour' /\
    eulerInv n adj0 adj' [] tour' /\
    trailInv edges adj' [] tour' None.
Proof.
  intros Hev.
  assert (Hend : forall adj tour c,
    eulerInv n adj0 adj [] tour -> trailInv edges adj [] tour c ->
    forall k, exists adj' tour',
      eulerLoop k adj [] tour = inr tour' /\
      eulerInv n adj0 adj' [] tour' /\
      trailInv edges adj' [] tour' None).
  { intros adj tour c Hinv Ht k. exists adj, tour.
    assert (c = None) by (apply (trailJoin _ _ _ _ _ Ht); now right).
    subst c. split; [now destruct k|]. split; assumption. }
  induction k as [|k IH]; intros adj stack tour c Hinv Ht Hk.
  - destruct stack as [|curr rest]; [|simpl in Hk; lia].
    now apply (Hend adj tour c).
  - destruct stack as [|curr rest]; [now apply (Hend adj tour c)|].
    simpl in Hk. cbn [eulerLoop].
    destruct (adj curr) as [[|n0 ns]|] eqn:Hc.
    + eapply IH; [| |lia].
      * apply eulerInv_pop; [exact Hinv|].
        intros w (l & Hl & Hw). rewrite Hc in Hl. injection Hl as <-.
        destruct Hw.
      * apply (trailInv_pop edges adj curr rest tour c Hev Ht).
        unfold adjL. now rewrite Hc.
    + destruct (eulerInv_push n adj0 adj curr rest tour (n0 :: ns) Hinv Hc)
        as (other & Ho & Hinv' & Hlt); [discriminate|].
      rewrite Ho. eapply IH; [exact Hinv'| |cbn [length]; lia].
      apply (trailInv_push edges adj curr rest tour c (n0 :: ns) other Ht Hc);
        [discriminate|exact Ho].
    + eapply IH; [| |lia].
      * apply eulerInv_pop; [exact Hinv|].
        intros w (l & Hl & Hw). rewrite Hc in Hl. discriminate.
      * apply (trailInv_pop edges adj curr rest tour c Hev Ht).
        unfold adjL. now rewrite Hc.
Qed.

Lemma adjL_init (adj : adjacency) (k u : nat) :
  adjL (adjInit adj k) u = adjL adj u.
Proof.
  unfold adjL, adjInit, adjSet. destruct (adj k) eqn:E; [reflexivity|].
  destruct (Nat.eqb_spec u k) as [->|H]; [now rewrite E|reflexivity].
Qed.

Lemma adjInit_some (adj : adjacency) (k j : nat) :
  j = k \/ adj j <> None -> adjInit adj k j <> None.
Proof.
  unfold adjInit, adjSet. intros H. destruct (adj k) eqn:E.
  - destruct H as [->|H]; congruence.
  - destruct (Nat.eqb_spec j k); [discriminate|]. tauto.
Qed.

Lemma adjL_push (adj : adjacency) (k w u : nat) :
  adj k <> None ->
  adjL (adjPush adj k w) u
  = adjL adj u ++ (if Nat.eqb k u then [w] else []).
Proof.
  unfold adjL, adjPush, adjSet. intros H.
  destruct (adj k) as [l|] eqn:E; [|congruence].
  destruct (Nat.eqb_spec u k) as [->|Hu].
  - now rewrite Nat.eqb_refl, E.
  - destruct (Nat.eqb_spec k u); [congruence|]. now rewrite app_nil_r.
Qed.

Lemma adjPush_some (adj : adjacency) (k w j : nat) :
  adj j <> None -> adjPush adj k w j <> None.
Proof.
  unfold adjPush, adjSet. intros H. destruct (adj k); [|exact H].
  destruct (Nat.eqb j k); [discriminate|exact H].
Qed.

Lemma buildAdjStep_links (adj : adjacency) (a b u v : nat) :
  count_occ Nat.eq_dec (adjL (buildAdjStep adj (a, b)) u) v
  = (count_occ Nat.eq_dec (adjL adj u) v
     + count_occ Nat.eq_dec (ends (a, b) u) v)%nat.
Proof.
  unfold buildAdjStep.
  rewrite adjL_push.
  2:{ apply adjPush_some, adjInit_some. now left. }
  rewrite adjL_push.
  2:{ apply adjInit_some. right. apply adjInit_some. now left. }
  rewrite !adjL_init. unfold ends. cbn [fst snd].
  rewrite !count_occ_app. lia.
Qed.

Lemma buildAdj_links (edges : list edge) (u v : nat) :
  count_occ Nat.eq_dec (adjL (buildAdj edges) u) v = links edges u v.
Proof.
  unfold buildAdj.
  enough (H : forall l adj,
    count_occ Nat.eq_dec (adjL (fold_left buildAdjStep l adj) u) v
    = (count_occ Nat.eq_dec (adjL adj u) v + links l u v)%nat)
    by (rewrite H; reflexivity).
  induction l as [|[a b] l IH]; intros adj.
  - cbn [fold_left]. rewrite links_nil. lia.
  - cbn [fold_left]. rewrite IH, buildAdjStep_links, links_cons. lia.
Qed.

Lemma ends_In (a b u v : nat) :
  In v (ends (a, b) u) <-> (a = u /\ b = v) \/ (b = u /\ a = v).
Proof.
  unfold ends. cbn [fst snd]. rewrite in_app_iff.
  destruct (Nat.eqb_spec a u), (Nat.eqb_spec b u); cbn [In]; intuition.
Qed.

Lemma links_joins (E : list edge) (u v : nat) :
  (0 < links E u v)%nat <-> joins E u v.
Proof.
  unfold links, joins, nbrs.
  change (0 < ?k)%nat with (k > 0)%nat.
  rewrite <- (count_occ_In Nat.eq_dec), in_flat_map. split.
  - intros ([a b] & He & Hv). apply ends_In in Hv.
    destruct Hv as [[-> ->]|[-> ->]]; auto.
  - intros [H|H].
    + exists (u, v). split; [exact H|]. apply ends_In. auto.
    + exists (v, u). split; [exact H|]. apply ends_In. auto.
Qed.

Lemma links_chain_rev (l : list nat) (u v : nat) :
  links (chainEdges (rev l)) u v = links (chainEdges l) u v.
Proof.
  induction l as [|a l IH]; [reflexivity|].
  destruct l as [|b l]; [reflexivity|].
  change (rev (a :: b :: l)) with (rev (b :: l) ++ [a]).
  rewrite chainEdges_snoc.
  2:{ cbn [rev]. now destruct (rev l). }
  assert (E : last (rev (b :: l)) 0%nat = b) by (cbn [rev]; apply last_last).
  rewrite E, links_app, IH, chainEdges_cons, !links_cons, links_nil.
  rewrite (ends_flip b a). lia.
Qed.

Lemma chainEdges_length (l : list nat) :
  length (chainEdges l) = Nat.pred (length l).
Proof.
  induction l as [|a l IH]; [reflexivity|].
  destruct l as [|b l]; [reflexivity|].
  rewrite chainEdges_cons. cbn [length] in *. now rewrite IH.
Qed.

(** The count of an undirected edge, from the links between its
    ends. *)
Lemma count_undirected (E : list edge) (a b : nat) :
  ((a < b)%nat ->
   count_occ edge_eq_dec (map undirected E) (a, b) = links E a b) /\
  (a = b ->
   (2 * count_occ edge_eq_dec (map undirected E) (a, b))%nat = links E a b) /\
  ((b < a)%nat -> count_occ edge_eq_dec (map undirected E) (a, b) = 0%nat).
Proof.
  induction E as [|[p q] E (IH1 & IH2 & IH3)].
  - rewrite links_nil. cbn. repeat split; auto.
  - cbn [map]. rewrite links_cons, ends_count.
    assert (Hu : undirected (p, q) = (a, b) <->
                 (Nat.min p q = a /\ Nat.max p q = b)).
    { unfold undirected. cbn [fst snd]. split.
      - intros H. injection H as <- <-. auto.
      - intros [<- <-]. reflexivity. }
    destruct (edge_eq_dec (undirected (p, q)) (a, b)) as [He|He].
    + rewrite (count_occ_cons_eq edge_eq_dec _ He).
      apply Hu in He.
      split; [|split]; intros Hab;
        [specialize (IH1 Hab)|specialize (IH2 Hab)|specialize (IH3 Hab)];
        destruct (Nat.eqb_spec p a), (Nat.eqb_spec q b), (Nat.eqb_spec q a),
          (Nat.eqb_spec p b); cbn [andb]; lia.
    + rewrite (count_occ_cons_neq edge_eq_dec _ He).
      assert (He' : ~ (Nat.min p q = a /\ Nat.max p q = b)) by tauto.
      split; [|split]; intros Hab;
        [specialize (IH1 Hab)|specialize (IH2 Hab)|specialize (IH3 Hab)];
        destruct (Nat.eqb_spec p a), (Nat.eqb_spec q b), (Nat.eqb_spec q a),
          (Nat.eqb_spec p b); cbn [andb]; try lia;
        exfalso; apply He'; lia.
Qed.

(** Two lists of edges with the same links hold the same undirected
    edges, each as often. *)
Lemma links_undirected (E1 E2 : list edge) :
  (forall u v, links E1 u v = links E2 u v) ->
  Permutation (map undirected E1) (map undirected E2).
Proof.
  intros H. apply (Permutation_count_occ edge_eq_dec). intros [a b].
  destruct (count_undirected E1 a b) as (A1 & A2 & A3).
  destruct (count_undirected E2 a b) as (B1 & B2 & B3).
  specialize (H a b).
  destruct (Nat.lt_trichotomy a b) as [Hlt|[Heq|Hgt]].
  - rewrite A1, B1 by exact Hlt. exact H.
  - specialize (A2 Heq). specialize (B2 Heq). lia.
  - rewrite A3, B3 by exact Hgt. reflexivity.
Qed.

Lemma degreeIn_nbrs (E : list edge) (u : nat) :
  length (nbrs E u) = degreeIn E u.
Proof.
  unfold degreeIn, endpoints, nbrs.
  induction E as [|[a b] E IH]; [reflexivity|].
  cbn [flat_map]. rewrite length_app, count_occ_app, IH. f_equal.
  unfold ends. cbn [fst snd count_occ]. rewrite length_app.
  destruct (Nat.eqb_spec a u), (Nat.eqb_spec b u), (Nat.eq_dec a u),
    (Nat.eq_dec b u); try congruence; reflexivity.
Qed.

Lemma edges_bound (edges : list edge) :
  exists n, (0 < n)%nat /\ inRange n edges.
Proof.
  induction edges as [|[a b] E (n & Hn & Hr)].
  - exists 1%nat. split; [lia|]. intros p i [].
  - exists (S (Nat.max n (Nat.max a b))). split; [lia|].
    intros p i [H|H].
    + injection H as <- <-. lia.
    + destruct (Hr p i H). lia.
Qed.

(** Hierholzer on a connected graph with even degrees: the tour is a
    circuit from vertex 0 along the edges, each taken once. *)
Lemma findEulerianTour_circuit (edges : list edge) (n0 : nat) :
  (forall v, Nat.even (degreeIn edges v) = true) ->
  (forall a b, In (a, b) edges -> reach (joins edges) 0%nat a) ->
  exists tour,
    findEulerianTour edges n0 = inr tour /\
    hd_error tour = Some 0%nat /\
    last tour 0%nat = 0%nat /\
    forall u v, links (chainEdges tour) u v = links edges u v.
Proof.
  intros Hev Hconn.
  destruct (edges_bound edges) as (n & Hn & Hr).
  destruct (buildAdj_spec n edges Hr) as (B1 & B2 & B3).
  unfold findEulerianTour.
  destruct (eulerLoop_trail n (buildAdj edges) edges) with
    (k := (4 * length edges + 2)%nat) (adj := buildAdj edges)
    (stack := [0%nat]) (tour := @nil nat) (c := @None nat)
    as (adj' & tour & Hloop & Hinv & Ht).
  { intros u. rewrite degreeIn_nbrs. apply Hev. }
  { constructor.
    - intros u v H. now left.
    - intros v w [].
    - intros u v Huv. apply B2. apply B1 in Huv. exists u. tauto.
    - intros v [<-|[]]. exact Hn.
    - intros u v Huv. apply B1 in Huv.
      destruct Huv as [H|H]; apply Hr in H; tauto.
    - reflexivity.
    - discriminate. }
  { constructor.
    - intros u v. rewrite buildAdj_links. reflexivity.
    - reflexivity.
    - congruence.
    - split; auto. }
  { rewrite B3. simpl. lia. }
  rewrite Hloop. exists (rev tour).
  destruct Hinv as [H1 H2 H3 H4 H5 H6 H7]. rewrite app_nil_r in H6, H7.
  destruct Ht as [Hc _ Hs _]. specialize (Hs H7).
  destruct tour as [|t0 ts]; [discriminate Hs|]. injection Hs as ->.
  split; [reflexivity|]. split; [|split].
  - rewrite hd_rev_last by exact H7. now rewrite H6.
  - cbn [rev]. apply last_last.
  - assert (Hin : forall u, reach (joins edges) 0%nat u -> In u (0%nat :: ts)).
    { intros u Hu. induction Hu as [|v w _ IH Hs]; [now left|].
      destruct (H1 v w) as [H|[_ H]].
      - apply B1. exact Hs.
      - exfalso. now apply (H2 v w).
      - exact H. }
    intros u v. rewrite links_chain_rev.
    specialize (Hc u v). unfold usedEdges in Hc.
    change (chainEdges []) with (@nil edge) in Hc.
    cbn [junction app] in Hc. rewrite app_nil_r in Hc.
    destruct (in_dec Nat.eq_dec u (0%nat :: ts)) as [Hu|Hu].
    + assert (E : count_occ Nat.eq_dec (adjL adj' u) v = 0%nat).
      { apply count_occ_not_In. intros Hv. apply (H2 u v Hu).
        unfold adjL in Hv. destruct (adj' u) as [l|] eqn:El; [|destruct Hv].
        exists l. auto. }
      lia.
    + assert (E : links edges u v = 0%nat).
      { destruct (links edges u v) as [|k] eqn:El; [reflexivity|].
        exfalso. apply Hu, Hin.
        assert (Hj : joins edges u v) by (apply links_joins; lia).
        destruct Hj as [Hj|Hj].
        - now apply (Hconn u v).
        - eapply reach_step; [apply (Hconn v u Hj)|]. now left. }
      lia.
Qed.

(** X26.  On a graph with an even number of edge ends at every vertex
    and every edge linked to vertex 0, Hierholzer's tour is an Eulerian
    circuit: it starts and ends at vertex 0, and its steps are the
    edges, each taken once, in one direction or the other. *)
Theorem eulerian_tour_is_circuit (edges : list edge) (n : nat) :
  (forall v, Nat.even (degreeIn edges v) = true) ->
  (forall a b, In (a, b) edges -> reach (joins edges) 0%nat a) ->
  exists tour,
    findEulerianTour edges n = inr tour /\
    hd_error tour = Some 0%nat /\
    last tour 0%nat = 0%nat /\
    length tour = S (length edges) /\
    Permutation (map undirected (chainEdges tour)) (map undirected edges).
Proof.
  intros Hev Hconn.
  destruct (findEulerianTour_circuit edges n Hev Hconn)
    as (tour & Ht & Hh & Hl & Hlinks).
  exists tour. split; [exact Ht|]. split; [exact Hh|]. split; [exact Hl|].
  pose proof (links_undirected _ _ Hlinks) as Hp.
  split; [|exact Hp].
  apply Permutation_length in Hp.
  rewrite !length_map, chainEdges_length in Hp.
  destruct tour as [|t0 ts]; [discriminate Hh|].
  cbn [length Nat.pred] in *. now rewrite Hp.
Qed.

Lemma eulerian_tour_is_circuit_on_triangle :
  (forall v, Nat.even (degreeIn triangleEdges v) = true) /\
  (forall a b, In (a, b) triangleEdges ->
               reach (joins triangleEdges) 0%nat a) /\
  exists tour,
    findEulerianTour triangleEdges 3 = inr tour /\
    hd_error tour = Some 0%nat /\
    last tour 0%nat = 0%nat /\
    length tour = S (length triangleEdges) /\
    Permutation (map undirected (chainEdges tour))
      (map undirected triangleEdges).
Proof.
  assert (H1 : forall v, Nat.even (degreeIn triangleEdges v) = true).
  { intros v. do 3 (destruct v as [|v]; [reflexivity|]). reflexivity. }
  assert (H2 : forall a b, In (a, b) triangleEdges ->
                           reach (joins triangleEdges) 0%nat a).
  { intros a b [H|[H|[H|[]]]]; injection H as <- <-.
    - constructor.
    - eapply reach_step; [constructor|]. left. now left.
    - eapply reach_step; [constructor|]. right. right. right. now left. }
  split; [exact H1|]. split; [exact H2|].
  exact (eulerian_tour_is_circuit triangleEdges 3 H1 H2).
Defined.


(** ** Christofides: the length of the tour *)

Lemma weight_app (points : list Point) (A B : list edge) :
  weight points (A ++ B) = weight points A + weight points B.
Proof.
  unfold weight. induction A as [|e A IH]; cbn [app fold_right]; [lra|].
  rewrite IH. lra.
Qed.

Lemma weight_undirected (points : list Point) (E : list edge) :
  weight points (map undirected E) = weight points E.
Proof.
  induction E as [|[a b] E IH]; [reflexivity|].
  cbn [map]. unfold weight in *. cbn [fold_right]. rewrite IH. f_equal.
  unfold undirected. cbn [fst snd].
  destruct (Nat.le_ge_cases a b) as [H|H].
  - now rewrite Nat.min_l, Nat.max_r.
  - rewrite Nat.min_r, Nat.max_l by exact H. apply distance_sym.
Qed.

Lemma weight_perm (points : list Point) (A B : list edge) :
  Permutation A B -> weight points A = weight points B.
Proof.
  intros H. unfold weight.
  induction H as [|e A B _ IH|e f A|A B C _ IH1 _ IH2]; cbn [fold_right].
  - reflexivity.
  - now rewrite IH.
  - lra.
  - now rewrite IH1.
Qed.

Lemma last_map {A B : Type} (f : A -> B) (l : list A) (d : A) :
  last (map f l) (f d) = f (last l d).
Proof.
  induction l as [|a l IH]; [reflexivity|].
  destruct l as [|b l]; [reflexivity|]. exact IH.
Qed.

(** Going to [r] instead of [q] at the end of a route costs at most the
    distance between the two. *)
Lemma routeLength_detour (path : list Point) (q r : Point) :
  routeLength (path ++ [r]) <= routeLength (path ++ [q]) + distance q r.
Proof.
  induction path as [|a path IH].
  - cbn. pose proof (distance_nonneg q r). lra.
  - destruct path as [|b path].
    + cbn. pose proof (distance_triangle a q r). lra.
    + change (routeLength ((a :: b :: path) ++ [r]))
        with (distance a b + routeLength ((b :: path) ++ [r])).
      change (routeLength ((a :: b :: path) ++ [q]))
        with (distance a b + routeLength ((b :: path) ++ [q])).
      lra.
Qed.

(** Shortcutting: the path that keeps the first visit of each vertex,
    closed at the last vertex of the tour, is no longer than the
    tour. *)
Lemma shortcut_shorter (points : list Point) (l : list nat) :
  forall visited path q B,
  routeLength (path ++ [q]) <= B ->
  let st := fold_left (shortcutStep points) l (visited, path) in
  routeLength (snd st ++ [last (map (pt points) l) q])
  <= B + routeLength (q :: map (pt points) l).
Proof.
  induction l as [|a l IH]; intros visited path q B HB; cbn zeta.
  - cbn. lra.
  - cbn [fold_left map]. rewrite last_cons_default.
    change (routeLength (q :: pt points a :: map (pt points) l))
      with (distance q (pt points a)
            + routeLength (pt points a :: map (pt points) l)).
    pose proof (routeLength_detour path q (pt points a)) as Hd.
    unfold shortcutStep at 2. destruct (negb (has a visited)).
    + specialize (IH (add a visited) (path ++ [pt points a]) (pt points a)
                    (B + distance q (pt points a))).
      cbn zeta in IH. eapply Rle_trans; [apply IH|lra].
      rewrite routeLength_snoc, distance_refl. lra.
    + specialize (IH visited path (pt points a)
                    (B + distance q (pt points a))).
      cbn zeta in IH. eapply Rle_trans; [apply IH|lra]. lra.
Qed.

(** Christofides on three or more points: the reported distance is at
    most the weight of the spanning tree and the matching together. *)
Lemma christofides_weight (clk : nat -> R) (points : list Point) (t : nat) :
  (3 <= length points)%nat ->
  let n := length points in
  let mst := primMST points in
  exists matching r t' d,
    minimumWeightPerfectMatching points (oddVerticesOf n (mstDegrees n mst))
      = inr matching /\
    solveTSPChristofides clk points t = Ok r t' /\
    distance_ r = Fin d /\
    d <= weight points mst + weight points matching.
Proof.
  intros Hn n mst.
  destruct (multigraph_even points) as (matching & Hm & Hperm & Hev).
  fold n mst in Hm, Hperm, Hev.
  set (odd := oddVerticesOf n (mstDegrees n mst)) in *.
  destruct (primMST_spanning points) as [Hmr _]. fold n mst in Hmr.
  assert (Hconn : forall a b, In (a, b) (mst ++ matching) ->
                              reach (joins (mst ++ matching)) 0%nat a).
  { intros a b Hab.
    apply (reach_mono (joins mst)).
    - intros u v [H|H]; [left|right]; apply in_or_app; now left.
    - apply (primMST_connects points). fold n.
      apply in_app_or in Hab. destruct Hab as [H|H].
      + now apply (Hmr a b).
      + assert (Ha : In a odd).
        { eapply Permutation_in; [exact Hperm|].
          unfold endpoints. apply in_flat_map. exists (a, b).
          split; [exact H|now left]. }
        unfold odd, oddVerticesOf in Ha. apply filter_In in Ha.
        destruct Ha as [Ha _]. apply in_seq in Ha. lia. }
  destruct (findEulerianTour_circuit (mst ++ matching) n Hev Hconn)
    as (tour & Ht & Hh & Hl & Hlinks).
  destruct tour as [|first rest]; [discriminate Hh|].
  cbn in Hh. injection Hh as ->.
  pose proof (shortcut_shorter points (0%nat :: rest) [] [] (pt points 0) 0)
    as Hs.
  cbn zeta in Hs. fold (shortcut points (0%nat :: rest)) in Hs.
  destruct (shortcut points (0%nat :: rest)) as [visited path] eqn:Hsc.
  cbn [snd] in Hs.
  exists matching.
  exists (mkRouteResult (path ++ [pt points 0])
            (Fin (routeLength (path ++ [pt points 0])))
            (clk (S t) - clk t) "Christofides (1.5-approx)").
  exists (S (S t)), (routeLength (path ++ [pt points 0])).
  split; [exact Hm|]. split; [|split; [reflexivity|]].
  - unfold solveTSPChristofides, bind, now. fold n.
    destruct (Nat.leb_spec n 2); [lia|].
    fold mst. fold odd. rewrite Hm. unfold lift at 1, ret at 1.
    rewrite Ht. unfold lift, ret. rewrite Hsc.
    now rewrite calculateRouteDistance_routeLength.
  - assert (E : last (map (pt points) (0%nat :: rest)) (pt points 0)
                = pt points 0).
    { rewrite (last_map (pt points)). now rewrite Hl. }
    rewrite E in Hs. eapply Rle_trans; [apply Hs; cbn; lra|].
    change (routeLength (pt points 0 :: map (pt points) (0%nat :: rest)))
      with (distance (pt points 0) (pt points 0)
            + routeLength (map (pt points) (0%nat :: rest))).
    rewrite distance_refl, <- weight_chainEdges, <- weight_app.
    rewrite <- (weight_undirected points (chainEdges _)).
    rewrite <- (weight_undirected points (mst ++ matching)).
    rewrite (weight_perm points _ _ (links_undirected _ _ Hlinks)). lra.
Qed.

(** X27.  On three or more points the distance Christofides reports is
    at most the total length of the spanning tree and the matching it
    builds; so it exceeds the length of any closed tour through the
    points by at most the length of the matching. *)
Theorem christofides_within_tree_and_matching (clk : nat -> R)
  (points : list Point) (t : nat) :
  (3 <= length points)%nat ->
  let n := length points in
  let mst := primMST points in
  exists matching r t' d,
    minimumWeightPerfectMatching points (oddVerticesOf n (mstDegrees n mst))
      = inr matching /\
    solveTSPChristofides clk points t = Ok r t' /\
    distance_ r = Fin d /\
    d <= weight points mst + weight points matching /\
    forall tourPath, closedTour points tourPath ->
                     d <= routeLength tourPath + weight points matching.
Proof.
  intros Hn n mst.
  destruct (christofides_weight clk points t Hn)
    as (matching & r & t' & d & Hm & Hr & Hd & Hle).
  exists matching, r, t', d.
  split; [exact Hm|]. split; [exact Hr|]. split; [exact Hd|].
  split; [exact Hle|].
  intros tourPath Htour.
  pose proof (mst_below_tour points tourPath Htour) as Hlow.
  fold mst in Hle. fold mst in Hlow. lra.
Qed.

Lemma christofides_within_tree_and_matching_on_three_stops :
  (3 <= length threeStops)%nat /\
  let n := length threeStops in
  let mst := primMST threeStops in
  exists matching r t' d,
    minimumWeightPerfectMatching threeStops
      (oddVerticesOf n (mstDegrees n mst)) = inr matching /\
    solveTSPChristofides tickClock threeStops 0%nat = Ok r t' /\
    distance_ r = Fin d /\
    d <= weight threeStops mst + weight threeStops matching /\
    forall tourPath, closedTour threeStops tourPath ->
                     d <= routeLength tourPath + weight threeStops matching.
Proof.
  assert (H : (3 <= length threeStops)%nat) by (cbn; lia).
  split; [exact H|].
  exact (christofides_within_tree_and_matching tickClock threeStops 0%nat H).
Defined.
